(** * Immersed finite element method: residual/Jacobian assembly and Newton driver

    A shallow embedding of [immersed_fem.cc] (class [ImmersedFEM<dim>]).
    Numbers of type [double] are modelled by the real numbers [R] (exact
    arithmetic), [unsigned int] counters and indices by [nat],
    [Vector<double>] and [std::vector<double>] by [list R],
    [FullMatrix<double>] by [list (list R)], [std::map<unsigned int,double>]
    by [gmap nat R] and a [SparseMatrix<double>] by the finite map from the
    positions of its sparsity pattern to their values. *)

From Stdlib Require Import Reals Lra Lia List Bool String.
From stdpp Require Import base gmap list sorting.
Import ListNotations.
Open Scope R_scope.

(* ===================================================================== *)
(** * Part I: the model                                                   *)
(* ===================================================================== *)

(** ** Loops and sums *)

(** [for (unsigned int i = 0; i < n; ++i) body] over a state [S]. *)
Definition for_n {S : Type} (n : nat) (body : nat -> S -> S) (s : S) : S :=
  fold_left (fun acc i => body i acc) (seq 0 n) s.

(** Finite sums, used for the closed forms of accumulation loops and for the
    values the finite element library computes. *)
Fixpoint Rsum (n : nat) (f : nat -> R) : R :=
  match n with
  | O => 0
  | S k => Rsum k f + f k
  end.

(** ** Dense vectors and matrices *)

(** [v(i)] and [v[i]]; reading outside the vector is undefined behaviour in
    the source (a failed assertion in debug builds), the model reads 0. *)
Definition vget (v : list R) (i : nat) : R := nth i v 0.

(** [v(i) = x]; writing outside the vector is undefined behaviour in the
    source, the model leaves the vector unchanged. *)
Definition vset (v : list R) (i : nat) (x : R) : list R := <[i := x]> v.

(** [v(i) += x]. *)
Definition vadd (v : list R) (i : nat) (x : R) : list R :=
  <[i := vget v i + x]> v.

(** [v = 0] for a vector: every entry is zeroed, the size is kept. *)
Definition vzero (v : list R) : list R := replicate (length v) 0.

(** [m(i,j)] of a [FullMatrix]. *)
Definition mget (m : list (list R)) (i j : nat) : R := vget (nth i m []) j.

(** [m(i,j) = x]. *)
Definition mset (m : list (list R)) (i j : nat) (x : R) : list (list R) :=
  <[i := vset (nth i m []) j x]> m.

(** [m(i,j) += x]. *)
Definition madd (m : list (list R)) (i j : nat) (x : R) : list (list R) :=
  <[i := vadd (nth i m []) j x]> m.

(** [FullMatrix::n()], the number of columns. *)
Definition mcols (m : list (list R)) : nat := length (nth 0%nat m []).

(** [FullMatrix::empty()]: no element is stored. *)
Definition mempty (m : list (list R)) : bool :=
  (length m =? 0)%nat || (mcols m =? 0)%nat.

(** [FullMatrix::reinit(n, n)]: an [n] by [n] matrix of zeros. *)
Definition mreinit (n : nat) : list (list R) := replicate n (replicate n 0).

(** [v(i) -= x] and [m(i,j) -= x]. *)
Definition vsub (v : list R) (i : nat) (x : R) : list R :=
  <[i := vget v i - x]> v.

Definition msub (m : list (list R)) (i j : nat) (x : R) : list (list R) :=
  <[i := vsub (nth i m []) j x]> m.

(** [FullMatrix::add_row(i, s, j)]: row [i] += [s] * row [j], column by
    column. *)
Definition add_row (m : list (list R)) (i : nat) (s : R) (j : nat)
  : list (list R) :=
  for_n (mcols m) (fun k acc => madd acc i k (s * mget acc j k)) m.

(** [BlockVector<double>] with the two blocks of the problem: block 0 holds
    the velocity and pressure dofs of the fluid, block 1 the displacement
    dofs of the solid. *)
Record BlockVector : Type := mkBlockVector {
  block0 : list R;
  block1 : list R
}.

(** ** Sparse matrices *)

(** The keys are the positions of the sparsity pattern.  [add(i,j,x)] on a
    position outside the pattern changes nothing (deal.II skips it in
    release builds and raises an assertion in debug builds). *)
Definition sp_add (m : gmap (nat * nat) R) (i j : nat) (x : R)
  : gmap (nat * nat) R :=
  alter (fun y => y + x) (i, j) m.

(** [SparseMatrix::reinit(pattern)]: all entries of the pattern set to 0. *)
Definition sp_reinit (pattern : gset (nat * nat)) : gmap (nat * nat) R :=
  gset_to_gmap 0 pattern.

(** Entry [(i,j)] of a sparse matrix, 0 outside the pattern. *)
Definition sp_get (m : gmap (nat * nat) R) (i j : nat) : R :=
  default 0 (m !! (i, j)).

Record BlockSparsityPattern : Type := mkPattern {
  sp00 : gset (nat * nat);
  sp01 : gset (nat * nat);
  sp10 : gset (nat * nat);
  sp11 : gset (nat * nat)
}.

Record Blocks : Type := mkBlocks {
  b00 : gmap (nat * nat) R;
  b01 : gmap (nat * nat) R;
  b10 : gmap (nat * nat) R;
  b11 : gmap (nat * nat) R
}.

(** A [BlockSparseMatrix<double>] is either empty (no blocks, as after the
    default constructor or [clear()]) or holds its four blocks. *)
Definition BlockSparseMatrix : Type := option Blocks.

Definition bsm_empty (m : BlockSparseMatrix) : bool :=
  match m with None => true | Some _ => false end.

Definition bsm_reinit (p : BlockSparsityPattern) : BlockSparseMatrix :=
  Some (mkBlocks (sp_reinit (sp00 p)) (sp_reinit (sp01 p))
                 (sp_reinit (sp10 p)) (sp_reinit (sp11 p))).

Inductive BlockId : Type := B00 | B01 | B10 | B11.

Definition get_block (b : BlockId) (m : Blocks) : gmap (nat * nat) R :=
  match b with
  | B00 => b00 m | B01 => b01 m | B10 => b10 m | B11 => b11 m
  end.

Definition set_block (b : BlockId) (x : gmap (nat * nat) R) (m : Blocks)
  : Blocks :=
  match b with
  | B00 => mkBlocks x (b01 m) (b10 m) (b11 m)
  | B01 => mkBlocks (b00 m) x (b10 m) (b11 m)
  | B10 => mkBlocks (b00 m) (b01 m) x (b11 m)
  | B11 => mkBlocks (b00 m) (b01 m) (b10 m) x
  end.

(** Update of one block in place; a matrix without blocks has no block to
    update (the source never does this). *)
Definition on_block (b : BlockId)
  (f : gmap (nat * nat) R -> gmap (nat * nat) R) (m : BlockSparseMatrix)
  : BlockSparseMatrix :=
  match m with
  | None => None
  | Some bl => Some (set_block b (f (get_block b bl)) bl)
  end.

(** ** Tensors *)

(** The class is instantiated for [dim = 2] and [dim = 3] only. *)
Inductive Dimension : Type := Dim2 | Dim3.

Definition dim_of (d : Dimension) : nat :=
  match d with Dim2 => 2%nat | Dim3 => 3%nat end.

(** [Tensor<1,dim>] and [Tensor<2,dim>], indexed below [dim]. *)
Definition Tensor1 : Type := nat -> R.
Definition Tensor2 : Type := nat -> nat -> R.

Definition tzero2 : Tensor2 := fun _ _ => 0.

(** The identity tensor. *)
Definition kron (i j : nat) : R := if (i =? j)%nat then 1 else 0.

(** [a * b] for two rank-1 tensors. *)
Definition dot (dim : nat) (a b : Tensor1) : R :=
  Rsum dim (fun d => a d * b d).

(** [a * B] for a rank-1 and a rank-2 tensor: contraction of the index of
    [a] with the first index of [B]. *)
Definition vec_mat (dim : nat) (a : Tensor1) (B : Tensor2) : Tensor1 :=
  fun j => Rsum dim (fun i => a i * B i j).

(** [contract<1,1>(A, B)]: [A B^T]. *)
Definition contract_1_1 (dim : nat) (A B : Tensor2) : Tensor2 :=
  fun i j => Rsum dim (fun k => A i k * B j k).

(** [contract<1,0>(A, B)]: [A B]. *)
Definition contract_1_0 (dim : nat) (A B : Tensor2) : Tensor2 :=
  fun i j => Rsum dim (fun k => A i k * B k j).

Definition outer_product (a b : Tensor1) : Tensor2 := fun i j => a i * b j.

Definition transpose (A : Tensor2) : Tensor2 := fun i j => A j i.

Definition tscale (c : R) (A : Tensor2) : Tensor2 := fun i j => c * A i j.

Definition tsub (A B : Tensor2) : Tensor2 := fun i j => A i j - B i j.

(** [Point<dim>::norm()]. *)
Definition norm (dim : nat) (p : Tensor1) : R :=
  sqrt (Rsum dim (fun d => p d * p d)).

Definition determinant (d : Dimension) (t : Tensor2) : R :=
  match d with
  | Dim2 => t 0%nat 0%nat * t 1%nat 1%nat - t 1%nat 0%nat * t 0%nat 1%nat
  | Dim3 =>
      t 0%nat 0%nat * (t 1%nat 1%nat * t 2%nat 2%nat - t 1%nat 2%nat * t 2%nat 1%nat)
    - t 0%nat 1%nat * (t 1%nat 0%nat * t 2%nat 2%nat - t 1%nat 2%nat * t 2%nat 0%nat)
    + t 0%nat 2%nat * (t 1%nat 0%nat * t 2%nat 1%nat - t 1%nat 1%nat * t 2%nat 0%nat)
  end.

(** deal.II's [invert] of a rank-2 tensor (a library function): the adjugate
    divided by the determinant, written out for each dimension. *)
Definition invert (d : Dimension) (t : Tensor2) : Tensor2 :=
  let idet := / determinant d t in
  match d with
  | Dim2 => fun i j =>
      match i, j with
      | 0%nat, 0%nat => t 1%nat 1%nat * idet
      | 0%nat, 1%nat => - t 0%nat 1%nat * idet
      | 1%nat, 0%nat => - t 1%nat 0%nat * idet
      | 1%nat, 1%nat => t 0%nat 0%nat * idet
      | _, _ => 0
      end
  | Dim3 => fun i j =>
      match i, j with
      | 0%nat, 0%nat => (t 1%nat 1%nat * t 2%nat 2%nat - t 1%nat 2%nat * t 2%nat 1%nat) * idet
      | 0%nat, 1%nat => (t 0%nat 2%nat * t 2%nat 1%nat - t 0%nat 1%nat * t 2%nat 2%nat) * idet
      | 0%nat, 2%nat => (t 0%nat 1%nat * t 1%nat 2%nat - t 0%nat 2%nat * t 1%nat 1%nat) * idet
      | 1%nat, 0%nat => (t 1%nat 2%nat * t 2%nat 0%nat - t 1%nat 0%nat * t 2%nat 2%nat) * idet
      | 1%nat, 1%nat => (t 0%nat 0%nat * t 2%nat 2%nat - t 0%nat 2%nat * t 2%nat 0%nat) * idet
      | 1%nat, 2%nat => (t 0%nat 2%nat * t 1%nat 0%nat - t 0%nat 0%nat * t 1%nat 2%nat) * idet
      | 2%nat, 0%nat => (t 1%nat 0%nat * t 2%nat 1%nat - t 1%nat 1%nat * t 2%nat 0%nat) * idet
      | 2%nat, 1%nat => (t 0%nat 1%nat * t 2%nat 0%nat - t 0%nat 0%nat * t 2%nat 1%nat) * idet
      | 2%nat, 2%nat => (t 0%nat 0%nat * t 1%nat 1%nat - t 0%nat 1%nat * t 1%nat 0%nat) * idet
      | _, _ => 0
      end
  end.

(** ** Finite element data supplied by the library *)

(** [FESystem]: the number of dofs on a cell and, for a local dof [i],
    [system_to_component_index(i)] as [(component i, component_index i)]. *)
Record FiniteElement : Type := mkFE {
  dofs_per_cell : nat;
  component : nat -> nat;
  component_index : nat -> nat
}.

(** An [FEValues] object after [reinit(cell)]: the dof indices of the cell
    ([cell->get_dof_indices]) and the shape function data at the quadrature
    points. *)
Record FEValues : Type := mkFEValues {
  dof_indices : list nat;
  shape_value : nat -> nat -> R;
  shape_grad : nat -> nat -> Tensor1;
  shape_hessian : nat -> nat -> Tensor2;
  JxW : nat -> R;
  quadrature_point : nat -> Tensor1
}.

(** [dofs[j]] of a [std::vector<unsigned int>]. *)
Definition dof (dofs : list nat) (j : nat) : nat := nth j dofs 0%nat.

(** [FEValues::get_function_values(xi, values)]: [values[q](c)] is the sum
    over the local dofs of component [c] (the elements are primitive) of the
    dof value times the shape function. *)
Definition get_function_values (fe : FiniteElement) (fev : FEValues)
  (xi : list R) (q c : nat) : R :=
  Rsum (dofs_per_cell fe) (fun j =>
    if (component fe j =? c)%nat
    then vget xi (dof (dof_indices fev) j) * shape_value fev j q
    else 0).

(** [FEValues::get_function_gradients(xi, gradients)]:
    [gradients[q][c][d]]. *)
Definition get_function_gradients (fe : FiniteElement) (fev : FEValues)
  (xi : list R) (q c d : nat) : R :=
  Rsum (dofs_per_cell fe) (fun j =>
    if (component fe j =? c)%nat
    then vget xi (dof (dof_indices fev) j) * shape_grad fev j q d
    else 0).

(** [MappingQEulerian<dim>(degree, dh_s, euler_vector)]: the deformed
    configuration of the solid, determined by the displacement vector it is
    built from. *)
Record MappingQEulerian : Type := mkMapping {
  mapping_degree : nat;
  euler_vector : list R
}.

(** One entry of the result of [compute_point_locations]: a fluid cell with
    the [FEValues] on the quadrature points that fall into it
    ([local_fe_f_v]) and the indices of these points on the solid cell
    ([fluid_maps[c]]). *)
Record Overlap : Type := mkOverlap {
  local_fe_f_v : FEValues;
  fluid_map : list nat
}.

(** ** Parameters *)

Inductive MaterialModel : Type :=
  | INH_0
  | INH_1
  | CircumferentialFiberModel.

(** [IFEMParameters<dim>]; [boundary_values] and the times of the functions
    [force] and [u_g] are the members the simulation mutates. *)
Record IFEMParameters : Type := mkPar {
  degree : nat;
  rho : R;
  eta : R;
  mu : R;
  Phi_B : R;
  dt : R;
  T : R;
  semi_implicit : bool;
  use_spread : bool;
  all_DBC : bool;
  fix_pressure : bool;
  update_jacobian_continuously : bool;
  update_jacobian_at_step_beginning : bool;
  material_model : MaterialModel;
  ring_center : Tensor1;
  boundary_values : gmap nat R;
  force_time : R;
  u_g_time : R
}.

Definition set_boundary_values (bv : gmap nat R) (p : IFEMParameters)
  : IFEMParameters :=
  mkPar (degree p) (rho p) (eta p) (mu p) (Phi_B p) (dt p) (T p)
        (semi_implicit p) (use_spread p) (all_DBC p) (fix_pressure p)
        (update_jacobian_continuously p) (update_jacobian_at_step_beginning p)
        (material_model p) (ring_center p) bv (force_time p) (u_g_time p).

Definition set_force_time (t : R) (p : IFEMParameters) : IFEMParameters :=
  mkPar (degree p) (rho p) (eta p) (mu p) (Phi_B p) (dt p) (T p)
        (semi_implicit p) (use_spread p) (all_DBC p) (fix_pressure p)
        (update_jacobian_continuously p) (update_jacobian_at_step_beginning p)
        (material_model p) (ring_center p) (boundary_values p) t (u_g_time p).

Definition set_u_g_time (t : R) (p : IFEMParameters) : IFEMParameters :=
  mkPar (degree p) (rho p) (eta p) (mu p) (Phi_B p) (dt p) (T p)
        (semi_implicit p) (use_spread p) (all_DBC p) (fix_pressure p)
        (update_jacobian_continuously p) (update_jacobian_at_step_beginning p)
        (material_model p) (ring_center p) (boundary_values p) (force_time p) t.

(** ** External collaborators

    The meshes with their dof layouts and quadrature rules, the point
    location service, the boundary interpolation, the body force and the
    direct solvers are outside this file; they are fixed for a run. *)
Class Collaborators : Type := mkCollaborators {
  DIM : Dimension;
  fe_f : FiniteElement;
  fe_s : FiniteElement;
  (** [quad_f.size()] and [quad_s.size()] *)
  nqpf : nat;
  nqps : nat;
  (** [fe_f_v] on each active cell of [dh_f], in iteration order *)
  fluid_cells : list FEValues;
  (** [fe_v_s] on each active cell of [dh_s], in iteration order *)
  solid_cells : list FEValues;
  (** [fe_v_s_mapped.get_quadrature_points()] on a solid cell, for a given
      deformed configuration *)
  mapped_quadrature_points : MappingQEulerian -> FEValues -> list Tensor1;
  (** [up_field.compute_point_locations] *)
  compute_point_locations : list Tensor1 -> list Overlap;
  (** [par.force] at a time, a point and a component *)
  force : R -> Tensor1 -> nat -> R;
  (** the boundary dofs and their values found by
      [VectorTools::interpolate_boundary_values] with [par.u_g] at a time *)
  interpolate_boundary_values : R -> gmap nat R;
  (** [GridTools::minimal_cell_diameter(tria_f)] *)
  minimal_cell_diameter : R;
  (** [M_gamma3_inv.solve], in place *)
  M_gamma3_inv_solve : list R -> list R;
  (** [SparseDirectUMFPACK::solve] for a factorised matrix, in place *)
  umfpack_solve : BlockSparseMatrix -> list R -> list R;
  (** the exceptions of the direct solver: the message with which
      [SparseDirectUMFPACK::initialize] throws for a matrix it cannot
      factorise (a singular Jacobian), and [SparseDirectUMFPACK::solve]
      for a factorisation and a right-hand side, if they throw *)
  umfpack_initialize_error : BlockSparseMatrix -> option string;
  umfpack_solve_error : BlockSparseMatrix -> list R -> option string;
  (** [t += par.dt] on [double]: the sum of two doubles, rounded *)
  double_plus : R -> R -> R;
  (** the vectors of dof indices have [dofs_per_cell] entries *)
  fluid_dofs_size :
    Forall (fun c => length (dof_indices c) = dofs_per_cell fe_f) fluid_cells;
  solid_dofs_size :
    Forall (fun c => length (dof_indices c) = dofs_per_cell fe_s) solid_cells;
  located_dofs_size : forall points,
    Forall (fun o => length (dof_indices (local_fe_f_v o)) = dofs_per_cell fe_f)
           (compute_point_locations points);
  (** the solid element has one component per space dimension *)
  solid_components : forall k,
    (k < dofs_per_cell fe_s)%nat -> (component fe_s k < dim_of DIM)%nat
}.

Definition dim `{Collaborators} : nat := dim_of DIM.

(** ** The simulation object *)

(** The mutable members of [ImmersedFEM<dim>].  [mapping] is a raw pointer
    into the free store [heap]; [None] is the null pointer. *)
Record ImmersedFEM : Type := mkSim {
  par : IFEMParameters;
  heap : gmap nat MappingQEulerian;
  mapping : option nat;
  scaling : R;
  area : R;
  pressure_dofs : gset nat;
  constraining_dof : nat;
  dgp_for_p : bool;
  sparsity : BlockSparsityPattern;
  JF : BlockSparseMatrix;
  dummy_JF : BlockSparseMatrix;
  JF_inv : BlockSparseMatrix;
  A_gamma : list R;
  M_gamma3_inv_A_gamma : list R;
  current_xi : BlockVector;
  previous_xi : BlockVector;
  current_xit : BlockVector;
  current_res : BlockVector;
  newton_update : BlockVector;
  tmp_vec_n_total_dofs : list R
}.

Definition set_par (x : IFEMParameters) (s : ImmersedFEM)
  : ImmersedFEM :=
  mkSim x (heap s) (mapping s) (scaling s) (area s) (pressure_dofs s)
        (constraining_dof s) (dgp_for_p s) (sparsity s) (JF s) (dummy_JF s)
        (JF_inv s) (A_gamma s) (M_gamma3_inv_A_gamma s) (current_xi s)
        (previous_xi s) (current_xit s) (current_res s) (newton_update s)
        (tmp_vec_n_total_dofs s).

Definition set_heap_mapping (h : gmap nat MappingQEulerian) (m : option nat) (s : ImmersedFEM)
  : ImmersedFEM :=
  mkSim (par s) h m (scaling s) (area s) (pressure_dofs s)
        (constraining_dof s) (dgp_for_p s) (sparsity s) (JF s) (dummy_JF s)
        (JF_inv s) (A_gamma s) (M_gamma3_inv_A_gamma s) (current_xi s)
        (previous_xi s) (current_xit s) (current_res s) (newton_update s)
        (tmp_vec_n_total_dofs s).

Definition set_scaling (x : R) (s : ImmersedFEM)
  : ImmersedFEM :=
  mkSim (par s) (heap s) (mapping s) x (area s) (pressure_dofs s)
        (constraining_dof s) (dgp_for_p s) (sparsity s) (JF s) (dummy_JF s)
        (JF_inv s) (A_gamma s) (M_gamma3_inv_A_gamma s) (current_xi s)
        (previous_xi s) (current_xit s) (current_res s) (newton_update s)
        (tmp_vec_n_total_dofs s).

Definition set_area_pressure_dofs (x : R) (pd : gset nat) (c : nat) (s : ImmersedFEM)
  : ImmersedFEM :=
  mkSim (par s) (heap s) (mapping s) (scaling s) x pd c (dgp_for_p s)
        (sparsity s) (JF s) (dummy_JF s) (JF_inv s) (A_gamma s)
        (M_gamma3_inv_A_gamma s) (current_xi s) (previous_xi s)
        (current_xit s) (current_res s) (newton_update s)
        (tmp_vec_n_total_dofs s).

Definition set_sparsity (x : BlockSparsityPattern) (s : ImmersedFEM)
  : ImmersedFEM :=
  mkSim (par s) (heap s) (mapping s) (scaling s) (area s) (pressure_dofs s)
        (constraining_dof s) (dgp_for_p s) x (JF s) (dummy_JF s) (JF_inv s)
        (A_gamma s) (M_gamma3_inv_A_gamma s) (current_xi s) (previous_xi s)
        (current_xit s) (current_res s) (newton_update s)
        (tmp_vec_n_total_dofs s).

Definition set_JF (x : BlockSparseMatrix) (s : ImmersedFEM)
  : ImmersedFEM :=
  mkSim (par s) (heap s) (mapping s) (scaling s) (area s) (pressure_dofs s)
        (constraining_dof s) (dgp_for_p s) (sparsity s) x (dummy_JF s)
        (JF_inv s) (A_gamma s) (M_gamma3_inv_A_gamma s) (current_xi s)
        (previous_xi s) (current_xit s) (current_res s) (newton_update s)
        (tmp_vec_n_total_dofs s).

Definition set_dummy_JF (x : BlockSparseMatrix) (s : ImmersedFEM)
  : ImmersedFEM :=
  mkSim (par s) (heap s) (mapping s) (scaling s) (area s) (pressure_dofs s)
        (constraining_dof s) (dgp_for_p s) (sparsity s) (JF s) x (JF_inv s)
        (A_gamma s) (M_gamma3_inv_A_gamma s) (current_xi s) (previous_xi s)
        (current_xit s) (current_res s) (newton_update s)
        (tmp_vec_n_total_dofs s).

Definition set_JF_inv (x : BlockSparseMatrix) (s : ImmersedFEM)
  : ImmersedFEM :=
  mkSim (par s) (heap s) (mapping s) (scaling s) (area s) (pressure_dofs s)
        (constraining_dof s) (dgp_for_p s) (sparsity s) (JF s) (dummy_JF s) x
        (A_gamma s) (M_gamma3_inv_A_gamma s) (current_xi s) (previous_xi s)
        (current_xit s) (current_res s) (newton_update s)
        (tmp_vec_n_total_dofs s).

Definition set_A_gamma (x : list R) (s : ImmersedFEM)
  : ImmersedFEM :=
  mkSim (par s) (heap s) (mapping s) (scaling s) (area s) (pressure_dofs s)
        (constraining_dof s) (dgp_for_p s) (sparsity s) (JF s) (dummy_JF s)
        (JF_inv s) x (M_gamma3_inv_A_gamma s) (current_xi s) (previous_xi s)
        (current_xit s) (current_res s) (newton_update s)
        (tmp_vec_n_total_dofs s).

Definition set_M_gamma3_inv_A_gamma (x : list R) (s : ImmersedFEM)
  : ImmersedFEM :=
  mkSim (par s) (heap s) (mapping s) (scaling s) (area s) (pressure_dofs s)
        (constraining_dof s) (dgp_for_p s) (sparsity s) (JF s) (dummy_JF s)
        (JF_inv s) (A_gamma s) x (current_xi s) (previous_xi s)
        (current_xit s) (current_res s) (newton_update s)
        (tmp_vec_n_total_dofs s).

Definition set_current_xi (x : BlockVector) (s : ImmersedFEM)
  : ImmersedFEM :=
  mkSim (par s) (heap s) (mapping s) (scaling s) (area s) (pressure_dofs s)
        (constraining_dof s) (dgp_for_p s) (sparsity s) (JF s) (dummy_JF s)
        (JF_inv s) (A_gamma s) (M_gamma3_inv_A_gamma s) x (previous_xi s)
        (current_xit s) (current_res s) (newton_update s)
        (tmp_vec_n_total_dofs s).

Definition set_previous_xi (x : BlockVector) (s : ImmersedFEM)
  : ImmersedFEM :=
  mkSim (par s) (heap s) (mapping s) (scaling s) (area s) (pressure_dofs s)
        (constraining_dof s) (dgp_for_p s) (sparsity s) (JF s) (dummy_JF s)
        (JF_inv s) (A_gamma s) (M_gamma3_inv_A_gamma s) (current_xi s) x
        (current_xit s) (current_res s) (newton_update s)
        (tmp_vec_n_total_dofs s).

Definition set_current_xit (x : BlockVector) (s : ImmersedFEM)
  : ImmersedFEM :=
  mkSim (par s) (heap s) (mapping s) (scaling s) (area s) (pressure_dofs s)
        (constraining_dof s) (dgp_for_p s) (sparsity s) (JF s) (dummy_JF s)
        (JF_inv s) (A_gamma s) (M_gamma3_inv_A_gamma s) (current_xi s)
        (previous_xi s) x (current_res s) (newton_update s)
        (tmp_vec_n_total_dofs s).

Definition set_current_res (x : BlockVector) (s : ImmersedFEM)
  : ImmersedFEM :=
  mkSim (par s) (heap s) (mapping s) (scaling s) (area s) (pressure_dofs s)
        (constraining_dof s) (dgp_for_p s) (sparsity s) (JF s) (dummy_JF s)
        (JF_inv s) (A_gamma s) (M_gamma3_inv_A_gamma s) (current_xi s)
        (previous_xi s) (current_xit s) x (newton_update s)
        (tmp_vec_n_total_dofs s).

Definition set_newton_update (x : BlockVector) (s : ImmersedFEM)
  : ImmersedFEM :=
  mkSim (par s) (heap s) (mapping s) (scaling s) (area s) (pressure_dofs s)
        (constraining_dof s) (dgp_for_p s) (sparsity s) (JF s) (dummy_JF s)
        (JF_inv s) (A_gamma s) (M_gamma3_inv_A_gamma s) (current_xi s)
        (previous_xi s) (current_xit s) (current_res s) x
        (tmp_vec_n_total_dofs s).

Definition set_tmp_vec_n_total_dofs (x : list R) (s : ImmersedFEM)
  : ImmersedFEM :=
  mkSim (par s) (heap s) (mapping s) (scaling s) (area s) (pressure_dofs s)
        (constraining_dof s) (dgp_for_p s) (sparsity s) (JF s) (dummy_JF s)
        (JF_inv s) (A_gamma s) (M_gamma3_inv_A_gamma s) (current_xi s)
        (previous_xi s) (current_xit s) (current_res s) (newton_update s) x.

(** Every entry of the vector is zero. *)
Definition zero_vector (v : list R) : Prop := forall k, vget v k = 0.

(** A residual that vanishes outside the rows of the prescribed boundary
    values. *)
Definition pure_constraint_residual (bv : gmap nat R) (r : BlockVector)
  : Prop :=
  zero_vector (block1 r)
  /\ forall k, bv !! k = None -> vget (block0 r) k = 0.

(** A [FullMatrix] with [r] rows and [c] columns. *)
Definition mat_wf (r c : nat) (m : list (list R)) : Prop :=
  length m = r /\ Forall (fun row => length row = c) m.

Section Model.
Context `{CO : Collaborators}.

(** ** Boundary conditions *)

(** [compute_current_bc(t)]: the time of [u_g] is set, the boundary values
    are interpolated into [par.boundary_values] (entries already present
    for other dofs are kept, those of boundary dofs are overwritten), and
    with [fix_pressure] the constraining pressure dof is given the value 0. *)
Definition compute_current_bc (t : R) (s : ImmersedFEM) : ImmersedFEM :=
  let p1 := set_u_g_time t (par s) in
  let p2 := set_boundary_values
              (interpolate_boundary_values (u_g_time p1) ∪ boundary_values p1)
              p1 in
  let p3 := if fix_pressure p2
            then set_boundary_values
                   (<[constraining_dof s := 0]> (boundary_values p2)) p2
            else p2 in
  set_par p3 s.

(** The loop of [apply_current_bc] over the entries of the map, in the
    order of the iterator: [vec.block(0)(it->first) = it->second]. *)
Definition assign_boundary_values (bv : gmap nat R) (v : list R) : list R :=
  fold_left (fun acc kv => vset acc (fst kv) (snd kv)) (map_to_list bv) v.

(** [apply_current_bc(vec, t)]; [vec] is passed by reference, the model
    returns its new value with the new state. *)
Definition apply_current_bc (vec : BlockVector) (t : R) (s : ImmersedFEM)
  : BlockVector * ImmersedFEM :=
  let s1 := compute_current_bc t s in
  (mkBlockVector (assign_boundary_values (boundary_values (par s1)) (block0 vec))
                 (block1 vec),
   s1).

(** ** Constitutive module: [get_Pe_F_and_DPeFT_dxi_values] *)

(** The displacement gradient [H[qs]] on a solid cell. *)
Definition displacement_gradient (fe_v_s : FEValues) (xi : list R) (qs : nat)
  : Tensor2 :=
  fun i j => get_function_gradients fe_s fe_v_s xi qs i j.

(** [F[i] = H[qs][i]; F[i][i] += 1.0]. *)
Definition deformation_gradient (fe_v_s : FEValues) (xi : list R) (qs : nat)
  : Tensor2 :=
  fun i j => displacement_gradient fe_v_s xi qs i j
             + (if (i =? j)%nat then 1 else 0).

(** The unit vector along the tangential direction of the fiber model; only
    its first two components are assigned, the third stays zero. *)
Definition etheta (p : IFEMParameters) (fe_v_s : FEValues) (qs : nat)
  : Tensor1 :=
  let pt : Tensor1 := fun d => quadrature_point fe_v_s qs d - ring_center p d in
  fun d =>
    match d with
    | 0%nat => - pt 1%nat / norm dim pt
    | 1%nat => pt 0%nat / norm dim pt
    | _ => 0
    end.

(** [Pe[qs]] for the material model of the parameters. *)
Definition Pe_value (p : IFEMParameters) (fe_v_s : FEValues) (xi : list R)
  (qs : nat) : Tensor2 :=
  let F := deformation_gradient fe_v_s xi qs in
  match material_model p with
  | INH_0 => tscale (mu p) (tsub F (transpose (invert DIM F)))
  | INH_1 => tscale (mu p) F
  | CircumferentialFiberModel =>
      let etheta_op_etheta :=
        outer_product (etheta p fe_v_s qs) (etheta p fe_v_s qs) in
      fun i j => contract_1_0 dim F etheta_op_etheta i j * mu p
  end.

(** [DPeFT_dxi[qs][k]], computed when the Jacobian is updated: entry
    [(i,j)] starts from 0, receives the two conditional additions and is
    then multiplied by [mu]. *)
Definition DPeFT_dxi_value (p : IFEMParameters) (fe_v_s : FEValues)
  (xi : list R) (qs k : nat) : Tensor2 :=
  let F := deformation_gradient fe_v_s xi qs in
  let comp_k := component fe_s k in
  let g : Tensor1 :=
    match material_model p with
    | INH_0 | INH_1 => shape_grad fe_v_s k qs
    | CircumferentialFiberModel =>
        vec_mat dim (shape_grad fe_v_s k qs)
          (outer_product (etheta p fe_v_s qs) (etheta p fe_v_s qs))
    end in
  fun i j =>
    let d0 := 0 in
    let d1 := if (i =? comp_k)%nat then d0 + dot dim g (F j) else d0 in
    let d2 := if (j =? comp_k)%nat then d1 + dot dim g (F i) else d1 in
    d2 * mu p.

(** ** Startup: [get_area_and_first_pressure_dof] *)

(** The area of the control volume is the sum of the quadrature weights of
    the fluid cells; the pressure dofs are collected on the way (with a
    discontinuous pressure only the first one of each cell, the loop is left
    by [break]) and the constraining dof is the first element of the ordered
    set (0 stands for the undefined result on an empty set). *)
Definition get_area_and_first_pressure_dof (s : ImmersedFEM) : ImmersedFEM :=
  let '(a, pd) :=
    fold_left (fun acc fe_v =>
      let '(a0, pd0) := acc in
      let dofs_f := dof_indices fe_v in
      let '(pd1, _) :=
        for_n (dofs_per_cell fe_f) (fun i st =>
          let '(pd', stop) := st in
          if (stop : bool) then st
          else if (component fe_f i =? dim)%nat
               then ({[ dof dofs_f i ]} ∪ pd', dgp_for_p s)
               else st) (pd0, false) in
      (for_n nqpf (fun q a' => a' + JxW fe_v q) a0, pd1))
      fluid_cells (0, pressure_dofs s) in
  set_area_pressure_dofs a pd
    (hd 0%nat (merge_sort Nat.le (elements pd))) s.

(** ** Constraint Enforcer *)

(** [apply_constraints(local_res, local_jacobian, value_of_dofs, dofs)]. *)
Definition apply_constraints (s : ImmersedFEM) (local_res : list R)
  (local_jacobian : list (list R)) (value_of_dofs : list R) (dofs : list nat)
  : list R * list (list R) :=
  for_n (length dofs) (fun i acc =>
    let '(lr, lj) := acc in
    let '(lr1, lj1) :=
      match boundary_values (par s) !! dof dofs i with
      | Some prescribed =>
          (vset lr i (scaling s * (vget value_of_dofs (dof dofs i) - prescribed)),
           if negb (mempty lj)
           then mset (for_n (mcols lj) (fun j m => mset m i j 0) lj)
                     i i (scaling s)
           else lj)
      | None => (lr, lj)
      end in
    if all_DBC (par s) && negb (fix_pressure (par s))
    then
      if (dof dofs i =? constraining_dof s)%nat
      then (vset lr1 i 0,
            if negb (mempty lj1) then add_row lj1 i (-1) i else lj1)
      else (lr1, lj1)
    else (lr1, lj1))
    (local_res, local_jacobian).

(** [distribute_residual(residual, local_res, dofs_1, offset_1)]. *)
Definition distribute_residual (residual : list R) (local_res : list R)
  (dofs_1 : list nat) (offset_1 : nat) : list R :=
  for_n (length dofs_1) (fun i r =>
    vadd r (dof dofs_1 i) (vget local_res (offset_1 + i))) residual.

(** [distribute_jacobian(Jacobian, local_Jac, dofs_1, dofs_2, offset_1,
    offset_2)]. *)
Definition distribute_jacobian (Jacobian : gmap (nat * nat) R)
  (local_Jac : list (list R)) (dofs_1 dofs_2 : list nat)
  (offset_1 offset_2 : nat) : gmap (nat * nat) R :=
  for_n (length dofs_1) (fun i J =>
    for_n (length dofs_2) (fun j J' =>
      sp_add J' (dof dofs_1 i) (dof dofs_2 j)
             (mget local_Jac (offset_1 + i) (offset_2 + j))) J) Jacobian.

(** [distribute_constraint_on_pressure(residual, average_pressure)]. *)
Definition distribute_constraint_on_pressure_residual (s : ImmersedFEM)
  (residual : list R) (average_pressure : R) : list R :=
  vadd residual (constraining_dof s) (average_pressure * scaling s / area s).

(** [distribute_constraint_on_pressure(jacobian, pressure_coefficient, dofs,
    offset)]. *)
Definition distribute_constraint_on_pressure_jacobian (s : ImmersedFEM)
  (jacobian : gmap (nat * nat) R) (pressure_coefficient : list R)
  (dofs : list nat) (offset : nat) : gmap (nat * nat) R :=
  for_n (length dofs) (fun i J =>
    sp_add J (constraining_dof s) (dof dofs i)
           (vget pressure_coefficient (offset + i) * scaling s / area s))
    jacobian.

(** ** Domain Assembler: the loop over one fluid cell *)

(** The local quantities of one fluid cell. *)
Record LocalAssembly : Type := mkLocal {
  local_res : list R;
  local_jacobian : list (list R);
  local_average_pressure : R;
  local_pressure_coefficient : list R
}.

Definition on_res (f : list R -> list R) (L : LocalAssembly) : LocalAssembly :=
  mkLocal (f (local_res L)) (local_jacobian L) (local_average_pressure L)
          (local_pressure_coefficient L).

Definition on_jac (f : list (list R) -> list (list R)) (L : LocalAssembly)
  : LocalAssembly :=
  mkLocal (local_res L) (f (local_jacobian L)) (local_average_pressure L)
          (local_pressure_coefficient L).

Definition on_avg (f : R -> R) (L : LocalAssembly) : LocalAssembly :=
  mkLocal (local_res L) (local_jacobian L) (f (local_average_pressure L))
          (local_pressure_coefficient L).

Definition on_coef (f : list R -> list R) (L : LocalAssembly)
  : LocalAssembly :=
  mkLocal (local_res L) (local_jacobian L) (local_average_pressure L)
          (f (local_pressure_coefficient L)).

(** [n_local_dofs]. *)
Definition n_local_dofs : nat := (dofs_per_cell fe_f + dofs_per_cell fe_s)%nat.

(** The local residual, Jacobian and pressure coefficients after
    [set_to_zero]; the local Jacobian has no element when the Jacobian is
    not updated. *)
Definition local_zero (update_jacobian : bool) : LocalAssembly :=
  mkLocal (replicate n_local_dofs 0)
          (if update_jacobian then mreinit n_local_dofs else [])
          0
          (replicate n_local_dofs 0).

Section FluidCell.
Variable p : IFEMParameters.
Variable dgp : bool.
Variable update_jacobian : bool.
Variable alpha : R.
Variable fe_f_v : FEValues.
Variables xit0 xi0 : list R.

Let local_upt (q c : nat) : R := get_function_values fe_f fe_f_v xit0 q c.
Let local_up (q c : nat) : R := get_function_values fe_f fe_f_v xi0 q c.
Let local_grad_up (q c d : nat) : R :=
  get_function_gradients fe_f fe_f_v xi0 q c d.
Let local_force (q c : nat) : R :=
  force (force_time p) (quadrature_point fe_f_v q) c.
Let sv := shape_value fe_f_v.
Let sg := shape_grad fe_f_v.
Let dofs_f := dof_indices fe_f_v.

(** Contribution of quadrature point [q] to the equation in V', for a test
    function [i] of velocity type. *)
Definition velocity_equation (i q : nat) (L : LocalAssembly) : LocalAssembly :=
  let comp_i := component fe_f i in
  let L1 :=
    on_res (fun r => vadd r i
      (rho p * (local_upt q comp_i - local_force q comp_i) * sv i q * JxW fe_f_v q
       - local_up q dim * sg i q comp_i * JxW fe_f_v q)) L in
  let L2 :=
    if update_jacobian
    then for_n (dofs_per_cell fe_f) (fun j La =>
           let comp_j := component fe_f j in
           let Lb :=
             if (comp_i =? comp_j)%nat
             then on_jac (fun m => madd m i j
                    (rho p * alpha * sv i q * sv j q * JxW fe_f_v q)) La
             else La in
           if (comp_j =? dim)%nat
           then on_jac (fun m => msub m i j
                  (sg i q comp_i * sv j q * JxW fe_f_v q)) Lb
           else Lb) L1
    else L1 in
  let L3 :=
    for_n dim (fun d La =>
      on_res (fun r => vadd r i
        (eta p * (local_grad_up q comp_i d + local_grad_up q d comp_i)
           * sg i q d * JxW fe_f_v q
         + rho p * local_grad_up q comp_i d * local_up q d
           * sv i q * JxW fe_f_v q)) La) L2 in
  if update_jacobian
  then for_n (dofs_per_cell fe_f) (fun j La =>
         let comp_j := component fe_f j in
         let Lb :=
           if (comp_j =? comp_i)%nat
           then for_n dim (fun d Lc =>
                  on_jac (fun m => madd m i j
                    (eta p * sg i q d * sg j q d * JxW fe_f_v q
                     + rho p * sv i q * local_up q d * sg j q d
                       * JxW fe_f_v q)) Lc) La
           else La in
         if (comp_j <? dim)%nat
         then on_jac (fun m => madd m i j
                (eta p * sg i q comp_j * sg j q comp_i * JxW fe_f_v q
                 + rho p * local_grad_up q comp_i comp_j * sv i q * sv j q
                   * JxW fe_f_v q)) Lb
         else Lb) L3
  else L3.

(** Contribution of quadrature point [q] to the equation in Q', for a test
    function [i] of pressure type, with the contribution to the average
    pressure. *)
Definition pressure_equation (i q : nat) (L : LocalAssembly) : LocalAssembly :=
  let L1 :=
    for_n dim (fun d La =>
      on_res (fun r => vsub r i
        (local_grad_up q d d * sv i q * JxW fe_f_v q)) La) L in
  let L2 :=
    if update_jacobian
    then for_n (dofs_per_cell fe_f) (fun j La =>
           let comp_j := component fe_f j in
           if (comp_j <? dim)%nat
           then on_jac (fun m => msub m i j
                  (sv i q * sg j q comp_j * JxW fe_f_v q)) La
           else La) L1
    else L1 in
  if all_DBC p && negb (fix_pressure p)
  then
    if negb dgp || (dgp && (component_index fe_f i =? 0)%nat)
    then
      let L3 :=
        on_avg (fun a => a + vget xi0 (dof dofs_f i) * sv i q * JxW fe_f_v q)
               L2 in
      if update_jacobian
      then on_coef (fun c => vadd c i (sv i q * JxW fe_f_v q)) L3
      else L3
    else L2
  else L2.

(** The loops over the local dofs and the quadrature points of the cell,
    starting from zeroed local quantities. *)
Definition fluid_cell_local : LocalAssembly :=
  for_n (dofs_per_cell fe_f) (fun i L =>
    let comp_i := component fe_f i in
    for_n nqpf (fun q L' =>
      if (comp_i <? dim)%nat
      then velocity_equation i q L'
      else pressure_equation i q L') L)
    (local_zero update_jacobian).

(** The closed forms of what the loops accumulate, per test function [i],
    trial function [j] and quadrature point [q]. *)
Definition velocity_residual_term (i q : nat) : R :=
  let comp_i := component fe_f i in
  rho p * (local_upt q comp_i - local_force q comp_i) * sv i q * JxW fe_f_v q
  - local_up q dim * sg i q comp_i * JxW fe_f_v q
  + Rsum dim (fun d =>
      eta p * (local_grad_up q comp_i d + local_grad_up q d comp_i)
        * sg i q d * JxW fe_f_v q
      + rho p * local_grad_up q comp_i d * local_up q d
        * sv i q * JxW fe_f_v q).

Definition velocity_jacobian_term (i j q : nat) : R :=
  let comp_i := component fe_f i in
  let comp_j := component fe_f j in
  (if (comp_i =? comp_j)%nat
   then rho p * alpha * sv i q * sv j q * JxW fe_f_v q else 0)
  + (if (comp_j =? dim)%nat
     then - (sg i q comp_i * sv j q * JxW fe_f_v q) else 0)
  + (if (comp_j =? comp_i)%nat
     then Rsum dim (fun d =>
            eta p * sg i q d * sg j q d * JxW fe_f_v q
            + rho p * sv i q * local_up q d * sg j q d * JxW fe_f_v q)
     else 0)
  + (if (comp_j <? dim)%nat
     then eta p * sg i q comp_j * sg j q comp_i * JxW fe_f_v q
          + rho p * local_grad_up q comp_i comp_j * sv i q * sv j q
            * JxW fe_f_v q
     else 0).

Definition pressure_residual_term (i q : nat) : R :=
  Rsum dim (fun d => - (local_grad_up q d d * sv i q * JxW fe_f_v q)).

Definition pressure_jacobian_term (i j q : nat) : R :=
  let comp_j := component fe_f j in
  if (comp_j <? dim)%nat
  then - (sv i q * sg j q comp_j * JxW fe_f_v q) else 0.

(** The local dof [i] takes part in the average of the pressure. *)
Definition in_pressure_average (i : nat) : bool :=
  (all_DBC p && negb (fix_pressure p))
  && (negb dgp || (dgp && (component_index fe_f i =? 0)%nat)).

Definition average_pressure_term (i q : nat) : R :=
  if in_pressure_average i
  then vget xi0 (dof dofs_f i) * sv i q * JxW fe_f_v q else 0.

Definition pressure_coefficient_term (i q : nat) : R :=
  if in_pressure_average i && update_jacobian
  then sv i q * JxW fe_f_v q else 0.

(** The local residual and Jacobian entries in closed form. *)
Definition fluid_residual_entry (i : nat) : R :=
  Rsum nqpf (fun q =>
    if (component fe_f i <? dim)%nat
    then velocity_residual_term i q else pressure_residual_term i q).

Definition fluid_jacobian_entry (i j : nat) : R :=
  Rsum nqpf (fun q =>
    if (component fe_f i <? dim)%nat
    then velocity_jacobian_term i j q else pressure_jacobian_term i j q).

End FluidCell.

(** ** The deformed-configuration mapping *)

(** [if (mapping != NULL) delete mapping;]: the object is removed from the
    free store, the pointer keeps its (now dangling) value. *)
Definition delete_mapping (s : ImmersedFEM) : ImmersedFEM :=
  match mapping s with
  | Some a => set_heap_mapping (delete a (heap s)) (mapping s) s
  | None => s
  end.

(** [mapping = new MappingQEulerian<dim>(par.degree, dh_s, v)]: the object
    is built at an address that is not in use. *)
Definition new_mapping (v : list R) (s : ImmersedFEM) : ImmersedFEM :=
  let a := fresh (dom (heap s)) in
  set_heap_mapping (<[a := mkMapping (degree (par s)) v]> (heap s)) (Some a) s.

(** [*mapping]; dereferencing a null or dangling pointer is undefined
    behaviour in the source, the model then reads an identity mapping. *)
Definition deref_mapping (s : ImmersedFEM) : MappingQEulerian :=
  match mapping s with
  | Some a => default (mkMapping 0%nat []) (heap s !! a)
  | None => mkMapping 0%nat []
  end.

(** ** Sparsity of the coupling blocks: [assemble_sparsity] *)

(** The loops of [assemble_sparsity]: the positions [sp1] and [sp2] of the
    two coupling blocks for a given deformed configuration. *)
Definition coupling_sparsity (immersed_mapping : MappingQEulerian)
  : gset (nat * nat) * gset (nat * nat) :=
  fold_left (fun acc cell =>
    let dofs_s := dof_indices cell in
    let cells :=
      compute_point_locations
        (mapped_quadrature_points immersed_mapping cell) in
    fold_left (fun acc' c =>
      let dofs_f := dof_indices (local_fe_f_v c) in
      for_n (length dofs_f) (fun i acc1 =>
        for_n (length dofs_s) (fun j acc2 =>
          let '(a1, a2) := acc2 in
          ({[ (dof dofs_f i, dof dofs_s j) ]} ∪ a1,
           {[ (dof dofs_s j, dof dofs_f i) ]} ∪ a2)) acc1) acc') cells acc)
    solid_cells ((∅ : gset (nat * nat)), (∅ : gset (nat * nat))).

(** [assemble_sparsity(immersed_mapping)]: the two coupling blocks of the
    member [sparsity] are replaced. *)
Definition assemble_sparsity (immersed_mapping : MappingQEulerian)
  (s : ImmersedFEM) : ImmersedFEM :=
  set_sparsity
    (mkPattern (sp00 (sparsity s))
               (fst (coupling_sparsity immersed_mapping))
               (snd (coupling_sparsity immersed_mapping))
               (sp11 (sparsity s))) s.

(** ** Elastic operator: [get_Agamma_values] *)

Definition get_Agamma_values (p : IFEMParameters) (fe_v_s : FEValues)
  (dofs : list nat) (xi : list R) : list R :=
  for_n nqps (fun qs acc =>
    for_n (length dofs) (fun k acc' =>
      let comp_k := component fe_s k in
      vadd acc' k
        (dot dim (Pe_value p fe_v_s xi qs comp_k) (shape_grad fe_v_s k qs)
         * JxW fe_v_s qs)) acc)
    (replicate (dofs_per_cell fe_s) 0).

(** [Vector::add(indices, values)]. *)
Definition vector_add_indices (v : list R) (indices : list nat)
  (values : list R) : list R :=
  for_n (length indices) (fun i acc => vadd acc (dof indices i) (vget values i))
    v.

(** [localize(local_M_gamma3_inv_A_gamma, M_gamma3_inv_A_gamma, dofs)]. *)
Definition localize (local_M : list R) (M : list R) (dofs : list nat)
  : list R :=
  for_n (length dofs) (fun i acc => vset acc i (vget M (dof dofs i))) local_M.

(** ** Coupling Assembler: the loops over one solid cell *)

Section SolidCell.
Variable p : IFEMParameters.
Variable update_jacobian : bool.
Variable alpha : R.
Variable fe_v_s : FEValues.
Variables xit xi : BlockVector.
Variable local_M_gamma3_inv_A_gamma : list R.

Let Pe (qs : nat) : Tensor2 := Pe_value p fe_v_s (block1 xi) qs.
Let F (qs : nat) : Tensor2 := deformation_gradient fe_v_s (block1 xi) qs.
Let DPeFT_dxi (qs k : nat) : Tensor2 :=
  DPeFT_dxi_value p fe_v_s (block1 xi) qs k.
Let local_Wt (qs c : nat) : R :=
  get_function_values fe_s fe_v_s (block1 xit) qs c.
Let nf : nat := dofs_per_cell fe_f.

(** Equation in V' on the fluid cell [c] of the overlap: the elastic
    traction, directly or through the spread operator.  [PeFT] is assigned
    in every iteration in which it is read. *)
Definition coupling_V (c : Overlap) : list R * list (list R) :=
  let lf := local_fe_f_v c in
  for_n (dofs_per_cell fe_f) (fun i acc =>
    let comp_i := component fe_f i in
    if (comp_i <? dim)%nat
    then
      for_n (length (fluid_map c)) (fun q acc' =>
        let qs := nth q (fluid_map c) 0%nat in
        let PeFT := contract_1_1 dim (Pe qs) (F qs) in
        if negb (use_spread p)
        then
          let '(lr, lj) := acc' in
          let lr1 :=
            vadd lr i (dot dim (PeFT comp_i) (shape_grad lf i q)
                       * JxW fe_v_s qs) in
          let lj1 :=
            if update_jacobian
            then for_n (dofs_per_cell fe_s) (fun j m =>
                   let wj := (j + nf)%nat in
                   let comp_j := component fe_s j in
                   let m1 :=
                     madd m i wj
                       (dot dim (DPeFT_dxi qs j comp_i) (shape_grad lf i q)
                        * JxW fe_v_s qs) in
                   if negb (semi_implicit p)
                   then madd m1 i wj
                          (dot dim (PeFT comp_i) (shape_hessian lf i q comp_j)
                           * shape_value fe_v_s j qs * JxW fe_v_s qs)
                   else m1) lj
            else lj in
          (lr1, lj1)
        else
          for_n (dofs_per_cell fe_s) (fun j acc2 =>
            let '(lr, lj) := acc2 in
            let comp_j := component fe_s j in
            let lr1 :=
              if (comp_i =? comp_j)%nat
              then vadd lr i
                     (Phi_B p * shape_value lf i q * shape_value fe_v_s j qs
                      * vget local_M_gamma3_inv_A_gamma j * JxW fe_v_s qs)
              else lr in
            let lj1 :=
              if update_jacobian
              then
                let wj := (j + nf)%nat in
                let m1 :=
                  madd lj i wj
                    (dot dim (DPeFT_dxi qs j comp_i) (shape_grad lf i q)
                     * JxW fe_v_s qs) in
                if negb (semi_implicit p)
                then madd m1 i wj
                       (dot dim (PeFT comp_i) (shape_hessian lf i q comp_j)
                        * shape_value fe_v_s j qs * JxW fe_v_s qs)
                else m1
              else lj in
            (lr1, lj1)) acc') acc
    else acc)
    (local_res (local_zero update_jacobian),
     local_jacobian (local_zero update_jacobian)).

(** Equation in Y' on the fluid cell [c] of the overlap: the velocity of
    the fluid at the position of the solid. *)
Definition coupling_Y (c : Overlap) : list R * list (list R) :=
  let lf := local_fe_f_v c in
  let dofs_f := dof_indices lf in
  let local_up (q cmp : nat) : R :=
    get_function_values fe_f lf (block0 xi) q cmp in
  for_n (dofs_per_cell fe_s) (fun i acc =>
    let wi := (i + nf)%nat in
    let comp_i := component fe_s i in
    for_n (length (fluid_map c)) (fun q acc' =>
      let qs := nth q (fluid_map c) 0%nat in
      let '(lr, lj) := acc' in
      let lr1 :=
        vsub lr wi (Phi_B p * local_up q comp_i * shape_value fe_v_s i qs
                    * JxW fe_v_s qs) in
      let lj1 :=
        if update_jacobian
        then for_n (dofs_per_cell fe_f) (fun j m =>
               let comp_j := component fe_f j in
               if (comp_i =? comp_j)%nat
               then
                 let m1 :=
                   msub m wi j
                     (Phi_B p * shape_value fe_v_s i qs * shape_value lf j q
                      * JxW fe_v_s qs) in
                 if negb (semi_implicit p)
                 then for_n (dofs_per_cell fe_s) (fun k m2 =>
                        let wk := (k + nf)%nat in
                        let comp_k := component fe_s k in
                        msub m2 wi wk
                          (Phi_B p * shape_value fe_v_s i qs
                           * shape_value fe_v_s k qs
                           * shape_grad lf j q comp_k
                           * vget (block0 xi) (dof dofs_f j)
                           * JxW fe_v_s qs)) m1
                 else m1
               else m) lj
        else lj in
      (lr1, lj1)) acc)
    (local_res (local_zero update_jacobian),
     local_jacobian (local_zero update_jacobian)).

(** The term of the equation in Y' with the velocity of the solid; it does
    not involve the fluid cells. *)
Definition solid_inertia : list R * list (list R) :=
  for_n (dofs_per_cell fe_s) (fun i acc =>
    let comp_i := component fe_s i in
    let wi := (i + nf)%nat in
    for_n nqps (fun qs acc' =>
      let '(lr, lj) := acc' in
      let lr1 :=
        vadd lr wi (Phi_B p * local_Wt qs comp_i * shape_value fe_v_s i qs
                    * JxW fe_v_s qs) in
      let lj1 :=
        if update_jacobian
        then for_n (dofs_per_cell fe_s) (fun j m =>
               let comp_j := component fe_s j in
               let wj := (j + nf)%nat in
               if (comp_i =? comp_j)%nat
               then madd m wi wj
                      (Phi_B p * alpha * shape_value fe_v_s i qs
                       * shape_value fe_v_s j qs * JxW fe_v_s qs)
               else m) lj
        else lj in
      (lr1, lj1)) acc)
    (local_res (local_zero update_jacobian),
     local_jacobian (local_zero update_jacobian)).

End SolidCell.

(** ** [residual_and_or_Jacobian] *)

(** The matrix passed by reference as [jacobian]: the member [JF] itself or
    the member [dummy_JF], as in the two calls of [run]. *)
Inductive JacobianArg : Type := ArgJF | ArgDummyJF.

Definition jacobian_of (a : JacobianArg) (s : ImmersedFEM)
  : BlockSparseMatrix :=
  match a with ArgJF => JF s | ArgDummyJF => dummy_JF s end.

Definition set_jacobian_of (a : JacobianArg) (x : BlockSparseMatrix)
  (s : ImmersedFEM) : ImmersedFEM :=
  match a with ArgJF => set_JF x s | ArgDummyJF => set_dummy_JF x s end.

Definition on_block0 (f : list R -> list R) (v : BlockVector) : BlockVector :=
  mkBlockVector (f (block0 v)) (block1 v).

Definition on_block1 (f : list R -> list R) (v : BlockVector) : BlockVector :=
  mkBlockVector (block0 v) (f (block1 v)).

(** The state without its two Jacobian members, to state what an assembly
    step leaves unchanged. *)
Definition erase_jacobians (s : ImmersedFEM) : ImmersedFEM :=
  set_JF None (set_dummy_JF None s).

(** What a step of the assembly may change in the simulation object: the
    Jacobians only, never their being empty or not, nothing at all when the
    Jacobian is not updated, and not [dummy_JF] when [JF] itself is the
    matrix passed to the evaluation. *)
Definition jacobian_step (jac : JacobianArg) (update_jacobian : bool)
  (s s' : ImmersedFEM) : Prop :=
  erase_jacobians s' = erase_jacobians s
  /\ bsm_empty (JF s') = bsm_empty (JF s)
  /\ bsm_empty (dummy_JF s') = bsm_empty (dummy_JF s)
  /\ (update_jacobian = false -> s' = s)
  /\ (jac = ArgJF -> dummy_JF s' = dummy_JF s).

(** The start of an evaluation: the mapping is rebuilt, the scaling factor
    is computed, the residual and (if needed) the Jacobian are reset, the
    time of the force and the boundary values are updated. *)
Definition evaluation_prologue (jac : JacobianArg) (residual : BlockVector)
  (xi : BlockVector) (t : R) (s : ImmersedFEM) : BlockVector * ImmersedFEM :=
  let update_jacobian := negb (bsm_empty (jacobian_of jac s)) in
  let s1 := delete_mapping s in
  let s2 :=
    if semi_implicit (par s1)
    then new_mapping (block1 (previous_xi s1)) s1
    else new_mapping (block1 xi) s1 in
  let s3 := set_scaling minimal_cell_diameter s2 in
  let residual1 := mkBlockVector (vzero (block0 residual))
                                 (vzero (block1 residual)) in
  let s4 :=
    if update_jacobian
    then
      let sa := set_jacobian_of jac None s3 in
      let sb := assemble_sparsity (deref_mapping sa) sa in
      set_jacobian_of jac (bsm_reinit (sparsity sb)) sb
    else s3 in
  let s5 := set_par (set_force_time t (par s4)) s4 in
  (residual1, compute_current_bc t s5).

(** The body of the loop over the cells of the fluid domain. *)
Definition fluid_cell_step (jac : JacobianArg) (update_jacobian : bool)
  (xit xi : BlockVector) (alpha : R) (acc : BlockVector * ImmersedFEM)
  (fe_f_v : FEValues) : BlockVector * ImmersedFEM :=
  let '(residual, s) := acc in
  let dofs_f := dof_indices fe_f_v in
  let L := fluid_cell_local (par s) (dgp_for_p s) update_jacobian alpha fe_f_v
             (block0 xit) (block0 xi) in
  let '(lr, lj) :=
    apply_constraints s (local_res L) (local_jacobian L) (block0 xi) dofs_f in
  let residual1 :=
    on_block0 (fun r => distribute_residual r lr dofs_f 0) residual in
  let s1 :=
    if update_jacobian
    then set_JF (on_block B00
                   (fun J => distribute_jacobian J lj dofs_f dofs_f 0 0) (JF s))
                s
    else s in
  if all_DBC (par s1) && negb (fix_pressure (par s1))
  then
    let residual2 :=
      on_block0 (fun r =>
        distribute_constraint_on_pressure_residual s1 r
          (local_average_pressure L)) residual1 in
    let s2 :=
      if update_jacobian
      then set_jacobian_of jac
             (on_block B00 (fun J =>
                distribute_constraint_on_pressure_jacobian s1 J
                  (local_pressure_coefficient L) dofs_f 0)
                (jacobian_of jac s1)) s1
      else s1 in
    (residual2, s2)
  else (residual1, s1).

(** The first loop over the cells of the solid domain: [A_gamma]. *)
Definition assemble_A_gamma (xi : BlockVector) (s : ImmersedFEM)
  : ImmersedFEM :=
  fold_left (fun s' fe_v_s =>
    let dofs_s := dof_indices fe_v_s in
    let local_A_gamma := get_Agamma_values (par s') fe_v_s dofs_s (block1 xi) in
    set_A_gamma (vector_add_indices (A_gamma s') dofs_s local_A_gamma) s')
    solid_cells s.

(** The body of the loop over the fluid cells that contain quadrature
    points of the current solid cell. *)
Definition overlap_step (update_jacobian : bool) (xit xi : BlockVector)
  (alpha : R) (fe_v_s : FEValues) (local_M : list R)
  (acc : BlockVector * ImmersedFEM) (c : Overlap)
  : BlockVector * ImmersedFEM :=
  let '(residual, s) := acc in
  let dofs_s := dof_indices fe_v_s in
  let dofs_f := dof_indices (local_fe_f_v c) in
  let nf := dofs_per_cell fe_f in
  let '(lrV, ljV) :=
    coupling_V (par s) update_jacobian fe_v_s xi local_M c in
  let '(lrV1, ljV1) := apply_constraints s lrV ljV (block0 xi) dofs_f in
  let residual1 :=
    on_block0 (fun r => distribute_residual r lrV1 dofs_f 0) residual in
  let s1 :=
    if update_jacobian
    then set_JF (on_block B01
                   (fun J => distribute_jacobian J ljV1 dofs_f dofs_s 0 nf)
                   (JF s)) s
    else s in
  let '(lrY, ljY) := coupling_Y (par s1) update_jacobian fe_v_s xi c in
  let '(lrY1, ljY1) := apply_constraints s1 lrY ljY (block0 xi) dofs_f in
  let residual2 :=
    on_block1 (fun r => distribute_residual r lrY1 dofs_s nf) residual1 in
  let s2 :=
    if update_jacobian
    then
      let sa :=
        set_JF (on_block B10
                  (fun J => distribute_jacobian J ljY1 dofs_s dofs_f nf 0)
                  (JF s1)) s1 in
      if negb (semi_implicit (par sa))
      then set_JF (on_block B11
                     (fun J => distribute_jacobian J ljY1 dofs_s dofs_s nf nf)
                     (JF sa)) sa
      else sa
    else s1 in
  (residual2, s2).

(** The body of the second loop over the cells of the solid domain; the
    local vector [local_M_gamma3_inv_A_gamma] lives across the iterations. *)
Definition solid_cell_step (update_jacobian : bool) (xit xi : BlockVector)
  (alpha : R) (acc : BlockVector * ImmersedFEM * list R) (fe_v_s : FEValues)
  : BlockVector * ImmersedFEM * list R :=
  let '(residual, s, local_M0) := acc in
  let dofs_s := dof_indices fe_v_s in
  let nf := dofs_per_cell fe_f in
  let local_M := localize local_M0 (M_gamma3_inv_A_gamma s) dofs_s in
  let fluid_cells_found :=
    compute_point_locations
      (mapped_quadrature_points (deref_mapping s) fe_v_s) in
  let '(residual1, s1) :=
    fold_left (overlap_step update_jacobian xit xi alpha fe_v_s local_M)
              fluid_cells_found (residual, s) in
  let '(lr, lj) := solid_inertia (par s1) update_jacobian alpha fe_v_s xit in
  let residual2 :=
    on_block1 (fun r => distribute_residual r lr dofs_s nf) residual1 in
  let s2 :=
    if update_jacobian
    then set_JF (on_block B11
                   (fun J => distribute_jacobian J lj dofs_s dofs_s nf nf)
                   (JF s1)) s1
    else s1 in
  (residual2, s2, local_M).

(** [residual_and_or_Jacobian(residual, jacobian, xit, xi, alpha, t)];
    [residual] is passed by reference and returned with the new state,
    [jacobian] is the member selected by [jac]. *)
Definition residual_and_or_Jacobian (jac : JacobianArg)
  (residual : BlockVector) (xit xi : BlockVector) (alpha t : R)
  (s : ImmersedFEM) : BlockVector * ImmersedFEM :=
  let update_jacobian := negb (bsm_empty (jacobian_of jac s)) in
  let '(residual1, s1) := evaluation_prologue jac residual xi t s in
  let '(residual2, s2) :=
    fold_left (fluid_cell_step jac update_jacobian xit xi alpha)
              fluid_cells (residual1, s1) in
  let s3 := set_A_gamma (vzero (A_gamma s2)) s2 in
  let s4 := assemble_A_gamma xi s3 in
  let s5 :=
    set_M_gamma3_inv_A_gamma (M_gamma3_inv_solve (A_gamma s4)) s4 in
  let '(residual3, s6, _) :=
    fold_left (solid_cell_step update_jacobian xit xi alpha)
              solid_cells
              (residual2, s5, replicate (dofs_per_cell fe_s) 0) in
  (residual3, s6).

(** ** Newton driver and time stepping: [run] *)

(** [a -= b], [a /= c], [a *= c] and [a.add(c, b)] on block vectors. *)
Definition bv_sub (a b : BlockVector) : BlockVector :=
  mkBlockVector (zip_with Rminus (block0 a) (block0 b))
                (zip_with Rminus (block1 a) (block1 b)).

Definition bv_div (a : BlockVector) (c : R) : BlockVector :=
  mkBlockVector (map (fun x => x / c) (block0 a))
                (map (fun x => x / c) (block1 a)).

Definition bv_scale (a : BlockVector) (c : R) : BlockVector :=
  mkBlockVector (map (fun x => x * c) (block0 a))
                (map (fun x => x * c) (block1 a)).

Definition bv_add (a : BlockVector) (c : R) (b : BlockVector) : BlockVector :=
  mkBlockVector (zip_with (fun x y => x + c * y) (block0 a) (block0 b))
                (zip_with (fun x y => x + c * y) (block1 a) (block1 b)).

(** [Vector = BlockVector]: the blocks one after the other. *)
Definition bv_flatten (a : BlockVector) : list R := block0 a ++ block1 a.

(** [BlockVector = Vector]: the entries are distributed over the blocks of
    the target, whose block sizes are kept. *)
Definition bv_assign_flat (target : BlockVector) (v : list R) : BlockVector :=
  mkBlockVector (take (length (block0 target)) v)
                (take (length (block1 target))
                      (drop (length (block0 target)) v)).

Definition norm_sqr (v : list R) : R :=
  fold_left (fun acc x => acc + x * x) v 0.

(** [BlockVector::l2_norm()]. *)
Definition l2_norm (a : BlockVector) : R :=
  sqrt (norm_sqr (block0 a) + norm_sqr (block1 a)).

(** The state of the nonlinear iteration of one time step: the simulation
    object and the local variables [update_Jacobian], [nonlin_iter] and
    [outer_nonlin_iter] of [run]. *)
Record NewtonState : Type := mkNewton {
  sim : ImmersedFEM;
  update_Jacobian : bool;
  nonlin_iter : nat;
  outer_nonlin_iter : nat
}.

(** How one pass through the body of [while (true)] ends: by [break], by
    reaching the end of the body, or by the exception of [AssertThrow]. *)
Inductive IterationResult : Type :=
  | Break (st : NewtonState)
  | Next (st : NewtonState)
  | Throw (msg : string).

Definition no_convergence : string := "No convergence in nonlinear solver.".

(** The evaluation at the start of the body: the time derivative, then the
    residual with or without the Jacobian, and the factorisation
    [JF_inv.initialize (JF)] of a new Jacobian.  This is the state when the
    factorisation succeeds; its exception is raised in [newton_pass]. *)
Definition newton_evaluate (t : R) (st : NewtonState) : NewtonState :=
  let s := sim st in
  let s1 :=
    set_current_xit
      (bv_div (bv_sub (current_xi s) (previous_xi s)) (dt (par s))) s in
  if update_Jacobian st
  then
    let '(res, sa) :=
      residual_and_or_Jacobian ArgJF (current_res s1) (current_xit s1)
        (current_xi s1) (1 / dt (par s1)) t s1 in
    let sb := set_current_res res sa in
    let sc := set_JF_inv (JF sb) sb in
    mkNewton sc (update_jacobian_continuously (par sc))
             (nonlin_iter st) (outer_nonlin_iter st)
  else
    let '(res, sa) :=
      residual_and_or_Jacobian ArgDummyJF (current_res s1) (current_xit s1)
        (current_xi s1) 0 t s1 in
    mkNewton (set_current_res res sa) (update_Jacobian st)
             (nonlin_iter st) (outer_nonlin_iter st).

(** The update of the solution when the residual is not small enough.
    This is the state when [JF_inv.solve] returns; its exception is raised
    in [newton_pass]. *)
Definition newton_correct (s : ImmersedFEM) : ImmersedFEM :=
  let s1 := set_current_res (bv_scale (current_res s) (-1)) s in
  let s2 := set_tmp_vec_n_total_dofs (bv_flatten (current_res s1)) s1 in
  let s3 :=
    set_tmp_vec_n_total_dofs
      (umfpack_solve (JF_inv s2) (tmp_vec_n_total_dofs s2)) s2 in
  let s4 :=
    set_newton_update
      (bv_assign_flat (newton_update s3) (tmp_vec_n_total_dofs s3)) s3 in
  set_current_xi (bv_add (current_xi s4) 1 (newton_update s4)) s4.

(** One pass through the body of the nonlinear iteration in which the
    direct solver returns. *)
Definition newton_iteration (t : R) (st : NewtonState) : IterationResult :=
  let st1 := newton_evaluate t st in
  let res_norm := l2_norm (current_res (sim st1)) in
  if Rlt_dec res_norm 1e-10
  then Break st1
  else
    let s2 := newton_correct (sim st1) in
    let upd1 :=
      if Rgt_dec res_norm 1e-2 then true else update_Jacobian st1 in
    let n1 := S (nonlin_iter st1) in
    let '(upd2, n2, outer2) :=
      if (n1 =? 15)%nat
      then (true, 0%nat, S (outer_nonlin_iter st1))
      else (upd1, n1, outer_nonlin_iter st1) in
    if (outer2 <=? 3)%nat
    then Next (mkNewton s2 upd2 n2 outer2)
    else Throw no_convergence.

(** The exception of [JF_inv.initialize (JF)], which is called in the
    passes that evaluate the Jacobian, right after the evaluation. *)
Definition factorisation_error (t : R) (st : NewtonState) : option string :=
  if update_Jacobian st
  then umfpack_initialize_error (JF (sim (newton_evaluate t st)))
  else None.

(** The exception of [JF_inv.solve (tmp_vec_n_total_dofs)], which is called
    with the negative of the residual when the residual is not small
    enough. *)
Definition solve_error (t : R) (st : NewtonState) : option string :=
  let st1 := newton_evaluate t st in
  umfpack_solve_error (JF_inv (sim st1))
    (bv_flatten (bv_scale (current_res (sim st1)) (-1))).

(** One pass through the body of the nonlinear iteration, with the
    exceptions of the direct solver: that of the factorisation comes
    before the convergence test, that of the solution after a failed
    test. *)
Definition newton_pass (t : R) (st : NewtonState) : IterationResult :=
  match factorisation_error t st with
  | Some msg => Throw msg
  | None =>
      if Rlt_dec (l2_norm (current_res (sim (newton_evaluate t st)))) 1e-10
      then newton_iteration t st
      else
        match solve_error t st with
        | Some msg => Throw msg
        | None => newton_iteration t st
        end
  end.

(** [while (true)], with a bound on the number of passes; [None] stands
    for a loop that is still running when the bound is reached. *)
Fixpoint newton_loop (fuel : nat) (t : R) (st : NewtonState)
  : option (NewtonState + string) :=
  match fuel with
  | O => None
  | S fuel' =>
      match newton_pass t st with
      | Break st' => Some (inl st')
      | Next st' => newton_loop fuel' t st'
      | Throw msg => Some (inr msg)
      end
  end.

(** [n] passes through the body of the nonlinear iteration, stopping at a
    [break] or at an exception. *)
Fixpoint newton_passes (n : nat) (t : R) (st : NewtonState)
  : IterationResult :=
  match n with
  | O => Next st
  | S n' =>
      match newton_pass t st with
      | Next st' => newton_passes n' t st'
      | r => r
      end
  end.

(** The convergence test of a pass succeeds. *)
Definition pass_converges (t : R) (st : NewtonState) : Prop :=
  l2_norm (current_res (sim (newton_evaluate t st))) < 1e-10.

(** Neither call of the direct solver throws in a pass that fails the
    convergence test. *)
Definition solver_returns (t : R) (st : NewtonState) : Prop :=
  factorisation_error t st = None /\ solve_error t st = None.

(** The state at the end of the body of a pass that fails the convergence
    test: the solution updated, [update_Jacobian] set by the size of the
    residual, the counters advanced. *)
Definition newton_advance (t : R) (st : NewtonState) : NewtonState :=
  let st1 := newton_evaluate t st in
  let res_norm := l2_norm (current_res (sim st1)) in
  let s2 := newton_correct (sim st1) in
  let upd1 :=
    if Rgt_dec res_norm 1e-2 then true else update_Jacobian st1 in
  let n1 := S (nonlin_iter st1) in
  if (n1 =? 15)%nat
  then mkNewton s2 true 0 (S (outer_nonlin_iter st1))
  else mkNewton s2 upd1 n1 (outer_nonlin_iter st1).

Fixpoint newton_advances (n : nat) (t : R) (st : NewtonState) : NewtonState :=
  match n with
  | O => st
  | S n' => newton_advances n' t (newton_advance t st)
  end.

(** [n] consecutive passes fail the convergence test, the direct solver
    returning in each. *)
Fixpoint stalls (n : nat) (t : R) (st : NewtonState) : Prop :=
  match n with
  | O => True
  | S n' =>
      ~ pass_converges t st /\ solver_returns t st
      /\ stalls n' t (newton_advance t st)
  end.

(** The state between time steps: the simulation object, the variable
    [update_Jacobian] and the calls of [output_step] made so far (time and
    step number). *)
Record RunState : Type := mkRun {
  run_sim : ImmersedFEM;
  run_update_Jacobian : bool;
  run_output : list (R * nat)
}.

(** One time step: boundary conditions, nonlinear iteration, acceptance.
    An exception of the nonlinear iteration or of the direct solver is not
    caught. *)
Definition time_step_body (fuel : nat) (t : R) (time_step : nat)
  (rs : RunState) : option (RunState + string) :=
  let '(xi, s1) := apply_current_bc (current_xi (run_sim rs)) t (run_sim rs) in
  let s2 := set_current_xi xi s1 in
  match newton_loop fuel t (mkNewton s2 (run_update_Jacobian rs) 0 0) with
  | None => None
  | Some (inr msg) => Some (inr msg)
  | Some (inl st) =>
      let s3 := set_previous_xi (current_xi (sim st)) (sim st) in
      let upd :=
        if update_jacobian_at_step_beginning (par s3)
        then true
        else update_jacobian_continuously (par s3) in
      Some (inl (mkRun s3 upd ((t, time_step) :: run_output rs)))
  end.

(** [for (; t <= par.T; t += par.dt, ++time_step)], with bounds on the
    number of time steps and of passes of each nonlinear iteration; the
    time is a [double], and [+=] rounds. *)
Fixpoint time_loop (steps fuel : nat) (t : R) (time_step : nat)
  (rs : RunState) : option (RunState + string) :=
  match steps with
  | O => None
  | S steps' =>
      if Rle_dec t (T (par (run_sim rs)))
      then
        match time_step_body fuel t time_step rs with
        | Some (inl rs') =>
            time_loop steps' fuel (double_plus t (dt (par (run_sim rs'))))
                      (S time_step) rs'
        | other => other
        end
      else Some (inl rs)
  end.

(** [run()]. *)
Definition run (steps fuel : nat) (s : ImmersedFEM)
  : option (RunState + string) :=
  let s1 := set_current_xi (previous_xi s) s in
  time_loop steps fuel (dt (par s1)) 1
            (mkRun s1 true [(0, 0%nat)]).

(** ** Auxiliary notions for the properties *)

(** The free store after [delete mapping]. *)
Definition heap_after_delete (s : ImmersedFEM) : gmap nat MappingQEulerian :=
  match mapping s with
  | Some a => delete a (heap s)
  | None => heap s
  end.

(** The displacement field the new mapping is built from. *)
Definition mapping_source (xi : BlockVector) (s : ImmersedFEM) : list R :=
  if semi_implicit (par s) then block1 (previous_xi s) else block1 xi.

(** The state without the members an evaluation works on after its start:
    the Jacobians, [A_gamma] and [M_gamma3_inv_A_gamma]. *)
Definition erase_work (s : ImmersedFEM) : ImmersedFEM :=
  set_A_gamma [] (set_M_gamma3_inv_A_gamma [] (erase_jacobians s)).

(** The matrix passed to the evaluation is [JF] itself. *)
Definition keeps_JF (jac : JacobianArg) : bool :=
  match jac with ArgJF => true | ArgDummyJF => false end.

(** The state without the members whose value at the start of an
    evaluation is never read: [A_gamma], [M_gamma3_inv_A_gamma] and, when
    it is not the matrix passed to the evaluation, [JF]. *)
Definition erase_dead (keep_JF : bool) (s : ImmersedFEM) : ImmersedFEM :=
  set_A_gamma []
    (set_M_gamma3_inv_A_gamma [] (if keep_JF then s else set_JF None s)).

(** The three phases after the start of an evaluation, named. *)
Definition after_fluid_loop jac (residual xit xi : BlockVector) (alpha t : R)
  (s : ImmersedFEM) : BlockVector * ImmersedFEM :=
  fold_left
    (fluid_cell_step jac (negb (bsm_empty (jacobian_of jac s))) xit xi alpha)
    fluid_cells (evaluation_prologue jac residual xi t s).

Definition after_A_gamma jac (residual xit xi : BlockVector) (alpha t : R)
  (s : ImmersedFEM) : ImmersedFEM :=
  let s2 := snd (after_fluid_loop jac residual xit xi alpha t s) in
  let s4 := assemble_A_gamma xi (set_A_gamma (vzero (A_gamma s2)) s2) in
  set_M_gamma3_inv_A_gamma (M_gamma3_inv_solve (A_gamma s4)) s4.

(** The loops of an evaluation, from the residual and the state its start
    produces. *)
Definition evaluation_loops jac (update_jacobian : bool)
  (xit xi : BlockVector) (alpha : R) (acc : BlockVector * ImmersedFEM)
  : BlockVector * ImmersedFEM :=
  let '(residual2, s2) :=
    fold_left (fluid_cell_step jac update_jacobian xit xi alpha)
              fluid_cells acc in
  let s3 := set_A_gamma (vzero (A_gamma s2)) s2 in
  let s4 := assemble_A_gamma xi s3 in
  let s5 :=
    set_M_gamma3_inv_A_gamma (M_gamma3_inv_solve (A_gamma s4)) s4 in
  let '(residual3, s6, _) :=
    fold_left (solid_cell_step update_jacobian xit xi alpha)
              solid_cells
              (residual2, s5, replicate (dofs_per_cell fe_s) 0) in
  (residual3, s6).

(** All boundary conditions are essential and the pressure is not fixed:
    the constraining pressure dof carries the average-pressure constraint. *)
Definition gauge_active (s : ImmersedFEM) : bool :=
  all_DBC (par s) && negb (fix_pressure (par s)).

(** Local dof [i] of a cell is the constraining pressure dof in that role. *)
Definition pinned (s : ImmersedFEM) (dofs : list nat) (i : nat) : bool :=
  gauge_active s && (dof dofs i =? constraining_dof s)%nat.

(** The local residual entry [i] after the constraint pass, from its value
    [old] before. *)
Definition residual_after_constraints (s : ImmersedFEM) (value_of_dofs : list R)
  (dofs : list nat) (i : nat) (old : R) : R :=
  if pinned s dofs i then 0
  else match boundary_values (par s) !! dof dofs i with
       | Some prescribed =>
           scaling s * (vget value_of_dofs (dof dofs i) - prescribed)
       | None => old
       end.

(** The local Jacobian entry [(i,j)] after the constraint pass. *)
Definition jacobian_after_constraints (s : ImmersedFEM) (dofs : list nat)
  (i j : nat) (old : R) : R :=
  let a :=
    match boundary_values (par s) !! dof dofs i with
    | Some _ => if (i =? j)%nat then scaling s else 0
    | None => old
    end in
  if pinned s dofs i then a + -1 * a else a.

(** The sizes of the local quantities: the vectors have [N] entries, the
    local Jacobian is [M] by [M] ([M = 0] when it is not built). *)
Definition local_wf (N M : nat) (L : LocalAssembly) : Prop :=
  length (local_res L) = N
  /\ mat_wf M M (local_jacobian L)
  /\ length (local_pressure_coefficient L) = N.

(** A step that only accumulates: every entry of the local quantities grows
    by an amount that does not depend on the values accumulated so far. *)
Definition additive (N M : nat) (step : LocalAssembly -> LocalAssembly)
  (dr : nat -> R) (dj : nat -> nat -> R) (da : R) (dc : nat -> R) : Prop :=
  forall L, local_wf N M L ->
    local_wf N M (step L)
    /\ (forall k, vget (local_res (step L)) k = vget (local_res L) k + dr k)
    /\ (forall k l, mget (local_jacobian (step L)) k l
                    = mget (local_jacobian L) k l + dj k l)
    /\ local_average_pressure (step L) = local_average_pressure L + da
    /\ (forall k, vget (local_pressure_coefficient (step L)) k
                  = vget (local_pressure_coefficient L) k + dc k).

(** The term of second order of the convective term of the equation in V'
    for test function [i] when dof [j] changes. *)
Definition convective_second_order (p : IFEMParameters) (c : FEValues)
  (j i q : nat) : R :=
  Rsum dim (fun d =>
    rho p
    * (if (component fe_f j =? component fe_f i)%nat
       then shape_grad c j q d else 0)
    * (if (component fe_f j =? d)%nat then shape_value c j q else 0)
    * shape_value c i q * JxW c q).

End Model.

Ltac local_simpl :=
  unfold on_res, on_jac, on_avg, on_coef;
  cbn [local_res local_jacobian local_average_pressure
       local_pressure_coefficient].

(** Case analysis on a simulation object, with names for its members. *)
Ltac destruct_sim s :=
  let p0 := fresh "p" in let h0 := fresh "h" in let mp0 := fresh "mp" in
  let sc0 := fresh "sc" in let ar0 := fresh "ar" in let pd0 := fresh "pd" in
  let cd0 := fresh "cd" in let dg0 := fresh "dg" in let spt0 := fresh "spt" in
  let jf0 := fresh "jf" in let djf0 := fresh "djf" in
  let jfi0 := fresh "jfi" in let ag0 := fresh "ag" in let mg0 := fresh "mg" in
  let cx0 := fresh "cx" in let px0 := fresh "px" in let cxt0 := fresh "cxt" in
  let cr0 := fresh "cr" in let nu0 := fresh "nu" in let tv0 := fresh "tv" in
  destruct s as [p0 h0 mp0 sc0 ar0 pd0 cd0 dg0 spt0 jf0 djf0 jfi0 ag0 mg0
                 cx0 px0 cxt0 cr0 nu0 tv0].

(** ** A smallest configuration

    One fluid cell and one solid cell in two dimensions, each with one node
    and one quadrature point of weight 1: two velocity dofs and one pressure
    dof on the fluid cell (global dofs 0, 1, 2), two displacement dofs on
    the solid cell.  All shape values and all components of their gradients
    are 1 at the quadrature point; the quadrature point of the solid cell
    lies in the fluid cell whatever the deformation.  No body force, no
    boundary dof, solvers that return their right-hand side and never
    throw, and sums of times without rounding. *)

Definition sample_fe_f : FiniteElement := mkFE 3 (fun i => i) (fun _ => 0%nat).

Definition sample_fe_s : FiniteElement := mkFE 2 (fun i => i) (fun _ => 0%nat).

Definition sample_fluid_cell : FEValues :=
  mkFEValues [0; 1; 2]%nat (fun _ _ => 1) (fun _ _ _ => 1) (fun _ _ _ _ => 0)
             (fun _ => 1) (fun _ _ => 0).

Definition sample_solid_cell : FEValues :=
  mkFEValues [0; 1]%nat (fun _ _ => 1) (fun _ _ _ => 1) (fun _ _ _ _ => 0)
             (fun _ => 1) (fun _ _ => 0).

Definition sample_overlap : Overlap := mkOverlap sample_fluid_cell [0%nat].

Definition sample : Collaborators :=
  mkCollaborators Dim2 sample_fe_f sample_fe_s 1 1
    [sample_fluid_cell] [sample_solid_cell]
    (fun _ _ => [fun _ => 0]) (fun _ => [sample_overlap])
    (fun _ _ _ => 0) (fun _ => ∅) 1 (fun v => v) (fun _ v => v)
    (fun _ => None) (fun _ _ => None) Rplus
    (@List.Forall_cons _ _ sample_fluid_cell [] eq_refl (@List.Forall_nil _ _))
    (@List.Forall_cons _ _ sample_solid_cell [] eq_refl (@List.Forall_nil _ _))
    (fun _ => @List.Forall_cons _ _ sample_overlap [] eq_refl
                (@List.Forall_nil _ _))
    (fun k H => H).

(** Parameters with all constants 1, fully implicit, without the spread
    operator. *)
Definition sample_par (law : MaterialModel) (all_dbc fix_p : bool)
  (bv : gmap nat R) : IFEMParameters :=
  mkPar 1 1 1 1 1 1 1 false false all_dbc fix_p true true law (fun _ => 0)
        bv 0 0.

Definition sample_vector : BlockVector := mkBlockVector [0; 0; 0] [0; 0].

(** A simulation object for the sample configuration: no mapping yet, the
    pressure dof 2 as constraining dof, [scaling] and [area] 1. *)
Definition sample_sim (p : IFEMParameters) (jf : BlockSparseMatrix)
  : ImmersedFEM :=
  mkSim p ∅ None 1 1 {[ 2%nat ]} 2 false (mkPattern ∅ ∅ ∅ ∅) jf None None
        [0; 0] [0; 0] sample_vector sample_vector sample_vector sample_vector
        sample_vector [0; 0; 0; 0; 0].

(** The dof 0 of the fluid, for which the value 5 is prescribed, is at the
    distance 5 from it, without constraint on the pressure; the vectors of
    the iteration have a first entry. *)
Definition sample_stall (st : NewtonState) : Prop :=
  let s := sim st in
  boundary_values (par s) !! 0%nat = Some 5
  /\ all_DBC (par s) = false /\ fix_pressure (par s) = false
  /\ (vget (block0 (current_xi s)) 0 - 5)
     * (vget (block0 (current_xi s)) 0 - 5) = 25
  /\ (0 < length (block0 (current_res s)))%nat
  /\ (0 < length (block0 (newton_update s)))%nat
  /\ (0 < length (block0 (current_xi s)))%nat.

(** ** Further notions for the properties *)

(** The positions a block matrix holds, block by block; a matrix without
    blocks holds none. *)
Definition pattern_of (m : BlockSparseMatrix) : option BlockSparsityPattern :=
  match m with
  | None => None
  | Some bl =>
      Some (mkPattern (dom (b00 bl)) (dom (b01 bl)) (dom (b10 bl))
                      (dom (b11 bl)))
  end.

(** [~ImmersedFEM()]: [if (mapping) delete mapping;].  Closing the record
    keeping file is not part of the model. *)
Definition destructor (s : ImmersedFEM) : ImmersedFEM := delete_mapping s.

(** The free store holds the object [mapping] points to and nothing
    else. *)
Definition mapping_owned (s : ImmersedFEM) : Prop :=
  exists a m, mapping s = Some a /\ heap s = {[ a := m ]}.

(** The state without the members the driver of [run] writes itself: the
    state vectors and the factorisation [JF_inv]. *)
Definition erase_driver (s : ImmersedFEM) : ImmersedFEM :=
  let z := mkBlockVector [] [] in
  mkSim (par s) (heap s) (mapping s) (scaling s) (area s) (pressure_dofs s)
        (constraining_dof s) (dgp_for_p s) (sparsity s) (JF s) (dummy_JF s)
        None (A_gamma s) (M_gamma3_inv_A_gamma s) z z z z z [].

Section StepTime.
Context `{CO : Collaborators}.

(** The time of time step [k + 1]: [t = par.dt] at the first step, then
    [t += par.dt], rounded each time. *)
Fixpoint step_time (dt : R) (k : nat) : R :=
  match k with
  | O => dt
  | S k' => double_plus (step_time dt k') dt
  end.

End StepTime.


Section Visits.
Context `{CO : Collaborators}.

(** How often the global dof [g] occurs in the dof vectors of the fluid
    cells. *)
Definition fluid_visits (g : nat) : nat :=
  list_sum (map (fun c => count_occ Nat.eq_dec (dof_indices c) g) fluid_cells).

(** How often the global dof [g] is met by the loops of an evaluation that
    write to the fluid block of the residual: once for each of its places
    in the dof vector of a fluid cell, in the loop over the fluid cells and
    again for every solid cell that has a quadrature point in that fluid
    cell under the configuration [m]. *)
Definition visits (m : MappingQEulerian) (g : nat) : nat :=
  fluid_visits g
  + list_sum
      (map (fun c =>
         list_sum
           (map (fun o => count_occ Nat.eq_dec (dof_indices (local_fe_f_v o)) g)
                (compute_point_locations (mapped_quadrature_points m c))))
         solid_cells).

End Visits.

(** The sum of [f] over the elements of a list. *)
Fixpoint sum_over {A : Type} (f : A -> R) (l : list A) : R :=
  match l with
  | [] => 0
  | a :: l' => f a + sum_over f l'
  end.

Section ElasticLoad.
Context `{CO : Collaborators}.

(** The elastic stress against the gradient of the shape function [k] of a
    solid cell, integrated by the quadrature rule of the solid. *)
Definition elastic_load (p : IFEMParameters) (fe_v_s : FEValues)
  (xi : list R) (k : nat) : R :=
  Rsum nqps (fun qs =>
    dot dim (Pe_value p fe_v_s xi qs (component fe_s k))
            (shape_grad fe_v_s k qs) * JxW fe_v_s qs).

End ElasticLoad.

(* ===================================================================== *)
(** * Part II: properties                                                 *)
(* ===================================================================== *)
(** ** Loops, sums, vectors *)

Lemma for_n_S {S : Type} (n : nat) (body : nat -> S -> S) (s : S) :
  for_n (Datatypes.S n) body s = body n (for_n n body s).
Proof.
  unfold for_n. rewrite seq_S, fold_left_app. reflexivity.
Qed.

Lemma for_n_0 {S : Type} (body : nat -> S -> S) (s : S) : for_n 0 body s = s.
Proof. reflexivity. Qed.

(** An invariant of the state that every pass keeps holds after the loop. *)
Lemma for_n_invariant {S : Type} (P : S -> Prop) (n : nat)
  (body : nat -> S -> S) (s : S) :
  P s -> (forall i x, (i < n)%nat -> P x -> P (body i x)) -> P (for_n n body s).
Proof.
  intros H0 Hstep. induction n as [|n IH].
  - exact H0.
  - rewrite for_n_S. apply Hstep; [lia|]. apply IH. intros i x Hi. apply Hstep. lia.
Qed.

Lemma fold_left_invariant {A S : Type} (P : S -> Prop) (f : S -> A -> S)
  (l : list A) (s : S) :
  P s -> (forall x a, P x -> P (f x a)) -> P (fold_left f l s).
Proof.
  intros H0 Hstep. revert s H0. induction l as [|a l IH]; intros s H0.
  - exact H0.
  - simpl. apply IH. apply Hstep. exact H0.
Qed.

Lemma Rsum_ext (n : nat) (f g : nat -> R) :
  (forall i, (i < n)%nat -> f i = g i) -> Rsum n f = Rsum n g.
Proof.
  induction n as [|n IH]; intros H; simpl.
  - reflexivity.
  - rewrite IH, H by (intros; try apply H; lia). reflexivity.
Qed.

Lemma Rsum_zero (n : nat) (f : nat -> R) :
  (forall i, (i < n)%nat -> f i = 0) -> Rsum n f = 0.
Proof.
  induction n as [|n IH]; intros H; simpl.
  - reflexivity.
  - rewrite IH, H by (intros; try apply H; lia). lra.
Qed.

Lemma Rsum_plus (n : nat) (f g : nat -> R) :
  Rsum n (fun i => f i + g i) = Rsum n f + Rsum n g.
Proof. induction n as [|n IH]; simpl; [lra | rewrite IH; lra]. Qed.

Lemma Rsum_scal (n : nat) (c : R) (f : nat -> R) :
  Rsum n (fun i => c * f i) = c * Rsum n f.
Proof. induction n as [|n IH]; simpl; [lra | rewrite IH; lra]. Qed.

(** A sum whose terms vanish except at one index. *)
Lemma Rsum_single (n k : nat) (f : nat -> R) :
  (k < n)%nat ->
  Rsum n (fun i => if (i =? k)%nat then f i else 0) = f k.
Proof.
  induction n as [|n IH]; intros Hk; [lia|]. simpl.
  destruct (Nat.eqb_spec n k) as [->|Hne].
  - rewrite Rsum_zero; [lra|]. intros i Hi.
    destruct (Nat.eqb_spec i k); [lia | reflexivity].
  - rewrite IH by lia. lra.
Qed.

Lemma vget_nil (i : nat) : vget [] i = 0.
Proof. unfold vget. destruct i; reflexivity. Qed.

Lemma vget_replicate (n i : nat) : vget (replicate n 0) i = 0.
Proof.
  unfold vget. revert i. induction n as [|n IH]; intros [|i]; simpl; auto.
Qed.

Lemma vget_lookup (v : list R) (i : nat) : vget v i = default 0 (v !! i).
Proof.
  unfold vget. revert i. induction v as [|x v IH]; intros [|i]; simpl; auto.
Qed.

Lemma vget_insert_eq (v : list R) (i : nat) (x : R) :
  (i < length v)%nat -> vget (<[i := x]> v) i = x.
Proof.
  intros H. rewrite vget_lookup, list_lookup_insert_eq by exact H. reflexivity.
Qed.

Lemma vget_insert_ne (v : list R) (i k : nat) (x : R) :
  i <> k -> vget (<[i := x]> v) k = vget v k.
Proof.
  intros H. rewrite !vget_lookup, list_lookup_insert_ne by exact H. reflexivity.
Qed.

Lemma length_vset v i x : length (vset v i x) = length v.
Proof. apply length_insert. Qed.

Lemma length_vadd v i x : length (vadd v i x) = length v.
Proof. apply length_insert. Qed.

Lemma length_vsub v i x : length (vsub v i x) = length v.
Proof. apply length_insert. Qed.

(** Reading after [v(i) += x]: the entry grows by [x] at [i] when [i] is
    inside the vector, nothing else changes. *)
Lemma vget_vadd (v : list R) (i k : nat) (x : R) :
  vget (vadd v i x) k
  = vget v k + (if (i =? k)%nat && (i <? length v)%nat then x else 0).
Proof.
  unfold vadd. destruct (Nat.eqb_spec i k) as [->|Hne]; simpl.
  - destruct (Nat.ltb_spec k (length v)).
    + rewrite vget_insert_eq by assumption. reflexivity.
    + rewrite list_insert_ge by assumption. lra.
  - rewrite vget_insert_ne by assumption. lra.
Qed.

Lemma vget_vsub (v : list R) (i k : nat) (x : R) :
  vget (vsub v i x) k
  = vget v k + (if (i =? k)%nat && (i <? length v)%nat then - x else 0).
Proof.
  unfold vsub. destruct (Nat.eqb_spec i k) as [->|Hne]; simpl.
  - destruct (Nat.ltb_spec k (length v)).
    + rewrite vget_insert_eq by assumption. lra.
    + rewrite list_insert_ge by assumption. lra.
  - rewrite vget_insert_ne by assumption. lra.
Qed.

Lemma vget_vset (v : list R) (i k : nat) (x : R) :
  vget (vset v i x) k
  = if (i =? k)%nat && (i <? length v)%nat then x else vget v k.
Proof.
  unfold vset. destruct (Nat.eqb_spec i k) as [->|Hne]; simpl.
  - destruct (Nat.ltb_spec k (length v)).
    + rewrite vget_insert_eq by assumption. reflexivity.
    + rewrite list_insert_ge by assumption. reflexivity.
  - rewrite vget_insert_ne by assumption. reflexivity.
Qed.

Lemma length_vzero v : length (vzero v) = length v.
Proof. unfold vzero. apply length_replicate. Qed.

Lemma vget_vzero v i : vget (vzero v) i = 0.
Proof. unfold vzero. apply vget_replicate. Qed.

(** ** Boundary conditions *)

Section BoundaryConditions.
Context `{CO : Collaborators}.

(** The loop that writes the entries of a list of (index, value) pairs
    touches no index outside the list. *)
Lemma assign_pairs_frame (l : list (nat * R)) (v : list R) (i : nat) :
  (forall x, (i, x) ∉ l) ->
  fold_left (fun acc kv => vset acc (fst kv) (snd kv)) l v !! i = v !! i.
Proof.
  revert v. induction l as [|[k x] l IH]; intros v Hi; simpl.
  - reflexivity.
  - rewrite IH.
    + unfold vset. apply list_lookup_insert_ne. intros ->.
      apply (Hi x). left.
    + intros y Hy. apply (Hi y). right. exact Hy.
Qed.

Lemma assign_pairs_length (l : list (nat * R)) (v : list R) :
  length (fold_left (fun acc kv => vset acc (fst kv) (snd kv)) l v) = length v.
Proof.
  revert v. induction l as [|[k x] l IH]; intros v; simpl.
  - reflexivity.
  - rewrite IH. apply length_vset.
Qed.

(** With distinct indices, an index of the list ends with its value. *)
Lemma assign_pairs_value (l : list (nat * R)) (v : list R) (i : nat) (x : R) :
  NoDup (fst <$> l) -> (i, x) ∈ l -> (i < length v)%nat ->
  fold_left (fun acc kv => vset acc (fst kv) (snd kv)) l v !! i = Some x.
Proof.
  revert v. induction l as [|[k y] l IH]; intros v Hnd Hin Hlen; simpl.
  - inversion Hin.
  - rewrite fmap_cons in Hnd. apply NoDup_cons in Hnd as [Hk Hnd].
    apply elem_of_cons in Hin as [Heq|Hin].
    + inversion Heq; subst k y. rewrite assign_pairs_frame.
      * unfold vset. simpl. apply list_lookup_insert_eq. exact Hlen.
      * intros z Hz. apply Hk. simpl.
        apply list_elem_of_fmap. exists (i, z). split; [reflexivity | exact Hz].
    + apply IH; [exact Hnd | exact Hin |]. rewrite length_vset. exact Hlen.
Qed.

Lemma assign_boundary_values_frame (bv : gmap nat R) (v : list R) (i : nat) :
  bv !! i = None -> assign_boundary_values bv v !! i = v !! i.
Proof.
  intros Hnone. unfold assign_boundary_values. apply assign_pairs_frame.
  intros x Hx. apply elem_of_map_to_list in Hx. congruence.
Qed.

Lemma assign_boundary_values_value (bv : gmap nat R) (v : list R) (i : nat)
  (x : R) :
  bv !! i = Some x -> (i < length v)%nat ->
  assign_boundary_values bv v !! i = Some x.
Proof.
  intros Hsome Hlen. unfold assign_boundary_values.
  apply assign_pairs_value; [apply NoDup_fst_map_to_list | | exact Hlen].
  apply elem_of_map_to_list. exact Hsome.
Qed.

Lemma assign_boundary_values_length (bv : gmap nat R) (v : list R) :
  length (assign_boundary_values bv v) = length v.
Proof. apply assign_pairs_length. Qed.

Lemma par_compute_current_bc (t : R) (s : ImmersedFEM) :
  boundary_values (par (compute_current_bc t s))
  = if fix_pressure (par s)
    then <[constraining_dof s := 0]>
           (interpolate_boundary_values t ∪ boundary_values (par s))
    else interpolate_boundary_values t ∪ boundary_values (par s).
Proof.
  unfold compute_current_bc. simpl. destruct (fix_pressure (par s)); reflexivity.
Qed.

(** C10. [apply_current_bc(vec, t)] leaves block 1 and the size of block 0
    unchanged, and leaves every entry of block 0 whose index is not in the
    current boundary-value map unchanged; an index of the map that lies in
    the vector receives its boundary value; with [fix_pressure] the map
    contains the constraining pressure dof with value 0. *)
Theorem apply_current_bc_frame (vec : BlockVector) (t : R) (s : ImmersedFEM) :
  let vec' := fst (apply_current_bc vec t s) in
  let bv := boundary_values (par (snd (apply_current_bc vec t s))) in
  block1 vec' = block1 vec
  /\ length (block0 vec') = length (block0 vec)
  /\ (forall i, bv !! i = None -> block0 vec' !! i = block0 vec !! i)
  /\ (forall i x, bv !! i = Some x -> (i < length (block0 vec))%nat ->
        block0 vec' !! i = Some x)
  /\ (fix_pressure (par s) = true -> bv !! constraining_dof s = Some 0).
Proof.
  cbn zeta. unfold apply_current_bc. cbn [fst snd block0 block1].
  split; [reflexivity|].
  split; [apply assign_boundary_values_length|].
  split; [intros i Hi; apply assign_boundary_values_frame; exact Hi|].
  split; [intros i x Hi Hlen; apply assign_boundary_values_value; assumption|].
  intros Hfix. rewrite par_compute_current_bc, Hfix.
  apply lookup_insert_eq.
Qed.

End BoundaryConditions.

(** ** Constitutive module *)

Section Constitutive.
Context `{CO : Collaborators}.

(** The inverse of deal.II is a left inverse when the determinant does not
    vanish. *)
Lemma invert_left (d : Dimension) (A : Tensor2) (i j : nat) :
  determinant d A <> 0 -> (i < dim_of d)%nat -> (j < dim_of d)%nat ->
  Rsum (dim_of d) (fun k => invert d A i k * A k j) = kron i j.
Proof.
  intros Hdet Hi Hj. destruct d; simpl in Hi, Hj.
  - destruct i as [|[|i]]; [| |lia]; (destruct j as [|[|j]]; [| |lia]);
      unfold kron; cbn in Hdet |- *; field; exact Hdet.
  - destruct i as [|[|[|i]]]; [| | |lia];
      (destruct j as [|[|[|j]]]; [| | |lia]);
      unfold kron; cbn in Hdet |- *; field; exact Hdet.
Qed.

Lemma norm_dim2_sqr (r : Tensor1) :
  norm 2 r * norm 2 r = r 0%nat * r 0%nat + r 1%nat * r 1%nat.
Proof.
  unfold norm. simpl. rewrite sqrt_sqrt; [lra|]. nra.
Qed.

Lemma norm_dim2_pos (r : Tensor1) :
  r 0%nat <> 0 \/ r 1%nat <> 0 -> norm 2 r <> 0.
Proof.
  intros H Hn. pose proof (norm_dim2_sqr r) as Hs. rewrite Hn in Hs.
  destruct H as [H|H]; nra.
Qed.

(** C3. At every quadrature point of a solid cell the deformation gradient
    is [F = I + grad w] and the constitutive module returns
    [Pe = mu (F - F^-T)] for [INH_0] (where [F^-T], the transposed inverse,
    satisfies [F^T F^-T = I] when [F] is invertible), [Pe = mu F] for
    [INH_1] and [Pe = mu F (e_theta (x) e_theta)] for the fiber model, where
    in two dimensions [e_theta] has unit length and is orthogonal to the
    radius from the ring center to the quadrature point. *)
Theorem constitutive_laws (p : IFEMParameters) (fe_v_s : FEValues)
  (xi : list R) (qs : nat) :
  let F := deformation_gradient fe_v_s xi qs in
  let Pe := Pe_value p fe_v_s xi qs in
  (forall i j, F i j = kron i j + displacement_gradient fe_v_s xi qs i j)
  /\ (material_model p = INH_0 ->
      let FinvT := transpose (invert DIM F) in
      (determinant DIM F <> 0 ->
       forall i j, (i < dim)%nat -> (j < dim)%nat ->
         Rsum dim (fun k => F k i * FinvT k j) = kron i j)
      /\ forall i j, Pe i j = mu p * (F i j - FinvT i j))
  /\ (material_model p = INH_1 -> forall i j, Pe i j = mu p * F i j)
  /\ (material_model p = CircumferentialFiberModel ->
      let e := etheta p fe_v_s qs in
      let r : Tensor1 :=
        fun d => quadrature_point fe_v_s qs d - ring_center p d in
      (forall i j, Pe i j = mu p * Rsum dim (fun k => F i k * (e k * e j)))
      /\ (DIM = Dim2 -> r 0%nat <> 0 \/ r 1%nat <> 0 ->
          dot dim e e = 1 /\ dot dim e r = 0)).
Proof.
  cbn zeta. split; [|split; [|split]].
  - intros i j. unfold deformation_gradient, kron. lra.
  - intros Hlaw. split.
    + intros Hdet i j Hi Hj. unfold transpose.
      replace (kron i j) with (kron j i)
        by (unfold kron; rewrite (Nat.eqb_sym j i); reflexivity).
      rewrite <- (invert_left DIM (deformation_gradient fe_v_s xi qs) j i)
        by assumption.
      apply Rsum_ext. intros k _. lra.
    + intros i j. unfold Pe_value. rewrite Hlaw. reflexivity.
  - intros Hlaw i j. unfold Pe_value. rewrite Hlaw. reflexivity.
  - intros Hlaw. split.
    + intros i j. unfold Pe_value. rewrite Hlaw.
      unfold contract_1_0, outer_product. lra.
    + intros Hdim Hr. unfold dim. rewrite Hdim. simpl dim_of.
      pose proof (norm_dim2_pos
        (fun d => quadrature_point fe_v_s qs d - ring_center p d) Hr) as Hn.
      pose proof (norm_dim2_sqr
        (fun d => quadrature_point fe_v_s qs d - ring_center p d)) as Hs.
      unfold etheta, dot, dim. rewrite Hdim. simpl dim_of. simpl Rsum.
      cbv beta in Hs, Hn |- *.
      set (n := norm 2 _) in *.
      set (r0 := quadrature_point fe_v_s qs 0%nat - ring_center p 0%nat) in *.
      set (r1 := quadrature_point fe_v_s qs 1%nat - ring_center p 1%nat) in *.
      split.
      * replace (0 + - r1 / n * (- r1 / n) + r0 / n * (r0 / n))
          with ((r0 * r0 + r1 * r1) / (n * n)) by (field; exact Hn).
        rewrite <- Hs. field. exact Hn.
      * field. exact Hn.
Qed.

End Constitutive.

(** ** Newton driver *)

Section NewtonDriver.
Context `{CO : Collaborators}.

Lemma newton_evaluate_counters (t : R) (st : NewtonState) :
  nonlin_iter (newton_evaluate t st) = nonlin_iter st
  /\ outer_nonlin_iter (newton_evaluate t st) = outer_nonlin_iter st.
Proof.
  unfold newton_evaluate. destruct (update_Jacobian st).
  - destruct (residual_and_or_Jacobian ArgJF _ _ _ _ _ _). split; reflexivity.
  - destruct (residual_and_or_Jacobian ArgDummyJF _ _ _ _ _ _).
    split; reflexivity.
Qed.

(** What one pass through the body does, case by case. *)
Lemma newton_iteration_cases (t : R) (st : NewtonState) :
  let st1 := newton_evaluate t st in
  let res_norm := l2_norm (current_res (sim st1)) in
  match newton_iteration t st with
  | Break st' => res_norm < 1e-10 /\ st' = st1
  | Next st' =>
      ~ res_norm < 1e-10
      /\ sim st' = newton_correct (sim st1)
      /\ (res_norm > 1e-2 -> update_Jacobian st' = true)
      /\ (outer_nonlin_iter st' <= 3)%nat
      /\ if (S (nonlin_iter st) =? 15)%nat
         then update_Jacobian st' = true /\ nonlin_iter st' = 0%nat
              /\ outer_nonlin_iter st' = S (outer_nonlin_iter st)
         else nonlin_iter st' = S (nonlin_iter st)
              /\ outer_nonlin_iter st' = outer_nonlin_iter st
              /\ (~ res_norm > 1e-2 ->
                  update_Jacobian st' = update_Jacobian st1)
  | Throw msg =>
      ~ res_norm < 1e-10
      /\ msg = no_convergence
      /\ (3 < (if (S (nonlin_iter st) =? 15)%nat
               then S (outer_nonlin_iter st)
               else outer_nonlin_iter st))%nat
  end.
Proof.
  cbn zeta. unfold newton_iteration.
  destruct (newton_evaluate_counters t st) as [Hn Ho].
  set (st1 := newton_evaluate t st) in *.
  destruct (Rlt_dec (l2_norm (current_res (sim st1))) 1e-10) as [Hc|Hc].
  - split; [exact Hc | reflexivity].
  - rewrite Hn, Ho.
    destruct (S (nonlin_iter st) =? 15)%nat eqn:H15.
    + destruct (Nat.leb_spec (S (outer_nonlin_iter st)) 3) as [Hle|Hgt].
      * cbn. repeat split; auto.
      * repeat split; auto.
    + destruct (Nat.leb_spec (outer_nonlin_iter st) 3) as [Hle|Hgt].
      * cbn. split; [exact Hc|]. split; [reflexivity|].
        split; [|split; [exact Hle|]].
        -- intros Hbig. destruct (Rgt_dec _ _); [reflexivity | contradiction].
        -- split; [reflexivity|]. split; [reflexivity|].
           intros Hsmall. destruct (Rgt_dec _ _); [contradiction | reflexivity].
      * repeat split; auto.
Qed.

(** A pass is that of [newton_iteration] unless the direct solver
    throws. *)
Lemma newton_pass_cases (t : R) (st : NewtonState) :
  match newton_pass t st with
  | Break st' =>
      factorisation_error t st = None /\ newton_iteration t st = Break st'
  | Next st' =>
      solver_returns t st /\ newton_iteration t st = Next st'
  | Throw msg =>
      factorisation_error t st = Some msg
      \/ (factorisation_error t st = None /\ ~ pass_converges t st
          /\ solve_error t st = Some msg)
      \/ (solver_returns t st /\ newton_iteration t st = Throw msg)
  end.
Proof.
  unfold newton_pass, solver_returns, pass_converges.
  pose proof (newton_iteration_cases t st) as Hc. cbn zeta in Hc.
  destruct (factorisation_error t st) as [m|]; [left; reflexivity|].
  destruct (Rlt_dec _ _) as [Hlt|Hlt].
  - destruct (newton_iteration t st) as [st'|st'|msg].
    + split; reflexivity.
    + destruct Hc as [Hn _]. contradiction.
    + destruct Hc as [Hn _]. contradiction.
  - destruct (solve_error t st) as [m|].
    + right. left. repeat split; [exact Hlt].
    + destruct (newton_iteration t st) as [st'|st'|msg].
      * split; reflexivity.
      * repeat split; reflexivity.
      * right. right. repeat split; reflexivity.
Qed.

(** A pass that fails the convergence test, the solver returning, ends the
    body with the state advanced, or throws. *)
Lemma newton_pass_failed (t : R) (st : NewtonState) :
  ~ pass_converges t st -> solver_returns t st ->
  newton_pass t st
  = if (outer_nonlin_iter (newton_advance t st) <=? 3)%nat
    then Next (newton_advance t st)
    else Throw no_convergence.
Proof.
  unfold pass_converges, solver_returns, newton_pass, newton_iteration,
    newton_advance.
  intros Hc [Hf Hs]. rewrite Hf, Hs.
  destruct (Rlt_dec _ _) as [Hlt|_]; [contradiction|].
  destruct (S (nonlin_iter (newton_evaluate t st)) =? 15)%nat; reflexivity.
Qed.

Lemma newton_advance_counters (t : R) (st : NewtonState) :
  if (S (nonlin_iter st) =? 15)%nat
  then update_Jacobian (newton_advance t st) = true
       /\ nonlin_iter (newton_advance t st) = 0%nat
       /\ outer_nonlin_iter (newton_advance t st) = S (outer_nonlin_iter st)
  else nonlin_iter (newton_advance t st) = S (nonlin_iter st)
       /\ outer_nonlin_iter (newton_advance t st) = outer_nonlin_iter st.
Proof.
  unfold newton_advance.
  destruct (newton_evaluate_counters t st) as [Hn Ho]. rewrite Hn, Ho.
  destruct (S (nonlin_iter st) =? 15)%nat; cbn; repeat split; reflexivity.
Qed.

Lemma newton_advances_app (n m : nat) (t : R) (st : NewtonState) :
  newton_advances (n + m) t st
  = newton_advances m t (newton_advances n t st).
Proof.
  revert st. induction n as [|n IH]; intros st; [reflexivity|].
  cbn [Nat.add newton_advances]. apply IH.
Qed.

Lemma stalls_app (n m : nat) (t : R) (st : NewtonState) :
  stalls (n + m) t st ->
  stalls n t st /\ stalls m t (newton_advances n t st).
Proof.
  revert st. induction n as [|n IH]; intros st H.
  - split; [exact I | exact H].
  - cbn [Nat.add stalls newton_advances] in *.
    destruct H as (Hc & Hs & H). destruct (IH _ H) as [H1 H2].
    split; [|exact H2]. split; [exact Hc|]. split; [exact Hs | exact H1].
Qed.

Lemma newton_passes_app (n m : nat) (t : R) (st st' : NewtonState) :
  newton_passes n t st = Next st' ->
  newton_passes (n + m) t st = newton_passes m t st'.
Proof.
  revert st. induction n as [|n IH]; intros st H.
  - cbn in H. inversion H; subst. reflexivity.
  - cbn [Nat.add newton_passes] in *.
    destruct (newton_pass t st) as [x|x|msg]; try discriminate.
    apply IH. exact H.
Qed.

(** Failing passes that do not reach the fifteenth inner iteration only
    count. *)
Lemma newton_passes_count (t : R) (k : nat) (st : NewtonState) :
  (nonlin_iter st + k < 15)%nat -> (outer_nonlin_iter st <= 3)%nat ->
  stalls k t st ->
  newton_passes k t st = Next (newton_advances k t st)
  /\ nonlin_iter (newton_advances k t st) = (nonlin_iter st + k)%nat
  /\ outer_nonlin_iter (newton_advances k t st) = outer_nonlin_iter st.
Proof.
  revert st. induction k as [|k IH]; intros st Hk Ho Hst.
  - cbn. repeat split; lia.
  - cbn [stalls] in Hst. destruct Hst as (Hc & Hs & Hst).
    cbn [newton_passes newton_advances].
    rewrite (newton_pass_failed t st Hc Hs).
    pose proof (newton_advance_counters t st) as Ha.
    destruct (Nat.eqb_spec (S (nonlin_iter st)) 15) as [He|Hne]; [lia|].
    destruct Ha as [Hn' Ho']. rewrite Ho'.
    destruct (Nat.leb_spec (outer_nonlin_iter st) 3) as [_|?]; [|lia].
    destruct (IH (newton_advance t st)) as (I1 & I2 & I3);
      [lia | lia | exact Hst |].
    rewrite I1, I2, I3, Hn', Ho'. repeat split; lia.
Qed.

(** Fifteen consecutive failing passes from the inner counter at zero. *)
Lemma newton_passes_stall (t : R) (st : NewtonState) :
  nonlin_iter st = 0%nat -> (outer_nonlin_iter st <= 3)%nat ->
  stalls 15 t st ->
  update_Jacobian (newton_advances 15 t st) = true
  /\ nonlin_iter (newton_advances 15 t st) = 0%nat
  /\ outer_nonlin_iter (newton_advances 15 t st) = S (outer_nonlin_iter st)
  /\ newton_passes 15 t st
     = if (outer_nonlin_iter st <? 3)%nat
       then Next (newton_advances 15 t st)
       else Throw no_convergence.
Proof.
  intros Hn Ho Hst.
  change 15%nat with (14 + 1)%nat in Hst |- *.
  destruct (stalls_app 14 1 t st Hst) as [H14 H1].
  destruct (newton_passes_count t 14 st) as (P1 & P2 & P3);
    [lia | exact Ho | exact H14 |].
  rewrite (newton_passes_app 14 1 t st _ P1), (newton_advances_app 14 1).
  set (st14 := newton_advances 14 t st) in *.
  cbn [stalls] in H1. destruct H1 as (Hc & Hs & _).
  cbn [newton_passes newton_advances].
  rewrite (newton_pass_failed t st14 Hc Hs).
  pose proof (newton_advance_counters t st14) as Ha.
  rewrite P2, Hn in Ha. cbn [Nat.add Nat.eqb] in Ha.
  destruct Ha as (Hu & Hn' & Ho'). rewrite Ho', P3.
  split; [exact Hu|]. split; [exact Hn'|]. split; [reflexivity|].
  destruct (Nat.leb_spec (S (outer_nonlin_iter st)) 3),
    (Nat.ltb_spec (outer_nonlin_iter st) 3); try lia; reflexivity.
Qed.

(** The loop returns the exception of the pass that throws. *)
Lemma newton_loop_passes (n : nat) (t : R) (st : NewtonState) (msg : string) :
  newton_passes n t st = Throw msg ->
  forall fuel, (n <= fuel)%nat -> newton_loop fuel t st = Some (inr msg).
Proof.
  revert st. induction n as [|n IH]; intros st H fuel Hf.
  - cbn in H. discriminate.
  - destruct fuel as [|fuel]; [lia|].
    cbn [newton_passes newton_loop] in *.
    destruct (newton_pass t st) as [x|x|m].
    + discriminate.
    + apply (IH x H). lia.
    + inversion H; subst. reflexivity.
Qed.

(** From the inner counter at zero, [15 * (4 - outer_nonlin_iter)] failing
    passes end in the exception. *)
Lemma newton_passes_budget (t : R) (j : nat) (st : NewtonState) :
  nonlin_iter st = 0%nat -> (outer_nonlin_iter st + j = 3)%nat ->
  stalls (15 * S j) t st ->
  newton_passes (15 * S j) t st = Throw no_convergence.
Proof.
  revert st. induction j as [|j IH]; intros st Hn Ho Hst.
  - change (15 * 1)%nat with 15%nat in *.
    destruct (newton_passes_stall t st Hn) as (_ & _ & _ & H);
      [lia | exact Hst |].
    rewrite H. destruct (Nat.ltb_spec (outer_nonlin_iter st) 3); [lia|].
    reflexivity.
  - replace (15 * S (S j))%nat with (15 + 15 * S j)%nat in * by lia.
    destruct (stalls_app 15 (15 * S j) t st Hst) as [H15 Hrest].
    destruct (newton_passes_stall t st Hn) as (_ & Hn' & Ho' & H);
      [lia | exact H15 |].
    destruct (Nat.ltb_spec (outer_nonlin_iter st) 3); [|lia].
    rewrite (newton_passes_app 15 _ t st _ H).
    apply IH; [exact Hn' | lia | exact Hrest].
Qed.

(** The nonlinear iteration ends: the counters bound the number of passes
    that are left. *)
Lemma newton_loop_terminates (t : R) (fuel : nat) (st : NewtonState) :
  (nonlin_iter st < 15)%nat -> (outer_nonlin_iter st <= 3)%nat ->
  (60 - (15 * outer_nonlin_iter st + nonlin_iter st) <= fuel)%nat ->
  newton_loop fuel t st <> None.
Proof.
  revert st. induction fuel as [|fuel IH]; intros st Hn Ho Hf.
  - lia.
  - simpl. pose proof (newton_pass_cases t st) as Hp.
    pose proof (newton_iteration_cases t st) as Hc. cbn zeta in Hc.
    destruct (newton_pass t st) as [st'|st'|m]; [discriminate| |discriminate].
    destruct Hp as [_ Hp]. rewrite Hp in Hc.
    destruct Hc as (_ & _ & _ & Hle & Hc).
    destruct (Nat.eqb_spec (S (nonlin_iter st)) 15) as [He|Hne].
    + destruct Hc as (_ & Hn' & Ho'). apply IH; lia.
    + destruct Hc as (Hn' & Ho' & _). apply IH; lia.
Qed.

(** C6. A pass of the nonlinear iteration that fails the convergence test
    (the direct solver returning) increments the inner counter; when the
    counter reaches 15 the pass forces a Jacobian refresh, resets the inner
    counter to zero and increments the outer counter, and it throws
    "No convergence in nonlinear solver." as soon as the outer counter
    exceeds 3.  So 15 consecutive failing passes from the inner counter at
    zero end with the refresh, the reset and the increment, and with the
    exception when the outer counter was 3; the loop returns the exception
    of the pass that throws, and 60 consecutive failing passes from the
    start of a time step end in it.  The exception ends the time step and
    the run (it is not caught, no retry), and the iteration of a time step
    always ends within 60 passes. *)
Theorem newton_stall_budget (t : R) (st : NewtonState) :
  (~ pass_converges t st -> solver_returns t st ->
   let st' := newton_advance t st in
   (if (S (nonlin_iter st) =? 15)%nat
    then update_Jacobian st' = true /\ nonlin_iter st' = 0%nat
         /\ outer_nonlin_iter st' = S (outer_nonlin_iter st)
    else nonlin_iter st' = S (nonlin_iter st)
         /\ outer_nonlin_iter st' = outer_nonlin_iter st)
   /\ newton_pass t st
      = if (outer_nonlin_iter st' <=? 3)%nat
        then Next st'
        else Throw "No convergence in nonlinear solver.")
  /\ (nonlin_iter st = 0%nat -> (outer_nonlin_iter st <= 3)%nat ->
      stalls 15 t st ->
      let st' := newton_advances 15 t st in
      update_Jacobian st' = true /\ nonlin_iter st' = 0%nat
      /\ outer_nonlin_iter st' = S (outer_nonlin_iter st)
      /\ newton_passes 15 t st
         = if (outer_nonlin_iter st <? 3)%nat
           then Next st'
           else Throw "No convergence in nonlinear solver.")
  /\ (forall n msg,
        newton_passes n t st = Throw msg ->
        forall fuel, (n <= fuel)%nat ->
          newton_loop fuel t st = Some (inr msg))
  /\ (nonlin_iter st = 0%nat -> outer_nonlin_iter st = 0%nat ->
      stalls 60 t st ->
      forall fuel, (60 <= fuel)%nat ->
        newton_loop fuel t st
        = Some (inr "No convergence in nonlinear solver."%string))
  /\ (nonlin_iter st = 0%nat -> (outer_nonlin_iter st <= 3)%nat ->
      newton_loop 60 t st <> None)
  /\ (forall fuel time_step rs msg,
        let start := apply_current_bc (current_xi (run_sim rs)) t (run_sim rs) in
        newton_loop fuel t
          (mkNewton (set_current_xi (fst start) (snd start))
                    (run_update_Jacobian rs) 0 0) = Some (inr msg) ->
        time_step_body fuel t time_step rs = Some (inr msg))
  /\ (forall steps fuel time_step rs msg,
        t <= T (par (run_sim rs)) ->
        time_step_body fuel t time_step rs = Some (inr msg) ->
        time_loop (S steps) fuel t time_step rs = Some (inr msg)).
Proof.
  split; [|split; [|split; [|split; [|split; [|split]]]]].
  - intros Hc Hs. cbn zeta. split.
    + apply newton_advance_counters.
    + apply (newton_pass_failed t st Hc Hs).
  - intros Hn Ho Hst. cbn zeta. apply (newton_passes_stall t st Hn Ho Hst).
  - intros n msg H fuel Hf. apply (newton_loop_passes n t st msg H fuel Hf).
  - intros Hn Ho Hst fuel Hf.
    apply (newton_loop_passes 60 t st); [|exact Hf].
    apply (newton_passes_budget t 3 st Hn); [lia | exact Hst].
  - intros Hn Ho. apply newton_loop_terminates; lia.
  - intros fuel time_step rs msg start H. unfold time_step_body.
    fold start. destruct start as [xi s1]. cbn [fst snd] in H.
    rewrite H. reflexivity.
  - intros steps fuel time_step rs msg HT Hbody. simpl.
    destruct (Rle_dec t (T (par (run_sim rs)))); [|contradiction].
    rewrite Hbody. reflexivity.
Qed.

End NewtonDriver.

(** ** What the assembly steps leave unchanged *)

Section AssemblyFrame.
Context `{CO : Collaborators}.

Lemma on_block_empty (b : BlockId) f (m : BlockSparseMatrix) :
  bsm_empty (on_block b f m) = bsm_empty m.
Proof. destruct m; reflexivity. Qed.

Lemma jacobian_step_refl jac u s : jacobian_step jac u s s.
Proof. repeat split; reflexivity. Qed.

Lemma jacobian_step_trans jac u s1 s2 s3 :
  jacobian_step jac u s1 s2 -> jacobian_step jac u s2 s3 ->
  jacobian_step jac u s1 s3.
Proof.
  intros (A1 & B1 & C1 & D1 & E1) (A2 & B2 & C2 & D2 & E2).
  repeat split; try congruence.
  - intros Hu. rewrite (D2 Hu). apply (D1 Hu).
  - intros Hj. rewrite (E2 Hj). apply (E1 Hj).
Qed.

Lemma jacobian_step_set_JF jac f b s :
  jacobian_step jac true s (set_JF (on_block b f (JF s)) s).
Proof.
  repeat split; try reflexivity.
  - cbn. apply on_block_empty.
  - discriminate.
Qed.

(** A step of the loop over the fluid cells. *)
Lemma fluid_cell_step_frame jac u xit xi alpha acc c :
  jacobian_step jac u (snd acc)
    (snd (fluid_cell_step jac u xit xi alpha acc c)).
Proof.
  unfold fluid_cell_step. destruct acc as [r s].
  destruct (apply_constraints _ _ _ _ _) as [lr lj].
  destruct u, jac; cbn [snd par set_JF];
    destruct (all_DBC (par s) && negb (fix_pressure (par s)));
    cbn [snd]; repeat split; try reflexivity; try discriminate;
    cbn; rewrite ?on_block_empty; reflexivity.
Qed.

Lemma fluid_cell_step_length jac u xit xi alpha acc c :
  length (block0 (fst (fluid_cell_step jac u xit xi alpha acc c)))
  = length (block0 (fst acc))
  /\ block1 (fst (fluid_cell_step jac u xit xi alpha acc c))
     = block1 (fst acc).
Proof.
  unfold fluid_cell_step. destruct acc as [r s].
  destruct (apply_constraints _ _ _ _ _) as [lr lj].
  assert (Hd : forall l o v, length (distribute_residual v l (dof_indices c) o)
                             = length v).
  { intros l o v. unfold distribute_residual.
    apply (for_n_invariant (fun x => length x = length v)); [reflexivity|].
    intros i x _ Hx. rewrite length_vadd. exact Hx. }
  destruct (all_DBC _ && negb _); cbn [fst block0 block1 on_block0];
    unfold distribute_constraint_on_pressure_residual;
    rewrite ?length_vadd, Hd; split; reflexivity.
Qed.

End AssemblyFrame.

Section AssemblyFrame2.
Context `{CO : Collaborators}.

Lemma length_distribute_residual v l dofs o :
  length (distribute_residual v l dofs o) = length v.
Proof.
  unfold distribute_residual.
  apply (for_n_invariant (fun x => length x = length v)); [reflexivity|].
  intros i x _ Hx. rewrite length_vadd. exact Hx.
Qed.

(** A step of the loop over the fluid cells found for a solid cell. *)
Lemma overlap_step_frame jac u xit xi alpha fe_v_s local_M acc c :
  jacobian_step jac u (snd acc)
    (snd (overlap_step u xit xi alpha fe_v_s local_M acc c)).
Proof.
  unfold overlap_step. destruct acc as [r s].
  destruct (coupling_V _ _ _ _ _ _) as [lrV ljV].
  destruct (apply_constraints s lrV ljV _ _) as [lrV1 ljV1].
  destruct u.
  - destruct (coupling_Y _ _ _ _ _) as [lrY ljY].
    destruct (apply_constraints _ lrY ljY _ _) as [lrY1 ljY1].
    cbn [snd par set_JF]. destruct (negb (semi_implicit (par s)));
      repeat split; try reflexivity; try discriminate;
      cbn; rewrite ?on_block_empty; reflexivity.
  - destruct (coupling_Y _ _ _ _ _) as [lrY ljY].
    destruct (apply_constraints _ lrY ljY _ _) as [lrY1 ljY1].
    apply jacobian_step_refl.
Qed.

Lemma overlap_step_length u xit xi alpha fe_v_s local_M acc c :
  length (block0 (fst (overlap_step u xit xi alpha fe_v_s local_M acc c)))
  = length (block0 (fst acc))
  /\ length (block1 (fst (overlap_step u xit xi alpha fe_v_s local_M acc c)))
     = length (block1 (fst acc)).
Proof.
  unfold overlap_step. destruct acc as [r s].
  destruct (coupling_V _ _ _ _ _ _) as [lrV ljV].
  destruct (apply_constraints s lrV ljV _ _) as [lrV1 ljV1].
  destruct (coupling_Y _ _ _ _ _) as [lrY ljY].
  destruct (apply_constraints _ lrY ljY _ _) as [lrY1 ljY1].
  cbn [fst block0 block1 on_block0 on_block1].
  rewrite !length_distribute_residual. split; reflexivity.
Qed.

Lemma overlaps_frame jac u xit xi alpha fe_v_s local_M l acc :
  jacobian_step jac u (snd acc)
    (snd (fold_left (overlap_step u xit xi alpha fe_v_s local_M) l acc)).
Proof.
  revert acc. induction l as [|c l IH]; intros acc; simpl.
  - apply jacobian_step_refl.
  - eapply jacobian_step_trans; [apply overlap_step_frame | apply IH].
Qed.

Lemma overlaps_length u xit xi alpha fe_v_s local_M l acc :
  length (block0 (fst (fold_left (overlap_step u xit xi alpha fe_v_s local_M) l acc)))
  = length (block0 (fst acc))
  /\ length (block1 (fst (fold_left (overlap_step u xit xi alpha fe_v_s local_M) l acc)))
     = length (block1 (fst acc)).
Proof.
  revert acc. induction l as [|c l IH]; intros acc; simpl.
  - split; reflexivity.
  - destruct (IH (overlap_step u xit xi alpha fe_v_s local_M acc c)) as [A B].
    destruct (overlap_step_length u xit xi alpha fe_v_s local_M acc c) as [C D].
    split; congruence.
Qed.

(** A step of the second loop over the solid cells. *)
Lemma solid_cell_step_frame jac u xit xi alpha acc c :
  jacobian_step jac u (snd (fst acc))
    (snd (fst (solid_cell_step u xit xi alpha acc c))).
Proof.
  unfold solid_cell_step. destruct acc as [[r s] lm].
  pose proof (overlaps_frame jac u xit xi alpha c
    (localize lm (M_gamma3_inv_A_gamma s) (dof_indices c))
    (compute_point_locations (mapped_quadrature_points (deref_mapping s) c))
    (r, s)) as Hf.
  destruct (fold_left _ _ (r, s)) as [r1 s1].
  destruct (solid_inertia _ _ _ _ _) as [lr lj].
  cbn [fst snd] in *. destruct u.
  - eapply jacobian_step_trans; [exact Hf | apply jacobian_step_set_JF].
  - exact Hf.
Qed.

Lemma solid_cell_step_length u xit xi alpha acc c :
  length (block0 (fst (fst (solid_cell_step u xit xi alpha acc c))))
  = length (block0 (fst (fst acc)))
  /\ length (block1 (fst (fst (solid_cell_step u xit xi alpha acc c))))
     = length (block1 (fst (fst acc))).
Proof.
  unfold solid_cell_step. destruct acc as [[r s] lm].
  pose proof (overlaps_length u xit xi alpha c
    (localize lm (M_gamma3_inv_A_gamma s) (dof_indices c))
    (compute_point_locations (mapped_quadrature_points (deref_mapping s) c))
    (r, s)) as Hf.
  destruct (fold_left _ _ (r, s)) as [r1 s1].
  destruct (solid_inertia _ _ _ _ _) as [lr lj].
  cbn [fst snd block0 block1 on_block1] in *.
  rewrite length_distribute_residual. exact Hf.
Qed.

Lemma fluid_loop_frame jac u xit xi alpha l acc :
  jacobian_step jac u (snd acc)
    (snd (fold_left (fluid_cell_step jac u xit xi alpha) l acc)).
Proof.
  revert acc. induction l as [|c l IH]; intros acc; simpl.
  - apply jacobian_step_refl.
  - eapply jacobian_step_trans; [apply fluid_cell_step_frame | apply IH].
Qed.

Lemma fluid_loop_length jac u xit xi alpha l acc :
  length (block0 (fst (fold_left (fluid_cell_step jac u xit xi alpha) l acc)))
  = length (block0 (fst acc))
  /\ block1 (fst (fold_left (fluid_cell_step jac u xit xi alpha) l acc))
     = block1 (fst acc).
Proof.
  revert acc. induction l as [|c l IH]; intros acc; simpl.
  - split; reflexivity.
  - destruct (IH (fluid_cell_step jac u xit xi alpha acc c)) as [A B].
    destruct (fluid_cell_step_length jac u xit xi alpha acc c) as [C D].
    split; congruence.
Qed.

Lemma solid_loop_frame jac u xit xi alpha l acc :
  jacobian_step jac u (snd (fst acc))
    (snd (fst (fold_left (solid_cell_step u xit xi alpha) l acc))).
Proof.
  revert acc. induction l as [|c l IH]; intros acc; simpl.
  - apply jacobian_step_refl.
  - eapply jacobian_step_trans; [apply solid_cell_step_frame | apply IH].
Qed.

Lemma solid_loop_length u xit xi alpha l acc :
  length (block0 (fst (fst (fold_left (solid_cell_step u xit xi alpha) l acc))))
  = length (block0 (fst (fst acc)))
  /\ length (block1 (fst (fst (fold_left (solid_cell_step u xit xi alpha) l acc))))
     = length (block1 (fst (fst acc))).
Proof.
  revert acc. induction l as [|c l IH]; intros acc; simpl.
  - split; reflexivity.
  - destruct (IH (solid_cell_step u xit xi alpha acc c)) as [A B].
    destruct (solid_cell_step_length u xit xi alpha acc c) as [C D].
    split; congruence.
Qed.

(** The first loop over the solid cells changes [A_gamma] only, and not its
    size. *)
Lemma assemble_A_gamma_frame xi s :
  set_A_gamma [] (assemble_A_gamma xi s) = set_A_gamma [] s
  /\ length (A_gamma (assemble_A_gamma xi s)) = length (A_gamma s).
Proof.
  unfold assemble_A_gamma.
  apply (fold_left_invariant
    (fun x => set_A_gamma [] x = set_A_gamma [] s
              /\ length (A_gamma x) = length (A_gamma s))).
  - split; reflexivity.
  - intros x c [Hx Hl]. split.
    + rewrite <- Hx. reflexivity.
    + rewrite <- Hl. cbn. unfold vector_add_indices.
      apply (for_n_invariant (fun y => length y = length (A_gamma x)));
        [reflexivity|].
      intros i y _ Hy. rewrite length_vadd. exact Hy.
Qed.

End AssemblyFrame2.

(** ** The deformed-configuration mapping *)

Section Mapping.
Context `{CO : Collaborators}.

Lemma prologue_mapping jac r xi t s :
  let s' := snd (evaluation_prologue jac r xi t s) in
  let a' := fresh (dom (heap_after_delete s)) in
  mapping s' = Some a'
  /\ heap s' = <[a' := mkMapping (degree (par s)) (mapping_source xi s)]>
                 (heap_after_delete s).
Proof.
  cbn zeta. unfold evaluation_prologue, heap_after_delete, mapping_source,
    delete_mapping, new_mapping.
  destruct (mapping s) as [a|]; destruct (semi_implicit (par s)) eqn:Hsi;
    destruct jac; cbn [jacobian_of];
    try destruct (JF s); try destruct (dummy_JF s);
    cbn; rewrite ?Hsi; cbn; split; reflexivity.
Qed.

End Mapping.

Section EvaluationFrame.
Context `{CO : Collaborators}.

Lemma erase_work_of_jacobians s s' :
  erase_jacobians s' = erase_jacobians s -> erase_work s' = erase_work s.
Proof. intros H. unfold erase_work. rewrite H. reflexivity. Qed.

Lemma residual_and_or_Jacobian_phases jac residual xit xi alpha t s :
  residual_and_or_Jacobian jac residual xit xi alpha t s
  = fst (fold_left
           (solid_cell_step (negb (bsm_empty (jacobian_of jac s))) xit xi alpha)
           solid_cells
           (fst (after_fluid_loop jac residual xit xi alpha t s),
            after_A_gamma jac residual xit xi alpha t s,
            replicate (dofs_per_cell fe_s) 0)).
Proof.
  unfold residual_and_or_Jacobian, after_A_gamma, after_fluid_loop.
  destruct (evaluation_prologue jac residual xi t s) as [r1 s1].
  destruct (fold_left (fluid_cell_step _ _ _ _ _) _ _) as [r2 s2].
  cbn [fst snd].
  destruct (fold_left (solid_cell_step _ _ _ _) _ _) as [[r3 s6] lm].
  reflexivity.
Qed.

Lemma after_A_gamma_frame jac residual xit xi alpha t s :
  erase_work (after_A_gamma jac residual xit xi alpha t s)
  = erase_work (snd (after_fluid_loop jac residual xit xi alpha t s)).
Proof.
  unfold after_A_gamma. cbn zeta.
  set (s2 := snd (after_fluid_loop jac residual xit xi alpha t s)).
  destruct (assemble_A_gamma_frame xi (set_A_gamma (vzero (A_gamma s2)) s2))
    as [H _].
  apply (f_equal (fun x => set_M_gamma3_inv_A_gamma [] (erase_jacobians x))) in H.
  exact H.
Qed.

(** An evaluation leaves every member but the Jacobians, [A_gamma] and
    [M_gamma3_inv_A_gamma] as its start has set it. *)
Lemma evaluation_frame jac residual xit xi alpha t s :
  erase_work (snd (residual_and_or_Jacobian jac residual xit xi alpha t s))
  = erase_work (snd (evaluation_prologue jac residual xi t s)).
Proof.
  rewrite residual_and_or_Jacobian_phases.
  pose proof (solid_loop_frame jac (negb (bsm_empty (jacobian_of jac s)))
                xit xi alpha solid_cells
                (fst (after_fluid_loop jac residual xit xi alpha t s),
                 after_A_gamma jac residual xit xi alpha t s,
                 replicate (dofs_per_cell fe_s) 0)) as (H & _).
  cbn [fst snd] in H. apply erase_work_of_jacobians in H. rewrite H.
  rewrite after_A_gamma_frame. apply erase_work_of_jacobians.
  unfold after_fluid_loop. apply fluid_loop_frame.
Qed.

Lemma erase_work_fields s s' :
  erase_work s' = erase_work s ->
  par s' = par s /\ heap s' = heap s /\ mapping s' = mapping s
  /\ scaling s' = scaling s /\ area s' = area s
  /\ pressure_dofs s' = pressure_dofs s
  /\ constraining_dof s' = constraining_dof s /\ dgp_for_p s' = dgp_for_p s
  /\ sparsity s' = sparsity s /\ JF_inv s' = JF_inv s
  /\ current_xi s' = current_xi s /\ previous_xi s' = previous_xi s
  /\ current_xit s' = current_xit s /\ current_res s' = current_res s
  /\ newton_update s' = newton_update s
  /\ tmp_vec_n_total_dofs s' = tmp_vec_n_total_dofs s.
Proof.
  intros H. unfold erase_work, erase_jacobians in H. cbn in H.
  inversion H. repeat split; assumption.
Qed.

(** C8. Every evaluation of the residual and/or the Jacobian destroys the
    deformed-configuration mapping held before (its address is released on
    the free store) and ends with [mapping] pointing to a newly built
    object, the only change to the free store, built from the solid
    displacement of the previous time step when [semi_implicit] is set and
    from the solid displacement of the current iterate [xi] otherwise. *)
Theorem mapping_rebuilt (jac : JacobianArg) (residual xit xi : BlockVector)
  (alpha t : R) (s : ImmersedFEM) :
  let s' := snd (residual_and_or_Jacobian jac residual xit xi alpha t s) in
  let released :=
    match mapping s with
    | Some a => delete a (heap s)
    | None => heap s
    end in
  let source :=
    if semi_implicit (par s) then block1 (previous_xi s) else block1 xi in
  (forall a, mapping s = Some a -> released !! a = None)
  /\ exists a',
       released !! a' = None
       /\ mapping s' = Some a'
       /\ heap s' = <[a' := mkMapping (degree (par s)) source]> released
       /\ deref_mapping s' = mkMapping (degree (par s)) source.
Proof.
  cbn zeta. split.
  - intros a Ha. rewrite Ha. apply lookup_delete_eq.
  - destruct (erase_work_fields _ _
                (evaluation_frame jac residual xit xi alpha t s))
      as (_ & Hh & Hm & _).
    destruct (prologue_mapping jac residual xi t s) as [Pm Ph].
    exists (fresh (dom (heap_after_delete s))).
    fold (heap_after_delete s). fold (mapping_source xi s).
    split; [|split; [|split]].
    + apply not_elem_of_dom. apply is_fresh.
    + rewrite Hm. exact Pm.
    + rewrite Hh. exact Ph.
    + unfold deref_mapping. rewrite Hm, Pm, Hh, Ph, lookup_insert_eq.
      reflexivity.
Qed.

End EvaluationFrame.

(** ** Dense matrices *)

(** A loop invariant that depends on the number of passes made. *)
Lemma for_n_ind {S : Type} (P : nat -> S -> Prop) (n : nat)
  (body : nat -> S -> S) (s : S) :
  P 0%nat s ->
  (forall i x, (i < n)%nat -> P i x -> P (Datatypes.S i) (body i x)) ->
  P n (for_n n body s).
Proof.
  intros H0 Hstep. induction n as [|n IH].
  - exact H0.
  - rewrite for_n_S. apply Hstep; [lia|]. apply IH.
    intros i x Hi. apply Hstep. lia.
Qed.

Lemma mat_wf_row r c m i :
  mat_wf r c m -> (i < r)%nat -> length (nth i m []) = c.
Proof.
  intros [Hr Hc] Hi. rewrite Forall_forall in Hc. apply Hc.
  apply list_elem_of_In. apply nth_In. lia.
Qed.

Lemma mat_wf_insert r c m i row :
  mat_wf r c m -> length row = c -> mat_wf r c (<[i := row]> m).
Proof.
  intros [Hr Hc] Hrow. split.
  - rewrite length_insert. exact Hr.
  - apply Forall_insert; assumption.
Qed.

Lemma mat_wf_row_any r c m i :
  mat_wf r c m -> (i < r)%nat \/ length (nth i m []) = 0%nat.
Proof.
  intros [Hr Hc]. destruct (Nat.lt_ge_cases i r) as [H|H]; [left; exact H|].
  right. rewrite nth_overflow by lia. reflexivity.
Qed.

Lemma mat_wf_mset r c m i j x : mat_wf r c m -> mat_wf r c (mset m i j x).
Proof.
  intros H. unfold mset. destruct (Nat.lt_ge_cases i r) as [Hi|Hi].
  - apply mat_wf_insert; [exact H|]. rewrite length_vset.
    apply (mat_wf_row r c m i H Hi).
  - rewrite list_insert_ge; [exact H|]. destruct H as [Hr _]. lia.
Qed.

Lemma mat_wf_madd r c m i j x : mat_wf r c m -> mat_wf r c (madd m i j x).
Proof.
  intros H. unfold madd. destruct (Nat.lt_ge_cases i r) as [Hi|Hi].
  - apply mat_wf_insert; [exact H|]. rewrite length_vadd.
    apply (mat_wf_row r c m i H Hi).
  - rewrite list_insert_ge; [exact H|]. destruct H as [Hr _]. lia.
Qed.

Lemma mat_wf_msub r c m i j x : mat_wf r c m -> mat_wf r c (msub m i j x).
Proof.
  intros H. unfold msub. destruct (Nat.lt_ge_cases i r) as [Hi|Hi].
  - apply mat_wf_insert; [exact H|]. rewrite length_vsub.
    apply (mat_wf_row r c m i H Hi).
  - rewrite list_insert_ge; [exact H|]. destruct H as [Hr _]. lia.
Qed.

Lemma mat_wf_mreinit n : mat_wf n n (mreinit n).
Proof.
  unfold mreinit. split.
  - apply length_replicate.
  - apply Forall_replicate. apply length_replicate.
Qed.

Lemma mat_wf_mcols r c m : mat_wf r c m -> (0 < r)%nat -> mcols m = c.
Proof. intros H Hr. unfold mcols. apply (mat_wf_row r c m 0 H Hr). Qed.

Lemma mget_mreinit n i j : mget (mreinit n) i j = 0.
Proof.
  unfold mget, mreinit.
  destruct (Nat.lt_ge_cases i n) as [Hi|Hi].
  - rewrite nth_lookup, lookup_replicate_2 by exact Hi. apply vget_replicate.
  - rewrite nth_overflow by (rewrite length_replicate; lia). apply vget_nil.
Qed.

Lemma mget_nil i j : mget [] i j = 0.
Proof. unfold mget. destruct i; apply vget_nil. Qed.

Lemma nth_insert_eq (m : list (list R)) i row :
  (i < length m)%nat -> nth i (<[i := row]> m) [] = row.
Proof.
  intros H. rewrite nth_lookup, list_lookup_insert_eq by exact H. reflexivity.
Qed.

Lemma nth_insert_ne (m : list (list R)) i k row :
  i <> k -> nth k (<[i := row]> m) [] = nth k m [].
Proof.
  intros H. rewrite !nth_lookup, list_lookup_insert_ne by exact H. reflexivity.
Qed.

(** Reading a matrix after a write to one of its rows. *)
Lemma mget_insert_row (m : list (list R)) i i' j' row :
  mget (<[i := row]> m) i' j'
  = if (i =? i')%nat && (i <? length m)%nat then vget row j' else mget m i' j'.
Proof.
  unfold mget. destruct (Nat.eqb_spec i i') as [->|Hne]; simpl.
  - destruct (Nat.ltb_spec i' (length m)).
    + rewrite nth_insert_eq by assumption. reflexivity.
    + rewrite list_insert_ge by assumption. reflexivity.
  - rewrite nth_insert_ne by assumption. reflexivity.
Qed.

Lemma mget_mset r c m i j x i' j' :
  mat_wf r c m ->
  mget (mset m i j x) i' j'
  = if (i =? i')%nat && (j =? j')%nat && (i <? r)%nat && (j <? c)%nat
    then x else mget m i' j'.
Proof.
  intros H. unfold mset. rewrite mget_insert_row. destruct H as [Hr Hc].
  rewrite Hr. destruct (Nat.eqb_spec i i') as [->|Hne]; simpl; [|reflexivity].
  destruct (Nat.ltb_spec i' r) as [Hi|Hi]; simpl.
  - rewrite vget_vset. rewrite (mat_wf_row r c m i' (conj Hr Hc) Hi).
    rewrite andb_true_r. fold (mget m i' j'). reflexivity.
  - rewrite andb_false_r. reflexivity.
Qed.

Lemma mget_madd r c m i j x i' j' :
  mat_wf r c m ->
  mget (madd m i j x) i' j'
  = mget m i' j'
    + (if (i =? i')%nat && (j =? j')%nat && (i <? r)%nat && (j <? c)%nat
       then x else 0).
Proof.
  intros H. unfold madd. rewrite mget_insert_row. destruct H as [Hr Hc].
  rewrite Hr. destruct (Nat.eqb_spec i i') as [->|Hne]; simpl; [|lra].
  destruct (Nat.ltb_spec i' r) as [Hi|Hi]; simpl.
  - rewrite vget_vadd. rewrite (mat_wf_row r c m i' (conj Hr Hc) Hi).
    rewrite andb_true_r. fold (mget m i' j'). reflexivity.
  - destruct (j =? j')%nat; simpl; lra.
Qed.

Lemma mget_msub r c m i j x i' j' :
  mat_wf r c m ->
  mget (msub m i j x) i' j'
  = mget m i' j'
    + (if (i =? i')%nat && (j =? j')%nat && (i <? r)%nat && (j <? c)%nat
       then - x else 0).
Proof.
  intros H. unfold msub. rewrite mget_insert_row. destruct H as [Hr Hc].
  rewrite Hr. destruct (Nat.eqb_spec i i') as [->|Hne]; simpl; [|lra].
  destruct (Nat.ltb_spec i' r) as [Hi|Hi]; simpl.
  - rewrite vget_vsub. rewrite (mat_wf_row r c m i' (conj Hr Hc) Hi).
    rewrite andb_true_r. fold (mget m i' j'). reflexivity.
  - destruct (j =? j')%nat; simpl; lra.
Qed.

(** The loop that zeroes row [i]. *)
Lemma zero_row_spec r c m i n :
  mat_wf r c m ->
  mat_wf r c (for_n n (fun j m' => mset m' i j 0) m)
  /\ forall i' j',
       mget (for_n n (fun j m' => mset m' i j 0) m) i' j'
       = if (i =? i')%nat && (j' <? n)%nat && (i <? r)%nat && (j' <? c)%nat
         then 0 else mget m i' j'.
Proof.
  intros H.
  apply (for_n_ind (fun k x =>
    mat_wf r c x /\ forall i' j', mget x i' j'
      = if (i =? i')%nat && (j' <? k)%nat && (i <? r)%nat && (j' <? c)%nat
        then 0 else mget m i' j')).
  - split; [exact H|]. intros i' j'. rewrite andb_false_r. reflexivity.
  - intros k x Hk [Hwf Hx]. split; [apply mat_wf_mset; exact Hwf|].
    intros i' j'. rewrite (mget_mset r c) by exact Hwf. rewrite Hx.
    destruct (Nat.eqb_spec i i'); simpl; [|reflexivity].
    destruct (Nat.eqb_spec k j') as [->|Hne]; simpl.
    + destruct (Nat.ltb_spec j' (S j')); [|lia].
      destruct (Nat.ltb_spec j' j'); [lia|]. simpl.
      destruct (i <? r)%nat, (j' <? c)%nat; reflexivity.
    + destruct (Nat.ltb_spec j' k), (Nat.ltb_spec j' (S k)); try lia;
        reflexivity.
Qed.

(** [add_row(i, s, i)] scales row [i] by [1 + s]. *)
Lemma add_row_self_spec r c m i s :
  mat_wf r c m -> (0 < r)%nat ->
  mat_wf r c (add_row m i s i)
  /\ forall i' j',
       mget (add_row m i s i) i' j'
       = if (i =? i')%nat && (i <? r)%nat && (j' <? c)%nat
         then mget m i' j' + s * mget m i' j' else mget m i' j'.
Proof.
  intros H Hr. unfold add_row. rewrite (mat_wf_mcols r c m H Hr).
  assert (G : mat_wf r c (for_n c (fun k acc => madd acc i k (s * mget acc i k)) m)
    /\ forall i' j',
       mget (for_n c (fun k acc => madd acc i k (s * mget acc i k)) m) i' j'
       = if (i =? i')%nat && (j' <? c)%nat && (i <? r)%nat && (j' <? c)%nat
         then mget m i' j' + s * mget m i' j' else mget m i' j').
  { apply (for_n_ind (fun k x =>
      mat_wf r c x /\ forall i' j', mget x i' j'
        = if (i =? i')%nat && (j' <? k)%nat && (i <? r)%nat && (j' <? c)%nat
          then mget m i' j' + s * mget m i' j' else mget m i' j')).
    - split; [exact H|]. intros i' j'. rewrite andb_false_r. reflexivity.
    - intros k x Hk [Hwf Hx]. split; [apply mat_wf_madd; exact Hwf|].
      intros i' j'. rewrite (mget_madd r c) by exact Hwf. rewrite !Hx.
      rewrite Nat.eqb_refl. simpl.
      destruct (Nat.ltb_spec k k); [lia|]. simpl.
      destruct (Nat.eqb_spec i i') as [<-|Hne]; simpl; [|lra].
      destruct (Nat.eqb_spec k j') as [->|Hne]; simpl.
      + destruct (Nat.ltb_spec j' (S j')); [|lia].
        destruct (Nat.ltb_spec j' j'); [lia|]. simpl.
        destruct (i <? r)%nat, (j' <? c)%nat; simpl; lra.
      + destruct (Nat.ltb_spec j' k), (Nat.ltb_spec j' (S k)); try lia;
          simpl; destruct (i <? r)%nat, (j' <? c)%nat; simpl; lra. }
  destruct G as [G1 G2]. split; [exact G1|]. intros i' j'. rewrite G2.
  destruct (i =? i')%nat, (j' <? c)%nat, (i <? r)%nat; reflexivity.
Qed.

(** ** Constraint Enforcer *)

Section Constraints.
Context `{CO : Collaborators}.

Lemma apply_constraints_residual s lr lj value dofs :
  length (fst (apply_constraints s lr lj value dofs)) = length lr
  /\ forall i,
       vget (fst (apply_constraints s lr lj value dofs)) i
       = if (i <? length dofs)%nat && (i <? length lr)%nat
         then residual_after_constraints s value dofs i (vget lr i)
         else vget lr i.
Proof.
  unfold apply_constraints.
  apply (for_n_ind (fun k acc =>
    length (fst acc) = length lr
    /\ forall i, vget (fst acc) i
         = if (i <? k)%nat && (i <? length lr)%nat
           then residual_after_constraints s value dofs i (vget lr i)
           else vget lr i)).
  - split; [reflexivity|]. intros i. reflexivity.
  - intros k [lr' lj'] Hk [Hlen Hx]. cbn [fst] in *.
    assert (Hold : vget lr' k = vget lr k).
    { rewrite Hx. destruct (Nat.ltb_spec k k); [lia | reflexivity]. }
    assert (Hother : forall i, i <> k ->
      ((i <? S k)%nat && (i <? length lr)%nat
       = (i <? k)%nat && (i <? length lr)%nat)).
    { intros i Hi. f_equal.
      destruct (Nat.ltb_spec i (S k)), (Nat.ltb_spec i k); try lia; reflexivity. }
    assert (Hsame : ((k <? S k)%nat && (k <? length lr)%nat)
                    = (k <? length lr)%nat).
    { destruct (Nat.ltb_spec k (S k)); [reflexivity | lia]. }
    unfold residual_after_constraints, pinned, gauge_active in *.
    destruct (boundary_values (par s) !! dof dofs k) as [v|] eqn:Hbv;
      destruct (all_DBC (par s) && negb (fix_pressure (par s))) eqn:Hg;
      destruct (dof dofs k =? constraining_dof s)%nat eqn:Hcd;
      cbn [fst andb]; rewrite ?length_vset; (split; [exact Hlen|]);
      intros i; rewrite ?vget_vset, ?length_vset, ?Hlen;
      (destruct (Nat.eqb_spec k i) as [<-|Hne];
       [ rewrite Hsame, ?Hbv, ?Hcd; cbn [andb];
         destruct (k <? length lr)%nat eqn:Hkl; cbn [andb];
         rewrite ?Hkl, ?Hold; reflexivity
       | cbn [andb]; rewrite Hother by congruence; apply Hx ]).
Qed.

Lemma apply_constraints_no_jacobian s lr lj value dofs :
  mempty lj = true -> snd (apply_constraints s lr lj value dofs) = lj.
Proof.
  intros He. unfold apply_constraints.
  apply (for_n_invariant (fun acc => snd acc = lj)); [reflexivity|].
  intros i [lr' lj'] _ Hx. cbn [snd] in *. subst lj'.
  destruct (boundary_values (par s) !! dof dofs i);
    destruct (all_DBC (par s) && negb (fix_pressure (par s)));
    destruct (dof dofs i =? constraining_dof s)%nat;
    cbn [snd]; rewrite ?He; cbn [negb]; rewrite ?He; reflexivity.
Qed.

Lemma mempty_wf n m : mat_wf n n m -> (0 < n)%nat -> mempty m = false.
Proof.
  intros H Hn. unfold mempty. rewrite (mat_wf_mcols n n m H Hn).
  destruct H as [Hr _]. rewrite Hr.
  destruct (Nat.eqb_spec n 0); [lia | reflexivity].
Qed.

Lemma apply_constraints_jacobian s lr lj value dofs n :
  mat_wf n n lj -> (0 < n)%nat ->
  mat_wf n n (snd (apply_constraints s lr lj value dofs))
  /\ forall i j,
       mget (snd (apply_constraints s lr lj value dofs)) i j
       = if (i <? length dofs)%nat && (i <? n)%nat && (j <? n)%nat
         then jacobian_after_constraints s dofs i j (mget lj i j)
         else mget lj i j.
Proof.
  intros Hwf Hn. unfold apply_constraints.
  apply (for_n_ind (fun k acc =>
    mat_wf n n (snd acc)
    /\ forall i j, mget (snd acc) i j
         = if (i <? k)%nat && (i <? n)%nat && (j <? n)%nat
           then jacobian_after_constraints s dofs i j (mget lj i j)
           else mget lj i j)).
  - split; [exact Hwf|]. intros i j. reflexivity.
  - intros k [lr' lj'] Hk [Hw Hx]. cbn [snd] in *.
    pose proof (mempty_wf n lj' Hw Hn) as He.
    pose proof (mat_wf_mcols n n lj' Hw Hn) as Hc.
    rewrite He, Hc. cbn [negb].
    destruct (zero_row_spec n n lj' k n Hw) as [Zw Zx].
    pose proof (mat_wf_mset n n _ k k (scaling s) Zw) as Sw.
    set (lj1 := mset (for_n n (fun j m => mset m k j 0) lj') k k (scaling s))
      in *.
    assert (Sx : forall i j, mget lj1 i j
      = if (k =? i)%nat && (k <? n)%nat && (j <? n)%nat
        then (if (i =? j)%nat then scaling s else 0) else mget lj' i j).
    { intros i j. unfold lj1. rewrite (mget_mset n n) by exact Zw. rewrite Zx.
      destruct (Nat.eqb_spec k i) as [->|Hne]; cbn [andb]; [|reflexivity].
      destruct (Nat.eqb_spec i j) as [->|Hne]; cbn [andb].
      - destruct (j <? n)%nat; reflexivity.
      - destruct (i <? n)%nat, (j <? n)%nat; reflexivity. }
    assert (Hold : forall j, mget lj' k j = mget lj k j).
    { intros j. rewrite Hx. destruct (Nat.ltb_spec k k); [lia | reflexivity]. }
    assert (Hother : forall i j, i <> k ->
      ((i <? S k)%nat && (i <? n)%nat && (j <? n)%nat
       = (i <? k)%nat && (i <? n)%nat && (j <? n)%nat)).
    { intros i j Hi. do 2 f_equal.
      destruct (Nat.ltb_spec i (S k)), (Nat.ltb_spec i k); try lia; reflexivity. }
    assert (Hsame : forall j, ((k <? S k)%nat && (k <? n)%nat && (j <? n)%nat)
                    = (k <? n)%nat && (j <? n)%nat).
    { intros j. destruct (Nat.ltb_spec k (S k)); [reflexivity | lia]. }
    unfold jacobian_after_constraints, pinned, gauge_active in *.
    destruct (boundary_values (par s) !! dof dofs k) as [v|] eqn:Hbv;
      destruct (all_DBC (par s) && negb (fix_pressure (par s))) eqn:Hg;
      destruct (dof dofs k =? constraining_dof s)%nat eqn:Hcd;
      cbn [snd andb]; rewrite ?(mempty_wf n lj1 Sw Hn), ?He; cbn [negb].
    all: try (destruct (add_row_self_spec n n lj1 k (-1) Sw Hn) as [Aw Ax]).
    all: try (destruct (add_row_self_spec n n lj' k (-1) Hw Hn) as [Aw' Ax']).
    all: split; [assumption|]; intros i j;
      rewrite ?Ax, ?Ax', ?Sx;
      (destruct (Nat.eqb_spec k i) as [<-|Hne];
       [ rewrite Hsame, ?Hbv, ?Hcd; cbn [andb];
         destruct (k <? n)%nat eqn:Hkl, (j <? n)%nat eqn:Hjl; cbn [andb];
         rewrite ?Hold; reflexivity
       | cbn [andb]; rewrite Hother by congruence; apply Hx ]).
Qed.

End Constraints.

(** ** Accumulation loops on the local quantities of a cell *)

Section Additive.
Context `{CO : Collaborators}.

Lemma additive_id N M :
  additive N M (fun L => L) (fun _ => 0) (fun _ _ => 0) 0 (fun _ => 0).
Proof.
  intros L H. split; [exact H|]. repeat split; intros; lra.
Qed.

Lemma additive_ext N M step dr dj da dc dr' dj' da' dc' :
  additive N M step dr dj da dc ->
  (forall k, dr k = dr' k) -> (forall k l, dj k l = dj' k l) -> da = da' ->
  (forall k, dc k = dc' k) ->
  additive N M step dr' dj' da' dc'.
Proof.
  intros H Hr Hj Ha Hc L Hwf. destruct (H L Hwf) as (W & A & B & C & D).
  split; [exact W|]. split; [|split; [|split]].
  - intros k. rewrite A, Hr. reflexivity.
  - intros k l. rewrite B, Hj. reflexivity.
  - rewrite C, Ha. reflexivity.
  - intros k. rewrite D, Hc. reflexivity.
Qed.

Lemma additive_comp N M s1 s2 dr1 dj1 da1 dc1 dr2 dj2 da2 dc2 :
  additive N M s1 dr1 dj1 da1 dc1 -> additive N M s2 dr2 dj2 da2 dc2 ->
  additive N M (fun L => s2 (s1 L))
    (fun k => dr1 k + dr2 k) (fun k l => dj1 k l + dj2 k l) (da1 + da2)
    (fun k => dc1 k + dc2 k).
Proof.
  intros H1 H2 L Hwf. destruct (H1 L Hwf) as (W1 & A1 & B1 & C1 & D1).
  destruct (H2 (s1 L) W1) as (W2 & A2 & B2 & C2 & D2).
  split; [exact W2|]. split; [|split; [|split]].
  - intros k. rewrite A2, A1. lra.
  - intros k l. rewrite B2, B1. lra.
  - rewrite C2, C1. lra.
  - intros k. rewrite D2, D1. lra.
Qed.

Lemma additive_for_n N M n (body : nat -> LocalAssembly -> LocalAssembly)
  dr dj da dc :
  (forall i, (i < n)%nat -> additive N M (body i) (dr i) (dj i) (da i) (dc i)) ->
  additive N M (for_n n body)
    (fun k => Rsum n (fun i => dr i k))
    (fun k l => Rsum n (fun i => dj i k l))
    (Rsum n da)
    (fun k => Rsum n (fun i => dc i k)).
Proof.
  induction n as [|n IH]; intros H.
  - apply additive_id.
  - intros L Hwf. rewrite for_n_S.
    assert (Hn : forall i, (i < n)%nat ->
              additive N M (body i) (dr i) (dj i) (da i) (dc i))
      by (intros i Hi; apply H; lia).
    destruct (IH Hn L Hwf) as (W1 & A1 & B1 & C1 & D1).
    destruct (H n (Nat.lt_succ_diag_r n) _ W1) as (W2 & A2 & B2 & C2 & D2).
    split; [exact W2|]. split; [|split; [|split]].
    + intros k. rewrite A2, A1. simpl. lra.
    + intros k l. rewrite B2, B1. simpl. lra.
    + rewrite C2, C1. simpl. lra.
    + intros k. rewrite D2, D1. simpl. lra.
Qed.

Lemma additive_if N M (b : bool) s1 s2 dr1 dj1 da1 dc1 dr2 dj2 da2 dc2 :
  additive N M s1 dr1 dj1 da1 dc1 -> additive N M s2 dr2 dj2 da2 dc2 ->
  additive N M (fun L => if b then s1 L else s2 L)
    (fun k => if b then dr1 k else dr2 k)
    (fun k l => if b then dj1 k l else dj2 k l)
    (if b then da1 else da2)
    (fun k => if b then dc1 k else dc2 k).
Proof. destruct b; auto. Qed.

Lemma additive_res_add N M i x :
  additive N M (on_res (fun r => vadd r i x))
    (fun k => if (i =? k)%nat && (i <? N)%nat then x else 0)
    (fun _ _ => 0) 0 (fun _ => 0).
Proof.
  intros L (Hr & Hj & Hc). split.
  - split; [|split]; local_simpl; [rewrite length_vadd|..]; assumption.
  - local_simpl. split; [|split; [|split]]; intros; try lra.
    rewrite vget_vadd, Hr. reflexivity.
Qed.

Lemma additive_res_sub N M i x :
  additive N M (on_res (fun r => vsub r i x))
    (fun k => if (i =? k)%nat && (i <? N)%nat then - x else 0)
    (fun _ _ => 0) 0 (fun _ => 0).
Proof.
  intros L (Hr & Hj & Hc). split.
  - split; [|split]; local_simpl; [rewrite length_vsub|..]; assumption.
  - local_simpl. split; [|split; [|split]]; intros; try lra.
    rewrite vget_vsub, Hr. reflexivity.
Qed.

Lemma additive_jac_add N M i j x :
  additive N M (on_jac (fun m => madd m i j x))
    (fun _ => 0)
    (fun k l => if (i =? k)%nat && (j =? l)%nat && (i <? M)%nat && (j <? M)%nat
                then x else 0)
    0 (fun _ => 0).
Proof.
  intros L (Hr & Hj & Hc). split.
  - split; [|split]; local_simpl; [|apply mat_wf_madd|]; assumption.
  - local_simpl. split; [|split; [|split]]; intros; try lra.
    apply (mget_madd M M). exact Hj.
Qed.

Lemma additive_jac_sub N M i j x :
  additive N M (on_jac (fun m => msub m i j x))
    (fun _ => 0)
    (fun k l => if (i =? k)%nat && (j =? l)%nat && (i <? M)%nat && (j <? M)%nat
                then - x else 0)
    0 (fun _ => 0).
Proof.
  intros L (Hr & Hj & Hc). split.
  - split; [|split]; local_simpl; [|apply mat_wf_msub|]; assumption.
  - local_simpl. split; [|split; [|split]]; intros; try lra.
    apply (mget_msub M M). exact Hj.
Qed.

Lemma additive_avg_add N M x :
  additive N M (on_avg (fun a => a + x)) (fun _ => 0) (fun _ _ => 0) x
    (fun _ => 0).
Proof.
  intros L Hwf. split; [exact Hwf|]. local_simpl. repeat split; intros; lra.
Qed.

Lemma additive_coef_add N M i x :
  additive N M (on_coef (fun c => vadd c i x))
    (fun _ => 0) (fun _ _ => 0) 0
    (fun k => if (i =? k)%nat && (i <? N)%nat then x else 0).
Proof.
  intros L (Hr & Hj & Hc). split.
  - split; [|split]; local_simpl; [| |rewrite length_vadd]; assumption.
  - local_simpl. split; [|split; [|split]]; intros; try lra.
    rewrite vget_vadd, Hc. reflexivity.
Qed.

Lemma local_zero_wf (u : bool) :
  local_wf n_local_dofs (if u then n_local_dofs else 0%nat) (local_zero u).
Proof.
  unfold local_zero, local_wf. cbn. rewrite !length_replicate.
  split; [reflexivity|]. split; [|reflexivity].
  destruct u; [apply mat_wf_mreinit|]. split; [reflexivity | constructor].
Qed.

Lemma local_zero_values (u : bool) :
  (forall k, vget (local_res (local_zero u)) k = 0)
  /\ (forall k l, mget (local_jacobian (local_zero u)) k l = 0)
  /\ local_average_pressure (local_zero u) = 0
  /\ (forall k, vget (local_pressure_coefficient (local_zero u)) k = 0).
Proof.
  unfold local_zero. cbn. split; [|split; [|split]].
  - intros k. apply vget_replicate.
  - intros k l. destruct u; [apply mget_mreinit | apply mget_nil].
  - reflexivity.
  - intros k. apply vget_replicate.
Qed.

End Additive.

Section FluidClosedForms.
Context `{CO : Collaborators}.

Lemma Rsum_if_const (n : nat) (b : bool) (f : nat -> R) :
  Rsum n (fun d => if b then f d else 0) = if b then Rsum n f else 0.
Proof. destruct b; [reflexivity|]. apply Rsum_zero. reflexivity. Qed.

Lemma Rsum_pick (n l : nat) (f g : nat -> R) :
  (forall j, (j < n)%nat -> f j = if (j =? l)%nat then g j else 0) ->
  Rsum n f = if (l <? n)%nat then g l else 0.
Proof.
  intros H. rewrite (Rsum_ext n f (fun j => if (j =? l)%nat then g j else 0) H).
  destruct (Nat.ltb_spec l n) as [Hl|Hl].
  - apply Rsum_single. exact Hl.
  - apply Rsum_zero. intros j Hj. destruct (Nat.eqb_spec j l); [lia|reflexivity].
Qed.

Lemma additive_jac_add_if N M (b : bool) i j x :
  additive N M (fun L => if b then on_jac (fun m => madd m i j x) L else L)
    (fun _ => 0)
    (fun k l => if b && ((i =? k)%nat && (j =? l)%nat && (i <? M)%nat
                         && (j <? M)%nat)
                then x else 0)
    0 (fun _ => 0).
Proof.
  destruct b; [apply additive_jac_add | apply additive_id].
Qed.

Lemma additive_jac_sub_if N M (b : bool) i j x :
  additive N M (fun L => if b then on_jac (fun m => msub m i j x) L else L)
    (fun _ => 0)
    (fun k l => if b && ((i =? k)%nat && (j =? l)%nat && (i <? M)%nat
                         && (j <? M)%nat)
                then - x else 0)
    0 (fun _ => 0).
Proof.
  destruct b; [apply additive_jac_sub | apply additive_id].
Qed.

Section Cell.
Variable p : IFEMParameters.
Variable dgp : bool.
Variable u : bool.
Variable alpha : R.
Variable c : FEValues.
Variables xit0 xi0 : list R.

Let N := n_local_dofs.
Let M := if u then n_local_dofs else 0%nat.
Let nf := dofs_per_cell fe_f.

Lemma nf_le_N : (nf <= N)%nat.
Proof. unfold nf, N, n_local_dofs. lia. Qed.

(** The loop over the trial functions that adds to row [i] of the local
    Jacobian an amount [x j] in column [j]. *)
Lemma additive_row_loop (i : nat) (body : nat -> LocalAssembly -> LocalAssembly)
  (x : nat -> R) :
  (i < nf)%nat ->
  (forall j, (j < nf)%nat ->
     additive N M (body j) (fun _ => 0)
       (fun k l => if (i =? k)%nat && (j =? l)%nat && (i <? M)%nat
                      && (j <? M)%nat then x j else 0)
       0 (fun _ => 0)) ->
  additive N M (fun L => if u then for_n nf body L else L)
    (fun _ => 0)
    (fun k l => if (i =? k)%nat && (l <? nf)%nat && u then x l else 0)
    0 (fun _ => 0).
Proof.
  intros Hi Hb.
  pose proof (additive_if N M u _ (fun L => L) _ _ _ _ _ _ _ _
                (additive_for_n N M nf body _ _ _ _ Hb)
                (additive_id N M)) as H.
  eapply additive_ext; [exact H|..]; cbv beta.
  - intros k. destruct u; [apply Rsum_zero|]; reflexivity.
  - intros k l. unfold M. pose proof nf_le_N as HN. unfold N in HN.
    destruct u.
    + rewrite andb_true_r.
      rewrite (Rsum_pick nf l _
        (fun j => if (i =? k)%nat then x j else 0)).
      * destruct (i =? k)%nat, (l <? nf)%nat; reflexivity.
      * intros j Hj. destruct (Nat.eqb_spec j l) as [->|Hne].
        -- destruct (Nat.ltb_spec i n_local_dofs); [|lia].
           destruct (Nat.ltb_spec l n_local_dofs); [|lia].
           rewrite !andb_true_r. reflexivity.
        -- destruct (i =? k)%nat; reflexivity.
    + rewrite andb_false_r. reflexivity.
  - destruct u; [apply Rsum_zero|]; reflexivity.
  - intros k. destruct u; [apply Rsum_zero|]; reflexivity.
Qed.

Let upt (q k : nat) : R := get_function_values fe_f c xit0 q k.
Let up (q k : nat) : R := get_function_values fe_f c xi0 q k.
Let gup (q k d : nat) : R := get_function_gradients fe_f c xi0 q k d.
Let frc (q k : nat) : R := force (force_time p) (quadrature_point c q) k.
Let sv := shape_value c.
Let sg := shape_grad c.
Let W := JxW c.
Let cmp := component fe_f.

(** One quadrature point of the equation in V' only accumulates, in entry
    [i] of the local residual and in row [i] of the local Jacobian. *)
Lemma velocity_equation_additive (i q : nat) :
  (i < nf)%nat ->
  additive N M (velocity_equation p u alpha c xit0 xi0 i q)
    (fun k => if (i =? k)%nat
              then velocity_residual_term p c xit0 xi0 i q else 0)
    (fun k l => if (i =? k)%nat && (l <? nf)%nat && u
                then velocity_jacobian_term p alpha c xi0 i l q else 0)
    0 (fun _ => 0).
Proof.
  intros Hi.
  pose proof nf_le_N as HN.
  assert (HiN : (i <? N)%nat = true) by (apply Nat.ltb_lt; lia).
  (* the four parts of the step *)
  pose proof (additive_res_add N M i
    (rho p * (upt q (cmp i) - frc q (cmp i)) * sv i q * W q
     - up q dim * sg i q (cmp i) * W q)) as A1.
  assert (A2 : additive N M
    (fun L => if u then for_n nf (fun j La =>
        let Lb := if (cmp i =? cmp j)%nat
                  then on_jac (fun m => madd m i j
                         (rho p * alpha * sv i q * sv j q * W q)) La
                  else La in
        if (cmp j =? dim)%nat
        then on_jac (fun m => msub m i j (sg i q (cmp i) * sv j q * W q)) Lb
        else Lb) L else L)
    (fun _ => 0)
    (fun k l => if (i =? k)%nat && (l <? nf)%nat && u
       then (if (cmp i =? cmp l)%nat
             then rho p * alpha * sv i q * sv l q * W q else 0)
            + (if (cmp l =? dim)%nat
               then - (sg i q (cmp i) * sv l q * W q) else 0)
       else 0)
    0 (fun _ => 0)).
  { apply (additive_row_loop i _
      (fun j => (if (cmp i =? cmp j)%nat
                 then rho p * alpha * sv i q * sv j q * W q else 0)
                + (if (cmp j =? dim)%nat
                   then - (sg i q (cmp i) * sv j q * W q) else 0)) Hi).
    intros j Hj.
    eapply additive_ext;
      [exact (additive_comp N M _ _ _ _ _ _ _ _ _ _
               (additive_jac_add_if N M (cmp i =? cmp j)%nat i j _)
               (additive_jac_sub_if N M (cmp j =? dim)%nat i j _))|..];
      cbv beta; intros; try lra.
    destruct (cmp i =? cmp j)%nat, (cmp j =? dim)%nat,
      ((i =? k)%nat && (j =? l)%nat && (i <? M)%nat && (j <? M)%nat);
      cbn [andb]; lra. }
  assert (A3 : additive N M
    (for_n dim (fun d La => on_res (fun r => vadd r i
       (eta p * (gup q (cmp i) d + gup q d (cmp i)) * sg i q d * W q
        + rho p * gup q (cmp i) d * up q d * sv i q * W q)) La))
    (fun k => if (i =? k)%nat
       then Rsum dim (fun d =>
              eta p * (gup q (cmp i) d + gup q d (cmp i)) * sg i q d * W q
              + rho p * gup q (cmp i) d * up q d * sv i q * W q)
       else 0)
    (fun _ _ => 0) 0 (fun _ => 0)).
  { eapply additive_ext;
      [apply (additive_for_n N M dim _ _ _ _ _
                (fun d _ => additive_res_add N M i _))|..]; cbv beta.
    - intros k. rewrite HiN, andb_true_r. apply Rsum_if_const.
    - intros k l. apply Rsum_zero. reflexivity.
    - apply Rsum_zero. reflexivity.
    - intros k. apply Rsum_zero. reflexivity. }
  assert (A4 : additive N M
    (fun L => if u then for_n nf (fun j La =>
        let Lb := if (cmp j =? cmp i)%nat
                  then for_n dim (fun d Lc =>
                         on_jac (fun m => madd m i j
                           (eta p * sg i q d * sg j q d * W q
                            + rho p * sv i q * up q d * sg j q d * W q)) Lc) La
                  else La in
        if (cmp j <? dim)%nat
        then on_jac (fun m => madd m i j
               (eta p * sg i q (cmp j) * sg j q (cmp i) * W q
                + rho p * gup q (cmp i) (cmp j) * sv i q * sv j q * W q)) Lb
        else Lb) L else L)
    (fun _ => 0)
    (fun k l => if (i =? k)%nat && (l <? nf)%nat && u
       then (if (cmp l =? cmp i)%nat
             then Rsum dim (fun d =>
                    eta p * sg i q d * sg l q d * W q
                    + rho p * sv i q * up q d * sg l q d * W q)
             else 0)
            + (if (cmp l <? dim)%nat
               then eta p * sg i q (cmp l) * sg l q (cmp i) * W q
                    + rho p * gup q (cmp i) (cmp l) * sv i q * sv l q * W q
               else 0)
       else 0)
    0 (fun _ => 0)).
  { apply (additive_row_loop i _
      (fun j => (if (cmp j =? cmp i)%nat
                 then Rsum dim (fun d =>
                        eta p * sg i q d * sg j q d * W q
                        + rho p * sv i q * up q d * sg j q d * W q)
                 else 0)
                + (if (cmp j <? dim)%nat
                   then eta p * sg i q (cmp j) * sg j q (cmp i) * W q
                        + rho p * gup q (cmp i) (cmp j) * sv i q * sv j q * W q
                   else 0)) Hi).
    intros j Hj.
    eapply additive_ext;
      [exact (additive_comp N M _ _ _ _ _ _ _ _ _ _
               (additive_if N M (cmp j =? cmp i)%nat _ (fun L => L)
                  _ _ _ _ _ _ _ _
                  (additive_for_n N M dim _ _ _ _ _
                     (fun d _ => additive_jac_add N M i j
                        (eta p * sg i q d * sg j q d * W q
                         + rho p * sv i q * up q d * sg j q d * W q)))
                  (additive_id N M))
               (additive_jac_add_if N M (cmp j <? dim)%nat i j _))|..];
      cbv beta.
    - intros k. destruct (cmp j =? cmp i)%nat;
        [rewrite Rsum_zero by reflexivity|]; lra.
    - intros k l. rewrite Rsum_if_const.
      destruct (cmp j =? cmp i)%nat, (cmp j <? dim)%nat,
        ((i =? k)%nat && (j =? l)%nat && (i <? M)%nat && (j <? M)%nat);
        cbn [andb]; lra.
    - destruct (cmp j =? cmp i)%nat;
        [rewrite Rsum_zero by reflexivity|]; lra.
    - intros k. destruct (cmp j =? cmp i)%nat;
        [rewrite Rsum_zero by reflexivity|]; lra. }
  eapply additive_ext;
    [exact (additive_comp N M _ _ _ _ _ _ _ _ _ _
             (additive_comp N M _ _ _ _ _ _ _ _ _ _
                (additive_comp N M _ _ _ _ _ _ _ _ _ _ A1 A2) A3) A4)|..];
    cbv beta.
  - intros k. rewrite HiN, andb_true_r.
    unfold velocity_residual_term. unfold upt, up, gup, frc, sv, sg, W, cmp.
    destruct (i =? k)%nat; lra.
  - intros k l. unfold velocity_jacobian_term. unfold upt, up, gup, frc, sv, sg, W, cmp.
    destruct ((i =? k)%nat && (l <? nf)%nat && u); lra.
  - lra.
  - intros k. lra.
Qed.

(** One quadrature point of the equation in Q' only accumulates, in entry
    [i] of the local residual, in row [i] of the local Jacobian, in the
    average of the pressure and in entry [i] of its coefficients. *)
Lemma pressure_equation_additive (i q : nat) :
  (i < nf)%nat ->
  additive N M (pressure_equation p dgp u c xi0 i q)
    (fun k => if (i =? k)%nat then pressure_residual_term c xi0 i q else 0)
    (fun k l => if (i =? k)%nat && (l <? nf)%nat && u
                then pressure_jacobian_term c i l q else 0)
    (average_pressure_term p dgp c xi0 i q)
    (fun k => if (i =? k)%nat
              then pressure_coefficient_term p dgp u c i q else 0).
Proof.
  intros Hi.
  pose proof nf_le_N as HN.
  assert (HiN : (i <? N)%nat = true) by (apply Nat.ltb_lt; lia).
  assert (A1 : additive N M
    (for_n dim (fun d La => on_res (fun r => vsub r i
       (gup q d d * sv i q * W q)) La))
    (fun k => if (i =? k)%nat
       then Rsum dim (fun d => - (gup q d d * sv i q * W q)) else 0)
    (fun _ _ => 0) 0 (fun _ => 0)).
  { eapply additive_ext;
      [apply (additive_for_n N M dim _ _ _ _ _
                (fun d _ => additive_res_sub N M i _))|..]; cbv beta.
    - intros k. rewrite HiN, andb_true_r. apply Rsum_if_const.
    - intros k l. apply Rsum_zero. reflexivity.
    - apply Rsum_zero. reflexivity.
    - intros k. apply Rsum_zero. reflexivity. }
  assert (A2 : additive N M
    (fun L => if u then for_n nf (fun j La =>
        if (cmp j <? dim)%nat
        then on_jac (fun m => msub m i j (sv i q * sg j q (cmp j) * W q)) La
        else La) L else L)
    (fun _ => 0)
    (fun k l => if (i =? k)%nat && (l <? nf)%nat && u
       then (if (cmp l <? dim)%nat
             then - (sv i q * sg l q (cmp l) * W q) else 0)
       else 0)
    0 (fun _ => 0)).
  { apply (additive_row_loop i _
      (fun j => if (cmp j <? dim)%nat
                then - (sv i q * sg j q (cmp j) * W q) else 0) Hi).
    intros j Hj.
    eapply additive_ext;
      [exact (additive_jac_sub_if N M (cmp j <? dim)%nat i j _)|..];
      cbv beta; intros; try lra.
    destruct (cmp j <? dim)%nat,
      ((i =? k)%nat && (j =? l)%nat && (i <? M)%nat && (j <? M)%nat);
      cbn [andb]; lra. }
  assert (A3 : additive N M
    (fun L =>
       if all_DBC p && negb (fix_pressure p)
       then
         if negb dgp || (dgp && (component_index fe_f i =? 0)%nat)
         then
           if u
           then on_coef (fun x => vadd x i (sv i q * W q))
                  (on_avg (fun a => a + vget xi0 (dof (dof_indices c) i)
                                        * sv i q * W q) L)
           else on_avg (fun a => a + vget xi0 (dof (dof_indices c) i)
                                     * sv i q * W q) L
         else L
       else L)
    (fun _ => 0) (fun _ _ => 0)
    (average_pressure_term p dgp c xi0 i q)
    (fun k => if (i =? k)%nat
              then pressure_coefficient_term p dgp u c i q else 0)).
  { unfold average_pressure_term, pressure_coefficient_term,
      in_pressure_average.
    destruct (all_DBC p && negb (fix_pressure p));
      destruct (negb dgp || (dgp && (component_index fe_f i =? 0)%nat));
      destruct u; cbn [andb].
    all: try (eapply additive_ext; [apply additive_id|..]; cbv beta;
              intros; try reflexivity; destruct (i =? k)%nat; reflexivity).
    - eapply additive_ext;
        [exact (additive_comp N M _ _ _ _ _ _ _ _ _ _
                 (additive_avg_add N M _) (additive_coef_add N M i _))|..];
        cbv beta; intros; try (unfold sv, W; lra).
      rewrite HiN, andb_true_r. unfold sv, W. destruct (i =? k)%nat; lra.
    - eapply additive_ext; [apply additive_avg_add|..]; cbv beta;
        intros; try reflexivity. destruct (i =? k)%nat; reflexivity. }
  eapply additive_ext;
    [exact (additive_comp N M _ _ _ _ _ _ _ _ _ _
             (additive_comp N M _ _ _ _ _ _ _ _ _ _ A1 A2) A3)|..];
    cbv beta.
  - intros k. unfold pressure_residual_term.
    unfold gup, sv, W. destruct (i =? k)%nat; lra.
  - intros k l. unfold pressure_jacobian_term. unfold sv, sg, W, cmp.
    destruct ((i =? k)%nat && (l <? nf)%nat && u); lra.
  - lra.
  - intros k. lra.
Qed.

Lemma Rsum_pick_row (n m k : nat) (f : nat -> nat -> R) :
  Rsum n (fun i => Rsum m (fun q => if (i =? k)%nat then f i q else 0))
  = if (k <? n)%nat then Rsum m (f k) else 0.
Proof.
  apply (Rsum_pick n k _ (fun i => Rsum m (f i))).
  intros i _. apply Rsum_if_const.
Qed.

(** The local quantities of a fluid cell in closed form. *)
Lemma fluid_cell_local_closed :
  let L := fluid_cell_local p dgp u alpha c xit0 xi0 in
  local_wf N M L
  /\ (forall k, vget (local_res L) k
        = if (k <? nf)%nat then fluid_residual_entry p c xit0 xi0 k else 0)
  /\ (forall k l, mget (local_jacobian L) k l
        = if (k <? nf)%nat && (l <? nf)%nat && u
          then fluid_jacobian_entry p alpha c xi0 k l else 0)
  /\ local_average_pressure L
     = Rsum nf (fun i => Rsum nqpf (fun q =>
         if (cmp i <? dim)%nat then 0
         else average_pressure_term p dgp c xi0 i q))
  /\ (forall k, vget (local_pressure_coefficient L) k
        = if (k <? nf)%nat
          then Rsum nqpf (fun q =>
                 if (cmp k <? dim)%nat then 0
                 else pressure_coefficient_term p dgp u c k q)
          else 0).
Proof.
  cbn zeta. unfold fluid_cell_local.
  assert (A : forall i, (i < nf)%nat ->
    additive N M
      (fun L => for_n nqpf (fun q L' =>
         if (component fe_f i <? dim)%nat
         then velocity_equation p u alpha c xit0 xi0 i q L'
         else pressure_equation p dgp u c xi0 i q L') L)
      (fun k => Rsum nqpf (fun q => if (i =? k)%nat
         then (if (cmp i <? dim)%nat
               then velocity_residual_term p c xit0 xi0 i q
               else pressure_residual_term c xi0 i q) else 0))
      (fun k l => Rsum nqpf (fun q => if (i =? k)%nat
         then (if (l <? nf)%nat && u
               then (if (cmp i <? dim)%nat
                     then velocity_jacobian_term p alpha c xi0 i l q
                     else pressure_jacobian_term c i l q)
               else 0) else 0))
      (Rsum nqpf (fun q => if (cmp i <? dim)%nat then 0
                           else average_pressure_term p dgp c xi0 i q))
      (fun k => Rsum nqpf (fun q => if (i =? k)%nat
         then (if (cmp i <? dim)%nat then 0
               else pressure_coefficient_term p dgp u c i q) else 0))).
  { intros i Hi.
    eapply additive_ext;
      [apply (additive_for_n N M nqpf _ _ _ _ _
               (fun q _ => additive_if N M (component fe_f i <? dim)%nat
                             _ _ _ _ _ _ _ _ _ _
                             (velocity_equation_additive i q Hi)
                             (pressure_equation_additive i q Hi)))|..];
      cbv beta; unfold cmp.
    - intros k. apply Rsum_ext. intros q _.
      destruct (component fe_f i <? dim)%nat, (i =? k)%nat; reflexivity.
    - intros k l. apply Rsum_ext. intros q _.
      destruct (component fe_f i <? dim)%nat, (i =? k)%nat, (l <? nf)%nat, u;
        reflexivity.
    - reflexivity.
    - intros k. apply Rsum_ext. intros q _.
      destruct (component fe_f i <? dim)%nat, (i =? k)%nat; reflexivity. }
  pose proof (additive_for_n N M nf _ _ _ _ _ A (local_zero u)
                (local_zero_wf u)) as (Wf & Hr & Hj & Ha & Hc).
  destruct (local_zero_values u) as (Zr & Zj & Za & Zc).
  split; [exact Wf|]. split; [|split; [|split]].
  - intros k. rewrite Hr, Zr, Rsum_pick_row. unfold fluid_residual_entry.
    fold nf. unfold cmp. destruct (k <? nf)%nat; lra.
  - intros k l. rewrite Hj, Zj, Rsum_pick_row. unfold fluid_jacobian_entry.
    fold nf. unfold cmp.
    destruct (k <? nf)%nat; cbn [andb]; [|lra].
    destruct ((l <? nf)%nat && u); [lra|].
    rewrite Rsum_zero by reflexivity. lra.
  - etransitivity; [exact Ha|]. rewrite Za. lra.
  - intros k. rewrite Hc, Zc, Rsum_pick_row. fold nf.
    destruct (k <? nf)%nat; lra.
Qed.

End Cell.
End FluidClosedForms.

(** ** The fluid-fluid Jacobian is the derivative of the residual *)

Section FluidJacobian.
Context `{CO : Collaborators}.

(** A function that is a polynomial of degree two in [h] has its linear
    coefficient as derivative at 0. *)
Lemma quadratic_derivative (f : R -> R) (a b c : R) :
  (forall h, f h = a + h * b + h * h * c) -> derivable_pt_lim f 0 b.
Proof.
  intros Hf eps Heps.
  assert (Hd : 0 < eps / (Rabs c + 1)).
  { apply Rdiv_lt_0_compat; [exact Heps|]. pose proof (Rabs_pos c). lra. }
  exists (mkposreal _ Hd). intros h Hh Hlt. simpl in Hlt.
  rewrite !Hf, Rplus_0_l.
  replace ((a + h * b + h * h * c - (a + 0 * b + 0 * 0 * c)) / h - b)
    with (h * c) by (field; exact Hh).
  rewrite Rabs_mult.
  pose proof (Rabs_pos c) as Hc. pose proof (Rabs_pos h) as Hh'.
  apply Rle_lt_trans with (Rabs h * (Rabs c + 1)); [nra|].
  apply Rlt_le_trans with (eps / (Rabs c + 1) * (Rabs c + 1)).
  - apply Rmult_lt_compat_r; [lra | exact Hlt].
  - right. field. lra.
Qed.

Lemma Rsum_quadratic (n : nat) (f t0 t1 t2 : nat -> R) (h : R) :
  (forall q, (q < n)%nat -> f q = t0 q + h * t1 q + h * h * t2 q) ->
  Rsum n f = Rsum n t0 + h * Rsum n t1 + h * h * Rsum n t2.
Proof.
  intros H. rewrite (Rsum_ext n f _ H).
  rewrite !Rsum_plus, !Rsum_scal. reflexivity.
Qed.

Lemma Rsum_quadratic2 (n : nat) (f t0 t1 t1' t2 : nat -> R) (h : R) :
  (forall q, (q < n)%nat ->
     f q = t0 q + h * (t1 q + t1' q) + h * h * t2 q) ->
  Rsum n f = Rsum n t0 + h * (Rsum n t1 + Rsum n t1') + h * h * Rsum n t2.
Proof.
  intros H. rewrite (Rsum_ext n f _ H).
  rewrite !Rsum_plus, !Rsum_scal, Rsum_plus. reflexivity.
Qed.

Section Perturbation.
Variable c : FEValues.
Variable j : nat.

Let nf := dofs_per_cell fe_f.
Let g := dof (dof_indices c) j.
Let cmp := component fe_f.

Hypothesis Hj : (j < nf)%nat.
Hypothesis Hinj : forall j', (j' < nf)%nat ->
  dof (dof_indices c) j' = dof (dof_indices c) j -> j' = j.

(** Changing the dof [g] of the vector by [h] changes the value of the
    field at a quadrature point by [h] times the shape function [j]. *)
Lemma get_function_values_perturbed (x : list R) (h : R) (q k : nat) :
  (g < length x)%nat ->
  get_function_values fe_f c (vadd x g h) q k
  = get_function_values fe_f c x q k
    + h * (if (cmp j =? k)%nat then shape_value c j q else 0).
Proof.
  intros Hg. unfold get_function_values. fold nf.
  rewrite <- (Rsum_single nf j
    (fun j' => h * (if (cmp j' =? k)%nat then shape_value c j' q else 0)) Hj).
  rewrite <- Rsum_plus. apply Rsum_ext. intros j' Hj'.
  rewrite vget_vadd. unfold cmp.
  destruct (Nat.ltb_spec g (length x)); [|lia]. rewrite andb_true_r.
  destruct (Nat.eqb_spec j' j) as [->|Hne].
  - fold g. rewrite Nat.eqb_refl.
    destruct (component fe_f j =? k)%nat; lra.
  - destruct (Nat.eqb_spec g (dof (dof_indices c) j')) as [He|He].
    + exfalso. apply Hne. apply Hinj; [exact Hj' | symmetry; exact He].
    + destruct (component fe_f j' =? k)%nat; lra.
Qed.

Lemma get_function_gradients_perturbed (x : list R) (h : R) (q k d : nat) :
  (g < length x)%nat ->
  get_function_gradients fe_f c (vadd x g h) q k d
  = get_function_gradients fe_f c x q k d
    + h * (if (cmp j =? k)%nat then shape_grad c j q d else 0).
Proof.
  intros Hg. unfold get_function_gradients. fold nf.
  rewrite <- (Rsum_single nf j
    (fun j' => h * (if (cmp j' =? k)%nat then shape_grad c j' q d else 0)) Hj).
  rewrite <- Rsum_plus. apply Rsum_ext. intros j' Hj'.
  rewrite vget_vadd. unfold cmp.
  destruct (Nat.ltb_spec g (length x)); [|lia]. rewrite andb_true_r.
  destruct (Nat.eqb_spec j' j) as [->|Hne].
  - fold g. rewrite Nat.eqb_refl.
    destruct (component fe_f j =? k)%nat; lra.
  - destruct (Nat.eqb_spec g (dof (dof_indices c) j')) as [He|He].
    + exfalso. apply Hne. apply Hinj; [exact Hj' | symmetry; exact He].
    + destruct (component fe_f j' =? k)%nat; lra.
Qed.

Variable p : IFEMParameters.
Variable alpha : R.
Variables xit0 xi0 : list R.
Hypothesis Hxi : (g < length xi0)%nat.
Hypothesis Hxit : (g < length xit0)%nat.

Lemma velocity_residual_term_perturbed (i q : nat) (h : R) :
  velocity_residual_term p c (vadd xit0 g (alpha * h)) (vadd xi0 g h) i q
  = velocity_residual_term p c xit0 xi0 i q
    + h * velocity_jacobian_term p alpha c xi0 i j q
    + h * h * convective_second_order p c j i q.
Proof.
  unfold velocity_residual_term, velocity_jacobian_term,
    convective_second_order. cbv zeta. fold cmp.
  rewrite !get_function_values_perturbed by assumption.
  rewrite (Rsum_quadratic2 dim _
    (fun d => eta p * (get_function_gradients fe_f c xi0 q (cmp i) d
                       + get_function_gradients fe_f c xi0 q d (cmp i))
                * shape_grad c i q d * JxW c q
              + rho p * get_function_gradients fe_f c xi0 q (cmp i) d
                * get_function_values fe_f c xi0 q d
                * shape_value c i q * JxW c q)
    (fun d => if (cmp j =? cmp i)%nat
              then eta p * shape_grad c i q d * shape_grad c j q d * JxW c q
                   + rho p * shape_value c i q
                     * get_function_values fe_f c xi0 q d
                     * shape_grad c j q d * JxW c q
              else 0)
    (fun d => if (d =? cmp j)%nat
              then eta p * shape_grad c i q d * shape_grad c j q (cmp i)
                     * JxW c q
                   + rho p * get_function_gradients fe_f c xi0 q (cmp i) d
                     * shape_value c i q * shape_value c j q * JxW c q
              else 0)
    (fun d => rho p * (if (cmp j =? cmp i)%nat then shape_grad c j q d else 0)
              * (if (cmp j =? d)%nat then shape_value c j q else 0)
              * shape_value c i q * JxW c q) h).
  - rewrite (Rsum_if_const dim (cmp j =? cmp i)%nat).
    assert (E : Rsum dim (fun d => if (d =? cmp j)%nat
        then eta p * shape_grad c i q d * shape_grad c j q (cmp i) * JxW c q
             + rho p * get_function_gradients fe_f c xi0 q (cmp i) d
               * shape_value c i q * shape_value c j q * JxW c q
        else 0)
      = if (cmp j <? dim)%nat
        then eta p * shape_grad c i q (cmp j) * shape_grad c j q (cmp i)
               * JxW c q
             + rho p * get_function_gradients fe_f c xi0 q (cmp i) (cmp j)
               * shape_value c i q * shape_value c j q * JxW c q
        else 0).
    { apply (Rsum_pick dim (cmp j) _
        (fun d => eta p * shape_grad c i q d * shape_grad c j q (cmp i)
                    * JxW c q
                  + rho p * get_function_gradients fe_f c xi0 q (cmp i) d
                    * shape_value c i q * shape_value c j q * JxW c q)).
      reflexivity. }
    rewrite E.
    rewrite (Nat.eqb_sym (cmp i) (cmp j)).
    destruct (cmp j =? cmp i)%nat, (cmp j =? dim)%nat, (cmp j <? dim)%nat;
      lra.
  - intros d _.
    rewrite !get_function_gradients_perturbed, get_function_values_perturbed
      by assumption.
    rewrite (Nat.eqb_sym d (cmp j)).
    destruct (cmp j =? cmp i)%nat, (cmp j =? d)%nat; lra.
Qed.

Lemma pressure_residual_term_perturbed (i q : nat) (h : R) :
  pressure_residual_term c (vadd xi0 g h) i q
  = pressure_residual_term c xi0 i q
    + h * pressure_jacobian_term c i j q + h * h * 0.
Proof.
  unfold pressure_residual_term, pressure_jacobian_term. cbv zeta. fold cmp.
  rewrite (Rsum_quadratic dim _
    (fun d => - (get_function_gradients fe_f c xi0 q d d
                 * shape_value c i q * JxW c q))
    (fun d => if (d =? cmp j)%nat
              then - (shape_value c i q * shape_grad c j q d * JxW c q)
              else 0)
    (fun _ => 0) h).
  - assert (E : Rsum dim (fun d => if (d =? cmp j)%nat
        then - (shape_value c i q * shape_grad c j q d * JxW c q) else 0)
      = if (cmp j <? dim)%nat
        then - (shape_value c i q * shape_grad c j q (cmp j) * JxW c q)
        else 0).
    { apply (Rsum_pick dim (cmp j) _
        (fun d => - (shape_value c i q * shape_grad c j q d * JxW c q))).
      reflexivity. }
    rewrite E.
    rewrite (Rsum_zero dim (fun _ => 0)) by reflexivity.
    destruct (cmp j <? dim)%nat; lra.
  - intros d _. rewrite get_function_gradients_perturbed by assumption.
    rewrite (Nat.eqb_sym d (cmp j)).
    destruct (cmp j =? d)%nat; lra.
Qed.

(** The local residual entry as a polynomial in the change of the dof. *)
Lemma fluid_residual_entry_perturbed (i : nat) (h : R) :
  fluid_residual_entry p c (vadd xit0 g (alpha * h)) (vadd xi0 g h) i
  = fluid_residual_entry p c xit0 xi0 i
    + h * fluid_jacobian_entry p alpha c xi0 i j
    + h * h * Rsum nqpf (fun q =>
        if (cmp i <? dim)%nat then convective_second_order p c j i q else 0).
Proof.
  unfold fluid_residual_entry, fluid_jacobian_entry. fold cmp.
  apply Rsum_quadratic. intros q _.
  destruct (cmp i <? dim)%nat.
  - apply velocity_residual_term_perturbed.
  - apply pressure_residual_term_perturbed.
Qed.

End Perturbation.
End FluidJacobian.

Section FluidJacobianTheorem.
Context `{CO : Collaborators}.

(** The time derivative of the driver, [(xi - previous_xi) / dt], changes by
    [1/dt * h] in the entry [g] when [xi] changes by [h] in that entry. *)
Lemma time_derivative_perturbed (x prev : list R) (dt0 : R) (g : nat) (h : R) :
  map (fun y => y / dt0) (zip_with Rminus (vadd x g h) prev)
  = vadd (map (fun y => y / dt0) (zip_with Rminus x prev)) g (1 / dt0 * h).
Proof.
  unfold vadd. apply list_eq. intros k.
  destruct (Nat.eq_dec g k) as [->|Hne].
  - rewrite list_lookup_fmap, lookup_zip_with.
    destruct (x !! k) as [a|] eqn:Hx.
    + assert (Hk : (k < length x)%nat) by (eapply lookup_lt_Some; exact Hx).
      rewrite list_lookup_insert_eq by exact Hk. cbn.
      destruct (prev !! k) as [b|] eqn:Hp.
      * assert (Hk' : (k < length prev)%nat)
          by (eapply lookup_lt_Some; exact Hp).
        rewrite list_lookup_insert_eq
          by (rewrite length_map, length_zip_with; lia).
        cbn. f_equal.
        rewrite !vget_lookup, list_lookup_fmap, lookup_zip_with, Hx, Hp.
        cbn. unfold Rdiv. ring.
      * cbn. rewrite list_insert_ge.
        -- rewrite list_lookup_fmap, lookup_zip_with, Hx, Hp. reflexivity.
        -- rewrite length_map, length_zip_with.
           apply lookup_ge_None in Hp. lia.
    + rewrite list_insert_ge by (apply lookup_ge_None; exact Hx).
      rewrite Hx. cbn. rewrite list_insert_ge.
      * rewrite list_lookup_fmap, lookup_zip_with, Hx. reflexivity.
      * rewrite length_map, length_zip_with.
        apply lookup_ge_None in Hx. lia.
  - rewrite list_lookup_insert_ne by exact Hne.
    rewrite !list_lookup_fmap, !lookup_zip_with.
    rewrite list_lookup_insert_ne by exact Hne. reflexivity.
Qed.

(** C2. On every fluid cell, for local dofs [i] and [j] (the dof indices of
    the cell being distinct and inside the vectors), the entry [(i,j)] of
    the local Jacobian that the Domain Assembler computes when a Jacobian
    is requested is the derivative of entry [i] of the local residual
    (inertia, pressure, viscous, convective and incompressibility terms)
    with respect to dof [j] of [xi], where [xi'] changes [alpha] times as
    much as [xi].  The driver requests the Jacobian with [alpha = 1/dt] and
    with [xi' = (xi - previous_xi)/dt], which changes [1/dt] times as much
    as [xi]. *)
Theorem fluid_jacobian_exact (p : IFEMParameters) (dgp : bool) (alpha : R)
  (c : FEValues) (xit0 xi0 : list R) (i j : nat) :
  (i < dofs_per_cell fe_f)%nat ->
  (j < dofs_per_cell fe_f)%nat ->
  (forall j', (j' < dofs_per_cell fe_f)%nat ->
     dof (dof_indices c) j' = dof (dof_indices c) j -> j' = j) ->
  (dof (dof_indices c) j < length xi0)%nat ->
  (dof (dof_indices c) j < length xit0)%nat ->
  let g := dof (dof_indices c) j in
  derivable_pt_lim
    (fun h =>
       vget (local_res (fluid_cell_local p dgp true alpha c
                          (vadd xit0 g (alpha * h)) (vadd xi0 g h))) i)
    0
    (mget (local_jacobian (fluid_cell_local p dgp true alpha c xit0 xi0)) i j)
  /\ (forall t st, update_Jacobian st = true ->
        let s := sim st in
        let s1 :=
          set_current_xit
            (bv_div (bv_sub (current_xi s) (previous_xi s)) (dt (par s))) s in
        let E :=
          residual_and_or_Jacobian ArgJF (current_res s1) (current_xit s1)
            (current_xi s1) (1 / dt (par s)) t s1 in
        sim (newton_evaluate t st)
        = set_JF_inv (JF (snd E)) (set_current_res (fst E) (snd E)))
  /\ (forall x prev dt0 h,
        map (fun y => y / dt0) (zip_with Rminus (vadd x g h) prev)
        = vadd (map (fun y => y / dt0) (zip_with Rminus x prev)) g
               (1 / dt0 * h)).
Proof.
  intros Hi Hj Hinj Hxi Hxit. cbn zeta. split; [|split].
  - destruct (fluid_cell_local_closed p dgp true alpha c xit0 xi0)
      as (_ & _ & HJ & _).
    rewrite HJ.
    destruct (Nat.ltb_spec i (dofs_per_cell fe_f)); [|lia].
    destruct (Nat.ltb_spec j (dofs_per_cell fe_f)); [|lia].
    cbn [andb].
    apply (quadratic_derivative _
             (fluid_residual_entry p c xit0 xi0 i) _
             (Rsum nqpf (fun q =>
                if (component fe_f i <? dim)%nat
                then convective_second_order p c j i q else 0))).
    intros h.
    destruct (fluid_cell_local_closed p dgp true alpha c
                (vadd xit0 (dof (dof_indices c) j) (alpha * h))
                (vadd xi0 (dof (dof_indices c) j) h)) as (_ & HR & _).
    rewrite HR.
    destruct (Nat.ltb_spec i (dofs_per_cell fe_f)); [|lia].
    apply fluid_residual_entry_perturbed; assumption.
  - intros t st Hu. unfold newton_evaluate. rewrite Hu. cbn zeta.
    destruct (residual_and_or_Jacobian ArgJF _ _ _ _ _ _) as [res sa].
    reflexivity.
  - intros x prev dt0 h. apply time_derivative_perturbed.
Qed.

End FluidJacobianTheorem.

(** ** Distribution of local contributions *)

Section Distribute.
Context `{CO : Collaborators}.

(** The global residual after a local residual has been distributed. *)
Lemma distribute_residual_spec (r lr : list R) (dofs : list nat) (o k : nat) :
  vget (distribute_residual r lr dofs o) k
  = vget r k
    + Rsum (length dofs) (fun i =>
        if (dof dofs i =? k)%nat && (k <? length r)%nat
        then vget lr (o + i) else 0).
Proof.
  unfold distribute_residual.
  apply (for_n_ind (fun n x =>
    length x = length r
    /\ vget x k = vget r k + Rsum n (fun i =>
         if (dof dofs i =? k)%nat && (k <? length r)%nat
         then vget lr (o + i) else 0))).
  - split; [reflexivity | simpl; lra].
  - intros i x Hi [Hl Hx]. split; [rewrite length_vadd; exact Hl|].
    rewrite vget_vadd, Hx, Hl. simpl.
    destruct (Nat.eqb_spec (dof dofs i) k) as [->|Hne]; cbn [andb]; lra.
Qed.

Lemma option_fmap_ext (f g : R -> R) (o : option R) :
  (forall y, f y = g y) -> f <$> o = g <$> o.
Proof. intros H. destruct o; cbn; [rewrite H|]; reflexivity. Qed.

Lemma option_fmap_id (f : R -> R) (o : option R) :
  (forall y, f y = y) -> f <$> o = o.
Proof. intros H. destruct o; cbn; [rewrite H|]; reflexivity. Qed.

Lemma option_fmap_fmap (f g : R -> R) (o : option R) :
  f <$> (g <$> o) = (fun y => f (g y)) <$> o.
Proof. destruct o; reflexivity. Qed.

Lemma lookup_sp_add (J : gmap (nat * nat) R) (i j a b : nat) (x : R) :
  sp_add J i j x !! (a, b)
  = (fun y => y + (if (i =? a)%nat && (j =? b)%nat then x else 0))
      <$> J !! (a, b).
Proof.
  unfold sp_add. destruct (decide ((i, j) = (a, b))) as [He|Hne].
  - inversion He; subst. rewrite lookup_alter_eq, !Nat.eqb_refl. reflexivity.
  - rewrite lookup_alter_ne by exact Hne.
    assert (Hb : (i =? a)%nat && (j =? b)%nat = false).
    { destruct (Nat.eqb_spec i a), (Nat.eqb_spec j b); try reflexivity.
      subst. contradiction. }
    rewrite Hb. symmetry. apply option_fmap_id. intros y. lra.
Qed.

(** A loop of additions to a sparse matrix adds up at every position of the
    pattern. *)
Lemma sp_add_loop (n : nat) (row col : nat -> nat) (x : nat -> R)
  (J : gmap (nat * nat) R) (a b : nat) :
  for_n n (fun i J' => sp_add J' (row i) (col i) (x i)) J !! (a, b)
  = (fun y => y + Rsum n (fun i =>
        if (row i =? a)%nat && (col i =? b)%nat then x i else 0))
      <$> J !! (a, b).
Proof.
  induction n as [|n IH].
  - rewrite for_n_0. symmetry. apply option_fmap_id. intros y. simpl. lra.
  - rewrite for_n_S, lookup_sp_add, IH, option_fmap_fmap.
    apply option_fmap_ext. intros y. simpl. lra.
Qed.

Lemma distribute_jacobian_spec (J : gmap (nat * nat) R) (lj : list (list R))
  (d1 d2 : list nat) (o1 o2 a b : nat) :
  distribute_jacobian J lj d1 d2 o1 o2 !! (a, b)
  = (fun y => y + Rsum (length d1) (fun i => Rsum (length d2) (fun j =>
        if (dof d1 i =? a)%nat && (dof d2 j =? b)%nat
        then mget lj (o1 + i) (o2 + j) else 0)))
      <$> J !! (a, b).
Proof.
  unfold distribute_jacobian.
  induction (length d1) as [|n IH].
  - rewrite for_n_0. symmetry. apply option_fmap_id. intros y. simpl. lra.
  - rewrite for_n_S.
    rewrite (sp_add_loop (length d2) (fun _ => dof d1 n) (dof d2)
               (fun j => mget lj (o1 + n) (o2 + j))).
    rewrite IH, option_fmap_fmap.
    apply option_fmap_ext. intros y. simpl. lra.
Qed.

Lemma distribute_constraint_on_pressure_jacobian_spec (s : ImmersedFEM)
  (J : gmap (nat * nat) R) (coef : list R) (dofs : list nat) (o a b : nat) :
  distribute_constraint_on_pressure_jacobian s J coef dofs o !! (a, b)
  = (fun y => y + Rsum (length dofs) (fun i =>
        if (constraining_dof s =? a)%nat && (dof dofs i =? b)%nat
        then vget coef (o + i) * scaling s / area s else 0))
      <$> J !! (a, b).
Proof.
  unfold distribute_constraint_on_pressure_jacobian.
  apply (sp_add_loop (length dofs) (fun _ => constraining_dof s) (dof dofs)
           (fun i => vget coef (o + i) * scaling s / area s)).
Qed.

End Distribute.

(** ** The start of an evaluation *)

Section Prologue.
Context `{CO : Collaborators}.

Lemma deref_new_mapping v s :
  deref_mapping (new_mapping v s) = mkMapping (degree (par s)) v.
Proof.
  unfold deref_mapping, new_mapping. cbn. rewrite lookup_insert_eq. reflexivity.
Qed.

(** The state after the mapping has been rebuilt and the scaling factor
    computed. *)
Lemma prologue_stages jac r xi t s :
  let s3 := set_scaling minimal_cell_diameter
              (new_mapping (mapping_source xi s) (delete_mapping s)) in
  let m := mkMapping (degree (par s)) (mapping_source xi s) in
  let s4 :=
    if bsm_empty (jacobian_of jac s) then s3
    else
      let sb := assemble_sparsity m (set_jacobian_of jac None s3) in
      set_jacobian_of jac (bsm_reinit (sparsity sb)) sb in
  evaluation_prologue jac r xi t s
  = (mkBlockVector (vzero (block0 r)) (vzero (block1 r)),
     compute_current_bc t (set_par (set_force_time t (par s4)) s4)).
Proof.
  cbn zeta. unfold evaluation_prologue.
  assert (Hpar : par (delete_mapping s) = par s).
  { unfold delete_mapping. destruct (mapping s); reflexivity. }
  assert (Hprev : previous_xi (delete_mapping s) = previous_xi s).
  { unfold delete_mapping. destruct (mapping s); reflexivity. }
  assert (Hsrc : (if semi_implicit (par (delete_mapping s))
                  then new_mapping (block1 (previous_xi (delete_mapping s)))
                         (delete_mapping s)
                  else new_mapping (block1 xi) (delete_mapping s))
                 = new_mapping (mapping_source xi s) (delete_mapping s)).
  { unfold mapping_source. rewrite Hpar, Hprev.
    destruct (semi_implicit (par s)); reflexivity. }
  rewrite Hsrc.
  destruct (bsm_empty (jacobian_of jac s)) eqn:He; cbn [negb].
  - reflexivity.
  - assert (Hd : deref_mapping
              (set_jacobian_of jac None
                 (set_scaling minimal_cell_diameter
                    (new_mapping (mapping_source xi s) (delete_mapping s))))
            = mkMapping (degree (par s)) (mapping_source xi s)).
    { rewrite <- Hpar, <- deref_new_mapping. destruct jac; reflexivity. }
    rewrite Hd. reflexivity.
Qed.

Lemma delete_mapping_eq s :
  delete_mapping s = set_heap_mapping (heap_after_delete s) (mapping s) s.
Proof.
  unfold delete_mapping, heap_after_delete.
  destruct s as [? ? mp ? ? ? ? ? ? ? ? ? ? ? ? ? ? ? ? ?]. cbn.
  destruct mp; reflexivity.
Qed.

(** What the start of an evaluation leaves unchanged. *)
Lemma prologue_unchanged jac r xi t s :
  let s' := snd (evaluation_prologue jac r xi t s) in
  scaling s' = minimal_cell_diameter
  /\ area s' = area s /\ pressure_dofs s' = pressure_dofs s
  /\ constraining_dof s' = constraining_dof s /\ dgp_for_p s' = dgp_for_p s
  /\ JF_inv s' = JF_inv s /\ A_gamma s' = A_gamma s
  /\ M_gamma3_inv_A_gamma s' = M_gamma3_inv_A_gamma s
  /\ current_xi s' = current_xi s /\ previous_xi s' = previous_xi s
  /\ current_xit s' = current_xit s /\ current_res s' = current_res s
  /\ newton_update s' = newton_update s
  /\ tmp_vec_n_total_dofs s' = tmp_vec_n_total_dofs s
  /\ par s' = par (compute_current_bc t (set_par (set_force_time t (par s)) s)).
Proof.
  cbn zeta. rewrite prologue_stages, delete_mapping_eq. cbn [snd].
  destruct (bsm_empty (jacobian_of jac s)); destruct jac;
    unfold compute_current_bc, assemble_sparsity, new_mapping;
    cbn; repeat split; reflexivity.
Qed.

(** The Jacobian passed to the evaluation and the sparsity pattern after
    the start of the evaluation. *)
Lemma prologue_jacobian jac r xi t s :
  let s' := snd (evaluation_prologue jac r xi t s) in
  let m := mkMapping (degree (par s)) (mapping_source xi s) in
  let pattern :=
    mkPattern (sp00 (sparsity s)) (fst (coupling_sparsity m))
              (snd (coupling_sparsity m)) (sp11 (sparsity s)) in
  (bsm_empty (jacobian_of jac s) = true ->
     sparsity s' = sparsity s /\ JF s' = JF s /\ dummy_JF s' = dummy_JF s)
  /\ (bsm_empty (jacobian_of jac s) = false ->
      sparsity s' = pattern
      /\ jacobian_of jac s' = bsm_reinit pattern
      /\ (jac = ArgJF -> dummy_JF s' = dummy_JF s)
      /\ (jac = ArgDummyJF -> JF s' = JF s)).
Proof.
  cbn zeta. rewrite prologue_stages, delete_mapping_eq. cbn [snd].
  split; intros He; rewrite He;
    destruct jac;
    unfold compute_current_bc, assemble_sparsity, new_mapping;
    cbn; repeat split; try reflexivity; discriminate.
Qed.

End Prologue.

(** ** Constraint rows and the pressure gauge *)

Section ConstraintTheorems.
Context `{CO : Collaborators}.

Lemma evaluation_scaling jac r xit xi alpha t s0 :
  scaling (snd (evaluation_prologue jac r xi t s0)) = minimal_cell_diameter
  /\ scaling (snd (residual_and_or_Jacobian jac r xit xi alpha t s0))
     = minimal_cell_diameter.
Proof.
  destruct (prologue_unchanged jac r xi t s0) as (Hs & _).
  split; [exact Hs|].
  destruct (erase_work_fields _ _ (evaluation_frame jac r xit xi alpha t s0))
    as (_ & _ & _ & Hsc & _).
  rewrite Hsc. exact Hs.
Qed.

(** C4 (amended). For a local dof whose global index is in the
    boundary-value map and which is not the constraining pressure dof in
    its role for the average pressure, the constraint pass leaves
    [scaling * (current value - prescribed value)] in its local residual
    entry; when no Jacobian is built the local Jacobian is untouched, and
    when one is built its row is zero except for [scaling] on the diagonal.
    [scaling] is the minimal cell diameter of the fluid mesh, set at the
    start of every evaluation. *)
Theorem constraint_rows (s : ImmersedFEM) (lr : list R) (lj : list (list R))
  (value : list R) (dofs : list nat) (n i : nat) (prescribed : R) :
  (i < length dofs)%nat -> (i < length lr)%nat ->
  boundary_values (par s) !! dof dofs i = Some prescribed ->
  pinned s dofs i = false ->
  vget (fst (apply_constraints s lr lj value dofs)) i
  = scaling s * (vget value (dof dofs i) - prescribed)
  /\ (mempty lj = true -> snd (apply_constraints s lr lj value dofs) = lj)
  /\ (mat_wf n n lj -> (i < n)%nat -> forall j, (j < n)%nat ->
        mget (snd (apply_constraints s lr lj value dofs)) i j
        = if (i =? j)%nat then scaling s else 0)
  /\ (forall jac r xit xi alpha t s0,
        scaling (snd (evaluation_prologue jac r xi t s0))
        = minimal_cell_diameter
        /\ scaling (snd (residual_and_or_Jacobian jac r xit xi alpha t s0))
           = minimal_cell_diameter).
Proof.
  intros Hi Hlr Hbv Hpin. split; [|split; [|split]].
  - destruct (apply_constraints_residual s lr lj value dofs) as [_ H].
    rewrite H.
    destruct (Nat.ltb_spec i (length dofs)); [|lia].
    destruct (Nat.ltb_spec i (length lr)); [|lia]. cbn [andb].
    unfold residual_after_constraints. rewrite Hpin, Hbv. reflexivity.
  - apply apply_constraints_no_jacobian.
  - intros Hwf Hn j Hj.
    destruct (apply_constraints_jacobian s lr lj value dofs n Hwf) as [_ H];
      [lia|].
    rewrite H.
    destruct (Nat.ltb_spec i (length dofs)); [|lia].
    destruct (Nat.ltb_spec i n); [|lia].
    destruct (Nat.ltb_spec j n); [|lia]. cbn [andb].
    unfold jacobian_after_constraints. rewrite Hpin, Hbv. reflexivity.
  - intros. apply evaluation_scaling.
Qed.

(** The constraint pass zeroes the local residual entry and the local
    Jacobian row of the constraining pressure dof. *)
Lemma pinned_rows_zero (s : ImmersedFEM) (lr : list R) (lj : list (list R))
  (value : list R) (dofs : list nat) (n i : nat) :
  pinned s dofs i = true -> (i < length dofs)%nat ->
  ((i < length lr)%nat ->
     vget (fst (apply_constraints s lr lj value dofs)) i = 0)
  /\ (mat_wf n n lj -> (i < n)%nat -> forall j, (j < n)%nat ->
        mget (snd (apply_constraints s lr lj value dofs)) i j = 0).
Proof.
  intros Hpin Hi. split.
  - intros Hlr.
    destruct (apply_constraints_residual s lr lj value dofs) as [_ H].
    rewrite H.
    destruct (Nat.ltb_spec i (length dofs)); [|lia].
    destruct (Nat.ltb_spec i (length lr)); [|lia]. cbn [andb].
    unfold residual_after_constraints. rewrite Hpin. reflexivity.
  - intros Hwf Hn j Hj.
    destruct (apply_constraints_jacobian s lr lj value dofs n Hwf) as [_ H];
      [lia|].
    rewrite H.
    destruct (Nat.ltb_spec i (length dofs)); [|lia].
    destruct (Nat.ltb_spec i n); [|lia].
    destruct (Nat.ltb_spec j n); [|lia]. cbn [andb].
    unfold jacobian_after_constraints. rewrite Hpin.
    destruct (boundary_values (par s) !! dof dofs i);
      [destruct (i =? j)%nat|]; lra.
Qed.

End ConstraintTheorems.

Section PressureGauge.
Context `{CO : Collaborators}.

Lemma vget_overflow (v : list R) (i : nat) :
  (length v <= i)%nat -> vget v i = 0.
Proof. intros H. unfold vget. apply nth_overflow. exact H. Qed.

Lemma mget_overflow (n : nat) (m : list (list R)) (i j : nat) :
  mat_wf n n m -> (n <= i)%nat \/ (n <= j)%nat -> mget m i j = 0.
Proof.
  intros Hwf H. unfold mget.
  destruct (Nat.lt_ge_cases i n) as [Hi|Hi].
  - apply vget_overflow. rewrite (mat_wf_row n n m i Hwf Hi).
    destruct H; lia.
  - rewrite nth_overflow; [apply vget_nil|]. destruct Hwf as [Hr _]. lia.
Qed.

Lemma for_n_sum (n : nat) (f : nat -> R) (a : R) :
  for_n n (fun q a' => a' + f q) a = a + Rsum n f.
Proof.
  induction n as [|n IH]; [rewrite for_n_0; simpl; lra|].
  rewrite for_n_S, IH. simpl. lra.
Qed.

(** The area of the control volume computed at startup. *)
Lemma startup_area (s : ImmersedFEM) :
  area (get_area_and_first_pressure_dof s)
  = fold_left (fun a fe_v => a + Rsum nqpf (JxW fe_v)) fluid_cells 0.
Proof.
  unfold get_area_and_first_pressure_dof.
  set (step := fun (acc : R * gset nat) (fe_v : FEValues) =>
                 let '(a0, pd0) := acc in _).
  assert (H : forall l acc,
    fst (fold_left step l acc)
    = fold_left (fun a fe_v => a + Rsum nqpf (JxW fe_v)) l (fst acc)).
  { induction l as [|c l IH]; intros [a pd]; [reflexivity|].
    simpl fold_left. rewrite IH. f_equal. unfold step.
    destruct (for_n (dofs_per_cell fe_f) _ (pd, false)) as [pd1 stop].
    cbn [fst]. apply for_n_sum. }
  specialize (H fluid_cells (0, pressure_dofs s)).
  destruct (fold_left step fluid_cells (0, pressure_dofs s)) as [a pd].
  cbn [fst] in H. cbn. exact H.
Qed.

(** C5. With all boundary conditions essential and the pressure not fixed,
    on every fluid cell: the constraint pass zeroes the local residual
    entry of the constraining pressure dof and (when the Jacobian is built)
    its local Jacobian row, which is row [i] minus one times row [i]; the
    residual entry of the constraining dof then receives the increment
    [average_pressure * scaling / area] of the cell, where the average
    pressure of the cell sums [xi(dof) * shape value * JxW] over the
    pressure-type local dofs taking part; and the row of the constraining
    dof of the Jacobian passed to the evaluation receives, in the column of
    each local dof, [pressure_coefficient * scaling / area], the coefficient
    being zero for velocity-type local dofs.  [area] is not changed by an
    evaluation; at startup it is computed as the sum of the quadrature
    weights of the fluid cells. *)
Theorem pressure_gauge (jac : JacobianArg) (u : bool) (xit xi : BlockVector)
  (alpha : R) (residual : BlockVector) (s : ImmersedFEM) (c : FEValues) :
  gauge_active s = true ->
  let L := fluid_cell_local (par s) (dgp_for_p s) u alpha c
             (block0 xit) (block0 xi) in
  let dofs := dof_indices c in
  let cd := constraining_dof s in
  let A := apply_constraints s (local_res L) (local_jacobian L)
             (block0 xi) dofs in
  let out := fluid_cell_step jac u xit xi alpha (residual, s) c in
  (forall i, (i < length dofs)%nat -> dof dofs i = cd ->
     vget (fst A) i = 0
     /\ (forall j, mget (snd A) i j = 0)
     /\ (u = true -> (i < n_local_dofs)%nat ->
         forall j, mget (add_row (local_jacobian L) i (-1) i) i j = 0))
  /\ ((cd < length (block0 residual))%nat ->
      vget (block0 (fst out)) cd
      = vget (block0 residual) cd
        + local_average_pressure L * scaling s / area s)
  /\ local_average_pressure L
     = Rsum (dofs_per_cell fe_f) (fun i => Rsum nqpf (fun q =>
         if (component fe_f i <? dim)%nat then 0
         else if in_pressure_average (par s) (dgp_for_p s) i
              then vget (block0 xi) (dof dofs i) * shape_value c i q * JxW c q
              else 0))
  /\ (u = true -> forall bl, jacobian_of jac s = Some bl ->
      exists bl', jacobian_of jac (snd out) = Some bl'
        /\ forall g,
             b00 bl' !! (cd, g)
             = (fun y => y + Rsum (length dofs) (fun i =>
                  if (dof dofs i =? g)%nat
                  then vget (local_pressure_coefficient L) i
                       * scaling s / area s
                  else 0)) <$> b00 bl !! (cd, g))
  /\ (forall i, (i < dofs_per_cell fe_f)%nat ->
      (component fe_f i <? dim)%nat = true ->
      vget (local_pressure_coefficient L) i = 0)
  /\ (forall r0 xit0 xi0 alpha0 t0 s0,
        area (snd (residual_and_or_Jacobian jac r0 xit0 xi0 alpha0 t0 s0))
        = area s0)
  /\ (forall s0,
        area (get_area_and_first_pressure_dof s0)
        = fold_left (fun a fe_v => a + Rsum nqpf (JxW fe_v)) fluid_cells 0).
Proof.
  intros Hg. cbn zeta.
  destruct (fluid_cell_local_closed (par s) (dgp_for_p s) u alpha c
              (block0 xit) (block0 xi)) as (Wf & HR & HJ & HA & HC).
  set (L := fluid_cell_local (par s) (dgp_for_p s) u alpha c
              (block0 xit) (block0 xi)) in *.
  destruct Wf as (Wr & Wj & Wc).
  set (M := if u then n_local_dofs else 0%nat) in *.
  destruct (apply_constraints_residual s (local_res L) (local_jacobian L)
              (block0 xi) (dof_indices c)) as [Alen Ares].
  assert (Pin : forall i, dof (dof_indices c) i = constraining_dof s ->
                pinned s (dof_indices c) i = true).
  { intros i Hi. unfold pinned. rewrite Hg, Hi, Nat.eqb_refl. reflexivity. }
  (* the local Jacobian after the constraints is well formed *)
  assert (AJ : mat_wf M M (snd (apply_constraints s (local_res L)
                 (local_jacobian L) (block0 xi) (dof_indices c)))
               /\ forall i j, (i < length (dof_indices c))%nat ->
                    dof (dof_indices c) i = constraining_dof s ->
                    mget (snd (apply_constraints s (local_res L)
                      (local_jacobian L) (block0 xi) (dof_indices c))) i j = 0).
  { destruct (Nat.eq_dec M 0%nat) as [HM|HM].
    - assert (He : mempty (local_jacobian L) = true).
      { unfold mempty. destruct Wj as [Hr _]. rewrite Hr, HM. reflexivity. }
      rewrite (apply_constraints_no_jacobian _ _ _ _ _ He).
      split; [exact Wj|]. intros i j _ _.
      apply (mget_overflow M _ i j Wj). lia.
    - destruct (apply_constraints_jacobian s (local_res L) (local_jacobian L)
                  (block0 xi) (dof_indices c) M Wj) as [W' H']; [lia|].
      split; [exact W'|]. intros i j Hi Hcd.
      destruct (Nat.lt_ge_cases i M) as [HiM|HiM];
        [destruct (Nat.lt_ge_cases j M) as [HjM|HjM]|].
      + apply (pinned_rows_zero s (local_res L) (local_jacobian L)
                 (block0 xi) (dof_indices c) M i (Pin i Hcd) Hi);
          assumption.
      + apply (mget_overflow M _ i j W'). lia.
      + apply (mget_overflow M _ i j W'). lia. }
  destruct AJ as [AJw AJz].
  assert (AR : forall i, (i < length (dof_indices c))%nat ->
                 dof (dof_indices c) i = constraining_dof s ->
                 vget (fst (apply_constraints s (local_res L)
                   (local_jacobian L) (block0 xi) (dof_indices c))) i = 0).
  { intros i Hi Hcd.
    destruct (Nat.lt_ge_cases i (length (local_res L))) as [Hl|Hl].
    - apply (pinned_rows_zero s (local_res L) (local_jacobian L)
               (block0 xi) (dof_indices c) M i (Pin i Hcd) Hi). exact Hl.
    - apply vget_overflow. rewrite Alen. exact Hl. }
  split; [|split; [|split; [|split; [|split; [|split]]]]].
  - intros i Hi Hcd. split; [apply AR; assumption|].
    split; [intros j; apply AJz; assumption|].
    intros Hu HiN j. unfold M in Wj. rewrite Hu in Wj.
    destruct (add_row_self_spec n_local_dofs n_local_dofs (local_jacobian L)
                i (-1) Wj) as [_ H]; [lia|].
    rewrite H. destruct (Nat.ltb_spec i n_local_dofs); [|lia].
    rewrite Nat.eqb_refl. cbn [andb].
    destruct (j <? n_local_dofs)%nat eqn:Hj; [lra|].
    apply (mget_overflow n_local_dofs _ i j Wj).
    apply Nat.ltb_ge in Hj. lia.
  - intros Hcd. unfold fluid_cell_step. fold L.
    destruct (apply_constraints s (local_res L) (local_jacobian L)
                (block0 xi) (dof_indices c)) as [lr lj] eqn:HA'.
    cbn [fst snd] in *.
    assert (Hgs : all_DBC (par s) && negb (fix_pressure (par s)) = true)
      by exact Hg.
    destruct u; cbn [par set_JF]; rewrite Hgs; cbn [fst block0 on_block0];
      unfold distribute_constraint_on_pressure_residual;
      cbn [constraining_dof scaling area set_JF];
      rewrite vget_vadd, length_distribute_residual, Nat.eqb_refl,
        distribute_residual_spec;
      (destruct (Nat.ltb_spec (constraining_dof s) (length (block0 residual)));
       [|lia]); cbn [andb];
      (rewrite Rsum_zero;
       [lra|
        intros i Hi; rewrite andb_true_r;
        destruct (Nat.eqb_spec (dof (dof_indices c) i) (constraining_dof s));
        [apply AR; assumption | reflexivity]]).
  - rewrite HA. apply Rsum_ext. intros i _. apply Rsum_ext. intros q _.
    unfold average_pressure_term. reflexivity.
  - intros Hu bl Hbl. unfold fluid_cell_step. fold L.
    destruct (apply_constraints s (local_res L) (local_jacobian L)
                (block0 xi) (dof_indices c)) as [lr lj] eqn:HA'.
    cbn [fst snd] in *. rewrite Hu.
    assert (Hgs : all_DBC (par s) && negb (fix_pressure (par s)) = true)
      by exact Hg.
    cbn [par set_JF]. rewrite Hgs. cbn [snd].
    assert (Hz : forall g y,
      y + Rsum (length (dof_indices c)) (fun i =>
            Rsum (length (dof_indices c)) (fun j =>
              if (dof (dof_indices c) i =? constraining_dof s)%nat
                 && (dof (dof_indices c) j =? g)%nat
              then mget lj (0 + i) (0 + j) else 0)) = y).
    { intros g y. rewrite Rsum_zero; [lra|]. intros i Hi.
      apply Rsum_zero. intros j Hj.
      destruct (Nat.eqb_spec (dof (dof_indices c) i) (constraining_dof s));
        cbn [andb]; [|reflexivity].
      destruct (dof (dof_indices c) j =? g)%nat; [|reflexivity].
      apply AJz; assumption. }
    destruct jac; cbn [jacobian_of set_jacobian_of] in *.
    + cbn [JF set_JF]. rewrite Hbl. cbn [on_block get_block set_block].
      eexists. split; [reflexivity|]. intros g. cbn [b00].
      rewrite distribute_constraint_on_pressure_jacobian_spec,
        distribute_jacobian_spec, option_fmap_fmap.
      apply option_fmap_ext. intros y. rewrite Hz. rewrite Nat.eqb_refl.
      cbn [andb scaling area constraining_dof set_JF]. reflexivity.
    + cbn [dummy_JF set_JF set_dummy_JF]. rewrite Hbl.
      cbn [on_block get_block set_block].
      eexists. split; [reflexivity|]. intros g. cbn [b00].
      rewrite distribute_constraint_on_pressure_jacobian_spec.
      apply option_fmap_ext. intros y. rewrite Nat.eqb_refl.
      cbn [andb scaling area constraining_dof set_JF]. reflexivity.
  - intros i Hi Hv. rewrite HC.
    destruct (Nat.ltb_spec i (dofs_per_cell fe_f)); [|lia].
    apply Rsum_zero. intros q _. rewrite Hv. reflexivity.
  - intros r0 xit0 xi0 alpha0 t0 s0.
    destruct (erase_work_fields _ _
                (evaluation_frame jac r0 xit0 xi0 alpha0 t0 s0))
      as (_ & _ & _ & _ & Ha & _).
    rewrite Ha. apply (prologue_unchanged jac r0 xi0 t0 s0).
  - apply startup_area.
Qed.

End PressureGauge.

(** ** The Jacobians through an evaluation *)

Section EvaluationJacobians.
Context `{CO : Collaborators}.

Lemma after_A_gamma_jacobians jac residual xit xi alpha t s :
  JF (after_A_gamma jac residual xit xi alpha t s)
  = JF (snd (after_fluid_loop jac residual xit xi alpha t s))
  /\ dummy_JF (after_A_gamma jac residual xit xi alpha t s)
     = dummy_JF (snd (after_fluid_loop jac residual xit xi alpha t s)).
Proof.
  unfold after_A_gamma. cbn zeta.
  set (s2 := snd (after_fluid_loop jac residual xit xi alpha t s)).
  destruct (assemble_A_gamma_frame xi (set_A_gamma (vzero (A_gamma s2)) s2))
    as [H _].
  split.
  - apply (f_equal JF) in H. exact H.
  - apply (f_equal dummy_JF) in H. exact H.
Qed.

(** The loops of an evaluation as one step on the Jacobians. *)
Lemma evaluation_loops_step jac residual xit xi alpha t s :
  let u := negb (bsm_empty (jacobian_of jac s)) in
  let s1 := snd (evaluation_prologue jac residual xi t s) in
  let s' := snd (residual_and_or_Jacobian jac residual xit xi alpha t s) in
  bsm_empty (JF s') = bsm_empty (JF s1)
  /\ bsm_empty (dummy_JF s') = bsm_empty (dummy_JF s1)
  /\ (u = false -> JF s' = JF s1 /\ dummy_JF s' = dummy_JF s1)
  /\ (jac = ArgJF -> dummy_JF s' = dummy_JF s1).
Proof.
  cbn zeta. rewrite residual_and_or_Jacobian_phases.
  pose proof (solid_loop_frame jac (negb (bsm_empty (jacobian_of jac s)))
                xit xi alpha solid_cells
                (fst (after_fluid_loop jac residual xit xi alpha t s),
                 after_A_gamma jac residual xit xi alpha t s,
                 replicate (dofs_per_cell fe_s) 0)) as (_ & S1 & S2 & S3 & S4).
  cbn [fst snd] in S1, S2, S3, S4.
  destruct (after_A_gamma_jacobians jac residual xit xi alpha t s) as [A1 A2].
  pose proof (fluid_loop_frame jac (negb (bsm_empty (jacobian_of jac s)))
                xit xi alpha fluid_cells
                (evaluation_prologue jac residual xi t s))
    as (_ & F1 & F2 & F3 & F4).
  fold (after_fluid_loop jac residual xit xi alpha t s) in F1, F2, F3, F4.
  split; [|split; [|split]].
  - rewrite S1, A1, F1. reflexivity.
  - rewrite S2, A2, F2. reflexivity.
  - intros Hu. rewrite (S3 Hu), A1, A2, (F3 Hu). split; reflexivity.
  - intros Hj. rewrite (S4 Hj), A2, (F4 Hj). reflexivity.
Qed.

(** An evaluation does not change whether a Jacobian is empty. *)
Lemma evaluation_emptiness jac residual xit xi alpha t s :
  let s' := snd (residual_and_or_Jacobian jac residual xit xi alpha t s) in
  bsm_empty (JF s') = bsm_empty (JF s)
  /\ bsm_empty (dummy_JF s') = bsm_empty (dummy_JF s).
Proof.
  cbn zeta.
  destruct (evaluation_loops_step jac residual xit xi alpha t s)
    as (E1 & E2 & _).
  rewrite E1, E2.
  destruct (prologue_jacobian jac residual xi t s) as [P1 P2].
  destruct (bsm_empty (jacobian_of jac s)) eqn:He.
  - destruct (P1 eq_refl) as (_ & H1 & H2). rewrite H1, H2.
    split; reflexivity.
  - destruct (P2 eq_refl) as (_ & H1 & H2 & H3).
    destruct jac; cbn [jacobian_of] in *.
    + rewrite H1, (H2 eq_refl), He. split; reflexivity.
    + rewrite H1, (H3 eq_refl), He. split; reflexivity.
Qed.

End EvaluationJacobians.

(** ** One pass of the Newton iteration *)

Section NewtonStep.
Context `{CO : Collaborators}.

Lemma newton_evaluate_sim (t : R) (st : NewtonState) :
  let s := sim st in
  let s1 :=
    set_current_xit
      (bv_div (bv_sub (current_xi s) (previous_xi s)) (dt (par s))) s in
  let jac := if update_Jacobian st then ArgJF else ArgDummyJF in
  let alpha := if update_Jacobian st then 1 / dt (par s) else 0 in
  let E :=
    residual_and_or_Jacobian jac (current_res s1) (current_xit s1)
      (current_xi s1) alpha t s1 in
  sim (newton_evaluate t st)
  = (if update_Jacobian st
     then set_JF_inv (JF (snd E)) (set_current_res (fst E) (snd E))
     else set_current_res (fst E) (snd E))
  /\ update_Jacobian (newton_evaluate t st)
     = (if update_Jacobian st
        then update_jacobian_continuously (par (snd E)) else false).
Proof.
  cbn zeta. unfold newton_evaluate. destruct (update_Jacobian st) eqn:Hu.
  - destruct (residual_and_or_Jacobian ArgJF _ _ _ _ _ _) as [res sa].
    split; reflexivity.
  - destruct (residual_and_or_Jacobian ArgDummyJF _ _ _ _ _ _) as [res sa].
    split; reflexivity.
Qed.



End NewtonStep.

(** ** The residual of the state at rest *)

Section ZeroState.
Context `{CO : Collaborators}.

Lemma zero_vector_replicate n : zero_vector (replicate n 0).
Proof. intros k. apply vget_replicate. Qed.

Lemma zero_vector_vzero v : zero_vector (vzero v).
Proof. intros k. apply vget_vzero. Qed.

Lemma get_function_values_zero fe c x q k :
  zero_vector x -> get_function_values fe c x q k = 0.
Proof.
  intros Hx. unfold get_function_values. apply Rsum_zero. intros j _.
  rewrite Hx. destruct (component fe j =? k)%nat; lra.
Qed.

Lemma get_function_gradients_zero fe c x q k d :
  zero_vector x -> get_function_gradients fe c x q k d = 0.
Proof.
  intros Hx. unfold get_function_gradients. apply Rsum_zero. intros j _.
  rewrite Hx. destruct (component fe j =? k)%nat; lra.
Qed.

(** The local residual of a fluid cell vanishes at rest without force. *)
Lemma fluid_residual_entry_zero p c xit0 xi0 i :
  zero_vector xit0 -> zero_vector xi0 ->
  (forall pt k, force (force_time p) pt k = 0) ->
  fluid_residual_entry p c xit0 xi0 i = 0.
Proof.
  intros Hxit Hxi Hf. unfold fluid_residual_entry. apply Rsum_zero.
  intros q _. destruct (component fe_f i <? dim)%nat.
  - unfold velocity_residual_term. cbv zeta.
    rewrite !get_function_values_zero, Hf by assumption.
    rewrite Rsum_zero; [lra|]. intros d _.
    rewrite !get_function_gradients_zero, get_function_values_zero
      by assumption. lra.
  - unfold pressure_residual_term. apply Rsum_zero. intros d _.
    rewrite get_function_gradients_zero by assumption. lra.
Qed.

Lemma fluid_cell_local_zero p dgp u alpha c xit0 xi0 :
  zero_vector xit0 -> zero_vector xi0 ->
  (forall pt k, force (force_time p) pt k = 0) ->
  zero_vector (local_res (fluid_cell_local p dgp u alpha c xit0 xi0))
  /\ local_average_pressure (fluid_cell_local p dgp u alpha c xit0 xi0) = 0.
Proof.
  intros Hxit Hxi Hf.
  destruct (fluid_cell_local_closed p dgp u alpha c xit0 xi0)
    as (_ & HR & _ & HA & _).
  split.
  - intros k. rewrite HR. destruct (k <? dofs_per_cell fe_f)%nat;
      [apply fluid_residual_entry_zero; assumption | reflexivity].
  - rewrite HA. apply Rsum_zero. intros i _. apply Rsum_zero. intros q _.
    destruct (component fe_f i <? dim)%nat; [reflexivity|].
    unfold average_pressure_term. rewrite Hxi.
    destruct (in_pressure_average p dgp i); lra.
Qed.

(** The constraint pass keeps the zero entries of a local residual outside
    the rows of the prescribed boundary values. *)
Lemma apply_constraints_zero s lr lj value dofs :
  zero_vector lr ->
  forall i,
    (boundary_values (par s) !! dof dofs i = None
     \/ (length dofs <= i)%nat) ->
    vget (fst (apply_constraints s lr lj value dofs)) i = 0.
Proof.
  intros Hz i Hi.
  destruct (apply_constraints_residual s lr lj value dofs) as [_ H].
  rewrite H.
  destruct (Nat.ltb_spec i (length dofs)) as [Hl|Hl]; cbn [andb];
    [|apply Hz].
  destruct (i <? length lr)%nat; [|apply Hz].
  unfold residual_after_constraints.
  destruct (pinned s dofs i); [reflexivity|].
  destruct Hi as [Hi|Hi]; [|lia]. rewrite Hi. apply Hz.
Qed.

(** Distributing a local residual that vanishes outside the rows of the
    prescribed boundary values keeps the global residual of that kind. *)
Lemma distribute_residual_constraint (bv : gmap nat R) r lr dofs o :
  (forall i, (i < length dofs)%nat -> bv !! dof dofs i = None ->
     vget lr (o + i) = 0) ->
  (forall k, bv !! k = None -> vget r k = 0) ->
  forall k, bv !! k = None -> vget (distribute_residual r lr dofs o) k = 0.
Proof.
  intros Hlr Hr k Hk. rewrite distribute_residual_spec, (Hr k Hk).
  rewrite Rsum_zero; [lra|]. intros i Hi.
  destruct (Nat.eqb_spec (dof dofs i) k) as [He|He]; cbn [andb];
    [|reflexivity].
  destruct (k <? length r)%nat; [|reflexivity].
  apply Hlr; [exact Hi|]. rewrite He. exact Hk.
Qed.

Lemma distribute_residual_zero r lr dofs o :
  (forall i, (i < length dofs)%nat -> vget lr (o + i) = 0) ->
  zero_vector r -> zero_vector (distribute_residual r lr dofs o).
Proof.
  intros Hlr Hr k. rewrite distribute_residual_spec, (Hr k).
  rewrite Rsum_zero; [lra|]. intros i Hi.
  destruct ((dof dofs i =? k)%nat && (k <? length r)%nat); [|reflexivity].
  apply Hlr. exact Hi.
Qed.

(** A step of the loop over the fluid cells at rest. *)
Lemma fluid_cell_step_zero jac u xit xi alpha r s c :
  zero_vector (block0 xit) -> zero_vector (block0 xi) ->
  (forall pt k, force (force_time (par s)) pt k = 0) ->
  pure_constraint_residual (boundary_values (par s)) r ->
  pure_constraint_residual (boundary_values (par s))
    (fst (fluid_cell_step jac u xit xi alpha (r, s) c)).
Proof.
  intros Hxit Hxi Hf [Hr1 Hr0].
  destruct (fluid_cell_local_zero (par s) (dgp_for_p s) u alpha c
              (block0 xit) (block0 xi) Hxit Hxi Hf) as [Lz La].
  unfold fluid_cell_step.
  set (L := fluid_cell_local (par s) (dgp_for_p s) u alpha c
              (block0 xit) (block0 xi)) in *.
  pose proof (apply_constraints_zero s (local_res L) (local_jacobian L)
                (block0 xi) (dof_indices c) Lz) as Az.
  destruct (apply_constraints s (local_res L) (local_jacobian L)
              (block0 xi) (dof_indices c)) as [lr lj].
  cbn [fst] in Az.
  assert (Hd : forall k, boundary_values (par s) !! k = None ->
                 vget (distribute_residual (block0 r) lr (dof_indices c) 0) k
                 = 0).
  { apply distribute_residual_constraint; [|exact Hr0].
    intros i Hi Hbv. apply Az. left. exact Hbv. }
  destruct u; cbn [par set_JF];
    destruct (all_DBC (par s) && negb (fix_pressure (par s)));
    cbn [fst]; (split; [exact Hr1|]); cbn [block0 on_block0]; try exact Hd;
    intros k Hk; unfold distribute_constraint_on_pressure_residual;
    rewrite vget_vadd, (Hd k Hk), La;
    destruct (_ && _); lra.
Qed.

End ZeroState.

Section ZeroStateSolid.
Context `{CO : Collaborators}.

Lemma deformation_gradient_zero c x qs i j :
  zero_vector x -> deformation_gradient c x qs i j = kron i j.
Proof.
  intros Hx. unfold deformation_gradient, displacement_gradient.
  rewrite get_function_gradients_zero by exact Hx. unfold kron. lra.
Qed.

(** The inverse of the identity. *)
Lemma invert_identity (d : Dimension) (A : Tensor2) (i j : nat) :
  (forall a b, A a b = kron a b) ->
  (i < dim_of d)%nat -> (j < dim_of d)%nat -> invert d A i j = kron i j.
Proof.
  intros HA Hi Hj. destruct d; simpl in Hi, Hj.
  - destruct i as [|[|i]]; [| |lia]; (destruct j as [|[|j]]; [| |lia]);
      unfold invert, determinant; rewrite !HA; unfold kron; cbn; field.
  - destruct i as [|[|[|i]]]; [| | |lia];
      (destruct j as [|[|[|j]]]; [| | |lia]);
      unfold invert, determinant; rewrite !HA; unfold kron; cbn; field.
Qed.

(** Under the law [INH_0] the elastic stress vanishes at rest. *)
Lemma Pe_value_zero p c x qs i j :
  material_model p = INH_0 -> zero_vector x ->
  (i < dim)%nat -> (j < dim)%nat -> Pe_value p c x qs i j = 0.
Proof.
  intros Hlaw Hx Hi Hj. unfold Pe_value. rewrite Hlaw.
  unfold tscale, tsub, transpose.
  rewrite deformation_gradient_zero by exact Hx.
  rewrite (invert_identity DIM _ j i) by
    (try (intros a b; apply deformation_gradient_zero; exact Hx); assumption).
  unfold kron. rewrite (Nat.eqb_sym j i). lra.
Qed.

Lemma dot_zero_l n (a b : Tensor1) :
  (forall d, (d < n)%nat -> a d = 0) -> dot n a b = 0.
Proof.
  intros H. unfold dot. apply Rsum_zero. intros d Hd. rewrite (H d Hd). lra.
Qed.

Lemma get_Agamma_values_zero p c dofs x :
  material_model p = INH_0 -> zero_vector x ->
  (length dofs <= dofs_per_cell fe_s)%nat ->
  zero_vector (get_Agamma_values p c dofs x).
Proof.
  intros Hlaw Hx Hlen. unfold get_Agamma_values.
  apply (for_n_invariant zero_vector); [apply zero_vector_replicate|].
  intros qs v _ Hv.
  apply (for_n_invariant zero_vector); [exact Hv|].
  intros k v' Hk Hv' m. rewrite vget_vadd, Hv'.
  rewrite dot_zero_l.
  - destruct (_ && _); lra.
  - intros d Hd. apply Pe_value_zero; try assumption.
    apply solid_components. lia.
Qed.

Lemma vector_add_indices_zero v indices values :
  zero_vector v -> zero_vector values ->
  zero_vector (vector_add_indices v indices values).
Proof.
  intros Hv Hx. unfold vector_add_indices.
  apply (for_n_invariant zero_vector); [exact Hv|].
  intros i y _ Hy k. rewrite vget_vadd, Hy, Hx. destruct (_ && _); lra.
Qed.

Lemma assemble_A_gamma_zero xi s :
  material_model (par s) = INH_0 -> zero_vector (block1 xi) ->
  zero_vector (A_gamma s) -> zero_vector (A_gamma (assemble_A_gamma xi s)).
Proof.
  intros Hlaw Hx Hz. unfold assemble_A_gamma.
  assert (G : forall l s0,
    Forall (fun c => length (dof_indices c) = dofs_per_cell fe_s) l ->
    par s0 = par s -> zero_vector (A_gamma s0) ->
    zero_vector (A_gamma (fold_left (fun s' fe_v_s =>
      set_A_gamma (vector_add_indices (A_gamma s') (dof_indices fe_v_s)
        (get_Agamma_values (par s') fe_v_s (dof_indices fe_v_s) (block1 xi)))
        s') l s0))).
  { induction l as [|c l IH]; intros s0 Hl Hp Hz0; [exact Hz0|].
    simpl. inversion Hl as [|? ? H1 H2]; subst. apply IH; [assumption | exact Hp |].
    cbn. apply vector_add_indices_zero; [exact Hz0|].
    apply get_Agamma_values_zero; [rewrite Hp; exact Hlaw | exact Hx | lia]. }
  apply G; [apply solid_dofs_size | reflexivity | exact Hz].
Qed.

Lemma localize_zero lm M dofs :
  zero_vector lm -> zero_vector M -> zero_vector (localize lm M dofs).
Proof.
  intros Hl HM. unfold localize.
  apply (for_n_invariant zero_vector); [exact Hl|].
  intros i y _ Hy k. rewrite vget_vset, HM, Hy. destruct (_ && _); reflexivity.
Qed.

(** The coupling terms at rest. *)
Lemma coupling_V_zero p u c xi lm o :
  material_model p = INH_0 -> zero_vector (block1 xi) ->
  (use_spread p = true -> zero_vector lm) ->
  zero_vector (fst (coupling_V p u c xi lm o)).
Proof.
  intros Hlaw Hx Hlm. unfold coupling_V.
  apply (for_n_invariant (fun acc => zero_vector (fst acc))).
  - cbn. apply zero_vector_replicate.
  - intros i acc _ Hacc.
    destruct (Nat.ltb_spec (component fe_f i) dim) as [Hci|Hci];
      [|exact Hacc].
    apply (for_n_invariant (fun acc => zero_vector (fst acc))); [exact Hacc|].
    intros q acc' _ Hacc'.
    destruct (use_spread p) eqn:Hsp; cbn [negb].
    + apply (for_n_invariant (fun acc => zero_vector (fst acc)));
        [exact Hacc'|].
      intros j [lr lj] _ Hz. cbn [fst] in *.
      destruct (component fe_f i =? component fe_s j)%nat; [|exact Hz].
      intros k. rewrite vget_vadd, Hz, (Hlm eq_refl j).
      destruct (_ && _); lra.
    + destruct acc' as [lr lj]. cbn [fst] in *.
      intros k. rewrite vget_vadd, Hacc'.
      rewrite dot_zero_l.
      * destruct (_ && _); lra.
      * intros d Hd. unfold contract_1_1. apply Rsum_zero. intros m Hm.
        rewrite Pe_value_zero by assumption. lra.
Qed.

Lemma coupling_Y_zero p u c xi o :
  zero_vector (block0 xi) -> zero_vector (fst (coupling_Y p u c xi o)).
Proof.
  intros Hx. unfold coupling_Y.
  apply (for_n_invariant (fun acc => zero_vector (fst acc))).
  - cbn. apply zero_vector_replicate.
  - intros i acc _ Hacc.
    apply (for_n_invariant (fun acc => zero_vector (fst acc))); [exact Hacc|].
    intros q [lr lj] _ Hz. cbn [fst] in *.
    intros k. rewrite vget_vsub, Hz, get_function_values_zero by exact Hx.
    destruct (_ && _); lra.
Qed.

Lemma solid_inertia_zero p u alpha c xit :
  zero_vector (block1 xit) ->
  zero_vector (fst (solid_inertia p u alpha c xit)).
Proof.
  intros Hx. unfold solid_inertia.
  apply (for_n_invariant (fun acc => zero_vector (fst acc))).
  - cbn. apply zero_vector_replicate.
  - intros i acc _ Hacc.
    apply (for_n_invariant (fun acc => zero_vector (fst acc))); [exact Hacc|].
    intros q [lr lj] _ Hz. cbn [fst] in *.
    intros k. rewrite vget_vadd, Hz, get_function_values_zero by exact Hx.
    destruct (_ && _); lra.
Qed.

End ZeroStateSolid.

Section ZeroStateTheorem.
Context `{CO : Collaborators}.

Lemma jacobian_step_fields jac u s s' :
  jacobian_step jac u s s' ->
  par s' = par s /\ M_gamma3_inv_A_gamma s' = M_gamma3_inv_A_gamma s
  /\ deref_mapping s' = deref_mapping s /\ A_gamma s' = A_gamma s.
Proof.
  intros (H & _).
  pose proof (f_equal par H) as H1. pose proof (f_equal heap H) as H2.
  pose proof (f_equal mapping H) as H3.
  pose proof (f_equal M_gamma3_inv_A_gamma H) as H4.
  pose proof (f_equal A_gamma H) as H5.
  cbn in H1, H2, H3, H4, H5.
  repeat split; try assumption.
  unfold deref_mapping. rewrite H2, H3. reflexivity.
Qed.

(** A step of the loop over the fluid cells found for a solid cell, at
    rest. *)
Lemma overlap_step_zero u xit xi alpha c lm r s o :
  length (dof_indices (local_fe_f_v o)) = dofs_per_cell fe_f ->
  material_model (par s) = INH_0 ->
  zero_vector (block0 xi) -> zero_vector (block1 xi) ->
  (use_spread (par s) = true -> zero_vector lm) ->
  pure_constraint_residual (boundary_values (par s)) r ->
  pure_constraint_residual (boundary_values (par s))
    (fst (overlap_step u xit xi alpha c lm (r, s) o)).
Proof.
  intros Hlen Hlaw Hx0 Hx1 Hlm [Hr1 Hr0]. unfold overlap_step.
  pose proof (coupling_V_zero (par s) u c xi lm o Hlaw Hx1 Hlm) as HV.
  destruct (coupling_V (par s) u c xi lm o) as [lrV ljV]. cbn [fst] in HV.
  pose proof (apply_constraints_zero s lrV ljV (block0 xi)
                (dof_indices (local_fe_f_v o)) HV) as AV.
  destruct (apply_constraints s lrV ljV _ _) as [lrV1 ljV1]. cbn [fst] in AV.
  set (s1 := if u then set_JF _ s else s).
  assert (Hp : par s1 = par s) by (unfold s1; destruct u; reflexivity).
  pose proof (coupling_Y_zero (par s1) u c xi o Hx0) as HY.
  destruct (coupling_Y (par s1) u c xi o) as [lrY ljY]. cbn [fst] in HY.
  pose proof (apply_constraints_zero s1 lrY ljY (block0 xi)
                (dof_indices (local_fe_f_v o)) HY) as AY.
  destruct (apply_constraints s1 lrY ljY _ _) as [lrY1 ljY1]. cbn [fst] in AY.
  cbn [fst block0 block1 on_block0 on_block1]. split.
  - apply distribute_residual_zero; [|exact Hr1].
    intros i _. apply AY. right. lia.
  - apply distribute_residual_constraint; [|exact Hr0].
    intros i _ Hbv. apply AV. left. exact Hbv.
Qed.

Lemma overlaps_zero u xit xi alpha c lm l r s :
  Forall (fun o => length (dof_indices (local_fe_f_v o)) = dofs_per_cell fe_f)
         l ->
  material_model (par s) = INH_0 ->
  zero_vector (block0 xi) -> zero_vector (block1 xi) ->
  (use_spread (par s) = true -> zero_vector lm) ->
  pure_constraint_residual (boundary_values (par s)) r ->
  pure_constraint_residual (boundary_values (par s))
    (fst (fold_left (overlap_step u xit xi alpha c lm) l (r, s))).
Proof.
  intros Hl Hlaw Hx0 Hx1 Hlm. revert r s Hlaw Hlm.
  induction l as [|o l IH]; intros r s Hlaw Hlm Hr; [exact Hr|].
  cbn [fold_left]. inversion Hl as [|? ? H1 H2]; subst.
  pose proof (overlap_step_zero u xit xi alpha c lm r s o H1 Hlaw Hx0 Hx1
                Hlm Hr) as Hz.
  destruct (jacobian_step_fields ArgJF u s _
              (overlap_step_frame ArgJF u xit xi alpha c lm (r, s) o))
    as (Hp & _).
  cbn [snd] in Hp.
  destruct (overlap_step u xit xi alpha c lm (r, s) o) as [r' s'].
  cbn [fst snd] in *. rewrite <- Hp. apply (IH H2).
  - rewrite Hp. exact Hlaw.
  - rewrite Hp. exact Hlm.
  - rewrite Hp. exact Hz.
Qed.

(** A step of the second loop over the solid cells, at rest. *)
Lemma solid_cell_step_zero u xit xi alpha c r s lm :
  length (dof_indices c) = dofs_per_cell fe_s ->
  material_model (par s) = INH_0 ->
  zero_vector (block0 xi) -> zero_vector (block1 xi) ->
  zero_vector (block1 xit) ->
  (use_spread (par s) = true ->
   zero_vector lm /\ zero_vector (M_gamma3_inv_A_gamma s)) ->
  pure_constraint_residual (boundary_values (par s)) r ->
  pure_constraint_residual (boundary_values (par s))
    (fst (fst (solid_cell_step u xit xi alpha (r, s, lm) c)))
  /\ (use_spread (par s) = true ->
      zero_vector (snd (solid_cell_step u xit xi alpha (r, s, lm) c))).
Proof.
  intros Hlen Hlaw Hx0 Hx1 Hxt Hsp Hr. unfold solid_cell_step.
  set (lm' := localize lm (M_gamma3_inv_A_gamma s) (dof_indices c)).
  assert (Hlm' : use_spread (par s) = true -> zero_vector lm').
  { intros H. destruct (Hsp H). apply localize_zero; assumption. }
  pose proof (overlaps_zero u xit xi alpha c lm'
                (compute_point_locations
                   (mapped_quadrature_points (deref_mapping s) c))
                r s (located_dofs_size _) Hlaw Hx0 Hx1 Hlm' Hr) as Hz.
  destruct (jacobian_step_fields ArgJF u s _
              (overlaps_frame ArgJF u xit xi alpha c lm'
                 (compute_point_locations
                    (mapped_quadrature_points (deref_mapping s) c)) (r, s)))
    as (Hp & _).
  cbn [snd] in Hp.
  destruct (fold_left _ _ (r, s)) as [r1 s1]. cbn [fst snd] in *.
  pose proof (solid_inertia_zero (par s1) u alpha c xit Hxt) as HI.
  destruct (solid_inertia (par s1) u alpha c xit) as [lr lj].
  cbn [fst snd block0 block1 on_block1] in *.
  split; [|exact Hlm'].
  destruct Hz as [Hz1 Hz0]. split; [|exact Hz0].
  apply distribute_residual_zero; [|exact Hz1]. intros i _. apply HI.
Qed.

Lemma solid_loop_zero u xit xi alpha l r s lm :
  Forall (fun c => length (dof_indices c) = dofs_per_cell fe_s) l ->
  material_model (par s) = INH_0 ->
  zero_vector (block0 xi) -> zero_vector (block1 xi) ->
  zero_vector (block1 xit) ->
  (use_spread (par s) = true ->
   zero_vector lm /\ zero_vector (M_gamma3_inv_A_gamma s)) ->
  pure_constraint_residual (boundary_values (par s)) r ->
  pure_constraint_residual (boundary_values (par s))
    (fst (fst (fold_left (solid_cell_step u xit xi alpha) l (r, s, lm)))).
Proof.
  intros Hl Hlaw Hx0 Hx1 Hxt Hsp Hr. revert r s lm Hlaw Hsp Hr.
  induction l as [|c l IH]; intros r s lm Hlaw Hsp Hr; [exact Hr|].
  cbn [fold_left]. inversion Hl as [|? ? H1 H2]; subst.
  destruct (solid_cell_step_zero u xit xi alpha c r s lm H1 Hlaw Hx0 Hx1 Hxt
              Hsp Hr) as [Hz Hlm].
  destruct (jacobian_step_fields ArgJF u s _
              (solid_cell_step_frame ArgJF u xit xi alpha (r, s, lm) c))
    as (Hp & HM & _).
  cbn [fst snd] in Hp, HM.
  destruct (solid_cell_step u xit xi alpha (r, s, lm) c) as [[r' s'] lm'].
  cbn [fst snd] in *. rewrite <- Hp. apply (IH H2).
  - rewrite Hp. exact Hlaw.
  - rewrite Hp, HM. intros H. split; [apply Hlm; exact H | apply Hsp; exact H].
  - rewrite Hp. exact Hz.
Qed.

Lemma fluid_loop_zero jac u xit xi alpha l r s :
  zero_vector (block0 xit) -> zero_vector (block0 xi) ->
  (forall pt k, force (force_time (par s)) pt k = 0) ->
  pure_constraint_residual (boundary_values (par s)) r ->
  pure_constraint_residual (boundary_values (par s))
    (fst (fold_left (fluid_cell_step jac u xit xi alpha) l (r, s))).
Proof.
  intros Hxit Hxi. revert r s.
  induction l as [|c l IH]; intros r s Hf Hr; [exact Hr|].
  cbn [fold_left].
  pose proof (fluid_cell_step_zero jac u xit xi alpha r s c Hxit Hxi Hf Hr)
    as Hz.
  destruct (jacobian_step_fields jac u s _
              (fluid_cell_step_frame jac u xit xi alpha (r, s) c)) as (Hp & _).
  cbn [snd] in Hp.
  destruct (fluid_cell_step jac u xit xi alpha (r, s) c) as [r' s'].
  cbn [fst snd] in *. rewrite <- Hp. apply IH.
  - rewrite Hp. exact Hf.
  - rewrite Hp. exact Hz.
Qed.

Lemma compute_current_bc_par t s :
  let p := par (compute_current_bc t (set_par (set_force_time t (par s)) s)) in
  material_model p = material_model (par s)
  /\ use_spread p = use_spread (par s)
  /\ force_time p = t.
Proof.
  cbn zeta. unfold compute_current_bc. cbn.
  destruct (fix_pressure (par s)); cbn; repeat split; reflexivity.
Qed.

(** C1 (amended). Under the material law [INH_0], for every setting of the
    flags, evaluating the residual with [xi = 0], [xi' = 0] and no body
    force (the solver of the solid mass matrix mapping 0 to 0 when the
    spread operator is used) gives a residual whose solid block is zero and
    whose fluid block is zero in every row that is not a dof of the
    prescribed boundary values. *)
Theorem rest_state_residual (jac : JacobianArg) (residual xit xi : BlockVector)
  (alpha t : R) (s : ImmersedFEM) :
  material_model (par s) = INH_0 ->
  zero_vector (block0 xi) -> zero_vector (block1 xi) ->
  zero_vector (block0 xit) -> zero_vector (block1 xit) ->
  (forall pt k, force t pt k = 0) ->
  (use_spread (par s) = true ->
   forall v, zero_vector v -> zero_vector (M_gamma3_inv_solve v)) ->
  let out := residual_and_or_Jacobian jac residual xit xi alpha t s in
  zero_vector (block1 (fst out))
  /\ forall k, boundary_values (par (snd out)) !! k = None ->
       vget (block0 (fst out)) k = 0.
Proof.
  intros Hlaw Hx0 Hx1 Hxt0 Hxt1 Hf Hsolve. cbn zeta.
  destruct (erase_work_fields _ _
              (evaluation_frame jac residual xit xi alpha t s)) as (Hpar & _).
  rewrite Hpar.
  rewrite residual_and_or_Jacobian_phases.
  (* the state after the start *)
  destruct (prologue_unchanged jac residual xi t s)
    as (_ & _ & _ & _ & _ & _ & _ & _ & _ & _ & _ & _ & _ & _ & Pp).
  destruct (compute_current_bc_par t s) as (Plaw & Psp & Pft).
  rewrite <- Pp in Plaw, Psp, Pft.
  set (s1 := snd (evaluation_prologue jac residual xi t s)) in *.
  (* the loop over the fluid cells *)
  assert (F : pure_constraint_residual (boundary_values (par s1))
                (fst (after_fluid_loop jac residual xit xi alpha t s))
              /\ par (snd (after_fluid_loop jac residual xit xi alpha t s))
                 = par s1).
  { unfold after_fluid_loop. split.
    - rewrite (surjective_pairing (evaluation_prologue jac residual xi t s)).
      fold s1. apply fluid_loop_zero; try assumption.
      + intros pt k. rewrite Pft. apply Hf.
      + rewrite prologue_stages. cbn [fst block0 block1].
        split; [apply zero_vector_vzero|]. intros k _. apply vget_vzero.
    - apply (jacobian_step_fields jac _ s1 _
               (fluid_loop_frame jac _ xit xi alpha fluid_cells
                  (evaluation_prologue jac residual xi t s))). }
  destruct F as [Fz Fp].
  (* the elastic operator *)
  assert (A : par (after_A_gamma jac residual xit xi alpha t s) = par s1
              /\ (use_spread (par s1) = true ->
                  zero_vector (M_gamma3_inv_A_gamma
                    (after_A_gamma jac residual xit xi alpha t s)))).
  { split.
    - destruct (erase_work_fields _ _
                  (after_A_gamma_frame jac residual xit xi alpha t s))
        as (H & _). rewrite H. exact Fp.
    - intros Hs. unfold after_A_gamma. cbn zeta.
      cbn [M_gamma3_inv_A_gamma set_M_gamma3_inv_A_gamma].
      apply Hsolve; [rewrite <- Psp; exact Hs|].
      apply assemble_A_gamma_zero.
      + cbn [par set_A_gamma]. rewrite Fp, Plaw. exact Hlaw.
      + exact Hx1.
      + cbn [A_gamma set_A_gamma]. apply zero_vector_vzero. }
  destruct A as [Ap Am].
  rewrite <- Ap.
  pose proof (solid_loop_zero (negb (bsm_empty (jacobian_of jac s)))
                xit xi alpha solid_cells
                (fst (after_fluid_loop jac residual xit xi alpha t s))
                (after_A_gamma jac residual xit xi alpha t s)
                (replicate (dofs_per_cell fe_s) 0) solid_dofs_size) as H.
  destruct H as [H1 H0]; try assumption.
  - rewrite Ap, Plaw. exact Hlaw.
  - rewrite Ap. intros Hs. split; [apply zero_vector_replicate | apply Am, Hs].
  - rewrite Ap. exact Fz.
  - split; [exact H1 | exact H0].
Qed.

End ZeroStateTheorem.

(** ** Evaluating twice *)

Section DeadMembers.
Context `{CO : Collaborators}.

(** A step of the loop over the fluid cells does not read the members
    erased by [erase_dead]. *)
Lemma fluid_cell_step_dead jac u xit xi alpha r s s' c :
  erase_dead (keeps_JF jac) s = erase_dead (keeps_JF jac) s' ->
  fst (fluid_cell_step jac u xit xi alpha (r, s) c)
  = fst (fluid_cell_step jac u xit xi alpha (r, s') c)
  /\ erase_dead (keeps_JF jac) (snd (fluid_cell_step jac u xit xi alpha (r, s) c))
     = erase_dead (keeps_JF jac)
         (snd (fluid_cell_step jac u xit xi alpha (r, s') c)).
Proof.
  intros H. destruct_sim s. destruct_sim s'.
  destruct jac; cbn in H; inversion H; subst; clear H;
    unfold fluid_cell_step, apply_constraints,
      distribute_constraint_on_pressure_residual,
      distribute_constraint_on_pressure_jacobian;
    cbn [par scaling area constraining_dof dgp_for_p JF dummy_JF
         jacobian_of set_jacobian_of set_JF set_dummy_JF];
    match goal with
    | |- context [for_n ?n ?b ?x] =>
        match type of x with
        | (list R * list (list R))%type => destruct (for_n n b x) as [lr lj]
        end
    end;
    destruct u; cbn [par set_JF];
    destruct (all_DBC _ && negb _); split; reflexivity.
Qed.

(** The loop over the fluid cells does not read them either. *)
Lemma fluid_loop_dead jac u xit xi alpha cells r s s' :
  erase_dead (keeps_JF jac) s = erase_dead (keeps_JF jac) s' ->
  fst (fold_left (fluid_cell_step jac u xit xi alpha) cells (r, s))
  = fst (fold_left (fluid_cell_step jac u xit xi alpha) cells (r, s'))
  /\ erase_dead (keeps_JF jac)
       (snd (fold_left (fluid_cell_step jac u xit xi alpha) cells (r, s)))
     = erase_dead (keeps_JF jac)
         (snd (fold_left (fluid_cell_step jac u xit xi alpha) cells (r, s'))).
Proof.
  revert r s s'. induction cells as [|c cells IH]; intros r s s' H.
  - cbn. split; [reflexivity | exact H].
  - cbn [fold_left].
    destruct (fluid_cell_step_dead jac u xit xi alpha r s s' c H) as [E1 E2].
    destruct (fluid_cell_step jac u xit xi alpha (r, s) c) as [r1 s1].
    destruct (fluid_cell_step jac u xit xi alpha (r, s') c) as [r1' s1'].
    cbn [fst snd] in E1, E2. subst r1'. apply IH. exact E2.
Qed.

(** The loops over the solid cells read [M_gamma3_inv_A_gamma] but neither
    [A_gamma] nor, unless it is the matrix passed, the entries of [JF]. *)
Lemma overlap_step_dead k u xit xi alpha c lm r s s' o :
  erase_dead k s = erase_dead k s' ->
  fst (overlap_step u xit xi alpha c lm (r, s) o)
  = fst (overlap_step u xit xi alpha c lm (r, s') o)
  /\ erase_dead k (snd (overlap_step u xit xi alpha c lm (r, s) o))
     = erase_dead k (snd (overlap_step u xit xi alpha c lm (r, s') o)).
Proof.
  intros H. destruct_sim s. destruct_sim s'.
  destruct k; cbn in H; inversion H; subst; clear H;
    destruct u;
    unfold overlap_step, apply_constraints;
    cbn [par scaling area constraining_dof dgp_for_p JF dummy_JF set_JF];
    repeat match goal with
    | |- context [match ?X with pair _ _ => _ end] => destruct X
    end;
    cbn [par scaling area constraining_dof dgp_for_p JF dummy_JF set_JF
         fst snd negb];
    try destruct (semi_implicit _); split; reflexivity.
Qed.

Lemma overlaps_dead k u xit xi alpha c lm l r s s' :
  erase_dead k s = erase_dead k s' ->
  fst (fold_left (overlap_step u xit xi alpha c lm) l (r, s))
  = fst (fold_left (overlap_step u xit xi alpha c lm) l (r, s'))
  /\ erase_dead k (snd (fold_left (overlap_step u xit xi alpha c lm) l (r, s)))
     = erase_dead k
         (snd (fold_left (overlap_step u xit xi alpha c lm) l (r, s'))).
Proof.
  revert r s s'. induction l as [|o l IH]; intros r s s' H.
  - cbn. split; [reflexivity | exact H].
  - cbn [fold_left].
    destruct (overlap_step_dead k u xit xi alpha c lm r s s' o H) as [E1 E2].
    destruct (overlap_step u xit xi alpha c lm (r, s) o) as [r1 s1].
    destruct (overlap_step u xit xi alpha c lm (r, s') o) as [r1' s1'].
    cbn [fst snd] in E1, E2. subst r1'. apply IH. exact E2.
Qed.

Lemma erase_dead_fields k s s' :
  erase_dead k s = erase_dead k s' ->
  par s = par s' /\ heap s = heap s' /\ mapping s = mapping s'
  /\ dummy_JF s = dummy_JF s' /\ sparsity s = sparsity s'
  /\ (k = true -> JF s = JF s').
Proof.
  intros H. destruct_sim s. destruct_sim s'.
  destruct k; cbn in H; inversion H; subst; cbn; repeat split; try reflexivity.
  discriminate.
Qed.

Lemma erase_dead_set_JF k f s s' :
  erase_dead k s = erase_dead k s' ->
  erase_dead k (set_JF (f (JF s)) s) = erase_dead k (set_JF (f (JF s')) s').
Proof.
  intros H. destruct_sim s. destruct_sim s'.
  destruct k; cbn in H; inversion H; subst; reflexivity.
Qed.

Lemma erase_dead_restore s s' :
  erase_dead true s = erase_dead true s' ->
  A_gamma s = A_gamma s' ->
  M_gamma3_inv_A_gamma s = M_gamma3_inv_A_gamma s' -> s = s'.
Proof.
  intros H. destruct_sim s. destruct_sim s'.
  cbn in H |- *. inversion H; subst. intros -> ->. reflexivity.
Qed.

Lemma solid_cell_step_dead k u xit xi alpha c lm r s s' :
  erase_dead k s = erase_dead k s' ->
  M_gamma3_inv_A_gamma s = M_gamma3_inv_A_gamma s' ->
  fst (fst (solid_cell_step u xit xi alpha (r, s, lm) c))
  = fst (fst (solid_cell_step u xit xi alpha (r, s', lm) c))
  /\ snd (solid_cell_step u xit xi alpha (r, s, lm) c)
     = snd (solid_cell_step u xit xi alpha (r, s', lm) c)
  /\ erase_dead k (snd (fst (solid_cell_step u xit xi alpha (r, s, lm) c)))
     = erase_dead k (snd (fst (solid_cell_step u xit xi alpha (r, s', lm) c))).
Proof.
  intros H HM.
  destruct (erase_dead_fields k s s' H) as (_ & Hh & Hm & _).
  assert (Hd : deref_mapping s = deref_mapping s').
  { unfold deref_mapping. rewrite Hh, Hm. reflexivity. }
  unfold solid_cell_step. rewrite <- HM, <- Hd.
  destruct (overlaps_dead k u xit xi alpha c
              (localize lm (M_gamma3_inv_A_gamma s) (dof_indices c))
              (compute_point_locations
                 (mapped_quadrature_points (deref_mapping s) c)) r s s' H)
    as [E1 E2].
  destruct (fold_left _ _ (r, s)) as [r1 s1].
  destruct (fold_left _ _ (r, s')) as [r1' s1'].
  cbn [fst snd] in E1, E2. subst r1'.
  destruct (erase_dead_fields k s1 s1' E2) as (Hp & _).
  rewrite <- Hp.
  destruct (solid_inertia (par s1) u alpha c xit) as [lr lj].
  destruct u; cbn [fst snd]; repeat split; try reflexivity; try exact E2.
  apply (erase_dead_set_JF k
           (on_block B11
              (fun J => distribute_jacobian J lj (dof_indices c) (dof_indices c)
                          (dofs_per_cell fe_f) (dofs_per_cell fe_f)))).
  exact E2.
Qed.

Lemma solid_loop_dead k u xit xi alpha l lm r s s' :
  erase_dead k s = erase_dead k s' ->
  M_gamma3_inv_A_gamma s = M_gamma3_inv_A_gamma s' ->
  fst (fst (fold_left (solid_cell_step u xit xi alpha) l (r, s, lm)))
  = fst (fst (fold_left (solid_cell_step u xit xi alpha) l (r, s', lm)))
  /\ erase_dead k
       (snd (fst (fold_left (solid_cell_step u xit xi alpha) l (r, s, lm))))
     = erase_dead k
         (snd (fst (fold_left (solid_cell_step u xit xi alpha) l (r, s', lm)))).
Proof.
  revert lm r s s'. induction l as [|c l IH]; intros lm r s s' H HM.
  - cbn. split; [reflexivity | exact H].
  - cbn [fold_left].
    destruct (solid_cell_step_dead k u xit xi alpha c lm r s s' H HM)
      as (E1 & E2 & E3).
    destruct (jacobian_step_fields ArgJF u _ _
                (solid_cell_step_frame ArgJF u xit xi alpha (r, s, lm) c))
      as (_ & M1 & _).
    destruct (jacobian_step_fields ArgJF u _ _
                (solid_cell_step_frame ArgJF u xit xi alpha (r, s', lm) c))
      as (_ & M2 & _).
    cbn [fst snd] in M1, M2.
    destruct (solid_cell_step u xit xi alpha (r, s, lm) c) as [[r1 s1] lm1].
    destruct (solid_cell_step u xit xi alpha (r, s', lm) c) as [[r1' s1'] lm1'].
    cbn [fst snd] in *. subst r1' lm1'. apply IH; [exact E3|].
    rewrite M1, M2. exact HM.
Qed.

(** The assembly of [A_gamma] reads the parameters and [A_gamma] only. *)
Lemma assemble_A_gamma_dead k xi s s' :
  erase_dead k s = erase_dead k s' -> A_gamma s = A_gamma s' ->
  erase_dead k (assemble_A_gamma xi s) = erase_dead k (assemble_A_gamma xi s')
  /\ A_gamma (assemble_A_gamma xi s) = A_gamma (assemble_A_gamma xi s').
Proof.
  unfold assemble_A_gamma. revert s s'.
  induction solid_cells as [|c l IH]; intros s s' H HA.
  - cbn. split; assumption.
  - cbn [fold_left]. apply IH.
    + destruct_sim s. destruct_sim s'.
      destruct k; cbn in H |- *; inversion H; subst; reflexivity.
    + destruct (erase_dead_fields k s s' H) as (Hp & _).
      cbn. rewrite Hp, HA. reflexivity.
Qed.

End DeadMembers.

Section EvaluateTwice.
Context `{CO : Collaborators}.

Lemma erase_dead_ext k s s' :
  par s = par s' -> heap s = heap s' -> mapping s = mapping s' ->
  scaling s = scaling s' -> area s = area s' ->
  pressure_dofs s = pressure_dofs s' ->
  constraining_dof s = constraining_dof s' -> dgp_for_p s = dgp_for_p s' ->
  sparsity s = sparsity s' -> (k = true -> JF s = JF s') ->
  dummy_JF s = dummy_JF s' -> JF_inv s = JF_inv s' ->
  current_xi s = current_xi s' -> previous_xi s = previous_xi s' ->
  current_xit s = current_xit s' -> current_res s = current_res s' ->
  newton_update s = newton_update s' ->
  tmp_vec_n_total_dofs s = tmp_vec_n_total_dofs s' ->
  erase_dead k s = erase_dead k s'.
Proof.
  destruct_sim s. destruct_sim s'. cbn.
  intros -> -> -> -> -> -> -> -> -> HJ -> -> -> -> -> -> -> ->.
  destruct k; cbn; [|reflexivity]. rewrite HJ by reflexivity. reflexivity.
Qed.

(** Interpolating the boundary values of the same time once more changes
    nothing. *)
Lemma boundary_values_again (I bv : gmap nat R) (cd : nat) :
  I ∪ (I ∪ bv) = I ∪ bv
  /\ <[cd := 0]> (I ∪ <[cd := 0]> (I ∪ bv)) = <[cd := 0]> (I ∪ bv).
Proof.
  split; apply map_eq; intros k.
  - rewrite !lookup_union. destruct (I !! k), (bv !! k); reflexivity.
  - destruct (decide (cd = k)) as [->|Hk].
    + rewrite !lookup_insert_eq. reflexivity.
    + rewrite !lookup_insert_ne by exact Hk. rewrite !lookup_union.
      rewrite lookup_insert_ne by exact Hk. rewrite lookup_union.
      destruct (I !! k), (bv !! k); reflexivity.
Qed.

Lemma compute_current_bc_again t s s1 :
  par s1 = par (compute_current_bc t (set_par (set_force_time t (par s)) s)) ->
  constraining_dof s1 = constraining_dof s ->
  par (compute_current_bc t (set_par (set_force_time t (par s1)) s1)) = par s1.
Proof.
  intros Hp Hc. unfold compute_current_bc in Hp |- *.
  cbn [par set_par constraining_dof] in Hp |- *. rewrite ?Hc.
  destruct (par s) as [dg rh et m PB d T0 si us ad fp ujc ujb mm rc bv ft ut].
  destruct (boundary_values_again (interpolate_boundary_values t) bv
              (constraining_dof s)) as [B1 B2].
  destruct fp;
    unfold set_boundary_values, set_u_g_time, set_force_time in Hp |- *;
    cbn in Hp; rewrite Hp; cbn; f_equal; assumption.
Qed.

Lemma compute_current_bc_kept t s :
  let p := par (compute_current_bc t (set_par (set_force_time t (par s)) s)) in
  degree p = degree (par s) /\ semi_implicit p = semi_implicit (par s).
Proof.
  cbn zeta. unfold compute_current_bc. cbn.
  destruct (fix_pressure (par s)); cbn; split; reflexivity.
Qed.

(** The start of a second evaluation, from the state the first one has
    left, gives the state the first one started its loops from, up to the
    members that are never read. *)
Lemma prologue_again jac r r' xit xi alpha t s :
  erase_dead (keeps_JF jac)
    (snd (evaluation_prologue jac r' xi t
            (snd (residual_and_or_Jacobian jac r xit xi alpha t s))))
  = erase_dead (keeps_JF jac) (snd (evaluation_prologue jac r xi t s)).
Proof.
  set (s1 := snd (residual_and_or_Jacobian jac r xit xi alpha t s)).
  destruct (erase_work_fields _ _ (evaluation_frame jac r xit xi alpha t s))
    as (F1 & F2 & F3 & F4 & F5 & F6 & F7 & F8 & F9 & F10 & F11 & F12 & F13
        & F14 & F15 & F16).
  fold s1 in F1, F2, F3, F4, F5, F6, F7, F8, F9, F10, F11, F12, F13, F14,
    F15, F16.
  destruct (prologue_unchanged jac r xi t s)
    as (U1 & U2 & U3 & U4 & U5 & U6 & U7 & U8 & U9 & U10 & U11 & U12 & U13
        & U14 & U15).
  destruct (prologue_unchanged jac r' xi t s1)
    as (V1 & V2 & V3 & V4 & V5 & V6 & V7 & V8 & V9 & V10 & V11 & V12 & V13
        & V14 & V15).
  destruct (prologue_mapping jac r xi t s) as [Pm Ph].
  destruct (prologue_mapping jac r' xi t s1) as [Pm' Ph'].
  destruct (prologue_jacobian jac r xi t s) as [J1 J2].
  destruct (prologue_jacobian jac r' xi t s1) as [K1 K2].
  destruct (evaluation_emptiness jac r xit xi alpha t s) as [Em1 Em2].
  destruct (evaluation_loops_step jac r xit xi alpha t s)
    as (_ & _ & L3 & L4).
  fold s1 in Em1, Em2, L3, L4.
  destruct (compute_current_bc_kept t s) as [Hdeg Hsi].
  rewrite <- U15, <- F1 in Hdeg, Hsi.
  assert (Hpar : par (snd (evaluation_prologue jac r' xi t s1)) = par s1).
  { rewrite V15. apply (compute_current_bc_again t s).
    - rewrite F1. exact U15.
    - rewrite F7. exact U4. }
  assert (Hsrc : mapping_source xi s1 = mapping_source xi s).
  { unfold mapping_source. rewrite Hsi, F12, U10. reflexivity. }
  assert (Hheap : heap_after_delete s1 = heap_after_delete s).
  { unfold heap_after_delete at 1. rewrite F3, F2, Pm, Ph.
    apply delete_insert_id. apply not_elem_of_dom. apply is_fresh. }
  assert (Hemp : bsm_empty (jacobian_of jac s1) = bsm_empty (jacobian_of jac s)).
  { destruct jac; assumption. }
  apply erase_dead_ext.
  - rewrite Hpar. exact F1.
  - rewrite Ph', Ph, Hheap, Hdeg, Hsrc. reflexivity.
  - rewrite Pm', Pm, Hheap. reflexivity.
  - rewrite V1, U1. reflexivity.
  - rewrite V2, F5. reflexivity.
  - rewrite V3, F6. reflexivity.
  - rewrite V4, F7. reflexivity.
  - rewrite V5, F8. reflexivity.
  - destruct (bsm_empty (jacobian_of jac s)) eqn:He.
    + destruct (K1 Hemp) as (S1 & _). rewrite S1. exact F9.
    + destruct (K2 Hemp) as (S1 & _). destruct (J2 eq_refl) as (S0 & _).
      rewrite S1, F9, S0, Hdeg, Hsrc. reflexivity.
  - intros Hk. destruct jac; [|discriminate Hk]. cbn [jacobian_of] in *.
    destruct (bsm_empty (JF s)) eqn:He.
    + destruct (K1 Hemp) as (_ & S1 & _). rewrite S1.
      apply (L3 eq_refl).
    + destruct (K2 Hemp) as (_ & S1 & _). destruct (J2 eq_refl) as (S0 & T0 & _).
      rewrite S1, T0, F9, S0, Hdeg, Hsrc. reflexivity.
  - destruct (bsm_empty (jacobian_of jac s)) eqn:He.
    + destruct (K1 Hemp) as (_ & _ & S1). rewrite S1.
      apply (L3 eq_refl).
    + destruct (K2 Hemp) as (_ & S1 & S2 & _).
      destruct (J2 eq_refl) as (S0 & T0 & T1 & _).
      destruct jac; cbn [jacobian_of] in *.
      * rewrite (S2 eq_refl). apply (L4 eq_refl).
      * rewrite S1, T0, F9, S0, Hdeg, Hsrc. reflexivity.
  - rewrite V6, F10. reflexivity.
  - rewrite V9, F11. reflexivity.
  - rewrite V10, F12. reflexivity.
  - rewrite V11, F13. reflexivity.
  - rewrite V12, F14. reflexivity.
  - rewrite V13, F15. reflexivity.
  - rewrite V14, F16. reflexivity.
Qed.

End EvaluateTwice.

Section EvaluateTwiceLoops.
Context `{CO : Collaborators}.

Lemma residual_and_or_Jacobian_loops jac r xit xi alpha t s :
  residual_and_or_Jacobian jac r xit xi alpha t s
  = evaluation_loops jac (negb (bsm_empty (jacobian_of jac s))) xit xi alpha
      (evaluation_prologue jac r xi t s).
Proof.
  unfold residual_and_or_Jacobian, evaluation_loops.
  destruct (evaluation_prologue jac r xi t s) as [r1 s1]. reflexivity.
Qed.

Lemma erase_dead_set_A_gamma k a s :
  erase_dead k (set_A_gamma a s) = erase_dead k s.
Proof. destruct_sim s. destruct k; reflexivity. Qed.

Lemma erase_dead_set_M_gamma3_inv_A_gamma k a s :
  erase_dead k (set_M_gamma3_inv_A_gamma a s) = erase_dead k s.
Proof. destruct_sim s. destruct k; reflexivity. Qed.

(** What the loops leave in [A_gamma], [M_gamma3_inv_A_gamma] and the
    residual, by size. *)
Lemma evaluation_loops_sizes jac u xit xi alpha r s :
  let out := evaluation_loops jac u xit xi alpha (r, s) in
  length (A_gamma (snd out)) = length (A_gamma s)
  /\ length (block0 (fst out)) = length (block0 r)
  /\ length (block1 (fst out)) = length (block1 r).
Proof.
  cbn zeta. unfold evaluation_loops.
  destruct (jacobian_step_fields jac u _ _
              (fluid_loop_frame jac u xit xi alpha fluid_cells (r, s)))
    as (_ & _ & _ & A1).
  destruct (fluid_loop_length jac u xit xi alpha fluid_cells (r, s))
    as [L1 L2].
  destruct (fold_left (fluid_cell_step _ _ _ _ _) _ _) as [r2 s2].
  cbn [fst snd] in A1, L1, L2.
  set (s4 := assemble_A_gamma xi (set_A_gamma (vzero (A_gamma s2)) s2)).
  set (s5 := set_M_gamma3_inv_A_gamma (M_gamma3_inv_solve (A_gamma s4)) s4).
  destruct (jacobian_step_fields jac u _ _
              (solid_loop_frame jac u xit xi alpha solid_cells
                 (r2, s5, replicate (dofs_per_cell fe_s) 0)))
    as (_ & _ & _ & A2).
  destruct (solid_loop_length u xit xi alpha solid_cells
              (r2, s5, replicate (dofs_per_cell fe_s) 0)) as [L3 L4].
  destruct (fold_left (solid_cell_step _ _ _ _) _ _) as [[r3 s6] lm].
  cbn [fst snd] in A2, L3, L4 |- *.
  destruct (assemble_A_gamma_frame xi (set_A_gamma (vzero (A_gamma s2)) s2))
    as [_ A3].
  fold s4 in A3. cbn in A3. rewrite length_vzero in A3.
  split; [|split].
  - rewrite A2. unfold s5. cbn. rewrite A3, A1. reflexivity.
  - rewrite L3. exact L1.
  - rewrite L4, L2. reflexivity.
Qed.

(** The loops do not read the members erased by [erase_dead], and of
    [A_gamma] only its size. *)
Lemma evaluation_loops_dead jac u xit xi alpha r s s' :
  erase_dead (keeps_JF jac) s = erase_dead (keeps_JF jac) s' ->
  length (A_gamma s) = length (A_gamma s') ->
  let a := evaluation_loops jac u xit xi alpha (r, s) in
  let b := evaluation_loops jac u xit xi alpha (r, s') in
  fst a = fst b
  /\ erase_dead (keeps_JF jac) (snd a) = erase_dead (keeps_JF jac) (snd b)
  /\ A_gamma (snd a) = A_gamma (snd b)
  /\ M_gamma3_inv_A_gamma (snd a) = M_gamma3_inv_A_gamma (snd b).
Proof.
  intros H HA. cbn zeta. unfold evaluation_loops.
  destruct (fluid_loop_dead jac u xit xi alpha fluid_cells r s s' H)
    as [E1 E2].
  destruct (jacobian_step_fields jac u _ _
              (fluid_loop_frame jac u xit xi alpha fluid_cells (r, s)))
    as (_ & _ & _ & A1).
  destruct (jacobian_step_fields jac u _ _
              (fluid_loop_frame jac u xit xi alpha fluid_cells (r, s')))
    as (_ & _ & _ & A1').
  destruct (fold_left (fluid_cell_step _ _ _ _ _) _ (r, s)) as [r2 s2].
  destruct (fold_left (fluid_cell_step _ _ _ _ _) _ (r, s')) as [r2' s2'].
  cbn [fst snd] in E1, E2, A1, A1'. subst r2'.
  assert (Hz : vzero (A_gamma s2') = vzero (A_gamma s2)).
  { unfold vzero. rewrite A1, A1', HA. reflexivity. }
  rewrite Hz.
  destruct (assemble_A_gamma_dead (keeps_JF jac) xi
              (set_A_gamma (vzero (A_gamma s2)) s2)
              (set_A_gamma (vzero (A_gamma s2)) s2')) as [G1 G2].
  { rewrite !erase_dead_set_A_gamma. exact E2. }
  { destruct_sim s2. destruct_sim s2'. reflexivity. }
  set (s4 := assemble_A_gamma xi (set_A_gamma (vzero (A_gamma s2)) s2)) in *.
  set (s4' := assemble_A_gamma xi (set_A_gamma (vzero (A_gamma s2)) s2')) in *.
  rewrite <- G2.
  set (s5 := set_M_gamma3_inv_A_gamma (M_gamma3_inv_solve (A_gamma s4)) s4).
  set (s5' := set_M_gamma3_inv_A_gamma (M_gamma3_inv_solve (A_gamma s4)) s4').
  assert (H5 : erase_dead (keeps_JF jac) s5 = erase_dead (keeps_JF jac) s5').
  { unfold s5, s5'. rewrite !erase_dead_set_M_gamma3_inv_A_gamma. exact G1. }
  assert (M5 : M_gamma3_inv_A_gamma s5 = M_gamma3_inv_A_gamma s5').
  { unfold s5, s5'. destruct_sim s4. destruct_sim s4'. reflexivity. }
  assert (A5 : A_gamma s5 = A_gamma s5').
  { unfold s5, s5'. destruct_sim s4. destruct_sim s4'. exact G2. }
  destruct (solid_loop_dead (keeps_JF jac) u xit xi alpha solid_cells
              (replicate (dofs_per_cell fe_s) 0) r2 s5 s5' H5 M5) as [S1 S2].
  destruct (jacobian_step_fields jac u _ _
              (solid_loop_frame jac u xit xi alpha solid_cells
                 (r2, s5, replicate (dofs_per_cell fe_s) 0)))
    as (_ & M6 & _ & A6).
  destruct (jacobian_step_fields jac u _ _
              (solid_loop_frame jac u xit xi alpha solid_cells
                 (r2, s5', replicate (dofs_per_cell fe_s) 0)))
    as (_ & M6' & _ & A6').
  destruct (fold_left (solid_cell_step _ _ _ _) _ (r2, s5, _)) as [[r3 s6] lm].
  destruct (fold_left (solid_cell_step _ _ _ _) _ (r2, s5', _))
    as [[r3' s6'] lm'].
  cbn [fst snd] in *.
  repeat split; try assumption.
  - rewrite A6, A6'. exact A5.
  - rewrite M6, M6'. exact M5.
Qed.

(** C9. Evaluating the residual and the Jacobian a second time, with the
    same [xi], [xi'], [t] and [alpha] and from the state the first
    evaluation has left, gives the same residual and the same Jacobian, the
    same sparsity pattern and the same elastic operator [A_gamma] (and its
    image under the inverse of the mass matrix); when the Jacobian passed is
    [JF] itself the whole state of the simulation is the same.  Nothing is
    carried over from one evaluation to the next. *)
Theorem evaluation_idempotent (jac : JacobianArg)
  (residual xit xi : BlockVector) (alpha t : R) (s : ImmersedFEM) :
  let first := residual_and_or_Jacobian jac residual xit xi alpha t s in
  let second :=
    residual_and_or_Jacobian jac (fst first) xit xi alpha t (snd first) in
  fst second = fst first
  /\ jacobian_of jac (snd second) = jacobian_of jac (snd first)
  /\ sparsity (snd second) = sparsity (snd first)
  /\ A_gamma (snd second) = A_gamma (snd first)
  /\ M_gamma3_inv_A_gamma (snd second) = M_gamma3_inv_A_gamma (snd first)
  /\ (jac = ArgJF -> snd second = snd first).
Proof.
  cbn zeta.
  set (first := residual_and_or_Jacobian jac residual xit xi alpha t s).
  pose proof (prologue_again jac residual (fst first) xit xi alpha t s) as Hp.
  fold first in Hp.
  destruct (evaluation_emptiness jac residual xit xi alpha t s) as [Em1 Em2].
  fold first in Em1, Em2.
  assert (Hemp : bsm_empty (jacobian_of jac (snd first))
                 = bsm_empty (jacobian_of jac s)).
  { destruct jac; assumption. }
  rewrite (residual_and_or_Jacobian_loops jac (fst first)). rewrite Hemp.
  assert (Hfirst : first
    = evaluation_loops jac (negb (bsm_empty (jacobian_of jac s))) xit xi alpha
        (evaluation_prologue jac residual xi t s)).
  { apply residual_and_or_Jacobian_loops. }
  destruct (prologue_unchanged jac residual xi t s)
    as (_ & _ & _ & _ & _ & _ & U7 & _).
  destruct (prologue_unchanged jac (fst first) xi t (snd first))
    as (_ & _ & _ & _ & _ & _ & V7 & _).
  rewrite (prologue_stages jac (fst first) xi t (snd first)) in Hp, V7 |- *.
  rewrite (prologue_stages jac residual xi t s) in Hp, U7, Hfirst.
  cbn zeta in *. cbn [snd] in Hp, U7, V7.
  match type of Hfirst with
  | _ = evaluation_loops _ _ _ _ _ (?rz, ?p) =>
      set (r0 := rz) in *; set (p0 := p) in *
  end.
  match goal with
  | |- context [evaluation_loops _ _ _ _ _ (?rz, ?p)] =>
      set (r1 := rz) in *; set (p1 := p) in *
  end.
  destruct (evaluation_loops_sizes jac (negb (bsm_empty (jacobian_of jac s)))
              xit xi alpha r0 p0) as (Z1 & Z2 & Z3).
  rewrite <- Hfirst in Z1, Z2, Z3.
  assert (Hr : r1 = r0).
  { unfold r0 in Z2, Z3. cbn [block0 block1] in Z2, Z3.
    rewrite length_vzero in Z2, Z3.
    unfold r1, r0, vzero. rewrite Z2, Z3. reflexivity. }
  rewrite Hr.
  destruct (evaluation_loops_dead jac (negb (bsm_empty (jacobian_of jac s)))
              xit xi alpha r0 p1 p0 Hp) as (D1 & D2 & D3 & D4).
  { rewrite V7, Z1. reflexivity. }
  rewrite <- Hfirst in D1, D2, D3, D4.
  destruct (erase_dead_fields _ _ _ D2) as (_ & _ & _ & Q4 & Q5 & Q6).
  split; [exact D1|]. split.
  { destruct jac; cbn [jacobian_of]; [apply Q6; reflexivity | exact Q4]. }
  split; [exact Q5|]. split; [exact D3|]. split; [exact D4|].
  intros ->. apply erase_dead_restore; assumption.
Qed.

End EvaluateTwiceLoops.

(** ** The sample configuration *)

Lemma zero_vector_sample :
  zero_vector (block0 sample_vector) /\ zero_vector (block1 sample_vector).
Proof.
  split.
  - intros [|[|[|k]]]; try reflexivity. exact (vget_nil k).
  - intros [|[|k]]; try reflexivity. exact (vget_nil k).
Qed.

(** At rest under [INH_0] the residual of the sample configuration vanishes
    in every row outside the boundary values. *)
Lemma rest_state_residual_sample :
  let s := sample_sim (sample_par INH_0 false false ∅) None in
  let out :=
    @residual_and_or_Jacobian sample ArgDummyJF sample_vector sample_vector
      sample_vector 0 0 s in
  material_model (par s) = INH_0
  /\ zero_vector (block1 (fst out))
  /\ forall k, boundary_values (par (snd out)) !! k = None ->
       vget (block0 (fst out)) k = 0.
Proof.
  cbn zeta. split; [reflexivity|].
  apply (@rest_state_residual sample ArgDummyJF sample_vector sample_vector
           sample_vector 0 0 (sample_sim (sample_par INH_0 false false ∅) None)).
  - reflexivity.
  - apply zero_vector_sample.
  - apply zero_vector_sample.
  - apply zero_vector_sample.
  - apply zero_vector_sample.
  - intros pt k. reflexivity.
  - intros _ v Hv. exact Hv.
Defined.

(** At rest under [INH_1], with no body force, no boundary value and no
    constraint on the pressure, the residual of the sample configuration is
    1 in row 0: the elastic traction [Pe F^T = mu I] against the gradient of
    the test function. *)
Lemma rest_state_residual_INH_1 :
  let s := sample_sim (sample_par INH_1 false false ∅) None in
  let out :=
    @residual_and_or_Jacobian sample ArgDummyJF sample_vector sample_vector
      sample_vector 0 0 s in
  (zero_vector (block0 sample_vector) /\ zero_vector (block1 sample_vector))
  /\ boundary_values (par (snd out)) !! 0%nat = None
  /\ gauge_active (snd out) = false
  /\ vget (block0 (fst out)) 0 = 1
  /\ vget (block0 (fst out)) 0 <> 0.
Proof.
  cbn zeta. split; [exact zero_vector_sample|].
  split; [vm_compute; reflexivity|].
  split; [vm_compute; reflexivity|].
  assert (H : vget (block0 (fst (@residual_and_or_Jacobian sample ArgDummyJF
                sample_vector sample_vector sample_vector 0 0
                (sample_sim (sample_par INH_1 false false ∅) None)))) 0 = 1).
  { vm_compute. lra. }
  split; [exact H|]. rewrite H. lra.
Qed.

(** The Jacobian of the fluid cell of the sample configuration. *)
Lemma fluid_jacobian_exact_sample :
  let p := sample_par INH_0 false false ∅ in
  let c := sample_fluid_cell in
  (0 < dofs_per_cell (@fe_f sample))%nat
  /\ derivable_pt_lim
       (fun h =>
          vget (local_res (@fluid_cell_local sample p false true 1 c
                             (vadd [0; 0; 0] (dof (dof_indices c) 0) (1 * h))
                             (vadd [0; 0; 0] (dof (dof_indices c) 0) h))) 0)
       0
       (mget (local_jacobian (@fluid_cell_local sample p false true 1 c
                                [0; 0; 0] [0; 0; 0])) 0 0).
Proof.
  cbn zeta. split; [cbn; lia|].
  refine (proj1 (@fluid_jacobian_exact sample
                   (sample_par INH_0 false false ∅) false 1
                   sample_fluid_cell [0; 0; 0] [0; 0; 0] 0%nat 0%nat
                   _ _ _ _ _)).
  - cbn. lia.
  - cbn. lia.
  - intros [|[|[|j']]] Hlt He; cbn in Hlt, He; try reflexivity;
      try discriminate He; lia.
  - cbn. lia.
  - cbn. lia.
Defined.

(** A boundary dof that is not the constraining pressure dof. *)
Lemma constraint_rows_sample :
  let s := sample_sim (sample_par INH_0 false false {[ 0%nat := 2 ]}) None in
  let lr := [5; 5; 5; 5; 5] in
  let lj := replicate 5 (replicate 5 7) in
  let out := apply_constraints s lr lj [3; 0; 0] [0; 1; 2]%nat in
  (boundary_values (par s) !! dof [0; 1; 2]%nat 0 = Some 2
   /\ pinned s [0; 1; 2]%nat 0 = false)
  /\ vget (fst out) 0 = scaling s * (vget [3; 0; 0] (dof [0; 1; 2]%nat 0) - 2).
Proof.
  cbn zeta. split; [split; [vm_compute; reflexivity | reflexivity]|].
  refine (proj1 (@constraint_rows sample
                   (sample_sim (sample_par INH_0 false false {[ 0%nat := 2 ]})
                      None)
                   [5; 5; 5; 5; 5] (replicate 5 (replicate 5 7)) [3; 0; 0]
                   [0; 1; 2]%nat 5 0 2 _ _ _ _)).
  - cbn. lia.
  - cbn. lia.
  - vm_compute. reflexivity.
  - reflexivity.
Defined.

(** The constraining pressure dof in the boundary-value map, all boundary
    conditions essential and the pressure not fixed: the constraint pass
    leaves 0 in the residual entry, not [scaling * (value - prescribed)]
    (here -1), and 0 on the diagonal of the Jacobian row, not [scaling]
    (here 1). *)
Lemma constraint_rows_pinned :
  let s := sample_sim (sample_par INH_0 true false {[ 2%nat := 1 ]}) None in
  let lr := [5; 5; 5; 5; 5] in
  let lj := replicate 5 (replicate 5 7) in
  let out := apply_constraints s lr lj [0; 0; 0] [0; 1; 2]%nat in
  boundary_values (par s) !! dof [0; 1; 2]%nat 2 = Some 1
  /\ scaling s * (vget [0; 0; 0] (dof [0; 1; 2]%nat 2) - 1) = -1
  /\ scaling s = 1
  /\ vget (fst out) 2 = 0
  /\ mget (snd out) 2 2 = 0.
Proof.
  cbn zeta. split; [vm_compute; reflexivity|].
  split; [vm_compute; lra|]. split; [reflexivity|].
  split; vm_compute; lra.
Qed.

(** The gauge of the pressure on the fluid cell of the sample
    configuration. *)
Lemma pressure_gauge_sample :
  let s := sample_sim (sample_par INH_0 true false ∅) None in
  let L := @fluid_cell_local sample (par s) (dgp_for_p s) false 0
             sample_fluid_cell (block0 sample_vector) (block0 sample_vector) in
  let out :=
    @fluid_cell_step sample ArgDummyJF false sample_vector sample_vector 0
      (sample_vector, s) sample_fluid_cell in
  gauge_active s = true
  /\ ((constraining_dof s < length (block0 sample_vector))%nat ->
      vget (block0 (fst out)) (constraining_dof s)
      = vget (block0 sample_vector) (constraining_dof s)
        + local_average_pressure L * scaling s / area s).
Proof.
  cbn zeta. split; [reflexivity|].
  refine (proj1 (proj2 (@pressure_gauge sample ArgDummyJF false sample_vector
                          sample_vector 0 sample_vector
                          (sample_sim (sample_par INH_0 true false ∅) None)
                          sample_fluid_cell _))).
  reflexivity.
Defined.

(** ** Boundary values over time *)

Section BoundaryValuesOverTime.
Context `{CO : Collaborators}.

Lemma lookup_compute_current_bc (t : R) (s : ImmersedFEM) (k : nat) :
  boundary_values (par (compute_current_bc t s)) !! k
  = if fix_pressure (par s) && (k =? constraining_dof s)%nat
    then Some 0
    else match interpolate_boundary_values t !! k with
         | Some x => Some x
         | None => boundary_values (par s) !! k
         end.
Proof.
  rewrite par_compute_current_bc.
  assert (U : (interpolate_boundary_values t ∪ boundary_values (par s)) !! k
              = match interpolate_boundary_values t !! k with
                | Some x => Some x
                | None => boundary_values (par s) !! k
                end).
  { rewrite lookup_union.
    destruct (interpolate_boundary_values t !! k),
             (boundary_values (par s) !! k); reflexivity. }
  destruct (fix_pressure (par s)); cbn [andb]; [|exact U].
  destruct (Nat.eqb_spec k (constraining_dof s)) as [->|Hne].
  - apply lookup_insert_eq.
  - rewrite lookup_insert_ne by congruence. exact U.
Qed.

Lemma compute_current_bc_keeps_keys (t : R) (s : ImmersedFEM) :
  dom (boundary_values (par s))
  ⊆ dom (boundary_values (par (compute_current_bc t s))).
Proof.
  intros k Hk. apply elem_of_dom in Hk as [x Hx]. apply elem_of_dom.
  rewrite lookup_compute_current_bc.
  destruct (fix_pressure (par s) && (k =? constraining_dof s)%nat);
    [eexists; reflexivity|].
  destruct (interpolate_boundary_values t !! k); [eexists; reflexivity|].
  exists x. exact Hx.
Qed.

(** X1. [compute_current_bc] only ever adds to [par.boundary_values] or
    overwrites a value: after the call a dof has the value 0 if it is the
    constraining dof under [fix_pressure], else the value interpolated at
    time [t] if it is a boundary dof at that time, else the value it had
    before.  A dof once in the map stays in it, through
    [compute_current_bc], [apply_current_bc] and every evaluation of the
    residual. *)
Theorem boundary_values_persist (t : R) (s : ImmersedFEM) :
  let bv := boundary_values (par s) in
  (forall k,
     boundary_values (par (compute_current_bc t s)) !! k
     = if fix_pressure (par s) && (k =? constraining_dof s)%nat
       then Some 0
       else match interpolate_boundary_values t !! k with
            | Some x => Some x
            | None => bv !! k
            end)
  /\ dom bv ⊆ dom (boundary_values (par (compute_current_bc t s)))
  /\ (forall vec,
        dom bv ⊆ dom (boundary_values (par (snd (apply_current_bc vec t s)))))
  /\ (forall jac r xit xi alpha,
        dom bv
        ⊆ dom (boundary_values
                 (par (snd (residual_and_or_Jacobian jac r xit xi alpha t s))))).
Proof.
  cbn zeta. split; [|split; [|split]].
  - apply lookup_compute_current_bc.
  - apply compute_current_bc_keeps_keys.
  - intros vec. apply compute_current_bc_keeps_keys.
  - intros jac r xit xi alpha.
    destruct (erase_work_fields _ _ (evaluation_frame jac r xit xi alpha t s))
      as (F1 & _).
    rewrite F1.
    destruct (prologue_unchanged jac r xi t s)
      as (_ & _ & _ & _ & _ & _ & _ & _ & _ & _ & _ & _ & _ & _ & U15).
    rewrite U15.
    etransitivity; [|apply compute_current_bc_keeps_keys]. reflexivity.
Qed.

Lemma compute_current_bc_twice (t : R) (s : ImmersedFEM) :
  compute_current_bc t (compute_current_bc t s) = compute_current_bc t s.
Proof.
  unfold compute_current_bc. destruct_sim s.
  destruct p as [deg rh et m PB d T0 si us ad fp ujc ujb mm rc bv ft ut].
  destruct (boundary_values_again (interpolate_boundary_values t) bv cd)
    as [B1 B2].
  destruct fp;
    cbv [set_par set_boundary_values set_u_g_time degree rho eta mu Phi_B dt
         T semi_implicit use_spread all_DBC fix_pressure
         update_jacobian_continuously update_jacobian_at_step_beginning
         material_model ring_center boundary_values force_time u_g_time par
         heap mapping scaling area pressure_dofs constraining_dof dgp_for_p
         sparsity JF dummy_JF JF_inv A_gamma M_gamma3_inv_A_gamma current_xi
         previous_xi current_xit current_res newton_update
         tmp_vec_n_total_dofs];
    [rewrite B2 | rewrite B1]; reflexivity.
Qed.
Lemma assign_boundary_values_twice (bv : gmap nat R) (v : list R) :
  assign_boundary_values bv (assign_boundary_values bv v)
  = assign_boundary_values bv v.
Proof.
  apply list_eq. intros i.
  destruct (bv !! i) as [x|] eqn:Hi.
  - destruct (Nat.lt_ge_cases i (length v)) as [Hlt|Hge].
    + rewrite (assign_boundary_values_value bv _ i x Hi)
        by (rewrite assign_boundary_values_length; exact Hlt).
      symmetry. apply assign_boundary_values_value; assumption.
    + assert (H1 : assign_boundary_values bv (assign_boundary_values bv v) !! i
                   = None).
      { apply lookup_ge_None. rewrite !assign_boundary_values_length. lia. }
      assert (H2 : assign_boundary_values bv v !! i = None).
      { apply lookup_ge_None. rewrite assign_boundary_values_length. lia. }
      rewrite H1, H2. reflexivity.
  - apply assign_boundary_values_frame. exact Hi.
Qed.

(** X2. Applying the boundary conditions of the same time a second time
    changes neither the vector nor the simulation object. *)
Theorem apply_current_bc_idempotent (vec : BlockVector) (t : R)
  (s : ImmersedFEM) :
  let once := apply_current_bc vec t s in
  apply_current_bc (fst once) t (snd once) = once.
Proof.
  cbn zeta. unfold apply_current_bc. cbn [fst snd block0 block1].
  rewrite compute_current_bc_twice, assign_boundary_values_twice.
  reflexivity.
Qed.

End BoundaryValuesOverTime.

(** ** The pressure dofs found at startup *)

Section PressureDofs.
Context `{CO : Collaborators}.

(** The loop over the local dofs of one cell in
    [get_area_and_first_pressure_dof]. *)
Lemma pressure_dofs_of_cell (dgp : bool) (dofs_f : list nat) (pd0 : gset nat) :
  let out :=
    for_n (dofs_per_cell fe_f) (fun i st =>
      let '(pd', stop) := st in
      if (stop : bool) then st
      else if (component fe_f i =? dim)%nat
           then ({[ dof dofs_f i ]} ∪ pd', dgp)
           else st) (pd0, false) in
  forall x,
    x ∈ fst out
    <-> x ∈ pd0
        \/ exists i, (i < dofs_per_cell fe_f)%nat /\ component fe_f i = dim
             /\ (dgp = true -> forall i', (i' < i)%nat -> component fe_f i' <> dim)
             /\ x = dof dofs_f i.
Proof.
  cbn zeta.
  apply (for_n_ind (fun k (st : gset nat * bool) =>
    (forall x,
       x ∈ fst st
       <-> x ∈ pd0
           \/ exists i, (i < k)%nat /\ component fe_f i = dim
                /\ (dgp = true ->
                    forall i', (i' < i)%nat -> component fe_f i' <> dim)
                /\ x = dof dofs_f i)
    /\ (snd st = true -> dgp = true /\ exists i, (i < k)%nat /\ component fe_f i = dim)
    /\ (dgp = true -> snd st = false ->
        forall i, (i < k)%nat -> component fe_f i <> dim))).
  - split; [|split].
    + intros x. cbn. split; [intros H; left; exact H|].
      intros [H|(i & Hi & _)]; [exact H | lia].
    + discriminate.
    + intros _ _ i Hi. lia.
  - intros k [pd stop] Hk (Hx & Hs & Hn). cbn [fst snd] in *.
    destruct stop.
    + destruct (Hs eq_refl) as (Hd & i0 & Hi0 & Hc0).
      cbn [fst snd]. split; [|split].
      * intros x. rewrite Hx. split.
        -- intros [H|(i & Hi & Hc & Hf & He)]; [left; exact H|].
           right. exists i. repeat split; try assumption. lia.
        -- intros [H|(i & Hi & Hc & Hf & He)]; [left; exact H|].
           right. exists i. repeat split; try assumption.
           destruct (Nat.eq_dec i k) as [->|Hne]; [|lia].
           exfalso. apply (Hf Hd i0 Hi0 Hc0).
      * intros _. split; [exact Hd|]. exists i0. split; [lia | exact Hc0].
      * discriminate.
    + destruct (Nat.eqb_spec (component fe_f k) dim) as [Hc|Hc];
        cbn [fst snd].
      * split; [|split].
        -- intros x. rewrite elem_of_union, elem_of_singleton, Hx. split.
           ++ intros [->|[H|(i & Hi & Hci & Hf & He)]].
              ** right. exists k. repeat split; try assumption; try lia.
                 intros Hd i' Hi'. apply (Hn Hd eq_refl i' Hi').
              ** left. exact H.
              ** right. exists i. repeat split; try assumption. lia.
           ++ intros [H|(i & Hi & Hci & Hf & He)].
              ** right. left. exact H.
              ** destruct (Nat.eq_dec i k) as [->|Hne].
                 --- left. exact He.
                 --- right. right. exists i.
                     repeat split; try assumption. lia.
        -- intros Hd. split; [exact Hd|]. exists k. split; [lia | exact Hc].
        -- intros Hd Hd'. congruence.
      * split; [|split].
        -- intros x. rewrite Hx. split.
           ++ intros [H|(i & Hi & Hci & Hf & He)]; [left; exact H|].
              right. exists i. repeat split; try assumption. lia.
           ++ intros [H|(i & Hi & Hci & Hf & He)]; [left; exact H|].
              right. exists i. repeat split; try assumption.
              destruct (Nat.eq_dec i k) as [->|Hne]; [contradiction | lia].
        -- discriminate.
        -- intros Hd _ i Hi.
           destruct (Nat.eq_dec i k) as [->|Hne]; [exact Hc|].
           apply (Hn Hd eq_refl). lia.
Qed.

(** The first element of a sorted enumeration of a set is its least
    element. *)
Lemma first_of_sorted_elements (pd : gset nat) (x : nat) :
  x ∈ pd ->
  hd 0%nat (merge_sort Nat.le (elements pd)) ∈ pd
  /\ (hd 0%nat (merge_sort Nat.le (elements pd)) <= x)%nat.
Proof.
  intros Hx.
  assert (Hs : StronglySorted Nat.le (merge_sort Nat.le (elements pd))).
  { apply StronglySorted_merge_sort.
    - intros a b c. unfold Nat.le. lia.
    - intros a b. unfold Nat.le. lia. }
  pose proof (merge_sort_Permutation Nat.le (elements pd)) as Hp.
  assert (Hin : x ∈ merge_sort Nat.le (elements pd)).
  { rewrite Hp. apply elem_of_elements. exact Hx. }
  destruct (merge_sort Nat.le (elements pd)) as [|h l] eqn:E.
  - inversion Hin.
  - cbn [hd]. split.
    + apply elem_of_elements. rewrite <- Hp. left.
    + inversion Hs as [|? ? _ Hall]; subst.
      apply elem_of_cons in Hin as [->|Hin]; [lia|].
      rewrite Forall_forall in Hall. apply (Hall x Hin).
Qed.

(** X3. After [get_area_and_first_pressure_dof] the set [pressure_dofs] holds
    what it held before and, of every fluid cell, the global indices of the
    local dofs of pressure type: all of them for a continuous pressure,
    only the first of the cell for a discontinuous one (the loop is left by
    [break]).  If the set is not empty, [constraining_dof] is its least
    element. *)
Theorem first_pressure_dof (s : ImmersedFEM) :
  let s' := get_area_and_first_pressure_dof s in
  (forall x,
     x ∈ pressure_dofs s'
     <-> x ∈ pressure_dofs s
         \/ exists c i,
              c ∈ fluid_cells /\ (i < dofs_per_cell fe_f)%nat
              /\ component fe_f i = dim
              /\ (dgp_for_p s = true ->
                  forall i', (i' < i)%nat -> component fe_f i' <> dim)
              /\ x = dof (dof_indices c) i)
  /\ (forall x, x ∈ pressure_dofs s' ->
        constraining_dof s' ∈ pressure_dofs s'
        /\ (constraining_dof s' <= x)%nat).
Proof.
  cbn zeta. unfold get_area_and_first_pressure_dof.
  set (step := fun (acc : R * gset nat) (fe_v : FEValues) =>
                 let '(a0, pd0) := acc in _).
  assert (H : forall l acc x,
    x ∈ snd (fold_left step l acc)
    <-> x ∈ snd acc
        \/ exists c i,
             c ∈ l /\ (i < dofs_per_cell fe_f)%nat
             /\ component fe_f i = dim
             /\ (dgp_for_p s = true ->
                 forall i', (i' < i)%nat -> component fe_f i' <> dim)
             /\ x = dof (dof_indices c) i).
  { induction l as [|c l IH]; intros [a pd] x.
    - cbn. split; [intros H; left; exact H|].
      intros [H|(c & i & Hc & _)]; [exact H | inversion Hc].
    - cbn [fold_left]. rewrite (IH (step (a, pd) c) x).
      assert (Hstep : forall y,
        y ∈ snd (step (a, pd) c)
        <-> y ∈ pd
            \/ exists i, (i < dofs_per_cell fe_f)%nat
                 /\ component fe_f i = dim
                 /\ (dgp_for_p s = true ->
                     forall i', (i' < i)%nat -> component fe_f i' <> dim)
                 /\ y = dof (dof_indices c) i).
      { intros y. unfold step.
        pose proof (pressure_dofs_of_cell (dgp_for_p s) (dof_indices c) pd y)
          as Hc. cbn zeta in Hc.
        destruct (for_n (dofs_per_cell fe_f) _ (pd, false)) as [pd1 stop].
        cbn [fst snd] in *. exact Hc. }
      rewrite (Hstep x). cbn [snd]. split.
      + intros [[Hp|(i & Hi)]|(c' & i & Hc' & Hi)].
        * left. exact Hp.
        * right. exists c, i. split; [left | exact Hi].
        * right. exists c', i. split; [right; exact Hc' | exact Hi].
      + intros [Hp|(c' & i & Hc' & Hi)].
        * left. left. exact Hp.
        * apply elem_of_cons in Hc' as [->|Hc'].
          -- left. right. exists i. exact Hi.
          -- right. exists c', i. split; [exact Hc' | exact Hi]. }
  specialize (H fluid_cells (0, pressure_dofs s)).
  destruct (fold_left step fluid_cells (0, pressure_dofs s)) as [a pd].
  cbn [fst snd] in *. split.
  - exact H.
  - intros x Hx. apply first_of_sorted_elements. exact Hx.
Qed.

End PressureDofs.

(** ** The sparsity pattern of the coupling blocks *)

(** A loop that only collects: what the result holds is what the initial
    state held and what the passes bring. *)
Lemma for_n_collect {S X : Type} (mem : S -> X -> Prop) (new : nat -> X -> Prop)
  (n : nat) (body : nat -> S -> S) (s0 : S) :
  (forall i s x, mem (body i s) x <-> mem s x \/ new i x) ->
  forall x, mem (for_n n body s0) x
            <-> mem s0 x \/ exists i, (i < n)%nat /\ new i x.
Proof.
  intros Hb x. induction n as [|n IH].
  - rewrite for_n_0. split; [intros H; left; exact H|].
    intros [H|(i & Hi & _)]; [exact H | lia].
  - rewrite for_n_S, Hb, IH. split.
    + intros [[H|(i & Hi & Hn)]|Hn].
      * left. exact H.
      * right. exists i. split; [lia | exact Hn].
      * right. exists n. split; [lia | exact Hn].
    + intros [H|(i & Hi & Hn)].
      * left. left. exact H.
      * destruct (Nat.eq_dec i n) as [->|Hne].
        -- right. exact Hn.
        -- left. right. exists i. split; [lia | exact Hn].
Qed.

Lemma fold_left_collect {A S X : Type} (mem : S -> X -> Prop)
  (new : A -> X -> Prop) (f : S -> A -> S) (l : list A) (s0 : S) :
  (forall a s x, mem (f s a) x <-> mem s x \/ new a x) ->
  forall x, mem (fold_left f l s0) x
            <-> mem s0 x \/ exists a, a ∈ l /\ new a x.
Proof.
  intros Hf x. revert s0. induction l as [|a l IH]; intros s0.
  - cbn. split; [intros H; left; exact H|].
    intros [H|(a & Ha & _)]; [exact H | inversion Ha].
  - cbn [fold_left]. rewrite IH, Hf. split.
    + intros [[H|Hn]|(b & Hb & Hn)].
      * left. exact H.
      * right. exists a. split; [left | exact Hn].
      * right. exists b. split; [right; exact Hb | exact Hn].
    + intros [H|(b & Hb & Hn)].
      * left. left. exact H.
      * apply elem_of_cons in Hb as [->|Hb].
        -- left. right. exact Hn.
        -- right. exists b. split; [exact Hb | exact Hn].
Qed.

Section CouplingSparsity.
Context `{CO : Collaborators}.

(** The pairs of a fluid dof and a solid dof that meet on a solid cell: the
    dofs of the solid cell with those of a fluid cell that holds one of
    its quadrature points in the configuration [m]. *)
Lemma coupling_sparsity_members (m : MappingQEulerian) (swap : bool)
  (a b : nat) :
  (if swap then (b, a) ∈ snd (coupling_sparsity m)
   else (a, b) ∈ fst (coupling_sparsity m))
  <-> exists c o i j,
        c ∈ solid_cells
        /\ o ∈ compute_point_locations (mapped_quadrature_points m c)
        /\ (i < length (dof_indices (local_fe_f_v o)))%nat
        /\ (j < length (dof_indices c))%nat
        /\ a = dof (dof_indices (local_fe_f_v o)) i
        /\ b = dof (dof_indices c) j.
Proof.
  unfold coupling_sparsity.
  set (mem := fun (acc : gset (nat * nat) * gset (nat * nat))
                  (x : nat * nat) =>
                if swap then (snd x, fst x) ∈ snd acc else x ∈ fst acc).
  match goal with
  | |- (_ <-> ?Rhs) =>
      match goal with
      | |- context [fold_left ?f solid_cells ?z] =>
          change (mem (fold_left f solid_cells z) (a, b) <-> Rhs)
      end
  end.
  rewrite (fold_left_collect mem
             (fun c x => exists o i j,
                o ∈ compute_point_locations (mapped_quadrature_points m c)
                /\ (i < length (dof_indices (local_fe_f_v o)))%nat
                /\ (j < length (dof_indices c))%nat
                /\ fst x = dof (dof_indices (local_fe_f_v o)) i
                /\ snd x = dof (dof_indices c) j)).
  - split.
    + intros [H|(c & Hc & o & i & j & H)].
      * unfold mem in H. destruct swap; cbn in H; set_solver.
      * exists c, o, i, j. split; [exact Hc | exact H].
    + intros (c & o & i & j & Hc & H). right.
      exists c. split; [exact Hc|]. exists o, i, j. exact H.
  - intros c acc x.
    rewrite (fold_left_collect mem
               (fun o x => exists i j,
                  (i < length (dof_indices (local_fe_f_v o)))%nat
                  /\ (j < length (dof_indices c))%nat
                  /\ fst x = dof (dof_indices (local_fe_f_v o)) i
                  /\ snd x = dof (dof_indices c) j)).
    + split.
      * intros [H|(o & Ho & i & j & H)]; [left; exact H|].
        right. exists o, i, j. split; [exact Ho | exact H].
      * intros [H|(o & i & j & Ho & H)]; [left; exact H|].
        right. exists o. split; [exact Ho|]. exists i, j. exact H.
    + intros o acc' y.
      rewrite (for_n_collect mem
                 (fun i x => exists j,
                    (j < length (dof_indices c))%nat
                    /\ fst x = dof (dof_indices (local_fe_f_v o)) i
                    /\ snd x = dof (dof_indices c) j)).
      * split.
        -- intros [H|(i & Hi & j & H)]; [left; exact H|].
           right. exists i, j. split; [exact Hi | exact H].
        -- intros [H|(i & j & Hi & H)]; [left; exact H|].
           right. exists i. split; [exact Hi|]. exists j. exact H.
      * intros i acc1 z.
        rewrite (for_n_collect mem
                   (fun j x =>
                      fst x = dof (dof_indices (local_fe_f_v o)) i
                      /\ snd x = dof (dof_indices c) j)).
        -- split.
           ++ intros [H|(j & Hj & H)]; [left; exact H|].
              right. exists j. split; [exact Hj | exact H].
           ++ intros [H|(j & Hj & H)]; [left; exact H|].
              right. exists j. split; [exact Hj | exact H].
        -- intros j [a1 a2] [u v]. unfold mem. cbn [fst snd].
           destruct swap; rewrite elem_of_union, elem_of_singleton.
           ++ split.
              ** intros [H|H]; [right | left; exact H].
                 inversion H. split; reflexivity.
              ** intros [H|[-> ->]]; [right; exact H | left; reflexivity].
           ++ split.
              ** intros [H|H]; [right | left; exact H].
                 inversion H. split; reflexivity.
              ** intros [H|[-> ->]]; [right; exact H | left; reflexivity].
Qed.

(** X4. [assemble_sparsity] rebuilds the two coupling blocks from nothing:
    block (0,1) holds exactly the pairs (fluid dof, solid dof) that meet on
    some solid cell in the given configuration, block (1,0) is its
    transpose, and the blocks (0,0) and (1,1) are kept. *)
Theorem assemble_sparsity_pairs (m : MappingQEulerian) (s : ImmersedFEM) :
  let p := sparsity (assemble_sparsity m s) in
  (forall a b,
     (a, b) ∈ sp01 p
     <-> exists c o i j,
           c ∈ solid_cells
           /\ o ∈ compute_point_locations (mapped_quadrature_points m c)
           /\ (i < length (dof_indices (local_fe_f_v o)))%nat
           /\ (j < length (dof_indices c))%nat
           /\ a = dof (dof_indices (local_fe_f_v o)) i
           /\ b = dof (dof_indices c) j)
  /\ (forall a b, (b, a) ∈ sp10 p <-> (a, b) ∈ sp01 p)
  /\ sp00 p = sp00 (sparsity s) /\ sp11 p = sp11 (sparsity s).
Proof.
  cbn zeta. unfold assemble_sparsity. cbn [sparsity set_sparsity sp00 sp01 sp10 sp11].
  split; [|split; [|split; reflexivity]].
  - intros a b. apply (coupling_sparsity_members m false a b).
  - intros a b.
    rewrite (coupling_sparsity_members m false a b).
    apply (coupling_sparsity_members m true a b).
Qed.

End CouplingSparsity.

(** ** The Jacobian keeps the sparsity pattern *)

Lemma dom_sp_add (m : gmap (nat * nat) R) (i j : nat) (x : R) :
  dom (sp_add m i j x) = dom m.
Proof. unfold sp_add. apply dom_alter_L. Qed.

Lemma dom_distribute_jacobian (J : gmap (nat * nat) R) (lj : list (list R))
  (d1 d2 : list nat) (o1 o2 : nat) :
  dom (distribute_jacobian J lj d1 d2 o1 o2) = dom J.
Proof.
  unfold distribute_jacobian.
  apply (for_n_invariant (fun x => dom x = dom J)); [reflexivity|].
  intros i x _ Hx.
  apply (for_n_invariant (fun y => dom y = dom J)); [exact Hx|].
  intros j y _ Hy. rewrite dom_sp_add. exact Hy.
Qed.

Lemma dom_distribute_constraint_on_pressure_jacobian (s : ImmersedFEM)
  (J : gmap (nat * nat) R) (coef : list R) (dofs : list nat) (o : nat) :
  dom (distribute_constraint_on_pressure_jacobian s J coef dofs o) = dom J.
Proof.
  unfold distribute_constraint_on_pressure_jacobian.
  apply (for_n_invariant (fun x => dom x = dom J)); [reflexivity|].
  intros i x _ Hx. rewrite dom_sp_add. exact Hx.
Qed.

Lemma pattern_of_on_block (b : BlockId)
  (f : gmap (nat * nat) R -> gmap (nat * nat) R) (m : BlockSparseMatrix) :
  (forall J, dom (f J) = dom J) ->
  pattern_of (on_block b f m) = pattern_of m.
Proof.
  intros Hf. destruct m as [bl|]; [|reflexivity].
  destruct b; cbn; rewrite Hf; reflexivity.
Qed.

Lemma pattern_of_bsm_reinit (p : BlockSparsityPattern) :
  pattern_of (bsm_reinit p) = Some p.
Proof.
  destruct p as [p00 p01 p10 p11]. cbn. unfold sp_reinit.
  rewrite !dom_gset_to_gmap. reflexivity.
Qed.

Section JacobianPattern.
Context `{CO : Collaborators}.

Lemma fluid_cell_step_pattern jac u xit xi alpha r s c :
  pattern_of (JF (snd (fluid_cell_step jac u xit xi alpha (r, s) c)))
  = pattern_of (JF s)
  /\ pattern_of (dummy_JF (snd (fluid_cell_step jac u xit xi alpha (r, s) c)))
     = pattern_of (dummy_JF s).
Proof.
  unfold fluid_cell_step.
  destruct (apply_constraints _ _ _ _ _) as [lr lj].
  destruct u, jac; cbn [snd par set_JF];
    destruct (all_DBC (par s) && negb (fix_pressure (par s)));
    cbn [snd jacobian_of set_jacobian_of JF dummy_JF set_JF set_dummy_JF];
    rewrite ?pattern_of_on_block;
    try (split; reflexivity);
    intros J;
    first [apply dom_distribute_jacobian
          | apply dom_distribute_constraint_on_pressure_jacobian].
Qed.

Lemma fluid_loop_pattern jac u xit xi alpha l r s :
  pattern_of (JF (snd (fold_left (fluid_cell_step jac u xit xi alpha) l (r, s))))
  = pattern_of (JF s)
  /\ pattern_of
       (dummy_JF (snd (fold_left (fluid_cell_step jac u xit xi alpha) l (r, s))))
     = pattern_of (dummy_JF s).
Proof.
  revert r s. induction l as [|c l IH]; intros r s.
  - split; reflexivity.
  - cbn [fold_left].
    destruct (fluid_cell_step_pattern jac u xit xi alpha r s c) as [H1 H2].
    destruct (fluid_cell_step jac u xit xi alpha (r, s) c) as [r1 s1].
    cbn [snd] in H1, H2. rewrite <- H1, <- H2. apply IH.
Qed.

Lemma overlap_step_pattern u xit xi alpha c lm r s o :
  pattern_of (JF (snd (overlap_step u xit xi alpha c lm (r, s) o)))
  = pattern_of (JF s)
  /\ dummy_JF (snd (overlap_step u xit xi alpha c lm (r, s) o)) = dummy_JF s.
Proof.
  unfold overlap_step.
  destruct (coupling_V _ _ _ _ _ _) as [lrV ljV].
  destruct (apply_constraints s lrV ljV _ _) as [lrV1 ljV1].
  destruct u.
  - destruct (coupling_Y _ _ _ _ _) as [lrY ljY].
    destruct (apply_constraints _ lrY ljY _ _) as [lrY1 ljY1].
    cbn [par set_JF]. destruct (negb (semi_implicit (par s)));
      cbn [snd JF dummy_JF set_JF];
      rewrite ?pattern_of_on_block;
      try (split; reflexivity);
      intros J; apply dom_distribute_jacobian.
  - destruct (coupling_Y _ _ _ _ _) as [lrY ljY].
    destruct (apply_constraints _ lrY ljY _ _) as [lrY1 ljY1].
    split; reflexivity.
Qed.

Lemma overlaps_pattern u xit xi alpha c lm l r s :
  pattern_of (JF (snd (fold_left (overlap_step u xit xi alpha c lm) l (r, s))))
  = pattern_of (JF s)
  /\ dummy_JF (snd (fold_left (overlap_step u xit xi alpha c lm) l (r, s)))
     = dummy_JF s.
Proof.
  revert r s. induction l as [|o l IH]; intros r s.
  - split; reflexivity.
  - cbn [fold_left].
    destruct (overlap_step_pattern u xit xi alpha c lm r s o) as [H1 H2].
    destruct (overlap_step u xit xi alpha c lm (r, s) o) as [r1 s1].
    cbn [snd] in H1, H2. rewrite <- H1, <- H2. apply IH.
Qed.

Lemma solid_cell_step_pattern u xit xi alpha c lm r s :
  pattern_of (JF (snd (fst (solid_cell_step u xit xi alpha (r, s, lm) c))))
  = pattern_of (JF s)
  /\ dummy_JF (snd (fst (solid_cell_step u xit xi alpha (r, s, lm) c)))
     = dummy_JF s.
Proof.
  unfold solid_cell_step.
  destruct (overlaps_pattern u xit xi alpha c
              (localize lm (M_gamma3_inv_A_gamma s) (dof_indices c))
              (compute_point_locations
                 (mapped_quadrature_points (deref_mapping s) c)) r s)
    as [H1 H2].
  destruct (fold_left _ _ (r, s)) as [r1 s1]. cbn [snd] in H1, H2.
  destruct (solid_inertia _ _ _ _ _) as [lr lj].
  destruct u; cbn [fst snd JF dummy_JF set_JF];
    rewrite ?pattern_of_on_block;
    try (split; assumption).
  intros J. apply dom_distribute_jacobian.
Qed.

Lemma solid_loop_pattern u xit xi alpha l lm r s :
  pattern_of
    (JF (snd (fst (fold_left (solid_cell_step u xit xi alpha) l (r, s, lm)))))
  = pattern_of (JF s)
  /\ dummy_JF (snd (fst (fold_left (solid_cell_step u xit xi alpha) l
                           (r, s, lm))))
     = dummy_JF s.
Proof.
  revert lm r s. induction l as [|c l IH]; intros lm r s.
  - split; reflexivity.
  - cbn [fold_left].
    destruct (solid_cell_step_pattern u xit xi alpha c lm r s) as [H1 H2].
    destruct (solid_cell_step u xit xi alpha (r, s, lm) c) as [[r1 s1] lm1].
    cbn [fst snd] in H1, H2. rewrite <- H1, <- H2. apply IH.
Qed.

(** The loops of an evaluation change the values of the Jacobians, never
    the positions they hold. *)
Lemma evaluation_loops_pattern jac u xit xi alpha r s :
  pattern_of (JF (snd (evaluation_loops jac u xit xi alpha (r, s))))
  = pattern_of (JF s)
  /\ pattern_of (dummy_JF (snd (evaluation_loops jac u xit xi alpha (r, s))))
     = pattern_of (dummy_JF s).
Proof.
  unfold evaluation_loops.
  destruct (fluid_loop_pattern jac u xit xi alpha fluid_cells r s) as [F1 F2].
  destruct (fold_left (fluid_cell_step _ _ _ _ _) _ _) as [r2 s2].
  cbn [snd] in F1, F2.
  set (s3 := set_A_gamma (vzero (A_gamma s2)) s2).
  destruct (assemble_A_gamma_frame xi s3) as [A _].
  set (s4 := assemble_A_gamma xi s3) in *.
  set (s5 := set_M_gamma3_inv_A_gamma (M_gamma3_inv_solve (A_gamma s4)) s4).
  assert (J5 : JF s5 = JF s2 /\ dummy_JF s5 = dummy_JF s2).
  { pose proof (f_equal JF A) as A1. pose proof (f_equal dummy_JF A) as A2.
    cbn in A1, A2. unfold s5. cbn. split; assumption. }
  destruct J5 as [J5 D5].
  destruct (solid_loop_pattern u xit xi alpha solid_cells
              (replicate (dofs_per_cell fe_s) 0) r2 s5) as [S1 S2].
  destruct (fold_left (solid_cell_step _ _ _ _) _ _) as [[r3 s6] lm].
  cbn [fst snd] in *.
  rewrite S1, S2, J5, D5. split; assumption.
Qed.

(** The configuration the loops of an evaluation read. *)
Lemma evaluation_deref_mapping jac r xit xi alpha t s :
  deref_mapping (snd (residual_and_or_Jacobian jac r xit xi alpha t s))
  = mkMapping (degree (par s)) (mapping_source xi s).
Proof.
  destruct (erase_work_fields _ _ (evaluation_frame jac r xit xi alpha t s))
    as (_ & F2 & F3 & _).
  destruct (prologue_mapping jac r xi t s) as [Pm Ph].
  unfold deref_mapping. rewrite F2, F3, Pm, Ph, lookup_insert_eq.
  reflexivity.
Qed.

(** X5. When a Jacobian is built, the matrix passed to the evaluation ends
    with exactly the positions of the sparsity pattern, whose coupling
    blocks have been rebuilt for the configuration of the solid that the
    Coupling Assembler reads: every position it adds to in the blocks
    (0,1) and (1,0) is a position of the pattern.  The blocks (0,0) and
    (1,1) of the pattern are those of startup. *)
Theorem jacobian_pattern (jac : JacobianArg) (r xit xi : BlockVector)
  (alpha t : R) (s : ImmersedFEM) :
  bsm_empty (jacobian_of jac s) = false ->
  let s' := snd (residual_and_or_Jacobian jac r xit xi alpha t s) in
  pattern_of (jacobian_of jac s') = Some (sparsity s')
  /\ (forall c o i j,
        c ∈ solid_cells ->
        o ∈ compute_point_locations
              (mapped_quadrature_points (deref_mapping s') c) ->
        (i < length (dof_indices (local_fe_f_v o)))%nat ->
        (j < length (dof_indices c))%nat ->
        (dof (dof_indices (local_fe_f_v o)) i, dof (dof_indices c) j)
          ∈ sp01 (sparsity s')
        /\ (dof (dof_indices c) j, dof (dof_indices (local_fe_f_v o)) i)
             ∈ sp10 (sparsity s'))
  /\ sp00 (sparsity s') = sp00 (sparsity s)
  /\ sp11 (sparsity s') = sp11 (sparsity s).
Proof.
  intros He. cbn zeta.
  destruct (erase_work_fields _ _ (evaluation_frame jac r xit xi alpha t s))
    as (_ & _ & _ & _ & _ & _ & _ & _ & F9 & _).
  destruct (prologue_jacobian jac r xi t s) as [_ P2].
  destruct (P2 He) as (S0 & J0 & _).
  rewrite evaluation_deref_mapping, F9, S0.
  split; [|split; [|split; reflexivity]].
  - rewrite residual_and_or_Jacobian_loops.
    rewrite (surjective_pairing (evaluation_prologue jac r xi t s)).
    destruct (evaluation_loops_pattern jac
                (negb (bsm_empty (jacobian_of jac s))) xit xi alpha
                (fst (evaluation_prologue jac r xi t s))
                (snd (evaluation_prologue jac r xi t s))) as [L1 L2].
    destruct jac; cbn [jacobian_of] in *.
    + rewrite L1, J0. apply pattern_of_bsm_reinit.
    + rewrite L2, J0. apply pattern_of_bsm_reinit.
  - intros c o i j Hc Ho Hi Hj. cbn [sp01 sp10].
    pose proof (coupling_sparsity_members
                  (mkMapping (degree (par s)) (mapping_source xi s)) false
                  (dof (dof_indices (local_fe_f_v o)) i)
                  (dof (dof_indices c) j)) as M1.
    pose proof (coupling_sparsity_members
                  (mkMapping (degree (par s)) (mapping_source xi s)) true
                  (dof (dof_indices (local_fe_f_v o)) i)
                  (dof (dof_indices c) j)) as M2.
    cbn in M1, M2. split; [apply M1 | apply M2];
      exists c, o, i, j; repeat split; assumption.
Qed.

End JacobianPattern.

(** ** The derivative of the elastic stress *)

Lemma invert_right (d : Dimension) (A : Tensor2) (i j : nat) :
  determinant d A <> 0 -> (i < dim_of d)%nat -> (j < dim_of d)%nat ->
  Rsum (dim_of d) (fun k => A i k * invert d A k j) = kron i j.
Proof.
  intros Hdet Hi Hj. destruct d; simpl in Hi, Hj.
  - destruct i as [|[|i]]; [| |lia]; (destruct j as [|[|j]]; [| |lia]);
      unfold kron; cbn in Hdet |- *; field; exact Hdet.
  - destruct i as [|[|[|i]]]; [| | |lia];
      (destruct j as [|[|[|j]]]; [| | |lia]);
      unfold kron; cbn in Hdet |- *; field; exact Hdet.
Qed.

(** A function that is a polynomial of degree two in [h]. *)
Lemma quadratic_derivative_at (f : R -> R) (b : R) :
  (forall h, f h = f 0 + h * b + h * h * (f 1 - f 0 - b)) ->
  derivable_pt_lim f 0 b.
Proof. intros H. apply (quadratic_derivative f (f 0) b (f 1 - f 0 - b) H). Qed.

(** The derivative at 0 only depends on the function near 0. *)
Lemma derivable_pt_lim_near (f g : R -> R) (l delta : R) :
  0 < delta -> (forall h, Rabs h < delta -> f h = g h) ->
  derivable_pt_lim g 0 l -> derivable_pt_lim f 0 l.
Proof.
  intros Hd Hfg Hg eps Heps. destruct (Hg eps Heps) as [d1 H1].
  assert (Hm : 0 < Rmin d1 delta).
  { apply Rmin_pos; [apply cond_pos | exact Hd]. }
  exists (mkposreal _ Hm). intros h Hh Hlt. cbn in Hlt.
  rewrite Rplus_0_l. rewrite (Hfg h), (Hfg 0).
  - specialize (H1 h Hh). rewrite Rplus_0_l in H1. apply H1.
    apply Rlt_le_trans with (Rmin d1 delta); [exact Hlt | apply Rmin_l].
  - rewrite Rabs_R0. exact Hd.
  - apply Rlt_le_trans with (Rmin d1 delta); [exact Hlt | apply Rmin_r].
Qed.

(** A function of [h] of degree one that does not vanish at 0 does not
    vanish near 0. *)
Lemma linear_nonzero_near (a b : R) :
  a <> 0 ->
  exists delta, 0 < delta /\ forall h, Rabs h < delta -> a + h * b <> 0.
Proof.
  intros Ha.
  assert (Hpa : 0 < Rabs a) by (apply Rabs_pos_lt; exact Ha).
  pose proof (Rabs_pos b) as Hpb.
  exists (Rabs a / (Rabs b + 1)). split.
  - apply Rdiv_lt_0_compat; lra.
  - intros h Hh Hz.
    assert (E : Rabs a = Rabs h * Rabs b).
    { rewrite <- Rabs_mult. replace a with (- (h * b)) by lra.
      apply Rabs_Ropp. }
    assert (Hlt : Rabs h * (Rabs b + 1) < Rabs a).
    { apply (Rmult_lt_compat_r (Rabs b + 1)) in Hh; [|lra].
      unfold Rdiv in Hh. rewrite Rmult_assoc, Rinv_l in Hh by lra. lra. }
    pose proof (Rabs_pos h). nra.
Qed.

Section ElasticStressDerivative.
Context `{CO : Collaborators}.
Variable p : IFEMParameters.
Variable c : FEValues.
Variable xi : list R.
Variable qs k : nat.

Let ns := dofs_per_cell fe_s.
Let g := dof (dof_indices c) k.
Let ck := component fe_s k.
Let G : Tensor1 := shape_grad c k qs.
Let F : Tensor2 := deformation_gradient c xi qs.

Hypothesis Hk : (k < ns)%nat.
Hypothesis Hinj : forall k', (k' < ns)%nat ->
  dof (dof_indices c) k' = dof (dof_indices c) k -> k' = k.
Hypothesis Hg : (g < length xi)%nat.

(** Changing the dof [g] of the displacement by [h] changes row
    [component k] of the deformation gradient by [h] times the gradient of
    the shape function [k]. *)
Lemma deformation_gradient_perturbed (h : R) (i l : nat) :
  deformation_gradient c (vadd xi g h) qs i l
  = F i l + h * (if (ck =? i)%nat then G l else 0).
Proof.
  unfold F, ck, G, deformation_gradient, displacement_gradient,
    get_function_gradients. fold ns.
  rewrite <- (Rsum_single ns k
    (fun k' => h * (if (component fe_s k' =? i)%nat
                    then shape_grad c k' qs l else 0)) Hk).
  rewrite Rplus_assoc,
    (Rplus_comm (if (i =? l)%nat then 1 else 0)), <- Rplus_assoc.
  rewrite <- Rsum_plus. f_equal. apply Rsum_ext. intros k' Hk'.
  rewrite vget_vadd.
  destruct (Nat.ltb_spec g (length xi)); [|lia]. rewrite andb_true_r.
  destruct (Nat.eqb_spec k' k) as [->|Hne].
  - fold g. rewrite Nat.eqb_refl.
    destruct (component fe_s k =? i)%nat; lra.
  - destruct (Nat.eqb_spec g (dof (dof_indices c) k')) as [He|He].
    + exfalso. apply Hne. apply Hinj; [exact Hk'|]. symmetry. exact He.
    + destruct (component fe_s k' =? i)%nat; lra.
Qed.

Lemma ck_lt_dim : (ck < dim_of DIM)%nat.
Proof. apply solid_components. exact Hk. Qed.

(** The determinant of the deformation gradient is of degree one in the
    change of one dof. *)
Lemma determinant_perturbed (h : R) :
  determinant DIM (deformation_gradient c (vadd xi g h) qs)
  = determinant DIM F
    + h * (determinant DIM (deformation_gradient c (vadd xi g 1) qs)
           - determinant DIM F).
Proof.
  pose proof ck_lt_dim as Hc. unfold determinant.
  rewrite !deformation_gradient_perturbed.
  destruct DIM; cbn in Hc.
  - destruct ck as [|[|n]]; [| |lia]; cbn; ring.
  - destruct ck as [|[|[|n]]]; [| | |lia]; cbn; ring.
Qed.


Lemma Rsum_minus (n : nat) (f1 f2 : nat -> R) :
  Rsum n (fun i => f1 i - f2 i) = Rsum n f1 - Rsum n f2.
Proof. induction n as [|n IH]; simpl; [lra | rewrite IH; lra]. Qed.

Lemma kron_sym (a b : nat) : kron a b = kron b a.
Proof. unfold kron. rewrite (Nat.eqb_sym a b). reflexivity. Qed.

(** For [INH_0], where the deformation gradient is invertible. *)
Lemma PeFT_INH_0 (A : Tensor2) (i j : nat) :
  determinant DIM A <> 0 -> (i < dim)%nat -> (j < dim)%nat ->
  contract_1_1 dim (tscale (mu p) (tsub A (transpose (invert DIM A)))) A i j
  = mu p * (Rsum dim (fun l => A i l * A j l) - kron i j).
Proof.
  intros Hdet Hi Hj.
  rewrite (kron_sym i j), <- (invert_right DIM A j i Hdet Hj Hi).
  unfold contract_1_1, tscale, tsub, transpose. fold dim.
  rewrite <- Rsum_minus, <- Rsum_scal.
  apply Rsum_ext. intros l _. ring.
Qed.

(** X6. [DPeFT_dxi[qs][k]] is the derivative of [Pe F^T] at the quadrature
    point [qs] with respect to the dof of the local shape function [k] of
    the solid cell, for each of the three material models (for [INH_0]
    where the deformation gradient is invertible). *)
Theorem elastic_stress_derivative (i j : nat) :
  (i < dim)%nat -> (j < dim)%nat ->
  (material_model p = INH_0 -> determinant DIM F <> 0) ->
  derivable_pt_lim
    (fun h =>
       contract_1_1 dim (Pe_value p c (vadd xi g h) qs)
         (deformation_gradient c (vadd xi g h) qs) i j)
    0
    (DPeFT_dxi_value p c xi qs k i j).
Proof.
  intros Hi Hj Hdet. pose proof ck_lt_dim as Hc.
  unfold Pe_value, DPeFT_dxi_value. fold F ck G.
  destruct (material_model p) eqn:Hlaw.
  - (* INH_0 *)
    specialize (Hdet eq_refl).
    destruct (linear_nonzero_near (determinant DIM F)
                (determinant DIM (deformation_gradient c (vadd xi g 1) qs)
                 - determinant DIM F) Hdet) as (delta & Hd & Hnz).
    apply (derivable_pt_lim_near _
             (fun h => mu p * (Rsum dim (fun l =>
                (F i l + h * (if (ck =? i)%nat then G l else 0))
                * (F j l + h * (if (ck =? j)%nat then G l else 0)))
                - kron i j)) _ delta Hd).
    + intros h Hh. rewrite PeFT_INH_0; try assumption.
      * f_equal. f_equal. apply Rsum_ext. intros l _.
        rewrite !deformation_gradient_perturbed. reflexivity.
      * rewrite determinant_perturbed. apply Hnz. exact Hh.
    + apply quadratic_derivative_at. intros h.
      unfold dot, kron, dim in *. revert Hi Hj Hc.
      generalize ck. intros n.
      destruct DIM; cbn [dim_of]; intros Hi Hj Hc.
      * destruct n as [|[|n]]; [| |lia];
          (destruct i as [|[|i]]; [| |lia]);
          (destruct j as [|[|j]]; [| |lia]);
          cbn [Rsum Nat.eqb]; ring.
      * destruct n as [|[|[|n]]]; [| | |lia];
          (destruct i as [|[|[|i]]]; [| | |lia]);
          (destruct j as [|[|[|j]]]; [| | |lia]);
          cbn [Rsum Nat.eqb]; ring.
  - (* INH_1 *)
    apply (derivable_pt_lim_near _
             (fun h => Rsum dim (fun l =>
                mu p * (F i l + h * (if (ck =? i)%nat then G l else 0))
                * (F j l + h * (if (ck =? j)%nat then G l else 0)))) _ 1).
    + lra.
    + intros h _. unfold contract_1_1, tscale. apply Rsum_ext. intros l _.
      rewrite !deformation_gradient_perturbed. reflexivity.
    + apply quadratic_derivative_at. intros h.
      unfold dot, dim in *. revert Hi Hj Hc.
      generalize ck. intros n.
      destruct DIM; cbn [dim_of]; intros Hi Hj Hc.
      * destruct n as [|[|n]]; [| |lia];
          (destruct i as [|[|i]]; [| |lia]);
          (destruct j as [|[|j]]; [| |lia]);
          cbn [Rsum Nat.eqb]; ring.
      * destruct n as [|[|[|n]]]; [| | |lia];
          (destruct i as [|[|[|i]]]; [| | |lia]);
          (destruct j as [|[|[|j]]]; [| | |lia]);
          cbn [Rsum Nat.eqb]; ring.
  - (* fiber model *)
    set (e := etheta p c qs).
    apply (derivable_pt_lim_near _
             (fun h => Rsum dim (fun l =>
                Rsum dim (fun m =>
                  (F i m + h * (if (ck =? i)%nat then G m else 0))
                  * (e m * e l)) * mu p
                * (F j l + h * (if (ck =? j)%nat then G l else 0)))) _ 1).
    + lra.
    + intros h _. unfold contract_1_1, contract_1_0, outer_product.
      apply Rsum_ext. intros l _.
      rewrite deformation_gradient_perturbed. f_equal. f_equal.
      apply Rsum_ext. intros m _.
      rewrite deformation_gradient_perturbed. reflexivity.
    + apply quadratic_derivative_at. intros h.
      unfold dot, vec_mat, outer_product, dim in *. revert Hi Hj Hc.
      generalize ck. intros n.
      destruct DIM; cbn [dim_of]; intros Hi Hj Hc.
      * destruct n as [|[|n]]; [| |lia];
          (destruct i as [|[|i]]; [| |lia]);
          (destruct j as [|[|j]]; [| |lia]);
          cbn [Rsum Nat.eqb]; ring.
      * destruct n as [|[|[|n]]]; [| | |lia];
          (destruct i as [|[|[|i]]]; [| | |lia]);
          (destruct j as [|[|[|j]]]; [| | |lia]);
          cbn [Rsum Nat.eqb]; ring.
Qed.

End ElasticStressDerivative.

(** ** What the constraint pass and the distribution leave alone *)

(** X7. [apply_constraints] changes the sizes of neither the local residual
    nor the local Jacobian, and touches only rows of constrained dofs: the
    residual entry and the whole Jacobian row of a local index that is
    beyond the list of dofs, or whose dof is neither in the boundary-value
    map nor the constraining dof in its role, are as before; in such a row
    also the columns of constrained dofs are as before. *)
Theorem apply_constraints_frame (s : ImmersedFEM) (lr : list R)
  (lj : list (list R)) (value : list R) (dofs : list nat) (n i : nat) :
  mat_wf n n lj ->
  ((i < length dofs)%nat ->
   boundary_values (par s) !! dof dofs i = None /\ pinned s dofs i = false) ->
  let out := apply_constraints s lr lj value dofs in
  length (fst out) = length lr
  /\ mat_wf n n (snd out)
  /\ vget (fst out) i = vget lr i
  /\ forall j, mget (snd out) i j = mget lj i j.
Proof.
  intros Hwf Hfree. cbn zeta.
  destruct (apply_constraints_residual s lr lj value dofs) as [Hlen Hres].
  split; [exact Hlen|].
  assert (Hr : vget (fst (apply_constraints s lr lj value dofs)) i = vget lr i).
  { rewrite Hres.
    destruct (Nat.ltb_spec i (length dofs)) as [Hi|Hi]; [|reflexivity].
    destruct (i <? length lr)%nat; [|reflexivity]. cbn [andb].
    destruct (Hfree Hi) as [Hb Hp].
    unfold residual_after_constraints. rewrite Hp, Hb. reflexivity. }
  destruct (Nat.eq_dec n 0%nat) as [Hn|Hn].
  - assert (He : mempty lj = true).
    { unfold mempty. destruct Hwf as [Hrows _]. rewrite Hrows, Hn.
      reflexivity. }
    rewrite (apply_constraints_no_jacobian s lr lj value dofs He).
    split; [exact Hwf|]. split; [exact Hr|]. reflexivity.
  - destruct (apply_constraints_jacobian s lr lj value dofs n Hwf)
      as [Hw Hj]; [lia|].
    split; [exact Hw|]. split; [exact Hr|].
    intros j. rewrite Hj.
    destruct (Nat.ltb_spec i (length dofs)) as [Hi|Hi]; [|reflexivity].
    cbn [andb]. destruct ((i <? n)%nat && (j <? n)%nat); [|reflexivity].
    destruct (Hfree Hi) as [Hb Hp].
    unfold jacobian_after_constraints. rewrite Hp, Hb. reflexivity.
Qed.

Lemma Rsum_swap (n m : nat) (f : nat -> nat -> R) :
  Rsum n (fun i => Rsum m (fun j => f i j))
  = Rsum m (fun j => Rsum n (fun i => f i j)).
Proof.
  induction n as [|n IH]; simpl.
  - symmetry. apply Rsum_zero. reflexivity.
  - rewrite IH, <- Rsum_plus. reflexivity.
Qed.

(** X8. [distribute_residual] keeps the size of the global vector, leaves every
    entry that is not a dof of the list as it is, and (the dofs of the list
    lying inside the vector) adds the local entries without loss: the sum
    of the entries of the vector grows by the sum of the local entries,
    also when a dof occurs more than once in the list. *)
Theorem distribute_residual_conserves (r lr : list R) (dofs : list nat)
  (o : nat) :
  (forall i, (i < length dofs)%nat -> (dof dofs i < length r)%nat) ->
  let r' := distribute_residual r lr dofs o in
  length r' = length r
  /\ (forall k, (forall i, (i < length dofs)%nat -> dof dofs i <> k) ->
        vget r' k = vget r k)
  /\ Rsum (length r) (vget r')
     = Rsum (length r) (vget r)
       + Rsum (length dofs) (fun i => vget lr (o + i)).
Proof.
  intros Hin. cbn zeta. split; [apply length_distribute_residual|]. split.
  - intros k Hk. rewrite distribute_residual_spec.
    rewrite Rsum_zero; [lra|]. intros i Hi.
    destruct (Nat.eqb_spec (dof dofs i) k) as [He|_]; [|reflexivity].
    exfalso. apply (Hk i Hi He).
  - rewrite (Rsum_ext _ _ _ (fun k _ => distribute_residual_spec r lr dofs o k)).
    rewrite Rsum_plus. f_equal. rewrite Rsum_swap.
    apply Rsum_ext. intros i Hi.
    rewrite (Rsum_pick (length r) (dof dofs i) _ (fun _ => vget lr (o + i))).
    + destruct (Nat.ltb_spec (dof dofs i) (length r)) as [_|Hge];
        [reflexivity|]. specialize (Hin i Hi). lia.
    + intros k Hk. rewrite (Nat.eqb_sym k).
      destruct (Nat.ltb_spec k (length r)); [|lia].
      rewrite andb_true_r. reflexivity.
Qed.

(** X9. [distribute_jacobian] never changes the positions the sparse matrix
    holds; a position of the matrix receives the sum of the local entries
    of all pairs of local indices whose dofs address it, and a position
    that no pair addresses keeps its value. *)
Theorem distribute_jacobian_entries (J : gmap (nat * nat) R)
  (lj : list (list R)) (d1 d2 : list nat) (o1 o2 : nat) :
  let J' := distribute_jacobian J lj d1 d2 o1 o2 in
  dom J' = dom J
  /\ (forall a b y,
        J !! (a, b) = Some y ->
        J' !! (a, b)
        = Some (y + Rsum (length d1) (fun i => Rsum (length d2) (fun j =>
                   if (dof d1 i =? a)%nat && (dof d2 j =? b)%nat
                   then mget lj (o1 + i) (o2 + j) else 0))))
  /\ (forall a b,
        (forall i j, (i < length d1)%nat -> (j < length d2)%nat ->
           dof d1 i <> a \/ dof d2 j <> b) ->
        J' !! (a, b) = J !! (a, b)).
Proof.
  cbn zeta. split; [apply dom_distribute_jacobian|]. split.
  - intros a b y Hy. rewrite distribute_jacobian_spec, Hy. reflexivity.
  - intros a b Hno. rewrite distribute_jacobian_spec.
    apply option_fmap_id. intros y.
    rewrite Rsum_zero; [lra|]. intros i Hi.
    apply Rsum_zero. intros j Hj.
    destruct (Hno i j Hi Hj) as [H|H].
    + destruct (Nat.eqb_spec (dof d1 i) a); [contradiction | reflexivity].
    + destruct (Nat.eqb_spec (dof d2 j) b); [contradiction|].
      rewrite andb_false_r. reflexivity.
Qed.

(** ** What an evaluation and the driver leave unchanged *)

Section EvaluationMembers.
Context `{CO : Collaborators}.

Lemma compute_current_bc_parameters (t : R) (s : ImmersedFEM) :
  let p := par s in
  let p' := par (compute_current_bc t (set_par (set_force_time t p) s)) in
  (degree p' = degree p /\ rho p' = rho p /\ eta p' = eta p /\ mu p' = mu p
   /\ Phi_B p' = Phi_B p /\ dt p' = dt p /\ T p' = T p)
  /\ (semi_implicit p' = semi_implicit p /\ use_spread p' = use_spread p
      /\ all_DBC p' = all_DBC p /\ fix_pressure p' = fix_pressure p
      /\ update_jacobian_continuously p' = update_jacobian_continuously p
      /\ update_jacobian_at_step_beginning p'
         = update_jacobian_at_step_beginning p)
  /\ material_model p' = material_model p /\ ring_center p' = ring_center p
  /\ force_time p' = t /\ u_g_time p' = t.
Proof.
  cbn zeta. unfold compute_current_bc. cbn [par set_par].
  destruct (par s) as [deg rh et m PB d T0 si us ad fp ujc ujb mm rc bv ft ut].
  destruct fp; cbn; repeat split; reflexivity.
Qed.

(** X10. An evaluation of the residual writes to none of the state vectors
    [current_xi], [previous_xi], [current_xit], [newton_update] and
    [tmp_vec_n_total_dofs] (so that those passed to it by constant
    reference are read unchanged during the whole call; the only vector it
    writes is its argument [residual]), leaves the factorisation, the area
    and the pressure dofs alone, and changes the parameters only in the
    time of the force and of the boundary values and in the
    boundary-value map.  When no
    Jacobian is requested it changes neither Jacobian nor the sparsity
    pattern; when [JF] is the matrix passed, [dummy_JF] is not changed. *)
Theorem evaluation_members_kept (jac : JacobianArg) (r xit xi : BlockVector)
  (alpha t : R) (s : ImmersedFEM) :
  let s' := snd (residual_and_or_Jacobian jac r xit xi alpha t s) in
  (current_xi s' = current_xi s /\ previous_xi s' = previous_xi s
   /\ current_xit s' = current_xit s
   /\ newton_update s' = newton_update s
   /\ tmp_vec_n_total_dofs s' = tmp_vec_n_total_dofs s)
  /\ (JF_inv s' = JF_inv s /\ area s' = area s
      /\ pressure_dofs s' = pressure_dofs s
      /\ constraining_dof s' = constraining_dof s
      /\ dgp_for_p s' = dgp_for_p s)
  /\ (degree (par s') = degree (par s) /\ rho (par s') = rho (par s)
      /\ eta (par s') = eta (par s) /\ mu (par s') = mu (par s)
      /\ Phi_B (par s') = Phi_B (par s) /\ dt (par s') = dt (par s)
      /\ T (par s') = T (par s))
  /\ (semi_implicit (par s') = semi_implicit (par s)
      /\ use_spread (par s') = use_spread (par s)
      /\ all_DBC (par s') = all_DBC (par s)
      /\ fix_pressure (par s') = fix_pressure (par s)
      /\ update_jacobian_continuously (par s')
         = update_jacobian_continuously (par s)
      /\ update_jacobian_at_step_beginning (par s')
         = update_jacobian_at_step_beginning (par s))
  /\ (material_model (par s') = material_model (par s)
      /\ ring_center (par s') = ring_center (par s)
      /\ force_time (par s') = t /\ u_g_time (par s') = t)
  /\ (bsm_empty (jacobian_of jac s) = true ->
      JF s' = JF s /\ dummy_JF s' = dummy_JF s /\ sparsity s' = sparsity s)
  /\ (jac = ArgJF -> dummy_JF s' = dummy_JF s).
Proof.
  cbn zeta.
  destruct (erase_work_fields _ _ (evaluation_frame jac r xit xi alpha t s))
    as (F1 & F2 & F3 & F4 & F5 & F6 & F7 & F8 & F9 & F10 & F11 & F12 & F13
        & F14 & F15 & F16).
  destruct (prologue_unchanged jac r xi t s)
    as (U1 & U2 & U3 & U4 & U5 & U6 & U7 & U8 & U9 & U10 & U11 & U12 & U13
        & U14 & U15).
  destruct (prologue_jacobian jac r xi t s) as [J1 J2].
  destruct (evaluation_loops_step jac r xit xi alpha t s)
    as (_ & _ & L3 & L4).
  destruct (compute_current_bc_parameters t s) as (Q1 & Q2 & Q3).
  rewrite <- U15, <- F1 in Q1, Q2, Q3.
  split; [|split; [|split; [|split; [|split; [|split]]]]].
  - rewrite F11, F12, F13, F15, F16, U9, U10, U11, U13, U14.
    repeat split; reflexivity.
  - rewrite F10, F5, F6, F7, F8, U6, U2, U3, U4, U5.
    repeat split; reflexivity.
  - exact Q1.
  - exact Q2.
  - exact Q3.
  - intros He. destruct (J1 He) as (S1 & S2 & S3).
    destruct L3 as [L3a L3b]; [rewrite He; reflexivity|].
    rewrite L3a, L3b, F9, S1, S2, S3. repeat split; reflexivity.
  - intros Hj. rewrite (L4 Hj).
    destruct (bsm_empty (jacobian_of jac s)) eqn:He.
    + destruct (J1 eq_refl) as (_ & _ & S3). exact S3.
    + destruct (J2 eq_refl) as (_ & _ & S3 & _). apply S3. exact Hj.
Qed.

End EvaluationMembers.

(** ** Invariants of the run *)

Section RunInvariant.
Context `{CO : Collaborators}.
Variable P : ImmersedFEM -> Prop.
Hypothesis P_frame : forall s s',
  erase_driver s' = erase_driver s -> P s -> P s'.
Hypothesis P_boundary : forall t s, P s -> P (compute_current_bc t s).
Hypothesis P_evaluation : forall jac r xit xi alpha t s,
  P s -> P (snd (residual_and_or_Jacobian jac r xit xi alpha t s)).

Lemma newton_evaluate_invariant (t : R) (st : NewtonState) :
  P (sim st) -> P (sim (newton_evaluate t st)).
Proof.
  intros H. destruct (newton_evaluate_sim t st) as [E _]. cbn zeta in E.
  rewrite E.
  match goal with
  | |- P (if _ then set_JF_inv _ (set_current_res _ ?x)
          else set_current_res _ ?x) =>
      assert (Hx : P x)
  end.
  { apply P_evaluation. apply (P_frame (sim st)); [reflexivity | exact H]. }
  destruct (update_Jacobian st);
    refine (P_frame _ _ _ Hx); reflexivity.
Qed.

Lemma newton_iteration_invariant (t : R) (st : NewtonState) :
  P (sim st) ->
  match newton_iteration t st with
  | Break st' | Next st' => P (sim st')
  | Throw _ => True
  end.
Proof.
  intros H. pose proof (newton_iteration_cases t st) as Hc. cbn zeta in Hc.
  pose proof (newton_evaluate_invariant t st H) as H1.
  destruct (newton_iteration t st) as [st'|st'|msg]; [| |exact I].
  - destruct Hc as [_ ->]. exact H1.
  - destruct Hc as (_ & -> & _).
    refine (P_frame _ _ _ H1). reflexivity.
Qed.

Lemma newton_loop_invariant (fuel : nat) (t : R) (st : NewtonState) :
  P (sim st) ->
  match newton_loop fuel t st with
  | Some (inl st') => P (sim st')
  | _ => True
  end.
Proof.
  revert st. induction fuel as [|fuel IH]; intros st H; [exact I|].
  cbn [newton_loop].
  pose proof (newton_iteration_invariant t st H) as Hi.
  pose proof (newton_pass_cases t st) as Hp.
  destruct (newton_pass t st) as [st'|st'|msg]; [| |exact I].
  - destruct Hp as [_ Hp]. rewrite Hp in Hi. exact Hi.
  - destruct Hp as [_ Hp]. rewrite Hp in Hi. apply IH. exact Hi.
Qed.

Lemma time_step_body_invariant (fuel : nat) (t : R) (time_step : nat)
  (rs : RunState) :
  P (run_sim rs) ->
  match time_step_body fuel t time_step rs with
  | Some (inl rs') => P (run_sim rs')
  | _ => True
  end.
Proof.
  intros H. unfold time_step_body, apply_current_bc.
  match goal with
  | |- match match newton_loop fuel t ?st0 with _ => _ end with _ => _ end =>
      pose proof (newton_loop_invariant fuel t st0) as Hl;
      destruct (newton_loop fuel t st0) as [[st|msg]|]; try exact I
  end.
  cbn [run_sim]. refine (P_frame _ _ _ (Hl _)); [reflexivity|].
  cbn [sim]. refine (P_frame _ _ _ (P_boundary t _ H)). reflexivity.
Qed.

Lemma time_loop_invariant (steps fuel : nat) (t : R) (time_step : nat)
  (rs : RunState) :
  P (run_sim rs) ->
  match time_loop steps fuel t time_step rs with
  | Some (inl rs') => P (run_sim rs')
  | _ => True
  end.
Proof.
  revert t time_step rs.
  induction steps as [|steps IH]; intros t time_step rs H; [exact I|].
  cbn [time_loop].
  destruct (Rle_dec t (T (par (run_sim rs)))); [|exact H].
  pose proof (time_step_body_invariant fuel t time_step rs H) as Hb.
  destruct (time_step_body fuel t time_step rs) as [[rs'|msg]|];
    try exact I.
  apply IH. exact Hb.
Qed.

Lemma run_invariant (steps fuel : nat) (s : ImmersedFEM) :
  P s ->
  match run steps fuel s with
  | Some (inl rs) => P (run_sim rs)
  | _ => True
  end.
Proof.
  intros H. unfold run. apply time_loop_invariant.
  cbn [run_sim]. refine (P_frame _ _ _ H). reflexivity.
Qed.

End RunInvariant.

Section RunMemory.
Context `{CO : Collaborators}.

Lemma mapping_owned_frame (s s' : ImmersedFEM) :
  erase_driver s' = erase_driver s -> mapping_owned s -> mapping_owned s'.
Proof.
  intros E (a & m & Hm & Hh).
  pose proof (f_equal heap E) as E1. pose proof (f_equal mapping E) as E2.
  cbn in E1, E2. exists a, m. rewrite E1, E2. split; assumption.
Qed.

Lemma mapping_owned_boundary (t : R) (s : ImmersedFEM) :
  mapping_owned s -> mapping_owned (compute_current_bc t s).
Proof. intros H. exact H. Qed.

Lemma mapping_owned_evaluation jac r xit xi alpha t s :
  mapping_owned s ->
  mapping_owned (snd (residual_and_or_Jacobian jac r xit xi alpha t s)).
Proof.
  intros (a & m & Hm & Hh).
  destruct (erase_work_fields _ _ (evaluation_frame jac r xit xi alpha t s))
    as (_ & F2 & F3 & _).
  destruct (prologue_mapping jac r xi t s) as [Pm Ph].
  assert (He : heap_after_delete s = ∅).
  { unfold heap_after_delete. rewrite Hm, Hh. apply delete_singleton_eq. }
  rewrite He in Pm, Ph.
  exists (fresh (dom (∅ : gmap nat MappingQEulerian))),
         (mkMapping (degree (par s)) (mapping_source xi s)).
  rewrite F2, F3, Pm, Ph. split; [reflexivity|].
  apply insert_empty.
Qed.

(** X11. The deformed configuration is the only object of the class on the
    free store: if [mapping] points to the one object the free store holds, as
    after startup, this is so after every evaluation of the residual and
    at the end of a run that returns; the destructor then leaves nothing
    behind. *)
Theorem mapping_never_leaks (s : ImmersedFEM) :
  mapping_owned s ->
  (forall jac r xit xi alpha t,
     mapping_owned (snd (residual_and_or_Jacobian jac r xit xi alpha t s)))
  /\ heap (destructor s) = ∅
  /\ (forall steps fuel,
        match run steps fuel s with
        | Some (inl rs) =>
            mapping_owned (run_sim rs) /\ heap (destructor (run_sim rs)) = ∅
        | _ => True
        end).
Proof.
  assert (Hd : forall x, mapping_owned x -> heap (destructor x) = ∅).
  { intros x (a & m & Hm & Hh). unfold destructor.
    rewrite delete_mapping_eq. cbn. unfold heap_after_delete.
    rewrite Hm, Hh. apply delete_singleton_eq. }
  intros H. split; [|split].
  - intros jac r xit xi alpha t. apply mapping_owned_evaluation. exact H.
  - apply Hd. exact H.
  - intros steps fuel.
    pose proof (run_invariant mapping_owned mapping_owned_frame
                  mapping_owned_boundary
                  (fun jac r xit xi alpha t x =>
                     mapping_owned_evaluation jac r xit xi alpha t x)
                  steps fuel s H) as Hr.
    destruct (run steps fuel s) as [[rs|msg]|]; try exact I.
    split; [exact Hr | apply Hd; exact Hr].
Qed.

End RunMemory.

Section RunJacobians.
Context `{CO : Collaborators}.

Lemma bsm_empty_None (m : BlockSparseMatrix) : bsm_empty m = true -> m = None.
Proof. destruct m; [discriminate | reflexivity]. Qed.

Lemma jacobian_members_evaluation jac r xit xi alpha t s :
  dummy_JF s = None /\ bsm_empty (JF s) = false ->
  dummy_JF (snd (residual_and_or_Jacobian jac r xit xi alpha t s)) = None
  /\ bsm_empty (JF (snd (residual_and_or_Jacobian jac r xit xi alpha t s)))
     = false.
Proof.
  intros [Hd Hj].
  destruct (evaluation_emptiness jac r xit xi alpha t s) as [E1 E2].
  cbn zeta in E1, E2. split.
  - apply bsm_empty_None. rewrite E2, Hd. reflexivity.
  - rewrite E1. exact Hj.
Qed.

(** X12. Through a run [dummy_JF] stays the empty matrix it is at startup and
    [JF] stays built: the call of a pass that updates the Jacobian always
    builds it, and the call of a pass that does not evaluates the residual
    only and changes neither [JF] nor the sparsity pattern. *)
Theorem jacobians_through_run (s : ImmersedFEM) :
  dummy_JF s = None -> bsm_empty (JF s) = false ->
  (forall r xit xi alpha t,
     let s' := snd (residual_and_or_Jacobian ArgDummyJF r xit xi alpha t s) in
     JF s' = JF s /\ sparsity s' = sparsity s /\ dummy_JF s' = None)
  /\ (forall r xit xi alpha t,
        let s' := snd (residual_and_or_Jacobian ArgJF r xit xi alpha t s) in
        bsm_empty (JF s') = false /\ dummy_JF s' = None)
  /\ (forall steps fuel,
        match run steps fuel s with
        | Some (inl rs) =>
            dummy_JF (run_sim rs) = None
            /\ bsm_empty (JF (run_sim rs)) = false
        | _ => True
        end).
Proof.
  intros Hd Hj. split; [|split].
  - intros r xit xi alpha t. cbn zeta.
    destruct (prologue_jacobian ArgDummyJF r xi t s) as [J1 _].
    destruct (J1 ltac:(cbn; rewrite Hd; reflexivity)) as (S1 & S2 & S3).
    destruct (evaluation_loops_step ArgDummyJF r xit xi alpha t s)
      as (_ & _ & L3 & _).
    destruct L3 as [L3a L3b]; [cbn; rewrite Hd; reflexivity|].
    destruct (erase_work_fields _ _
                (evaluation_frame ArgDummyJF r xit xi alpha t s))
      as (_ & _ & _ & _ & _ & _ & _ & _ & F9 & _).
    rewrite L3a, L3b, F9, S1, S2, S3. repeat split; try reflexivity.
    exact Hd.
  - intros r xit xi alpha t. cbn zeta.
    destruct (jacobian_members_evaluation ArgJF r xit xi alpha t s
                (conj Hd Hj)) as [A B].
    split; assumption.
  - intros steps fuel.
    apply (run_invariant
             (fun x => dummy_JF x = None /\ bsm_empty (JF x) = false)).
    + intros x x' E [A B].
      pose proof (f_equal JF E) as E1.
      pose proof (f_equal dummy_JF E) as E2. cbn in E1, E2.
      rewrite E1, E2. split; assumption.
    + intros t x H. exact H.
    + intros jac r xit xi alpha t x H.
      apply jacobian_members_evaluation. exact H.
    + split; assumption.
Qed.

End RunJacobians.

(** ** The time stepping of [run] *)

Section RunOutcome.
Context `{CO : Collaborators}.

Lemma time_constants_evaluation (d T0 : R) jac r xit xi alpha t s :
  dt (par s) = d /\ T (par s) = T0 ->
  dt (par (snd (residual_and_or_Jacobian jac r xit xi alpha t s))) = d
  /\ T (par (snd (residual_and_or_Jacobian jac r xit xi alpha t s))) = T0.
Proof.
  intros [Hd HT].
  destruct (erase_work_fields _ _ (evaluation_frame jac r xit xi alpha t s))
    as (F1 & _).
  destruct (prologue_unchanged jac r xi t s)
    as (_ & _ & _ & _ & _ & _ & _ & _ & _ & _ & _ & _ & _ & _ & U15).
  destruct (compute_current_bc_parameters t s)
    as ((_ & _ & _ & _ & _ & Q6 & Q7) & _).
  rewrite F1, U15, Q6, Q7. split; assumption.
Qed.

Lemma time_constants_boundary (d T0 : R) (t : R) (s : ImmersedFEM) :
  dt (par s) = d /\ T (par s) = T0 ->
  dt (par (compute_current_bc t s)) = d
  /\ T (par (compute_current_bc t s)) = T0.
Proof.
  unfold compute_current_bc. cbn [par set_par].
  destruct (par s) as [deg rh et m PB d0 T1 si us ad fp ujc ujb mm rc bv ft ut].
  destruct fp; cbn; intros H; exact H.
Qed.

Lemma time_constants_frame (d T0 : R) (s s' : ImmersedFEM) :
  erase_driver s' = erase_driver s ->
  dt (par s) = d /\ T (par s) = T0 -> dt (par s') = d /\ T (par s') = T0.
Proof.
  intros E H. pose proof (f_equal par E) as E1. cbn in E1.
  rewrite E1. exact H.
Qed.





End RunOutcome.

(** ** Termination of a run *)

Section RunTermination.
Context `{CO : Collaborators}.

Lemma time_step_body_returns (fuel : nat) (t : R) (time_step : nat)
  (rs : RunState) :
  (60 <= fuel)%nat -> time_step_body fuel t time_step rs <> None.
Proof.
  intros Hf. unfold time_step_body.
  destruct (apply_current_bc _ _ _) as [xi s1].
  pose proof (newton_loop_terminates t fuel
                (mkNewton (set_current_xi xi s1) (run_update_Jacobian rs) 0 0))
    as H.
  cbn [nonlin_iter outer_nonlin_iter] in H.
  destruct (newton_loop fuel t _) as [[st|msg]|].
  - discriminate.
  - discriminate.
  - exfalso. apply H; try lia. reflexivity.
Qed.

Lemma time_loop_returns (d T0 : R) (k steps fuel n time_step : nat)
  (rs : RunState) :
  dt (par (run_sim rs)) = d /\ T (par (run_sim rs)) = T0 ->
  (60 <= fuel)%nat -> (k < steps)%nat -> T0 < step_time d (n + k) ->
  time_loop steps fuel (step_time d n) time_step rs <> None.
Proof.
  revert steps n time_step rs.
  induction k as [|k IH]; intros steps n time_step rs [Hd HT] Hf Hs Hlt;
    (destruct steps as [|steps]; [lia|]); cbn [time_loop]; rewrite HT;
    destruct (Rle_dec (step_time d n) T0) as [Ht|Ht]; try discriminate.
  - rewrite Nat.add_0_r in Hlt. lra.
  - pose proof (time_step_body_invariant
                  (fun s => dt (par s) = d /\ T (par s) = T0)
                  (time_constants_frame d T0)
                  (time_constants_boundary d T0)
                  (time_constants_evaluation d T0)
                  fuel (step_time d n) time_step rs (conj Hd HT)) as Hinv.
    pose proof (time_step_body_returns fuel (step_time d n) time_step rs Hf)
      as Hret.
    destruct (time_step_body fuel (step_time d n) time_step rs)
      as [[rs'|msg]|]; [|discriminate|exact Hret].
    destruct Hinv as [Hd' HT']. rewrite Hd'.
    change (double_plus (step_time d n) d) with (step_time d (S n)).
    apply IH; [split; assumption | exact Hf | lia |].
    replace (S n + k)%nat with (n + S k)%nat by lia. exact Hlt.
Qed.

(** X14. The time stepping of [run] ends when the time the program
    accumulates passes [T]: if the time of some step [n + 1] is after [T],
    then with more than [n] time steps and at least 60 passes per
    nonlinear iteration allowed, the run yields a result, the final state
    or an exception.  The nonlinear iteration of a time step takes at most
    60 passes.  ([output_step] and [calculate_error], which write files,
    are not modelled.) *)
Theorem run_returns (s : ImmersedFEM) (n : nat) :
  T (par s) < step_time (dt (par s)) n ->
  forall steps fuel, (n < steps)%nat -> (60 <= fuel)%nat ->
    exists out, run steps fuel s = Some out.
Proof.
  intros Hn steps fuel Hs Hf. unfold run.
  pose proof (time_loop_returns (dt (par s)) (T (par s)) n steps fuel 0 1
                (mkRun (set_current_xi (previous_xi s) s) true [(0, 0%nat)]))
    as H.
  cbn [step_time par set_current_xi run_sim Nat.add] in H |- *.
  destruct (time_loop steps fuel (dt (par s)) 1 _) as [out|].
  - exists out. reflexivity.
  - exfalso. apply H; try assumption; try reflexivity.
    split; reflexivity.
Qed.

End RunTermination.

(** The sample configuration has the time step 1 and the final time 1:
    the time of the second step is after it. *)
Lemma run_returns_sample :
  let s := sample_sim (sample_par INH_0 false false ∅) None in
  T (par s) < @step_time sample (dt (par s)) 1
  /\ forall steps fuel, (1 < steps)%nat -> (60 <= fuel)%nat ->
       exists out, @run sample steps fuel s = Some out.
Proof.
  cbn zeta.
  assert (H : T (par (sample_sim (sample_par INH_0 false false ∅) None))
              < @step_time sample
                  (dt (par (sample_sim (sample_par INH_0 false false ∅) None)))
                  1)
    by (cbn; lra).
  split; [exact H|].
  exact (@run_returns sample
           (sample_sim (sample_par INH_0 false false ∅) None) 1%nat H).
Defined.

(** ** Norms and the convergence test *)

Lemma norm_sqr_from (v : list R) (a : R) :
  fold_left (fun acc x => acc + x * x) v a = a + norm_sqr v.
Proof.
  unfold norm_sqr. revert a. induction v as [|x v IH]; intros a; cbn.
  - lra.
  - rewrite IH, (IH (0 + x * x)). lra.
Qed.

Lemma norm_sqr_cons (x : R) (v : list R) :
  norm_sqr (x :: v) = x * x + norm_sqr v.
Proof. unfold norm_sqr at 1. cbn. rewrite norm_sqr_from. lra. Qed.


Lemma norm_sqr_nonneg (v : list R) : 0 <= norm_sqr v.
Proof.
  induction v as [|x v IH].
  - unfold norm_sqr. cbn. lra.
  - rewrite norm_sqr_cons. nra.
Qed.

Lemma norm_sqr_entry (v : list R) (k : nat) :
  vget v k * vget v k <= norm_sqr v.
Proof.
  revert k. induction v as [|x v IH]; intros k.
  - rewrite vget_nil. unfold norm_sqr. cbn. lra.
  - rewrite norm_sqr_cons. pose proof (norm_sqr_nonneg v) as Hv.
    destruct k as [|k].
    + unfold vget. cbn. nra.
    + specialize (IH k). unfold vget in *. cbn. nra.
Qed.

Lemma Rabs_le_sqrt (x y : R) : x * x <= y -> Rabs x <= sqrt y.
Proof.
  intros H. rewrite <- sqrt_Rsqr_abs. apply sqrt_le_1_alt. exact H.
Qed.

Section ConvergenceTest.
Context `{CO : Collaborators}.


End ConvergenceTest.

(** ** The elastic operator *)

Section ElasticOperator.
Context `{CO : Collaborators}.

Lemma get_Agamma_values_entries p c dofs xi :
  length (get_Agamma_values p c dofs xi) = dofs_per_cell fe_s
  /\ forall k,
       vget (get_Agamma_values p c dofs xi) k
       = if (k <? length dofs)%nat && (k <? dofs_per_cell fe_s)%nat
         then elastic_load p c xi k else 0.
Proof.
  unfold get_Agamma_values, elastic_load.
  set (term := fun k qs =>
         dot dim (Pe_value p c xi qs (component fe_s k)) (shape_grad c k qs)
         * JxW c qs).
  apply (for_n_ind (fun n acc =>
    length acc = dofs_per_cell fe_s
    /\ forall k, vget acc k
         = if (k <? length dofs)%nat && (k <? dofs_per_cell fe_s)%nat
           then Rsum n (term k) else 0)).
  - split; [apply length_replicate|]. intros k. rewrite vget_replicate.
    destruct (_ && _); reflexivity.
  - intros n acc _ [Hlen Hacc].
    assert (Q : length (for_n (length dofs) (fun k acc' =>
                   vadd acc' k (term k n)) acc) = dofs_per_cell fe_s
                /\ forall k,
                     vget (for_n (length dofs) (fun k acc' =>
                             vadd acc' k (term k n)) acc) k
                     = vget acc k
                       + if (k <? length dofs)%nat
                            && (k <? dofs_per_cell fe_s)%nat
                         then term k n else 0).
    { apply (for_n_ind (fun m acc' =>
        length acc' = dofs_per_cell fe_s
        /\ forall k, vget acc' k
             = vget acc k
               + if (k <? m)%nat && (k <? dofs_per_cell fe_s)%nat
                 then term k n else 0)).
      - split; [exact Hlen|]. intros k. cbn. lra.
      - intros m acc' _ [Hl' Hv']. rewrite length_vadd.
        split; [exact Hl'|]. intros k. rewrite vget_vadd, Hv', Hl'.
        destruct (Nat.eqb_spec m k) as [->|Hne];
          destruct (Nat.ltb_spec k (dofs_per_cell fe_s));
          destruct (Nat.ltb_spec k (S k)); try lia;
          destruct (Nat.ltb_spec k k); try lia; cbn [andb]; try lra;
          destruct (Nat.ltb_spec k m); destruct (Nat.ltb_spec k (S m));
          try lia; cbn [andb]; lra. }
    destruct Q as [Q1 Q2]. split; [exact Q1|].
    intros k. rewrite Q2, Hacc. cbn [Rsum].
    destruct (_ && _); lra.
Qed.

Lemma sum_over_ext {A : Type} (f h : A -> R) (l : list A) :
  Forall (fun a => f a = h a) l -> sum_over f l = sum_over h l.
Proof.
  induction 1 as [|a l Ha _ IH]; cbn; [reflexivity|]. rewrite Ha, IH.
  reflexivity.
Qed.

Lemma assemble_A_gamma_entries xi l s :
  let s' :=
    fold_left (fun s' fe_v_s =>
      set_A_gamma
        (vector_add_indices (A_gamma s') (dof_indices fe_v_s)
           (get_Agamma_values (par s') fe_v_s (dof_indices fe_v_s)
              (block1 xi))) s') l s in
  par s' = par s /\ length (A_gamma s') = length (A_gamma s)
  /\ forall k,
       vget (A_gamma s') k
       = vget (A_gamma s) k
         + sum_over (fun c =>
             Rsum (length (dof_indices c)) (fun i =>
               if (dof (dof_indices c) i =? k)%nat
                  && (k <? length (A_gamma s))%nat
               then vget (get_Agamma_values (par s) c (dof_indices c)
                            (block1 xi)) i
               else 0)) l.
Proof.
  cbn zeta. revert s. induction l as [|c l IH]; intros s.
  - cbn. repeat split; try reflexivity. intros k. lra.
  - cbn [fold_left sum_over].
    set (s1 := set_A_gamma _ s).
    destruct (IH s1) as (Hp & Hl & Hv).
    assert (Hl1 : length (A_gamma s1) = length (A_gamma s)).
    { unfold s1. cbn. apply (length_distribute_residual _ _ _ 0). }
    rewrite Hp, Hl, Hl1. split; [reflexivity|]. split; [reflexivity|].
    intros k. rewrite Hv, Hl1.
    assert (H1 : vget (A_gamma s1) k
                 = vget (A_gamma s) k
                   + Rsum (length (dof_indices c)) (fun i =>
                       if (dof (dof_indices c) i =? k)%nat
                          && (k <? length (A_gamma s))%nat
                       then vget (get_Agamma_values (par s) c (dof_indices c)
                                    (block1 xi)) i
                       else 0)).
    { unfold s1. cbn [A_gamma set_A_gamma].
      apply (distribute_residual_spec (A_gamma s) _ (dof_indices c) 0 k). }
    rewrite H1. unfold s1. cbn [par set_A_gamma]. lra.
Qed.

(** X17. Every evaluation ends with the elastic operator of the configuration
    [xi] in [A_gamma], whatever the vector held before: in every row, the
    sum over the solid cells, and over the local dofs of the cell that
    have that row as global dof, of the elastic stress against the gradient
    of the shape function, integrated by the quadrature rule.  The size of
    the vector is kept, and [M_gamma3_inv_A_gamma] ends as the solution for
    that vector. *)
Theorem elastic_operator (jac : JacobianArg) (r xit xi : BlockVector)
  (alpha t : R) (s : ImmersedFEM) :
  let s' := snd (residual_and_or_Jacobian jac r xit xi alpha t s) in
  length (A_gamma s') = length (A_gamma s)
  /\ (forall k, (k < length (A_gamma s))%nat ->
        vget (A_gamma s') k
        = sum_over (fun c =>
            Rsum (dofs_per_cell fe_s) (fun i =>
              if (dof (dof_indices c) i =? k)%nat
              then elastic_load (par s') c (block1 xi) i else 0))
            solid_cells)
  /\ M_gamma3_inv_A_gamma s' = M_gamma3_inv_solve (A_gamma s').
Proof.
  cbn zeta.
  destruct (erase_work_fields _ _ (evaluation_frame jac r xit xi alpha t s))
    as (Fp & _).
  rewrite Fp. rewrite residual_and_or_Jacobian_phases.
  destruct (jacobian_step_fields jac _ _ _
              (solid_loop_frame jac (negb (bsm_empty (jacobian_of jac s)))
                 xit xi alpha solid_cells
                 (fst (after_fluid_loop jac r xit xi alpha t s),
                  after_A_gamma jac r xit xi alpha t s,
                  replicate (dofs_per_cell fe_s) 0)))
    as (_ & SM & _ & SA).
  cbn [fst snd] in SM, SA.
  destruct (fold_left (solid_cell_step _ _ _ _) _ _) as [[r3 s6] lm].
  cbn [fst snd] in *. rewrite SM, SA. clear SM SA r3 s6 lm.
  destruct (jacobian_step_fields jac _ _ _
              (fluid_loop_frame jac (negb (bsm_empty (jacobian_of jac s)))
                 xit xi alpha fluid_cells (evaluation_prologue jac r xi t s)))
    as (FP & _ & _ & FA).
  fold (after_fluid_loop jac r xit xi alpha t s) in FP, FA.
  destruct (prologue_unchanged jac r xi t s)
    as (_ & _ & _ & _ & _ & _ & PA & _).
  unfold after_A_gamma. cbn zeta.
  set (s2 := snd (after_fluid_loop jac r xit xi alpha t s)) in *.
  destruct (assemble_A_gamma_entries xi solid_cells
              (set_A_gamma (vzero (A_gamma s2)) s2)) as (Hp & Hl & Hv).
  fold (assemble_A_gamma xi (set_A_gamma (vzero (A_gamma s2)) s2))
    in Hp, Hl, Hv.
  cbn [A_gamma set_M_gamma3_inv_A_gamma M_gamma3_inv_A_gamma] .
  cbn [A_gamma set_A_gamma par] in Hp, Hl, Hv.
  rewrite length_vzero in Hl, Hv.
  split; [|split; [|reflexivity]].
  - rewrite Hl, FA, PA. reflexivity.
  - intros k Hk. rewrite Hv, vget_vzero, Rplus_0_l.
    apply sum_over_ext.
    pose proof solid_dofs_size as Hs.
    apply Forall_forall. intros c Hc.
    rewrite Forall_forall in Hs. specialize (Hs c Hc). cbn beta in Hs.
    rewrite Hs. apply Rsum_ext. intros i Hi.
    destruct (Nat.eqb_spec (dof (dof_indices c) i) k) as [He|Hne];
      cbn [andb]; [|reflexivity].
    destruct (Nat.ltb_spec k (length (A_gamma s2))) as [_|Hge];
      [|rewrite FA, PA in Hge; lia].
    destruct (get_Agamma_values_entries (par s2) c (dof_indices c)
                (block1 xi)) as [_ Hg].
    rewrite Hg, Hs.
    destruct (Nat.ltb_spec i (dofs_per_cell fe_s)) as [_|?]; [|lia].
    cbn [andb]. rewrite FP. reflexivity.
Qed.

End ElasticOperator.

(** ** The rows of the prescribed boundary values in the global residual *)

Lemma count_sum (dofs : list nat) (g : nat) (c : R) :
  Rsum (length dofs) (fun i => if (dof dofs i =? g)%nat then c else 0)
  = INR (count_occ Nat.eq_dec dofs g) * c.
Proof.
  induction dofs as [|a l IH] using rev_ind.
  - cbn. lra.
  - rewrite length_app, Nat.add_comm. cbn [length Nat.add Rsum].
    rewrite count_occ_app, plus_INR, Rmult_plus_distr_r, <- IH.
    f_equal.
    + apply Rsum_ext. intros i Hi. unfold dof.
      rewrite app_nth1 by exact Hi. reflexivity.
    + unfold dof. rewrite app_nth2, Nat.sub_diag by lia. cbn.
      destruct (Nat.eq_dec a g) as [->|Hne].
      * rewrite Nat.eqb_refl. cbn. lra.
      * destruct (Nat.eqb_spec a g); [contradiction|]. cbn. lra.
Qed.

Lemma list_sum_cons (a : nat) (l : list nat) :
  list_sum (a :: l) = (a + list_sum l)%nat.
Proof. reflexivity. Qed.

Section BoundaryRows.
Context `{CO : Collaborators}.
Variables (xit xi : BlockVector) (alpha : R) (g : nat) (x : R).

(** The row [g] is a row of a prescribed boundary value, and not the row of
    the average pressure. *)
Let row_ok (s : ImmersedFEM) : Prop :=
  boundary_values (par s) !! g = Some x
  /\ (gauge_active s = true -> g <> constraining_dof s).

Let c0 (s : ImmersedFEM) : R := scaling s * (vget (block0 xi) g - x).

Let same_core (s s' : ImmersedFEM) : Prop :=
  par s' = par s /\ scaling s' = scaling s
  /\ constraining_dof s' = constraining_dof s
  /\ deref_mapping s' = deref_mapping s
  /\ M_gamma3_inv_A_gamma s' = M_gamma3_inv_A_gamma s.

Lemma jacobian_step_core jac u s s' :
  jacobian_step jac u s s' -> same_core s s'.
Proof.
  intros (H & _).
  pose proof (f_equal par H) as H1. pose proof (f_equal heap H) as H2.
  pose proof (f_equal mapping H) as H3.
  pose proof (f_equal scaling H) as H4.
  pose proof (f_equal constraining_dof H) as H5.
  pose proof (f_equal M_gamma3_inv_A_gamma H) as H6.
  cbn in H1, H2, H3, H4, H5, H6.
  unfold same_core, deref_mapping. rewrite H2, H3.
  repeat split; assumption.
Qed.

Lemma same_core_row s s' :
  same_core s s' -> row_ok s -> row_ok s' /\ c0 s' = c0 s.
Proof.
  intros (Hp & Hs & Hc & _) [Hb Hg]. unfold row_ok, c0, gauge_active in *.
  rewrite Hp, Hs, Hc. repeat split; assumption.
Qed.

Lemma constrained_distribution s lr lj r dofs :
  row_ok s -> (g < length r)%nat -> (length dofs <= length lr)%nat ->
  vget (distribute_residual r
          (fst (apply_constraints s lr lj (block0 xi) dofs)) dofs 0) g
  = vget r g + INR (count_occ Nat.eq_dec dofs g) * c0 s.
Proof.
  intros [Hb Hg] Hr Hl. rewrite distribute_residual_spec. f_equal.
  rewrite <- count_sum. apply Rsum_ext. intros i Hi.
  destruct (Nat.eqb_spec (dof dofs i) g) as [He|Hne]; cbn [andb];
    [|reflexivity].
  destruct (Nat.ltb_spec g (length r)) as [_|?]; [|lia].
  destruct (apply_constraints_residual s lr lj (block0 xi) dofs) as [_ Hv].
  rewrite Hv. cbn [Nat.add].
  destruct (Nat.ltb_spec i (length dofs)) as [_|?]; [|lia].
  destruct (Nat.ltb_spec i (length lr)) as [_|?]; [|lia].
  cbn [andb]. unfold residual_after_constraints, pinned.
  rewrite He, Hb.
  destruct (gauge_active s) eqn:Hga; cbn [andb].
  - destruct (Nat.eqb_spec g (constraining_dof s)) as [Hc|_];
      [exfalso; apply (Hg eq_refl Hc) | reflexivity].
  - reflexivity.
Qed.

Lemma fluid_cell_step_row jac u r s c :
  row_ok s -> (g < length (block0 r))%nat ->
  length (dof_indices c) = dofs_per_cell fe_f ->
  vget (block0 (fst (fluid_cell_step jac u xit xi alpha (r, s) c))) g
  = vget (block0 r) g + INR (count_occ Nat.eq_dec (dof_indices c) g) * c0 s.
Proof.
  intros Hrow Hr Hlen. unfold fluid_cell_step.
  set (L := fluid_cell_local (par s) (dgp_for_p s) u alpha c
              (block0 xit) (block0 xi)).
  destruct (fluid_cell_local_closed (par s) (dgp_for_p s) u alpha c
              (block0 xit) (block0 xi)) as ((HL & _) & _).
  fold L in HL.
  assert (Hle : (length (dof_indices c) <= length (local_res L))%nat).
  { rewrite HL, Hlen. unfold n_local_dofs. lia. }
  pose proof (constrained_distribution s (local_res L) (local_jacobian L)
                (block0 r) (dof_indices c) Hrow Hr Hle) as Hd.
  destruct (apply_constraints s (local_res L) (local_jacobian L)
              (block0 xi) (dof_indices c)) as [lr lj].
  cbn [fst] in Hd. destruct Hrow as [Hb Hg]. unfold gauge_active in Hg.
  destruct u; cbn [par set_JF];
    destruct (all_DBC (par s) && negb (fix_pressure (par s))) eqn:G;
    cbn [fst block0 on_block0]; try exact Hd;
    unfold distribute_constraint_on_pressure_residual;
    rewrite vget_vadd, Hd; cbn [constraining_dof set_JF];
    (destruct (Nat.eqb_spec (constraining_dof s) g) as [Hc|_];
     [exfalso; apply (Hg eq_refl); symmetry; exact Hc | cbn [andb]; lra]).
Qed.

Lemma fluid_loop_row jac u l r s :
  Forall (fun c => length (dof_indices c) = dofs_per_cell fe_f) l ->
  row_ok s -> (g < length (block0 r))%nat ->
  vget (block0 (fst (fold_left (fluid_cell_step jac u xit xi alpha) l (r, s))))
       g
  = vget (block0 r) g
    + INR (list_sum (map (fun c => count_occ Nat.eq_dec (dof_indices c) g) l))
      * c0 s.
Proof.
  intros Hl. revert r s.
  induction l as [|c l IH]; intros r s Hrow Hr; cbn [fold_left map].
  - cbn. lra.
  - inversion Hl as [|? ? H1 H2]; subst.
    pose proof (fluid_cell_step_row jac u r s c Hrow Hr H1) as Hstep.
    pose proof (jacobian_step_core jac u s _
                  (fluid_cell_step_frame jac u xit xi alpha (r, s) c)) as Hc.
    destruct (fluid_cell_step_length jac u xit xi alpha (r, s) c) as [Hlen _].
    destruct (fluid_cell_step jac u xit xi alpha (r, s) c) as [r' s'].
    cbn [fst snd] in *.
    destruct (same_core_row s s' Hc Hrow) as [Hrow' Hc0].
    rewrite (IH H2 r' s' Hrow') by (rewrite Hlen; exact Hr).
    rewrite Hstep, Hc0, list_sum_cons, plus_INR. lra.
Qed.

Lemma length_coupling_V p u c lm o :
  length (fst (coupling_V p u c xi lm o)) = n_local_dofs.
Proof.
  unfold coupling_V.
  apply (for_n_invariant (fun acc => length (fst acc) = n_local_dofs)).
  - cbn. apply length_replicate.
  - intros i acc _ Hacc.
    destruct (component fe_f i <? dim)%nat; [|exact Hacc].
    apply (for_n_invariant (fun acc => length (fst acc) = n_local_dofs));
      [exact Hacc|].
    intros q acc' _ Hacc'.
    destruct (negb (use_spread p)).
    + destruct acc' as [lr lj]. cbn [fst] in *. rewrite length_vadd.
      exact Hacc'.
    + apply (for_n_invariant (fun acc => length (fst acc) = n_local_dofs));
        [exact Hacc'|].
      intros j [lr lj] _ Hz. cbn [fst] in *.
      destruct (_ =? _)%nat; rewrite ?length_vadd; exact Hz.
Qed.

Lemma overlap_step_row u c lm r s o :
  row_ok s -> (g < length (block0 r))%nat ->
  length (dof_indices (local_fe_f_v o)) = dofs_per_cell fe_f ->
  vget (block0 (fst (overlap_step u xit xi alpha c lm (r, s) o))) g
  = vget (block0 r) g
    + INR (count_occ Nat.eq_dec (dof_indices (local_fe_f_v o)) g) * c0 s.
Proof.
  intros Hrow Hr Hlen. unfold overlap_step.
  pose proof (length_coupling_V (par s) u c lm o) as HV.
  destruct (coupling_V (par s) u c xi lm o) as [lrV ljV]. cbn [fst] in HV.
  assert (Hle : (length (dof_indices (local_fe_f_v o)) <= length lrV)%nat).
  { rewrite HV, Hlen. unfold n_local_dofs. lia. }
  pose proof (constrained_distribution s lrV ljV (block0 r)
                (dof_indices (local_fe_f_v o)) Hrow Hr Hle) as Hd.
  destruct (apply_constraints s lrV ljV _ _) as [lrV1 ljV1]. cbn [fst] in Hd.
  destruct (coupling_Y _ _ _ _ _) as [lrY ljY].
  destruct (apply_constraints _ lrY ljY _ _) as [lrY1 ljY1].
  cbn [fst block0 on_block0 on_block1]. exact Hd.
Qed.

Lemma overlaps_row u c lm l r s :
  Forall (fun o => length (dof_indices (local_fe_f_v o)) = dofs_per_cell fe_f)
         l ->
  row_ok s -> (g < length (block0 r))%nat ->
  vget (block0 (fst (fold_left (overlap_step u xit xi alpha c lm) l (r, s)))) g
  = vget (block0 r) g
    + INR (list_sum
             (map (fun o =>
                count_occ Nat.eq_dec (dof_indices (local_fe_f_v o)) g) l))
      * c0 s.
Proof.
  intros Hl. revert r s.
  induction l as [|o l IH]; intros r s Hrow Hr; cbn [fold_left map].
  - cbn. lra.
  - inversion Hl as [|? ? H1 H2]; subst.
    pose proof (overlap_step_row u c lm r s o Hrow Hr H1) as Hstep.
    pose proof (jacobian_step_core ArgJF u s _
                  (overlap_step_frame ArgJF u xit xi alpha c lm (r, s) o))
      as Hc.
    destruct (overlap_step_length u xit xi alpha c lm (r, s) o) as [Hlen _].
    destruct (overlap_step u xit xi alpha c lm (r, s) o) as [r' s'].
    cbn [fst snd] in *.
    destruct (same_core_row s s' Hc Hrow) as [Hrow' Hc0].
    rewrite (IH H2 r' s' Hrow') by (rewrite Hlen; exact Hr).
    rewrite Hstep, Hc0, list_sum_cons, plus_INR. lra.
Qed.

Lemma solid_cell_step_row u r s lm c :
  row_ok s -> (g < length (block0 r))%nat ->
  vget (block0 (fst (fst (solid_cell_step u xit xi alpha (r, s, lm) c)))) g
  = vget (block0 r) g
    + INR (list_sum
             (map (fun o =>
                count_occ Nat.eq_dec (dof_indices (local_fe_f_v o)) g)
                (compute_point_locations
                   (mapped_quadrature_points (deref_mapping s) c))))
      * c0 s.
Proof.
  intros Hrow Hr. unfold solid_cell_step.
  pose proof (overlaps_row u c
    (localize lm (M_gamma3_inv_A_gamma s) (dof_indices c))
    (compute_point_locations (mapped_quadrature_points (deref_mapping s) c))
    r s (located_dofs_size _) Hrow Hr) as Hf.
  destruct (fold_left _ _ (r, s)) as [r1 s1].
  destruct (solid_inertia _ _ _ _ _) as [lr lj].
  cbn [fst snd block0 on_block1] in *. exact Hf.
Qed.

Lemma solid_loop_row u l r s lm :
  row_ok s -> (g < length (block0 r))%nat ->
  vget (block0 (fst (fst
         (fold_left (solid_cell_step u xit xi alpha) l (r, s, lm))))) g
  = vget (block0 r) g
    + INR (list_sum
             (map (fun c =>
                list_sum
                  (map (fun o =>
                     count_occ Nat.eq_dec (dof_indices (local_fe_f_v o)) g)
                     (compute_point_locations
                        (mapped_quadrature_points (deref_mapping s) c))))
                l))
      * c0 s.
Proof.
  revert r s lm.
  induction l as [|c l IH]; intros r s lm Hrow Hr;
    cbn [fold_left map].
  - cbn. lra.
  - pose proof (solid_cell_step_row u r s lm c Hrow Hr) as Hstep.
    pose proof (jacobian_step_core ArgJF u s _
                  (solid_cell_step_frame ArgJF u xit xi alpha (r, s, lm) c))
      as Hc.
    destruct (solid_cell_step_length u xit xi alpha (r, s, lm) c) as [Hlen _].
    destruct (solid_cell_step u xit xi alpha (r, s, lm) c) as [[r' s'] lm'].
    cbn [fst snd] in *.
    destruct (same_core_row s s' Hc Hrow) as [Hrow' Hc0].
    rewrite (IH r' s' lm' Hrow') by (rewrite Hlen; exact Hr).
    destruct Hc as (_ & _ & _ & Hdm & _).
    rewrite Hstep, Hc0, Hdm, list_sum_cons, plus_INR. lra.
Qed.

Lemma evaluation_loops_row jac u r s :
  row_ok s -> (g < length (block0 r))%nat ->
  vget (block0 (fst (evaluation_loops jac u xit xi alpha (r, s)))) g
  = vget (block0 r) g + INR (visits (deref_mapping s) g) * c0 s.
Proof.
  intros Hrow Hr. unfold evaluation_loops.
  pose proof (fluid_loop_row jac u fluid_cells r s fluid_dofs_size Hrow Hr)
    as HF.
  pose proof (jacobian_step_core jac u s _
                (fluid_loop_frame jac u xit xi alpha fluid_cells (r, s)))
    as Hc.
  destruct (fluid_loop_length jac u xit xi alpha fluid_cells (r, s))
    as [Hlen _].
  destruct (fold_left (fluid_cell_step _ _ _ _ _) _ _) as [r2 s2].
  cbn [fst snd] in *.
  set (s3 := set_A_gamma (vzero (A_gamma s2)) s2).
  destruct (assemble_A_gamma_frame xi s3) as [A _].
  set (s4 := assemble_A_gamma xi s3) in *.
  set (s5 := set_M_gamma3_inv_A_gamma (M_gamma3_inv_solve (A_gamma s4)) s4).
  assert (C5 : par s5 = par s2 /\ scaling s5 = scaling s2
               /\ constraining_dof s5 = constraining_dof s2
               /\ deref_mapping s5 = deref_mapping s2).
  { pose proof (f_equal par A) as A1. pose proof (f_equal scaling A) as A2.
    pose proof (f_equal constraining_dof A) as A3.
    pose proof (f_equal heap A) as A4. pose proof (f_equal mapping A) as A5.
    cbn in A1, A2, A3, A4, A5. unfold s5, deref_mapping. cbn.
    rewrite A4, A5. repeat split; assumption. }
  destruct C5 as (P5 & S5 & D5 & M5).
  destruct Hc as (P2 & S2 & D2 & M2 & _).
  assert (Hrow5 : row_ok s5).
  { destruct Hrow as [Hb Hg]. unfold row_ok, gauge_active in *.
    rewrite P5, P2, D5, D2. split; assumption. }
  pose proof (solid_loop_row u solid_cells r2 s5
                (replicate (dofs_per_cell fe_s) 0) Hrow5) as HS.
  rewrite Hlen in HS. specialize (HS Hr).
  destruct (fold_left (solid_cell_step _ _ _ _) _ _) as [[r3 s6] lm].
  cbn [fst snd] in *.
  rewrite HS, HF. unfold visits, fluid_visits, c0. rewrite M5, M2, S5, S2, plus_INR. lra.
Qed.

End BoundaryRows.

Section BoundaryRowsTheorem.
Context `{CO : Collaborators}.

Lemma visits_positive (m : MappingQEulerian) (g : nat) (c : FEValues) :
  In c fluid_cells -> In g (dof_indices c) -> (1 <= visits m g)%nat.
Proof.
  intros Hc Hg. unfold visits, fluid_visits.
  assert (H : forall l, In c l ->
    (1 <= list_sum (map (fun c => count_occ Nat.eq_dec (dof_indices c) g) l))%nat).
  { induction l as [|a l IH]; intros Hin; [destruct Hin|].
    cbn [map]. rewrite list_sum_cons. destruct Hin as [->|Hin].
    - apply (count_occ_In Nat.eq_dec) in Hg. lia.
    - specialize (IH Hin). lia. }
  specialize (H fluid_cells Hc). lia.
Qed.

(** X18. In a row of the fluid block that belongs to a prescribed boundary
    value (and is not the row of the average pressure), the assembled
    residual is the constraint [scaling * (current value - prescribed
    value)] once for every visit of the row by the loops, whatever the
    equations contribute: the local rows are overwritten before they are
    distributed, and the contributions of the cells add up.  So for a dof
    of a fluid cell, and a mesh with a non-zero minimal cell diameter, the
    row of the residual vanishes exactly when the iterate takes the
    prescribed value. *)
Theorem boundary_rows (jac : JacobianArg) (r xit xi : BlockVector)
  (alpha t : R) (s : ImmersedFEM) (g : nat) (x : R) :
  let out := residual_and_or_Jacobian jac r xit xi alpha t s in
  let s' := snd out in
  boundary_values (par s') !! g = Some x ->
  (gauge_active s' = true -> g <> constraining_dof s') ->
  (g < length (block0 r))%nat ->
  vget (block0 (fst out)) g
  = INR (visits (deref_mapping s') g)
    * (minimal_cell_diameter * (vget (block0 xi) g - x))
  /\ (minimal_cell_diameter <> 0 ->
      (exists c, In c fluid_cells /\ In g (dof_indices c)) ->
      (vget (block0 (fst out)) g = 0 <-> vget (block0 xi) g = x)).
Proof.
  cbn zeta. intros Hb Hg Hr.
  destruct (erase_work_fields _ _ (evaluation_frame jac r xit xi alpha t s))
    as (Fp & Fh & Fm & Fs & _ & _ & Fc & _).
  destruct (prologue_unchanged jac r xi t s) as (Ps & _).
  assert (Fd : deref_mapping
                 (snd (residual_and_or_Jacobian jac r xit xi alpha t s))
               = deref_mapping (snd (evaluation_prologue jac r xi t s))).
  { unfold deref_mapping. rewrite Fh, Fm. reflexivity. }
  unfold gauge_active in Hg. rewrite Fp, Fc in Hg. rewrite Fp in Hb.
  rewrite Fd. clear Fp Fh Fm Fs Fc Fd.
  rewrite residual_and_or_Jacobian_loops.
  pose proof (f_equal fst (prologue_stages jac r xi t s)) as P1.
  cbn zeta in P1. cbn [fst] in P1.
  destruct (evaluation_prologue jac r xi t s) as [r1 s1].
  cbn [fst snd] in *. subst r1.
  assert (E : vget (block0 (fst (evaluation_loops jac
                 (negb (bsm_empty (jacobian_of jac s))) xit xi alpha
                 (mkBlockVector (vzero (block0 r)) (vzero (block1 r)), s1)))) g
              = INR (visits (deref_mapping s1) g)
                * (minimal_cell_diameter * (vget (block0 xi) g - x))).
  { rewrite (evaluation_loops_row xit xi alpha g x).
    - cbn [block0]. rewrite vget_vzero, Ps. lra.
    - split; [exact Hb | exact Hg].
    - cbn [block0]. rewrite length_vzero. exact Hr. }
  split; [exact E|].
  intros Hh (c & Hc & Hin). rewrite E.
  pose proof (visits_positive (deref_mapping s1) g c Hc Hin) as Hv.
  apply le_INR in Hv. cbn [INR] in Hv.
  split.
  - intros H0. apply Rmult_integral in H0. destruct H0 as [H0|H0]; [lra|].
    apply Rmult_integral in H0. destruct H0 as [H0|H0]; [contradiction|lra].
  - intros ->. ring.
Qed.

End BoundaryRowsTheorem.

(** Row 0 of the sample configuration, with the value 5 prescribed there:
    the fluid cell is visited by its own loop and once from the solid
    cell. *)
Lemma boundary_rows_sample :
  let s := sample_sim (sample_par INH_0 false false {[ 0%nat := 5 ]}) None in
  let out :=
    @residual_and_or_Jacobian sample ArgDummyJF sample_vector sample_vector
      sample_vector 0 0 s in
  boundary_values (par (snd out)) !! 0%nat = Some 5
  /\ @visits sample (deref_mapping (snd out)) 0 = 2%nat
  /\ vget (block0 (fst out)) 0
     = INR (@visits sample (deref_mapping (snd out)) 0)
       * (@minimal_cell_diameter sample * (vget (block0 sample_vector) 0 - 5)).
Proof.
  cbn zeta.
  assert (Hb : boundary_values (par (snd
                 (@residual_and_or_Jacobian sample ArgDummyJF sample_vector
                    sample_vector sample_vector 0 0
                    (sample_sim (sample_par INH_0 false false {[ 0%nat := 5 ]})
                                None)))) !! 0%nat = Some 5).
  { vm_compute. reflexivity. }
  split; [exact Hb|]. split; [vm_compute; reflexivity|].
  refine (proj1 (@boundary_rows sample ArgDummyJF sample_vector sample_vector
                   sample_vector 0 0
                   (sample_sim (sample_par INH_0 false false {[ 0%nat := 5 ]})
                               None) 0%nat 5 Hb _ _)).
  - intros H. vm_compute in H. discriminate H.
  - cbn. lia.
Defined.

(** ** The rows of the prescribed boundary values in the Jacobian *)

Lemma fmap_plus_plus (a b : R) (o : option R) :
  (fun y => y + a) <$> ((fun y => y + b) <$> o) = (fun y => y + (b + a)) <$> o.
Proof. destruct o; cbn; [f_equal; lra | reflexivity]. Qed.

Lemma fmap_plus_0 (o : option R) : (fun y => y + 0) <$> o = o.
Proof. destruct o; cbn; [f_equal; lra | reflexivity]. Qed.

Section JacobianRows.
Context `{CO : Collaborators}.
Variables (xit xi : BlockVector) (alpha : R) (g : nat) (x : R) (b : nat).

Let row_ok (s : ImmersedFEM) : Prop :=
  boundary_values (par s) !! g = Some x
  /\ (gauge_active s = true -> g <> constraining_dof s).

(** The entries of row [g] and column [b] of the blocks (0,0) and (0,1) of
    [JF]. *)
Let e00 (s : ImmersedFEM) : option R :=
  match JF s with Some bl => b00 bl !! (g, b) | None => None end.

Let e01 (s : ImmersedFEM) : option R :=
  match JF s with Some bl => b01 bl !! (g, b) | None => None end.

Lemma constrained_row_entry s lr lj dofs n i j :
  row_ok s -> mat_wf n n lj ->
  (i < length dofs)%nat -> (i < n)%nat -> (j < n)%nat -> dof dofs i = g ->
  mget (snd (apply_constraints s lr lj (block0 xi) dofs)) i j
  = if (i =? j)%nat then scaling s else 0.
Proof.
  intros [Hb Hg] Hwf Hi Hin Hjn He.
  destruct (apply_constraints_jacobian s lr lj (block0 xi) dofs n Hwf)
    as [_ Hv]; [lia|].
  rewrite Hv.
  destruct (Nat.ltb_spec i (length dofs)) as [_|?]; [|lia].
  destruct (Nat.ltb_spec i n) as [_|?]; [|lia].
  destruct (Nat.ltb_spec j n) as [_|?]; [|lia].
  cbn [andb]. unfold jacobian_after_constraints, pinned.
  rewrite He, Hb.
  destruct (gauge_active s) eqn:Hga; cbn [andb]; [|reflexivity].
  destruct (Nat.eqb_spec g (constraining_dof s)) as [Hc|_];
    [exfalso; apply (Hg eq_refl Hc) | reflexivity].
Qed.

Lemma constrained_jacobian_row00 s lr lj dofs n :
  row_ok s -> mat_wf n n lj -> (length dofs <= n)%nat ->
  Rsum (length dofs) (fun i => Rsum (length dofs) (fun j =>
    if (dof dofs i =? g)%nat && (dof dofs j =? b)%nat
    then mget (snd (apply_constraints s lr lj (block0 xi) dofs))
              (0 + i) (0 + j)
    else 0))
  = if (b =? g)%nat then INR (count_occ Nat.eq_dec dofs g) * scaling s else 0.
Proof.
  intros Hrow Hwf Hlen.
  transitivity (Rsum (length dofs) (fun i =>
    if (dof dofs i =? g)%nat
    then (if (b =? g)%nat then scaling s else 0) else 0)).
  - apply Rsum_ext. intros i Hi.
    destruct (Nat.eqb_spec (dof dofs i) g) as [He|Hne]; cbn [andb].
    + rewrite (Rsum_ext _ _ (fun j =>
        if (j =? i)%nat
        then (if (dof dofs j =? b)%nat then scaling s else 0) else 0)).
      * rewrite (Rsum_single (length dofs) i
                   (fun j => if (dof dofs j =? b)%nat then scaling s else 0)
                   Hi).
        rewrite He, (Nat.eqb_sym g b). reflexivity.
      * intros j Hj. cbn [Nat.add].
        rewrite (constrained_row_entry s lr lj dofs n i j Hrow Hwf Hi)
          by (try lia; exact He).
        rewrite (Nat.eqb_sym j i).
        destruct (dof dofs j =? b)%nat, (i =? j)%nat; reflexivity.
    + apply Rsum_zero. reflexivity.
  - rewrite count_sum. destruct (b =? g)%nat; lra.
Qed.

Lemma constrained_jacobian_row01 s lr lj dofs_f dofs_s n nf :
  row_ok s -> mat_wf n n lj ->
  (length dofs_f <= nf)%nat -> (nf + length dofs_s <= n)%nat ->
  Rsum (length dofs_f) (fun i => Rsum (length dofs_s) (fun j =>
    if (dof dofs_f i =? g)%nat && (dof dofs_s j =? b)%nat
    then mget (snd (apply_constraints s lr lj (block0 xi) dofs_f))
              (0 + i) (nf + j)
    else 0))
  = 0.
Proof.
  intros Hrow Hwf Hf Hs. apply Rsum_zero. intros i Hi.
  apply Rsum_zero. intros j Hj.
  destruct (Nat.eqb_spec (dof dofs_f i) g) as [He|Hne]; cbn [andb];
    [|reflexivity].
  destruct (dof dofs_s j =? b)%nat; [|reflexivity].
  cbn [Nat.add].
  rewrite (constrained_row_entry s lr lj dofs_f n i (nf + j) Hrow Hwf Hi)
    by (try lia; exact He).
  destruct (Nat.eqb_spec i (nf + j)); [lia | reflexivity].
Qed.

Lemma fluid_cell_step_jrow r s c :
  row_ok s -> length (dof_indices c) = dofs_per_cell fe_f ->
  e00 (snd (fluid_cell_step ArgJF true xit xi alpha (r, s) c))
  = (fun y => y + (if (b =? g)%nat
                   then INR (count_occ Nat.eq_dec (dof_indices c) g) * scaling s
                   else 0)) <$> e00 s
  /\ e01 (snd (fluid_cell_step ArgJF true xit xi alpha (r, s) c)) = e01 s.
Proof.
  intros Hrow Hlen. unfold fluid_cell_step.
  set (L := fluid_cell_local (par s) (dgp_for_p s) true alpha c
              (block0 xit) (block0 xi)).
  destruct (fluid_cell_local_closed (par s) (dgp_for_p s) true alpha c
              (block0 xit) (block0 xi)) as ((_ & HJ & _) & _).
  fold L in HJ.
  assert (Hle : (length (dof_indices c) <= n_local_dofs)%nat).
  { rewrite Hlen. unfold n_local_dofs. lia. }
  pose proof (constrained_jacobian_row00 s (local_res L) (local_jacobian L)
                (dof_indices c) n_local_dofs Hrow HJ Hle) as H00.
  destruct (apply_constraints s (local_res L) (local_jacobian L)
              (block0 xi) (dof_indices c)) as [lr lj].
  cbn [snd] in H00. destruct Hrow as [Hb Hg]. unfold gauge_active in Hg.
  unfold e00, e01.
  destruct (JF s) as [[a00 a01 a10 a11]|] eqn:HJF; cbn [par set_JF];
    destruct (all_DBC (par s) && negb (fix_pressure (par s))) eqn:G;
    cbn [snd set_jacobian_of jacobian_of JF set_JF on_block set_block
         get_block b00 b01 constraining_dof scaling area];
    try (split; reflexivity).
  - split; [|reflexivity].
    rewrite distribute_constraint_on_pressure_jacobian_spec,
      distribute_jacobian_spec, H00, option_fmap_fmap.
    apply option_fmap_ext. intros y.
    rewrite Rsum_zero; [lra|]. intros i Hi.
    cbn [constraining_dof set_JF].
    destruct (Nat.eqb_spec (constraining_dof s) g) as [Hc|_];
      [exfalso; apply (Hg eq_refl); symmetry; exact Hc | reflexivity].
  - split; [|reflexivity].
    rewrite distribute_jacobian_spec, H00. reflexivity.
Qed.

Lemma fluid_loop_jrow l r s :
  Forall (fun c => length (dof_indices c) = dofs_per_cell fe_f) l ->
  row_ok s ->
  e00 (snd (fold_left (fluid_cell_step ArgJF true xit xi alpha) l (r, s)))
  = (fun y => y + (if (b =? g)%nat
                   then INR (list_sum
                               (map (fun c =>
                                  count_occ Nat.eq_dec (dof_indices c) g) l))
                        * scaling s
                   else 0)) <$> e00 s
  /\ e01 (snd (fold_left (fluid_cell_step ArgJF true xit xi alpha) l (r, s)))
     = e01 s.
Proof.
  intros Hl. revert r s.
  induction l as [|c l IH]; intros r s Hrow; cbn [fold_left map].
  - cbn [snd list_sum]. split; [|reflexivity].
    symmetry. apply option_fmap_id. intros y. destruct (b =? g)%nat; cbn; lra.
  - inversion Hl as [|? ? H1 H2]; subst.
    destruct (fluid_cell_step_jrow r s c Hrow H1) as [S0 S1].
    pose proof (jacobian_step_core ArgJF true s _
                  (fluid_cell_step_frame ArgJF true xit xi alpha (r, s) c))
      as Hc.
    destruct (fluid_cell_step ArgJF true xit xi alpha (r, s) c) as [r' s'].
    cbn [fst snd] in *.
    destruct Hc as (Hp & Hs & Hcd & _).
    assert (Hrow' : row_ok s').
    { destruct Hrow as [Hb Hg]. unfold row_ok, gauge_active in *.
      rewrite Hp, Hcd. split; assumption. }
    destruct (IH H2 r' s' Hrow') as [I0 I1].
    rewrite I0, I1, S0, S1, Hs, option_fmap_fmap, list_sum_cons, plus_INR.
    split; [|reflexivity].
    apply option_fmap_ext. intros y. destruct (b =? g)%nat; lra.
Qed.

Lemma coupling_V_wf p c lm o :
  mat_wf n_local_dofs n_local_dofs (snd (coupling_V p true c xi lm o)).
Proof.
  unfold coupling_V.
  apply (for_n_invariant
           (fun acc => mat_wf n_local_dofs n_local_dofs (snd acc))).
  - cbn. apply mat_wf_mreinit.
  - intros i acc _ Hacc.
    destruct (component fe_f i <? dim)%nat; [|exact Hacc].
    apply (for_n_invariant
             (fun acc => mat_wf n_local_dofs n_local_dofs (snd acc)));
      [exact Hacc|].
    intros q acc' _ Hacc'.
    destruct (negb (use_spread p)).
    + destruct acc' as [lr lj]. cbn [snd] in *.
      apply (for_n_invariant (mat_wf n_local_dofs n_local_dofs));
        [exact Hacc'|].
      intros j m _ Hm. destruct (negb (semi_implicit p));
        repeat apply mat_wf_madd; exact Hm.
    + apply (for_n_invariant
               (fun acc => mat_wf n_local_dofs n_local_dofs (snd acc)));
        [exact Hacc'|].
      intros j [lr lj] _ Hz. cbn [snd] in *.
      destruct (negb (semi_implicit p));
        repeat apply mat_wf_madd; exact Hz.
Qed.

Lemma overlap_step_jrow c lm r s o :
  row_ok s ->
  length (dof_indices (local_fe_f_v o)) = dofs_per_cell fe_f ->
  length (dof_indices c) = dofs_per_cell fe_s ->
  e00 (snd (overlap_step true xit xi alpha c lm (r, s) o)) = e00 s
  /\ e01 (snd (overlap_step true xit xi alpha c lm (r, s) o)) = e01 s.
Proof.
  intros Hrow Hf Hs. unfold overlap_step.
  pose proof (coupling_V_wf (par s) c lm o) as HV.
  destruct (coupling_V (par s) true c xi lm o) as [lrV ljV]. cbn [snd] in HV.
  pose proof (constrained_jacobian_row01 s lrV ljV
                (dof_indices (local_fe_f_v o)) (dof_indices c)
                n_local_dofs (dofs_per_cell fe_f) Hrow HV) as H01.
  destruct (apply_constraints s lrV ljV _ _) as [lrV1 ljV1]. cbn [snd] in H01.
  destruct (coupling_Y _ _ _ _ _) as [lrY ljY].
  destruct (apply_constraints _ lrY ljY _ _) as [lrY1 ljY1].
  unfold e00, e01.
  destruct (JF s) as [[a00 a01 a10 a11]|] eqn:HJF; cbn [par set_JF];
    destruct (negb (semi_implicit (par s)));
    cbn [snd JF set_JF on_block set_block get_block b00 b01];
    try (split; reflexivity).
  all: split; [reflexivity|].
  all: rewrite distribute_jacobian_spec, H01
         by (rewrite ?Hf, ?Hs; unfold n_local_dofs; lia).
  all: apply fmap_plus_0.
Qed.

Lemma overlaps_jrow c lm l r s :
  Forall (fun o => length (dof_indices (local_fe_f_v o)) = dofs_per_cell fe_f)
         l ->
  length (dof_indices c) = dofs_per_cell fe_s ->
  row_ok s ->
  e00 (snd (fold_left (overlap_step true xit xi alpha c lm) l (r, s))) = e00 s
  /\ e01 (snd (fold_left (overlap_step true xit xi alpha c lm) l (r, s)))
     = e01 s.
Proof.
  intros Hl Hs. revert r s.
  induction l as [|o l IH]; intros r s Hrow; cbn [fold_left].
  - split; reflexivity.
  - inversion Hl as [|? ? H1 H2]; subst.
    destruct (overlap_step_jrow c lm r s o Hrow H1 Hs) as [S0 S1].
    pose proof (jacobian_step_core ArgJF true s _
                  (overlap_step_frame ArgJF true xit xi alpha c lm (r, s) o))
      as Hc.
    destruct (overlap_step true xit xi alpha c lm (r, s) o) as [r' s'].
    cbn [fst snd] in *.
    destruct Hc as (Hp & _ & Hcd & _).
    assert (Hrow' : row_ok s').
    { destruct Hrow as [Hb Hg]. unfold row_ok, gauge_active in *.
      rewrite Hp, Hcd. split; assumption. }
    destruct (IH H2 r' s' Hrow') as [I0 I1].
    rewrite I0, I1. split; assumption.
Qed.

Lemma solid_cell_step_jrow r s lm c :
  row_ok s -> length (dof_indices c) = dofs_per_cell fe_s ->
  e00 (snd (fst (solid_cell_step true xit xi alpha (r, s, lm) c))) = e00 s
  /\ e01 (snd (fst (solid_cell_step true xit xi alpha (r, s, lm) c))) = e01 s.
Proof.
  intros Hrow Hs. unfold solid_cell_step.
  pose proof (overlaps_jrow c
    (localize lm (M_gamma3_inv_A_gamma s) (dof_indices c))
    (compute_point_locations (mapped_quadrature_points (deref_mapping s) c))
    r s (located_dofs_size _) Hs Hrow) as Hf.
  destruct (fold_left _ _ (r, s)) as [r1 s1].
  destruct (solid_inertia _ _ _ _ _) as [lr lj].
  cbn [fst snd] in *. destruct Hf as [F0 F1]. rewrite <- F0, <- F1.
  unfold e00, e01.
  destruct (JF s1) as [[a00 a01 a10 a11]|]; split; reflexivity.
Qed.

Lemma solid_loop_jrow l r s lm :
  Forall (fun c => length (dof_indices c) = dofs_per_cell fe_s) l ->
  row_ok s ->
  e00 (snd (fst (fold_left (solid_cell_step true xit xi alpha) l (r, s, lm))))
  = e00 s
  /\ e01 (snd (fst (fold_left (solid_cell_step true xit xi alpha) l
                      (r, s, lm))))
     = e01 s.
Proof.
  intros Hl. revert r s lm.
  induction l as [|c l IH]; intros r s lm Hrow; cbn [fold_left].
  - split; reflexivity.
  - inversion Hl as [|? ? H1 H2]; subst.
    destruct (solid_cell_step_jrow r s lm c Hrow H1) as [S0 S1].
    pose proof (jacobian_step_core ArgJF true s _
                  (solid_cell_step_frame ArgJF true xit xi alpha (r, s, lm) c))
      as Hc.
    destruct (solid_cell_step true xit xi alpha (r, s, lm) c)
      as [[r' s'] lm'].
    cbn [fst snd] in *.
    destruct Hc as (Hp & _ & Hcd & _).
    assert (Hrow' : row_ok s').
    { destruct Hrow as [Hb Hg]. unfold row_ok, gauge_active in *.
      rewrite Hp, Hcd. split; assumption. }
    destruct (IH H2 r' s' lm' Hrow') as [I0 I1].
    rewrite I0, I1. split; assumption.
Qed.

Lemma evaluation_loops_jrow r s :
  row_ok s ->
  e00 (snd (evaluation_loops ArgJF true xit xi alpha (r, s)))
  = (fun y => y + (if (b =? g)%nat
                   then INR (fluid_visits g) * scaling s else 0)) <$> e00 s
  /\ e01 (snd (evaluation_loops ArgJF true xit xi alpha (r, s))) = e01 s.
Proof.
  intros Hrow. unfold evaluation_loops.
  destruct (fluid_loop_jrow fluid_cells r s fluid_dofs_size Hrow) as [F0 F1].
  pose proof (jacobian_step_core ArgJF true s _
                (fluid_loop_frame ArgJF true xit xi alpha fluid_cells (r, s)))
    as Hc.
  destruct (fold_left (fluid_cell_step _ _ _ _ _) _ _) as [r2 s2].
  cbn [fst snd] in *.
  set (s3 := set_A_gamma (vzero (A_gamma s2)) s2).
  destruct (assemble_A_gamma_frame xi s3) as [A _].
  set (s4 := assemble_A_gamma xi s3) in *.
  set (s5 := set_M_gamma3_inv_A_gamma (M_gamma3_inv_solve (A_gamma s4)) s4).
  assert (C5 : par s5 = par s2 /\ constraining_dof s5 = constraining_dof s2
               /\ JF s5 = JF s2).
  { pose proof (f_equal par A) as A1.
    pose proof (f_equal constraining_dof A) as A3.
    pose proof (f_equal JF A) as A4.
    cbn in A1, A3, A4. unfold s5. cbn. repeat split; assumption. }
  destruct C5 as (P5 & D5 & J5).
  destruct Hc as (P2 & _ & D2 & _).
  assert (Hrow5 : row_ok s5).
  { destruct Hrow as [Hb Hg]. unfold row_ok, gauge_active in *.
    rewrite P5, P2, D5, D2. split; assumption. }
  destruct (solid_loop_jrow solid_cells r2 s5
              (replicate (dofs_per_cell fe_s) 0) solid_dofs_size Hrow5)
    as [S0 S1].
  destruct (fold_left (solid_cell_step _ _ _ _) _ _) as [[r3 s6] lm].
  cbn [fst snd] in *.
  rewrite S0, S1. unfold e00, e01 in *. rewrite J5.
  split; [exact F0 | exact F1].
Qed.

End JacobianRows.

Section JacobianRowsTheorem.
Context `{CO : Collaborators}.

(** X19. When [JF] is built, its row of a prescribed boundary value (not the
    row of the average pressure) ends as a multiple of a row of the
    identity: on the positions of the pattern, block (0,0) holds [scaling]
    on the diagonal once for every place of the dof in the dof vector of a
    fluid cell and 0 elsewhere, and block (0,1) holds 0; the overlaps of
    the solid cells add nothing to the row. *)
Theorem jacobian_boundary_rows (r xit xi : BlockVector) (alpha t : R)
  (s : ImmersedFEM) (g : nat) (x : R) :
  bsm_empty (JF s) = false ->
  let s' := snd (residual_and_or_Jacobian ArgJF r xit xi alpha t s) in
  boundary_values (par s') !! g = Some x ->
  (gauge_active s' = true -> g <> constraining_dof s') ->
  exists bl,
    JF s' = Some bl
    /\ (forall b, (g, b) ∈ sp00 (sparsity s') ->
          b00 bl !! (g, b)
          = Some (if (b =? g)%nat
                  then INR (fluid_visits g) * minimal_cell_diameter else 0))
    /\ (forall b, (g, b) ∈ sp01 (sparsity s') -> b01 bl !! (g, b) = Some 0).
Proof.
  intros He. cbn zeta. intros Hb Hg.
  destruct (erase_work_fields _ _ (evaluation_frame ArgJF r xit xi alpha t s))
    as (Fp & _ & _ & _ & _ & _ & Fc & _ & Fsp & _).
  destruct (prologue_unchanged ArgJF r xi t s) as (Ps & _).
  destruct (prologue_jacobian ArgJF r xi t s) as [_ PJ].
  destruct (PJ He) as (Psp & PJF & _). clear PJ.
  cbn [jacobian_of] in PJF.
  unfold gauge_active in Hg. rewrite Fp, Fc in Hg. rewrite Fp in Hb.
  rewrite Fsp, Psp. clear Fp Fc Fsp.
  rewrite residual_and_or_Jacobian_loops.
  cbn [jacobian_of]. rewrite He. cbn [negb].
  destruct (evaluation_prologue ArgJF r xi t s) as [r1 s1].
  cbn [fst snd] in *.
  assert (Hrow : boundary_values (par s1) !! g = Some x
                 /\ (gauge_active s1 = true -> g <> constraining_dof s1))
    by (split; assumption).
  pose proof (fun b => evaluation_loops_jrow xit xi alpha g x b r1 s1 Hrow)
    as E.
  cbn beta in E.
  rewrite PJF, Ps in E. cbn [bsm_reinit b00 b01 sp00 sp01] in E |- *.
  destruct (JF (snd (evaluation_loops ArgJF true xit xi alpha (r1, s1))))
    as [bl|] eqn:HJ.
  - exists bl. split; [reflexivity|]. split.
    + intros b Hin. destruct (E b) as [E0 _]. rewrite E0.
      unfold sp_reinit.
      rewrite (proj2 (lookup_gset_to_gmap_Some 0 _ (g, b) 0) (conj Hin eq_refl)).
      cbn. f_equal. destruct (b =? g)%nat; lra.
    + intros b Hin. destruct (E b) as [_ E1]. rewrite E1.
      unfold sp_reinit.
      rewrite (proj2 (lookup_gset_to_gmap_Some 0 _ (g, b) 0) (conj Hin eq_refl)).
      reflexivity.
  - exfalso.
    pose proof (jacobian_step_refl ArgJF true s1) as _.
    assert (Hem : bsm_empty (JF (snd (evaluation_loops ArgJF true xit xi
                                         alpha (r1, s1))))
                  = bsm_empty (JF s1)).
    { unfold evaluation_loops.
      pose proof (fluid_loop_frame ArgJF true xit xi alpha fluid_cells
                    (r1, s1)) as (_ & F1 & _).
      destruct (fold_left (fluid_cell_step _ _ _ _ _) _ _) as [r2 s2].
      cbn [fst snd] in *.
      set (s3 := set_A_gamma (vzero (A_gamma s2)) s2).
      destruct (assemble_A_gamma_frame xi s3) as [A _].
      pose proof (f_equal JF A) as A4. cbn in A4.
      pose proof (solid_loop_frame ArgJF true xit xi alpha solid_cells
                    (r2,
                     set_M_gamma3_inv_A_gamma
                       (M_gamma3_inv_solve (A_gamma (assemble_A_gamma xi s3)))
                       (assemble_A_gamma xi s3),
                     replicate (dofs_per_cell fe_s) 0)) as (_ & S1 & _).
      destruct (fold_left (solid_cell_step _ _ _ _) _ _) as [[r3 s6] lm].
      cbn [fst snd JF set_M_gamma3_inv_A_gamma] in *.
      rewrite S1, A4. exact F1. }
    rewrite HJ, PJF in Hem. discriminate Hem.
Qed.

End JacobianRowsTheorem.

(** Row 0 of the sample configuration, with the value 5 prescribed there
    and the diagonal position in the pattern. *)
Lemma jacobian_boundary_rows_sample :
  let pattern := mkPattern {[ (0%nat, 0%nat) ]} ∅ ∅ ∅ in
  let s :=
    set_sparsity pattern
      (sample_sim (sample_par INH_0 false false {[ 0%nat := 5 ]})
                  (bsm_reinit pattern)) in
  let s' :=
    snd (@residual_and_or_Jacobian sample ArgJF sample_vector sample_vector
           sample_vector 1 0 s) in
  (bsm_empty (JF s) = false
   /\ boundary_values (par s') !! 0%nat = Some 5
   /\ (0%nat, 0%nat) ∈ sp00 (sparsity s'))
  /\ exists bl,
       JF s' = Some bl
       /\ b00 bl !! (0%nat, 0%nat)
          = Some (INR (@fluid_visits sample 0) * @minimal_cell_diameter sample).
Proof.
  cbn zeta.
  set (s := set_sparsity (mkPattern {[ (0%nat, 0%nat) ]} ∅ ∅ ∅)
              (sample_sim (sample_par INH_0 false false {[ 0%nat := 5 ]})
                 (bsm_reinit (mkPattern {[ (0%nat, 0%nat) ]} ∅ ∅ ∅)))).
  assert (Hb : boundary_values (par (snd
                 (@residual_and_or_Jacobian sample ArgJF sample_vector
                    sample_vector sample_vector 1 0 s))) !! 0%nat = Some 5).
  { vm_compute. reflexivity. }
  assert (Hin : (0%nat, 0%nat) ∈ sp00 (sparsity (snd
                 (@residual_and_or_Jacobian sample ArgJF sample_vector
                    sample_vector sample_vector 1 0 s)))).
  { vm_compute. reflexivity. }
  split; [split; [reflexivity | split; [exact Hb | exact Hin]]|].
  destruct (@jacobian_boundary_rows sample sample_vector sample_vector
              sample_vector 1 0 s 0%nat 5 eq_refl Hb) as (bl & H1 & H2 & _).
  - intros H. vm_compute in H. discriminate H.
  - exists bl. split; [exact H1|]. apply (H2 0%nat Hin).
Defined.

(** ** The extensions on the sample configuration *)

(** An evaluation that builds [JF] from the empty pattern. *)
Lemma jacobian_pattern_sample :
  let s :=
    sample_sim (sample_par INH_0 false false ∅)
               (bsm_reinit (mkPattern ∅ ∅ ∅ ∅)) in
  let s' :=
    snd (@residual_and_or_Jacobian sample ArgJF sample_vector sample_vector
           sample_vector 1 0 s) in
  bsm_empty (jacobian_of ArgJF s) = false
  /\ pattern_of (jacobian_of ArgJF s') = Some (sparsity s').
Proof.
  cbn zeta. split; [reflexivity|].
  refine (proj1 (@jacobian_pattern sample ArgJF sample_vector sample_vector
                   sample_vector 1 0
                   (sample_sim (sample_par INH_0 false false ∅)
                               (bsm_reinit (mkPattern ∅ ∅ ∅ ∅))) _)).
  reflexivity.
Defined.

(** The elastic stress of the solid cell of the sample configuration at
    rest, as a function of its first dof. *)
Lemma elastic_stress_derivative_sample :
  let p := sample_par INH_0 false false ∅ in
  let c := sample_solid_cell in
  (0 < dofs_per_cell (@fe_s sample))%nat
  /\ derivable_pt_lim
       (fun h =>
          contract_1_1 (@dim sample)
            (@Pe_value sample p c
               (vadd [0; 0] (dof (dof_indices c) 0%nat) h) 0%nat)
            (@deformation_gradient sample c
               (vadd [0; 0] (dof (dof_indices c) 0%nat) h) 0%nat)
            0%nat 0%nat)
       0
       (@DPeFT_dxi_value sample p c [0; 0] 0%nat 0%nat 0%nat 0%nat).
Proof.
  cbn zeta. split; [cbn; lia|].
  refine (@elastic_stress_derivative sample (sample_par INH_0 false false ∅)
            sample_solid_cell [0; 0] 0%nat 0%nat _ _ _ 0%nat 0%nat _ _ _).
  - cbn. lia.
  - intros k' Hk' He. cbn in Hk'.
    destruct k' as [|[|k']]; [reflexivity | discriminate He | lia].
  - cbn. lia.
  - cbn. lia.
  - cbn. lia.
  - intros _. vm_compute. intros H. lra.
Defined.

(** A row without boundary value and without the role of the constraining
    dof. *)
Lemma apply_constraints_frame_sample :
  let s := sample_sim (sample_par INH_0 false false {[ 0%nat := 2 ]}) None in
  let lr := [5; 5; 5; 5; 5] in
  let lj := replicate 5 (replicate 5 7) in
  let out := apply_constraints s lr lj [3; 0; 0] [0; 1; 2]%nat in
  (boundary_values (par s) !! dof [0; 1; 2]%nat 1 = None
   /\ pinned s [0; 1; 2]%nat 1 = false)
  /\ vget (fst out) 1 = vget lr 1
  /\ forall j, mget (snd out) 1 j = mget lj 1 j.
Proof.
  cbn zeta.
  assert (H : boundary_values
                (par (sample_sim
                        (sample_par INH_0 false false {[ 0%nat := 2 ]}) None))
                !! dof [0; 1; 2]%nat 1 = None
              /\ pinned (sample_sim
                           (sample_par INH_0 false false {[ 0%nat := 2 ]})
                           None) [0; 1; 2]%nat 1 = false).
  { split; [vm_compute; reflexivity | reflexivity]. }
  split; [exact H|].
  refine (proj2 (proj2 (@apply_constraints_frame
                   (sample_sim (sample_par INH_0 false false {[ 0%nat := 2 ]})
                      None)
                   [5; 5; 5; 5; 5] (replicate 5 (replicate 5 7)) [3; 0; 0]
                   [0; 1; 2]%nat 5 1 _ (fun _ => H)))).
  split; [reflexivity|]. repeat constructor.
Defined.

(** Two local entries added to a vector of three. *)
Lemma distribute_residual_conserves_sample :
  let r := [1; 2; 3] in
  let r' := distribute_residual r [10; 20] [2; 0]%nat 0 in
  (dof [2; 0]%nat 0 < length r)%nat
  /\ Rsum (length r) (vget r')
     = Rsum (length r) (vget r)
       + Rsum (length [2; 0]%nat) (fun i => vget [10; 20] (0 + i)).
Proof.
  cbn zeta. split; [cbn; lia|].
  refine (proj2 (proj2 (distribute_residual_conserves [1; 2; 3] [10; 20]
                          [2; 0]%nat 0 _))).
  intros i Hi. cbn in Hi.
  destruct i as [|[|i]]; cbn; lia.
Defined.

(** A simulation object that owns its mapping. *)
Lemma mapping_never_leaks_sample :
  let s :=
    set_heap_mapping {[ 0%nat := mkMapping 1 [0; 0] ]} (Some 0%nat)
      (sample_sim (sample_par INH_0 false false ∅) None) in
  mapping_owned s
  /\ heap (destructor s) = ∅
  /\ mapping_owned
       (snd (@residual_and_or_Jacobian sample ArgDummyJF sample_vector
               sample_vector sample_vector 0 0 s)).
Proof.
  cbn zeta.
  assert (H : mapping_owned
                (set_heap_mapping {[ 0%nat := mkMapping 1 [0; 0] ]}
                   (Some 0%nat)
                   (sample_sim (sample_par INH_0 false false ∅) None))).
  { exists 0%nat, (mkMapping 1 [0; 0]). split; reflexivity. }
  split; [exact H|].
  destruct (@mapping_never_leaks sample _ H) as (H1 & H2 & _).
  split; [exact H2 | apply H1].
Defined.

(** The state of the sample configuration after startup: [JF] built,
    [dummy_JF] empty. *)
Lemma jacobians_through_run_sample :
  let s :=
    sample_sim (sample_par INH_0 false false ∅)
               (bsm_reinit (mkPattern ∅ ∅ ∅ ∅)) in
  (dummy_JF s = None /\ bsm_empty (JF s) = false)
  /\ forall r xit xi alpha t,
       let s' :=
         snd (@residual_and_or_Jacobian sample ArgDummyJF r xit xi alpha t s) in
       JF s' = JF s /\ sparsity s' = sparsity s /\ dummy_JF s' = None.
Proof.
  cbn zeta. split; [split; reflexivity|].
  refine (proj1 (@jacobians_through_run sample
                   (sample_sim (sample_par INH_0 false false ∅)
                               (bsm_reinit (mkPattern ∅ ∅ ∅ ∅))) _ _));
    reflexivity.
Defined.


(** ** A nonlinear iteration that never converges *)

Section EvaluationRow.
Context `{CO : Collaborators}.

Lemma evaluation_boundary_row jac r xit xi alpha t s g x :
  let out := residual_and_or_Jacobian jac r xit xi alpha t s in
  boundary_values (par (snd out)) !! g = Some x ->
  (gauge_active (snd out) = true -> g <> constraining_dof (snd out)) ->
  (g < length (block0 r))%nat ->
  vget (block0 (fst out)) g
  = INR (visits (deref_mapping (snd out)) g)
    * (minimal_cell_diameter * (vget (block0 xi) g - x)).
Proof.
  cbn zeta. intros Hb Hg Hr.
  destruct (erase_work_fields _ _ (evaluation_frame jac r xit xi alpha t s))
    as (Fp & Fh & Fm & Fs & _ & _ & Fc & _).
  destruct (prologue_unchanged jac r xi t s) as (Ps & _).
  assert (Fd : deref_mapping
                 (snd (residual_and_or_Jacobian jac r xit xi alpha t s))
               = deref_mapping (snd (evaluation_prologue jac r xi t s))).
  { unfold deref_mapping. rewrite Fh, Fm. reflexivity. }
  unfold gauge_active in Hg. rewrite Fp, Fc in Hg. rewrite Fp in Hb.
  rewrite Fd. clear Fp Fh Fm Fs Fc Fd.
  rewrite residual_and_or_Jacobian_loops.
  pose proof (f_equal fst (prologue_stages jac r xi t s)) as P1.
  cbn zeta in P1. cbn [fst] in P1.
  destruct (evaluation_prologue jac r xi t s) as [r1 s1].
  cbn [fst snd] in *. subst r1.
  rewrite (evaluation_loops_row xit xi alpha g x).
  - cbn [block0]. rewrite vget_vzero, Ps. lra.
  - split; [exact Hb | exact Hg].
  - cbn [block0]. rewrite length_vzero. exact Hr.
Qed.

Lemma evaluation_residual_size jac r xit xi alpha t s :
  length (block0 (fst (residual_and_or_Jacobian jac r xit xi alpha t s)))
  = length (block0 r).
Proof.
  rewrite residual_and_or_Jacobian_loops.
  pose proof (f_equal fst (prologue_stages jac r xi t s)) as P1.
  cbn zeta in P1. cbn [fst] in P1.
  destruct (evaluation_prologue jac r xi t s) as [r1 s1].
  cbn [fst] in P1. subst r1.
  destruct (evaluation_loops_sizes jac (negb (bsm_empty (jacobian_of jac s)))
              xit xi alpha
              (mkBlockVector (vzero (block0 r)) (vzero (block1 r))) s1)
    as (_ & H & _).
  rewrite H. cbn [block0]. apply length_vzero.
Qed.

Lemma newton_correct_fields (s : ImmersedFEM) :
  par (newton_correct s) = par s
  /\ current_res (newton_correct s) = bv_scale (current_res s) (-1)
  /\ newton_update (newton_correct s)
     = bv_assign_flat (newton_update s)
         (umfpack_solve (JF_inv s)
            (bv_flatten (bv_scale (current_res s) (-1))))
  /\ current_xi (newton_correct s)
     = bv_add (current_xi s) 1 (newton_update (newton_correct s)).
Proof. destruct_sim s. repeat split; reflexivity. Qed.

Lemma newton_advance_sim (t : R) (st : NewtonState) :
  sim (newton_advance t st) = newton_correct (sim (newton_evaluate t st)).
Proof.
  unfold newton_advance.
  destruct (S (nonlin_iter (newton_evaluate t st)) =? 15)%nat; reflexivity.
Qed.

Lemma evaluation_boundary_value jac r xit xi alpha t s k :
  interpolate_boundary_values t !! k = None ->
  fix_pressure (par s) = false ->
  let s' := snd (residual_and_or_Jacobian jac r xit xi alpha t s) in
  boundary_values (par s') !! k = boundary_values (par s) !! k
  /\ all_DBC (par s') = all_DBC (par s)
  /\ fix_pressure (par s') = false
  /\ current_xi s' = current_xi s /\ newton_update s' = newton_update s.
Proof.
  intros Hi Hfp. cbn zeta.
  destruct (erase_work_fields _ _ (evaluation_frame jac r xit xi alpha t s))
    as (F1 & _ & _ & _ & _ & _ & _ & _ & _ & _ & F11 & _ & _ & _ & F15 & _).
  destruct (prologue_unchanged jac r xi t s)
    as (_ & _ & _ & _ & _ & _ & _ & _ & U9 & _ & _ & _ & U13 & _ & U15).
  destruct (compute_current_bc_parameters t s)
    as (_ & (_ & _ & Q3 & Q4 & _) & _).
  rewrite F1, U15, Q3, Q4, F11, F15, U9, U13.
  split; [|repeat split; try reflexivity; exact Hfp].
  rewrite lookup_compute_current_bc, Hi. cbn [par set_par].
  assert (A : fix_pressure (set_force_time t (par s)) = false)
    by (rewrite <- Hfp; destruct (par s); reflexivity).
  rewrite A. cbn [andb]. destruct (par s); reflexivity.
Qed.

(** Without essential conditions on the whole boundary no dof carries the
    average-pressure constraint. *)
Lemma gauge_off (s : ImmersedFEM) (g : nat) :
  all_DBC (par s) = false -> gauge_active s = true -> g <> constraining_dof s.
Proof.
  intros P2 Hg. unfold gauge_active in Hg. rewrite P2 in Hg. discriminate Hg.
Qed.

End EvaluationRow.

(** An evaluation on the sample configuration with the value 5 prescribed
    for the dof 0. *)
Lemma sample_evaluation jac r xit xi alpha t s :
  boundary_values (par s) !! 0%nat = Some 5 ->
  all_DBC (par s) = false -> fix_pressure (par s) = false ->
  (0 < length (block0 r))%nat ->
  let out := @residual_and_or_Jacobian sample jac r xit xi alpha t s in
  (boundary_values (par (snd out)) !! 0%nat = Some 5
   /\ all_DBC (par (snd out)) = false /\ fix_pressure (par (snd out)) = false)
  /\ current_xi (snd out) = current_xi s
  /\ newton_update (snd out) = newton_update s
  /\ length (block0 (fst out)) = length (block0 r)
  /\ vget (block0 (fst out)) 0 = 2 * (vget (block0 xi) 0 - 5).
Proof.
  intros Hb Had Hfp Hr. cbn zeta.
  destruct (@evaluation_boundary_value sample jac r xit xi alpha t s 0%nat
              eq_refl Hfp) as (P1 & P2 & P3 & P4 & P5).
  rewrite Hb in P1. rewrite Had in P2.
  split; [split; [exact P1 | split; [exact P2 | exact P3]]|].
  split; [exact P4|]. split; [exact P5|].
  split; [apply (@evaluation_residual_size sample)|].
  rewrite (@evaluation_boundary_row sample jac r xit xi alpha t s 0%nat 5 P1
             (gauge_off _ 0%nat P2) Hr).
  assert (V : forall m, @visits sample m 0 = 2%nat) by reflexivity.
  rewrite V. change (@minimal_cell_diameter sample) with 1.
  change (INR 2) with (1 + 1). lra.
Qed.

(** The evaluation of a pass on that configuration. *)
Lemma sample_evaluate (t : R) (st : NewtonState) :
  sample_stall st ->
  let s1 := sim (@newton_evaluate sample t st) in
  (boundary_values (par s1) !! 0%nat = Some 5
   /\ all_DBC (par s1) = false /\ fix_pressure (par s1) = false)
  /\ current_xi s1 = current_xi (sim st)
  /\ newton_update s1 = newton_update (sim st)
  /\ length (block0 (current_res s1)) = length (block0 (current_res (sim st)))
  /\ vget (block0 (current_res s1)) 0
     = 2 * (vget (block0 (current_xi (sim st))) 0 - 5).
Proof.
  intros (Hb & Had & Hfp & _ & Lr & _ & _). cbn zeta.
  unfold newton_evaluate.
  set (s1 := set_current_xit _ (sim st)).
  assert (H1 : par s1 = par (sim st) /\ current_xi s1 = current_xi (sim st)
               /\ newton_update s1 = newton_update (sim st)
               /\ current_res s1 = current_res (sim st)).
  { unfold s1. destruct (sim st). repeat split; reflexivity. }
  destruct H1 as (E1 & E2 & E3 & E4).
  rewrite <- E1 in Hb, Had, Hfp. rewrite <- E4 in Lr. rewrite <- E2, <- E3, <- E4.
  destruct (update_Jacobian st).
  - pose proof (sample_evaluation ArgJF (current_res s1) (current_xit s1)
                  (current_xi s1) (1 / dt (par s1)) t s1 Hb Had Hfp Lr) as H.
    cbn zeta in H.
    destruct (@residual_and_or_Jacobian sample ArgJF _ _ _ _ _ _) as [res sa].
    cbn [fst snd sim] in *. destruct sa. exact H.
  - pose proof (sample_evaluation ArgDummyJF (current_res s1) (current_xit s1)
                  (current_xi s1) 0 t s1 Hb Had Hfp Lr) as H.
    cbn zeta in H.
    destruct (@residual_and_or_Jacobian sample ArgDummyJF _ _ _ _ _ _)
      as [res sa].
    cbn [fst snd sim] in *. destruct sa. exact H.
Qed.

(** The pass fails the convergence test, and the dof 0 goes to its mirror
    image about the prescribed value. *)
Lemma sample_stall_step (t : R) (st : NewtonState) :
  sample_stall st ->
  ~ @pass_converges sample t st /\ @solver_returns sample t st
  /\ sample_stall (@newton_advance sample t st).
Proof.
  intros Hst. pose proof Hst as (_ & _ & _ & Hx & Lr & Lu & Lx).
  destruct (sample_evaluate t st Hst)
    as ((Pb & Pa & Pf) & Ex & Eu & El & Er).
  cbn zeta in *.
  split; [|split].
  - unfold pass_converges, l2_norm. intros Hlt.
    set (res := current_res (sim (@newton_evaluate sample t st))) in *.
    pose proof (norm_sqr_entry (block0 res) 0) as He.
    pose proof (norm_sqr_nonneg (block1 res)) as H1.
    assert (Ha : Rabs (vget (block0 res) 0) < 1e-10).
    { apply Rle_lt_trans with (2 := Hlt). apply Rabs_le_sqrt. lra. }
    rewrite Er in Ha.
    set (d := vget (block0 (current_xi (sim st))) 0 - 5) in *.
    pose proof (Rabs_pos (2 * d)) as Hp.
    assert (Hq : Rabs (2 * d) * Rabs (2 * d) = (2 * d) * (2 * d)).
    { rewrite <- Rabs_mult. apply Rabs_pos_eq. nra. }
    nra.
  - unfold solver_returns, factorisation_error, solve_error.
    destruct (update_Jacobian st); split; reflexivity.
  - unfold sample_stall. cbn zeta.
    rewrite (@newton_advance_sim sample).
    set (s1 := sim (@newton_evaluate sample t st)) in *.
    destruct (@newton_correct_fields sample s1) as (C1 & C2 & C3 & C4).
    rewrite C1, C2, C4, C3.
    split; [exact Pb|]. split; [exact Pa|]. split; [exact Pf|].
    rewrite Eu, Ex. cbn [umfpack_solve sample].
    unfold bv_assign_flat, bv_add, bv_scale, bv_flatten. cbn [block0 block1].
    rewrite <- El in Lr.
    destruct (block0 (current_res s1)) as [|a ra]; [cbn in Lr; lia|].
    destruct (block0 (newton_update (sim st))) as [|b ub]; [cbn in Lu; lia|].
    destruct (block0 (current_xi (sim st))) as [|c xc]; [cbn in Lx; lia|].
    unfold vget in Er, Hx |- *. cbn in Er, Hx |- *.
    repeat split; try lia. rewrite Er. nra.
Qed.

Lemma sample_stalls (n : nat) (t : R) (st : NewtonState) :
  sample_stall st -> @stalls sample n t st.
Proof.
  revert st. induction n as [|n IH]; intros st H; [exact I|].
  destruct (sample_stall_step t st H) as (H1 & H2 & H3).
  cbn [stalls]. split; [exact H1|]. split; [exact H2|]. apply IH. exact H3.
Qed.

(** On the sample configuration with the value 5 prescribed for the dof 0
    and the iterate at 0 there, no pass converges: the first fifteen passes
    end with the refresh and the outer counter at 1, and the sixtieth
    throws. *)
Lemma newton_stall_budget_sample :
  let st :=
    mkNewton (sample_sim (sample_par INH_0 false false {[ 0%nat := 5 ]}) None)
             true 0 0 in
  @stalls sample 60 0 st
  /\ @newton_passes sample 15 0 st = Next (@newton_advances sample 15 0 st)
  /\ update_Jacobian (@newton_advances sample 15 0 st) = true
  /\ nonlin_iter (@newton_advances sample 15 0 st) = 0%nat
  /\ outer_nonlin_iter (@newton_advances sample 15 0 st) = 1%nat
  /\ @newton_loop sample 60 0 st
     = Some (inr "No convergence in nonlinear solver."%string).
Proof.
  cbn zeta.
  set (st := mkNewton
               (sample_sim (sample_par INH_0 false false {[ 0%nat := 5 ]}) None)
               true 0 0).
  assert (Hs : sample_stall st).
  { unfold sample_stall, st. cbn zeta. cbn [sim].
    split; [vm_compute; reflexivity|]. split; [reflexivity|].
    split; [reflexivity|]. split; [vm_compute; lra|].
    cbn. repeat split; lia. }
  pose proof (sample_stalls 60 0 st Hs) as H60.
  pose proof (sample_stalls 15 0 st Hs) as H15.
  destruct (@newton_stall_budget sample 0 st) as (_ & B2 & _ & B4 & _).
  destruct (B2 eq_refl (le_S _ _ (le_S _ _ (le_S _ _ (le_n 0)))) H15)
    as (U & N & O & P).
  split; [exact H60|]. split; [exact P|]. split; [exact U|].
  split; [exact N|]. split; [exact O|].
  apply (B4 eq_refl eq_refl H60 60%nat). apply le_n.
Defined.
